(** * Zero elimination and domain simplification (src/pass/zero_elimination.cc)

    A shallow embedding of the symbolic engine of [zero_elimination.cc]:
    the functions of the pass are Rocq functions over an inductive type of
    IR expressions, their mutable members are explicit state, and the
    external collaborators the pass only calls (the arithmetic analyzer's
    simplifiers, linear-equation detection, interval evaluation, the deep
    comparison) are section variables constrained by the contract the pass
    relies on. *)

From Stdlib Require Import ZArith Lia List String Bool.
From Stdlib Require SpecFloat.
From stdpp Require Import base decidable option list countable gmap strings sorting.

Set Warnings "-register-all".
Local Open Scope Z_scope.

(** ** The expression IR

    The IR itself is not part of the pass.  The embedding keeps the scalar
    node kinds the functors of the pass have a case for, on Booleans,
    integers and handles.  Floating point and the node kinds without a case
    ([Load], [Let], [Reduce] and the vector nodes) are added in the part on
    the functor of [NonzeronessCondition] ([Module Full]), which has a case
    for floating-point immediates. *)

(** Scalar data types: [Bool] is [UInt(1)], [Int] and [UInt] stand for the
    signed and unsigned integer types of any wider bit width, [Handle] is the
    type of string immediates. *)
Inductive DType : Type := TBool | TInt | TUInt | THandle.

Definition is_bool (t : DType) : bool := match t with TBool => true | _ => false end.
Definition is_int (t : DType) : bool := match t with TInt => true | _ => false end.
Definition is_uint (t : DType) : bool :=
  match t with TUInt => true | TBool => true | _ => false end.

(** A [Var] is identified by its node address in the source; [vid] plays
    the role of that address and [vty] is the variable's type. *)
Record Var : Type := mkVar { vid : N; vty : DType }.

Inductive CallType : Type := Extern | PureExtern | Halide | Intrinsic | PureIntrinsic.

(** The binary node kinds, as one tag. *)
Inductive BinOp : Type :=
| Add | Sub | Mul | Div | Mod | FloorDiv | FloorMod | Min | Max
| EQ | NE | LT | LE | GT | GE
| And | Or.

Inductive Expr : Type :=
| VarNode (v : Var)
| IntImm (t : DType) (value : Z)
| UIntImm (t : DType) (value : Z)
| StringImm (s : string)
| Cast (t : DType) (value : Expr)
| Bin (op : BinOp) (a b : Expr)
| Not (a : Expr)
| Select (condition true_value false_value : Expr)
| Call (t : DType) (name : string) (args : list Expr) (call_type : CallType).

(** Induction with the hypothesis for every argument of a call. *)
Section ExprInduction.
Variable P : Expr -> Prop.
Hypothesis HVariable : forall v, P (VarNode v).
Hypothesis HIntImm : forall t n, P (IntImm t n).
Hypothesis HUIntImm : forall t n, P (UIntImm t n).
Hypothesis HStringImm : forall s, P (StringImm s).
Hypothesis HCast : forall t a, P a -> P (Cast t a).
Hypothesis HBin : forall op a b, P a -> P b -> P (Bin op a b).
Hypothesis HNot : forall a, P a -> P (Not a).
Hypothesis HSelect : forall c t f, P c -> P t -> P f -> P (Select c t f).
Hypothesis HCall : forall t name args ct, Forall P args -> P (Call t name args ct).

Fixpoint Expr_ind_strong (e : Expr) : P e :=
  match e with
  | VarNode v => HVariable v
  | IntImm t n => HIntImm t n
  | UIntImm t n => HUIntImm t n
  | StringImm s => HStringImm s
  | Cast t a => HCast t a (Expr_ind_strong a)
  | Bin op a b => HBin op a b (Expr_ind_strong a) (Expr_ind_strong b)
  | Not a => HNot a (Expr_ind_strong a)
  | Select c t f => HSelect c t f (Expr_ind_strong c) (Expr_ind_strong t) (Expr_ind_strong f)
  | Call t name args ct =>
      HCall t name args ct
        ((fix go (l : list Expr) : Forall P l :=
            match l with
            | [] => Forall_nil_2 P
            | x :: l0 => Forall_cons_2 P x l0 (Expr_ind_strong x) (go l0)
            end) args)
  end.
End ExprInduction.

#[global] Instance DType_eq_dec : EqDecision DType.
Proof. solve_decision. Defined.
#[global] Instance Var_eq_dec : EqDecision Var.
Proof. solve_decision. Defined.
#[global] Instance CallType_eq_dec : EqDecision CallType.
Proof. solve_decision. Defined.
#[global] Instance BinOp_eq_dec : EqDecision BinOp.
Proof. solve_decision. Defined.

Lemma Expr_eq_dec : forall x y : Expr, {x = y} + {x <> y}.
Proof.
  fix IH 1. intros x y. decide equality;
    try apply Z.eq_dec; try apply string_dec;
    try apply DType_eq_dec; try apply Var_eq_dec;
    try apply CallType_eq_dec; try apply BinOp_eq_dec.
  apply (List.list_eq_dec IH).
Defined.

#[global] Instance Expr_eq_decision : EqDecision Expr := Expr_eq_dec.

Definition DType_code (t : DType) : nat :=
  match t with TBool => 0 | TInt => 1 | TUInt => 2 | THandle => 3 end%nat.
Definition DType_of_code (n : nat) : DType :=
  match n with 0 => TBool | 1 => TInt | 2 => TUInt | _ => THandle end%nat.

#[global] Instance DType_countable : Countable DType.
Proof. apply (inj_countable' DType_code DType_of_code). by intros []. Defined.

#[global] Instance Var_countable : Countable Var.
Proof.
  apply (inj_countable' (fun v => (vid v, vty v)) (fun p => mkVar p.1 p.2)).
  by intros [].
Defined.

(** ** Types and values *)

Definition is_comparison (op : BinOp) : bool :=
  match op with EQ | NE | LT | LE | GT | GE => true | _ => false end.
Definition is_logical (op : BinOp) : bool :=
  match op with And | Or => true | _ => false end.

(** [e.type()] *)
Fixpoint type_of (e : Expr) : DType :=
  match e with
  | VarNode v => vty v
  | IntImm t _ => t
  | UIntImm t _ => t
  | StringImm _ => THandle
  | Cast t _ => t
  | Bin op a _ => if is_comparison op || is_logical op then TBool else type_of a
  | Not _ => TBool
  | Select _ t _ => type_of t
  | Call t _ _ _ => t
  end.

Definition b2z (b : bool) : Z := if b then 1 else 0.

(** Values are integers.  A value of a [Bool] expression is [0] or [1];
    [canon] brings a raw integer to the representation of its type. *)
Definition canon (t : DType) (z : Z) : Z :=
  if is_bool t then b2z (negb (z =? 0)) else z.

(** Truncated division and remainder are [Z.quot] and [Z.rem], the floor
    variants are [Z.div] and [Z.modulo]; a zero divisor, an error in the
    source, takes Rocq's total conventions. *)
Definition bin_sem (op : BinOp) (x y : Z) : Z :=
  match op with
  | Add => x + y
  | Sub => x - y
  | Mul => x * y
  | Div => Z.quot x y
  | Mod => Z.rem x y
  | FloorDiv => Z.div x y
  | FloorMod => Z.modulo x y
  | Min => Z.min x y
  | Max => Z.max x y
  | EQ => b2z (x =? y)
  | NE => b2z (negb (x =? y))
  | LT => b2z (x <? y)
  | LE => b2z (x <=? y)
  | GT => b2z (y <? x)
  | GE => b2z (y <=? x)
  | And => b2z (negb (x =? 0) && negb (y =? 0))
  | Or => b2z (negb (x =? 0) || negb (y =? 0))
  end.

(** An environment gives the variables their values and the callees (tensors,
    extern functions) their meaning as functions of the argument values. *)
Record Env : Type := mkEnv { val : Var -> Z; call : string -> list Z -> Z }.

Definition tvm_if_then_else : string := "tvm_if_then_else"%string.

(** The value of a call from the values of its arguments: the intrinsic
    [tvm_if_then_else] selects, any other callee is interpreted by the
    environment. *)
Definition call_value (σ : Env) (name : string) (vals : list Z) : Z :=
  match vals with
  | [c; x; y] =>
      if String.eqb name tvm_if_then_else
      then (if c =? 0 then y else x)
      else call σ name vals
  | _ => call σ name vals
  end.

Fixpoint eval (σ : Env) (e : Expr) : Z :=
  match e with
  | VarNode v => canon (vty v) (val σ v)
  | IntImm t n => canon t n
  | UIntImm t n => canon t n
  | StringImm _ => 0
  | Cast t a => canon t (eval σ a)
  | Bin op a b => canon (type_of (Bin op a b)) (bin_sem op (eval σ a) (eval σ b))
  | Not a => b2z (eval σ a =? 0)
  | Select c t f => canon (type_of t) (if eval σ c =? 0 then eval σ f else eval σ t)
  | Call t name args _ => canon t (call_value σ name (map (eval σ) args))
  end.

(** The truth value of a condition. *)
Definition beval (σ : Env) (e : Expr) : bool := negb (eval σ e =? 0).

(** Well-typed expressions: the checks of the IR's node constructors. *)
Fixpoint wt (e : Expr) : bool :=
  match e with
  | VarNode _ | IntImm _ _ | UIntImm _ _ | StringImm _ => true
  | Cast _ a => wt a
  | Bin op a b =>
      wt a && wt b &&
      (if is_logical op then is_bool (type_of a) && is_bool (type_of b)
       else bool_decide (type_of a = type_of b))
  | Not a => wt a && is_bool (type_of a)
  | Select c t f =>
      wt c && wt t && wt f && is_bool (type_of c) &&
      bool_decide (type_of t = type_of f)
  | Call ty name args _ =>
      forallb wt args &&
      (if String.eqb name tvm_if_then_else
       then match args with
            | [c; x; y] =>
                is_bool (type_of c) && bool_decide (type_of x = ty) &&
                bool_decide (type_of y = ty)
            | _ => false
            end
       else true)
  end.

(** ** Helpers of the IR used by the pass *)

(** Modelled from the spec: [make_const(t, value)], the constant of type [t];
    the constructor is declared outside the sources.  Signed types give an
    [IntImm], [Bool] and the unsigned types a [UIntImm]. *)
Definition make_const (t : DType) (value : Z) : Expr :=
  if is_uint t then UIntImm t value else IntImm t value.

(** Modelled from the spec: [make_zero(t)] is the spec's [zero_of(type)]. *)
Definition make_zero (t : DType) : Expr := make_const t 0.
Definition const_true : Expr := make_const TBool 1.
Definition const_false : Expr := make_const TBool 0.

(** Modelled from the spec: the constant tests [is_const_int], [is_one],
    [is_zero], [is_const], [as_const_int] and [is_const_value] of the IR,
    declared outside the sources.  They recognise the immediates; the spec's
    [vf ≡ 0] of section 4.2 is [is_const_value vf 0]. *)
Definition is_const_int (e : Expr) (value : Z) : bool :=
  match e with
  | IntImm _ n => n =? value
  | UIntImm _ n => n =? value
  | _ => false
  end.
Definition is_one (e : Expr) : bool := is_const_int e 1.
Definition is_zero (e : Expr) : bool := is_const_int e 0.
Definition is_const (e : Expr) : bool :=
  match e with IntImm _ _ | UIntImm _ _ => true | _ => false end.
Definition as_const_int (e : Expr) : option Z :=
  match e with IntImm _ n => Some n | _ => None end.
Fixpoint is_const_value (e : Expr) (value : Z) : bool :=
  match e with
  | IntImm _ n => n =? value
  | UIntImm _ n => (0 <=? value) && (n =? value)
  | Cast _ a => is_const_value a value
  | _ => false
  end.

(** Modelled from the spec: the operator overloads of the IR ([&&], [||],
    [!], [+], [-], [*], the comparisons, [truncdiv], [floordiv], [truncmod],
    [floormod], [if_then_else]) are declared outside the sources; the spec
    writes them as the plain connectives, and they build the node of that
    kind. *)
Declare Scope expr_scope.
Delimit Scope expr_scope with E.
Bind Scope expr_scope with Expr.
Notation "a && b" := (Bin And a b) : expr_scope.
Notation "a || b" := (Bin Or a b) : expr_scope.
Notation "a + b" := (Bin Add a b) : expr_scope.
Notation "a - b" := (Bin Sub a b) : expr_scope.
Notation "a * b" := (Bin Mul a b) : expr_scope.
Notation "a == b" := (Bin EQ a b) (at level 70, no associativity) : expr_scope.
Notation "a <= b" := (Bin LE a b) : expr_scope.
Notation "a < b" := (Bin LT a b) : expr_scope.
Notation "a >= b" := (Bin GE a b) : expr_scope.
Notation "a > b" := (Bin GT a b) : expr_scope.

Definition truncdiv (a b : Expr) : Expr := Bin Div a b.
Definition truncmod (a b : Expr) : Expr := Bin Mod a b.
Definition floordiv (a b : Expr) : Expr := Bin FloorDiv a b.
Definition floormod (a b : Expr) : Expr := Bin FloorMod a b.
Definition if_then_else (c x y : Expr) : Expr :=
  Call (type_of x) tvm_if_then_else [c; x; y] PureIntrinsic.
(** Unary minus is [make_zero(type) - a] in the IR. *)
Definition neg (a : Expr) : Expr := (make_zero (type_of a) - a)%E.

(** [Equal(a, b)]: deep structural equality. *)
Definition Equal (a b : Expr) : bool := bool_decide (a = b).

(** [Substitute(e, vmap)] *)
Fixpoint Substitute (e : Expr) (vmap : gmap Var Expr) : Expr :=
  match e with
  | VarNode v => match vmap !! v with Some r => r | None => e end
  | IntImm _ _ | UIntImm _ _ | StringImm _ => e
  | Cast t a => Cast t (Substitute a vmap)
  | Bin op a b => Bin op (Substitute a vmap) (Substitute b vmap)
  | Not a => Not (Substitute a vmap)
  | Select c t f => Select (Substitute c vmap) (Substitute t vmap) (Substitute f vmap)
  | Call t name args ct => Call t name (map (fun a => Substitute a vmap) args) ct
  end.

(** [ExprUseVar(e, vars)]: some variable of [vars] occurs in [e]. *)
Fixpoint ExprUseVar (e : Expr) (vars : gset Var) : bool :=
  match e with
  | VarNode v => bool_decide (v ∈ vars)
  | IntImm _ _ | UIntImm _ _ | StringImm _ => false
  | Cast _ a => ExprUseVar a vars
  | Bin _ a b => ExprUseVar a vars || ExprUseVar b vars
  | Not a => ExprUseVar a vars
  | Select c t f => ExprUseVar c vars || ExprUseVar t vars || ExprUseVar f vars
  | Call _ _ args _ => existsb (fun a => ExprUseVar a vars) args
  end.

(** [Range(min, extent)] *)
Record Range : Type := mkRange { range_min : Expr; range_extent : Expr }.

#[global] Instance Range_eq_dec : EqDecision Range.
Proof. solve_decision. Defined.

Definition in_range (σ : Env) (v : Var) (r : Range) : Prop :=
  eval σ (range_min r) <= eval σ (VarNode v)
  < eval σ (range_min r) + eval σ (range_extent r).

(** The assignment respects the variable ranges. *)
Definition within (σ : Env) (vranges : gmap Var Range) : Prop :=
  forall v r, vranges !! v = Some r -> in_range σ v r.

(** ** Utilities of the pass *)

(** [Merge]: the right map wins on conflict. *)
Definition Merge {V : Type} (original update : gmap Var V) : gmap Var V :=
  update ∪ original.

Definition Concat {T : Type} (a b : list T) : list T := a ++ b.

(** [All]: the conjunction of the container, [true] when it is empty. *)
Definition All (c : list Expr) : Expr :=
  match c with
  | [] => const_true
  | e :: c' => fold_left (fun res x => (res && x)%E) c' e
  end.

(** A [Map<Var, Expr>] filled by [Set(v, f v)] for the elements of an
    array, in order. *)
Definition map_of_vars {V : Type} (f : Var -> V) (vars : list Var) : gmap Var V :=
  foldl (fun m v => <[v := f v]> m) ∅ vars.

(** [Domain]: variables, conditions and ranges. *)
Record Domain : Type := mkDomain {
  variables : list Var;
  conditions : list Expr;
  ranges : gmap Var Range
}.

(** [DomainTransformation] *)
Record DomainTransformation : Type := mkDomainTransformation {
  new_domain : Domain;
  old_domain : Domain;
  new_to_old : gmap Var Expr;
  old_to_new : gmap Var Expr
}.

#[global] Instance Domain_eq_dec : EqDecision Domain.
Proof. solve_decision. Defined.
#[global] Instance DomainTransformation_eq_dec : EqDecision DomainTransformation.
Proof. solve_decision. Defined.

(** [EmptyDomainTransformation] *)
Definition EmptyDomainTransformation (domain : Domain) : DomainTransformation :=
  let new_to_old : gmap Var Expr := ∅ in
  let old_to_new := map_of_vars (fun v => make_zero (vty v)) (variables domain) in
  let new_domain := mkDomain [] [make_zero TBool] ∅ in
  mkDomainTransformation new_domain domain new_to_old old_to_new.

(** In the source a [Domain] is a reference to a [DomainNode], and
    [same_as] compares the addresses of the nodes referred to.  The
    functions of the pass that only read the fields of a node are embedded
    on the nodes ([Domain], [DomainTransformation]); those that test or rely
    on the identity of nodes take references: a node with its address. *)
Record DomainRef : Type := mkDomainRef {
  domain_addr : N;
  domain_node :> Domain
}.

Definition same_as (a b : DomainRef) : bool := (domain_addr a =? domain_addr b)%N.

(** [DomainTransformationNode], its two [Domain] fields as references. *)
Record DomainTransformationRef : Type := mkDomainTransformationRef {
  ref_new_domain : DomainRef;
  ref_old_domain : DomainRef;
  ref_new_to_old : gmap Var Expr;
  ref_old_to_new : gmap Var Expr
}.

#[global] Instance DomainRef_eq_dec : EqDecision DomainRef.
Proof. solve_decision. Defined.
#[global] Instance DomainTransformationRef_eq_dec : EqDecision DomainTransformationRef.
Proof. solve_decision. Defined.

(** [IdDomainTransformation]: both fields refer to the node given. *)
Definition IdDomainTransformation (domain : DomainRef) : DomainTransformationRef :=
  let new_to_old := map_of_vars VarNode (variables domain) in
  mkDomainTransformationRef domain domain new_to_old new_to_old.

(** [SelectElseZero]: [cond ? on_true : 0] *)
Definition SelectElseZero (cond on_true : Expr) : Expr :=
  Select cond on_true (make_zero (type_of on_true)).

(** ** Facts about the semantics *)

Lemma is_bool_true t : is_bool t = true -> t = TBool.
Proof. by destruct t. Qed.

Lemma canon_idem t z : canon t (canon t z) = canon t z.
Proof. unfold canon. destruct (is_bool t); [|done]. by destruct (z =? 0). Qed.

Lemma canon_0 t : canon t 0 = 0.
Proof. unfold canon. by destruct (is_bool t). Qed.

Lemma canon_ext t1 t2 z : is_bool t1 = is_bool t2 -> canon t1 z = canon t2 z.
Proof. unfold canon. by intros ->. Qed.

Lemma canon_not_bool t z : is_bool t = false -> canon t z = z.
Proof. unfold canon. by intros ->. Qed.

Lemma canon_bool_cases z : canon TBool z = 0 \/ canon TBool z = 1.
Proof. unfold canon; simpl. destruct (z =? 0); auto. Qed.

Lemma canon_b2z t b : canon t (b2z b) = b2z b.
Proof. unfold canon. destruct (is_bool t); [|done]. by destruct b. Qed.

Lemma bin_sem_bool op x y :
  is_comparison op || is_logical op = true ->
  canon TBool (bin_sem op x y) = bin_sem op x y.
Proof. destruct op; try discriminate; intros _; apply canon_b2z. Qed.

(** The value of an expression is in the representation of its type. *)
Lemma eval_canon σ e : canon (type_of e) (eval σ e) = eval σ e.
Proof.
  destruct e; simpl; try apply canon_idem; try done.
  apply (canon_b2z TBool).
Qed.

Lemma eval_bool_cases σ e :
  is_bool (type_of e) = true -> eval σ e = 0 \/ eval σ e = 1.
Proof.
  intros Hb. rewrite <- eval_canon.
  destruct (type_of e); try discriminate. apply canon_bool_cases.
Qed.

Lemma eval_make_const σ t n : eval σ (make_const t n) = canon t n.
Proof. unfold make_const. by destruct (is_uint t). Qed.

Lemma type_of_make_const t n : type_of (make_const t n) = t.
Proof. unfold make_const. by destruct (is_uint t). Qed.

Lemma eval_make_zero σ t : eval σ (make_zero t) = 0.
Proof. unfold make_zero. rewrite eval_make_const. apply canon_0. Qed.

Lemma eval_const_true σ : eval σ const_true = 1.
Proof. done. Qed.

Lemma eval_const_false σ : eval σ const_false = 0.
Proof. done. Qed.

Lemma eval_SelectElseZero σ c v :
  eval σ (SelectElseZero c v) = if eval σ c =? 0 then 0 else eval σ v.
Proof.
  unfold SelectElseZero. simpl. rewrite eval_make_zero.
  destruct (eval σ c =? 0); [apply canon_0 | apply eval_canon].
Qed.

Lemma type_of_SelectElseZero c v : type_of (SelectElseZero c v) = type_of v.
Proof. done. Qed.

Lemma is_const_value_0_sound σ e : is_const_value e 0 = true -> eval σ e = 0.
Proof.
  induction e; simpl; try discriminate.
  - intros ->%Z.eqb_eq. apply canon_0.
  - intros ->%Z.eqb_eq. apply canon_0.
  - intros H. rewrite IHe by done. apply canon_0.
Qed.

Lemma is_const_int_sound σ e n : is_const_int e n = true -> eval σ e = canon (type_of e) n.
Proof. destruct e; simpl; try discriminate; by intros ->%Z.eqb_eq. Qed.

Lemma is_one_beval σ e : is_one e = true -> beval σ e = true.
Proof.
  intros H. unfold beval. rewrite (is_const_int_sound _ _ _ H).
  unfold canon. by destruct (is_bool _).
Qed.

Lemma is_zero_beval σ e : is_zero e = true -> beval σ e = false.
Proof.
  intros H. unfold beval. rewrite (is_const_int_sound _ _ _ H).
  by rewrite canon_0.
Qed.

Lemma call_value_ext σ1 σ2 name l :
  call σ1 = call σ2 -> call_value σ1 name l = call_value σ2 name l.
Proof. intros H. unfold call_value. by rewrite H. Qed.

(** Two environments that agree on the represented values of the variables
    and on the callees give every expression the same value. *)
Lemma eval_ext σ1 σ2 e :
  (forall v, canon (vty v) (val σ1 v) = canon (vty v) (val σ2 v)) ->
  call σ1 = call σ2 ->
  eval σ1 e = eval σ2 e.
Proof.
  intros Hv Hc. induction e using Expr_ind_strong; simpl;
    rewrite ?IHe, ?IHe1, ?IHe2, ?IHe3; try done.
  assert (map (eval σ1) args = map (eval σ2) args) as ->.
  { induction H; simpl; congruence. }
  by rewrite (call_value_ext σ1 σ2).
Qed.

(** The environment in which the variables of [vmap] take the values of the
    expressions they are mapped to. *)
Definition subst_env (σ : Env) (vmap : gmap Var Expr) : Env :=
  mkEnv (fun v => match vmap !! v with Some r => eval σ r | None => val σ v end)
        (call σ).

(** A substitution keeps types when it maps a variable to an expression of
    the variable's kind of type. *)
Definition subst_typed (vmap : gmap Var Expr) : Prop :=
  forall v r, vmap !! v = Some r -> is_bool (type_of r) = is_bool (vty v).

Lemma type_of_Substitute vmap e :
  subst_typed vmap ->
  is_bool (type_of (Substitute e vmap)) = is_bool (type_of e).
Proof.
  intros Ht. induction e using Expr_ind_strong; simpl; try done.
  - destruct (vmap !! v) eqn:E; [by apply Ht | done].
  - by destruct (is_comparison op || is_logical op).
Qed.

Lemma eval_Substitute σ vmap e :
  subst_typed vmap ->
  eval σ (Substitute e vmap) = eval (subst_env σ vmap) e.
Proof.
  intros Ht. induction e using Expr_ind_strong; simpl;
    rewrite ?IHe; try done.
  - destruct (vmap !! v) eqn:E; [|done].
    rewrite <- (canon_ext (type_of e) (vty v)) by by apply Ht.
    by rewrite eval_canon.
  - rewrite IHe1, IHe2. apply canon_ext.
    destruct (is_comparison op || is_logical op); [done|].
    by apply type_of_Substitute.
  - rewrite IHe1, IHe2, IHe3. apply canon_ext. by apply type_of_Substitute.
  - assert (map (eval σ) (map (fun a => Substitute a vmap) args)
            = map (eval (subst_env σ vmap)) args) as ->.
    { induction H; simpl; congruence. }
    by rewrite (call_value_ext σ (subst_env σ vmap)).
Qed.

(** The contract of a simplifier of the analyzer: under the ranges bound to
    it, the result has the value of the argument. *)
Definition simplifier_sound (simp : gmap Var Range -> Expr -> Expr) : Prop :=
  forall vranges e σ, within σ vranges -> eval σ (simp vranges e) = eval σ e.

(** The minimum of a range is of the kind of type of its variable. *)
Definition ranges_typed (vranges : gmap Var Range) : Prop :=
  forall v r, vranges !! v = Some r ->
    is_bool (type_of (range_min r)) = is_bool (vty v).

Lemma within_empty σ : within σ ∅.
Proof. intros v r. by rewrite lookup_empty. Qed.

Lemma ranges_typed_empty : ranges_typed ∅.
Proof. intros v r. by rewrite lookup_empty. Qed.

Unset Default Proof Using.

(** Splits the boolean conjunctions and decisions among the hypotheses. *)
Ltac bsplit :=
  repeat match goal with
    | H : _ && _ = true |- _ => apply andb_true_iff in H as [? ?]
    | H : bool_decide _ = true |- _ => apply bool_decide_eq_true in H
    | H : forallb _ (_ :: _) = true |- _ => simpl in H
    end.

(** ** The pass *)

Section ZeroElimination.

(** *** External collaborators

    [rewrite_simplify] and [canonical_simplify] are the two simplifiers of
    [arith::Analyzer], given the ranges bound to the analyzer. *)
Variable rewrite_simplify : gmap Var Range -> Expr -> Expr.
Variable canonical_simplify : gmap Var Range -> Expr -> Expr.

(** [SuperSimplify]: variables whose range has extent one are replaced by
    the minimum of the range, then the analyzer runs rewrite, canonical and
    rewrite simplification with every range bound. *)
Definition SuperSimplify (e : Expr) (vranges : gmap Var Range) : Expr :=
  let vmap :=
    omap (fun r => if is_const_int (range_extent r) 1
                   then Some (range_min r) else None) vranges in
  let e := if decide (vmap = ∅) then e else Substitute e vmap in
  let res := e in
  let res := rewrite_simplify vranges res in
  let res := canonical_simplify vranges res in
  let res := rewrite_simplify vranges res in
  res.

(** [CanProve]: provability check that uses [SuperSimplify]. *)
Definition CanProve (e : Expr) (vranges : gmap Var Range) : bool :=
  is_one (SuperSimplify e vranges).


(** *** NonzeronessCondition *)

Record NonzeronessConditionResult : Type :=
  mkNZ { cond : Expr; value : Expr }.

Definition to_expr (r : NonzeronessConditionResult) : Expr :=
  SelectElseZero (cond r) (value r).

Definition Default_ (e : Expr) : NonzeronessConditionResult :=
  mkNZ const_true e.

Definition Const_ (op_value : Z) (e : Expr) : NonzeronessConditionResult :=
  if op_value =? 0 then mkNZ const_false e else mkNZ const_true e.

(** The node is rebuilt from the new operands with [TNode::make]; where the
    source returns [e] itself because the operands are the same nodes, the
    rebuilt node is that same expression. *)
Definition BinOpAddLike_ (op : BinOp) (nz_a nz_b : NonzeronessConditionResult)
  : NonzeronessConditionResult :=
  if Equal (cond nz_a) (cond nz_b) then
    mkNZ (cond nz_a) (Bin op (value nz_a) (value nz_b))
  else
    let new_cond := SuperSimplify (cond nz_a || cond nz_b)%E ∅ in
    let new_a := if Equal (cond nz_a) new_cond then value nz_a else to_expr nz_a in
    let new_b := if Equal (cond nz_b) new_cond then value nz_b else to_expr nz_b in
    let new_expr := Bin op new_a new_b in
    mkNZ new_cond new_expr.

Definition BinOpMulLike_ (op : BinOp) (nz_a nz_b : NonzeronessConditionResult)
  : NonzeronessConditionResult :=
  let new_cond := SuperSimplify (cond nz_a && cond nz_b)%E ∅ in
  mkNZ new_cond (Bin op (value nz_a) (value nz_b)).

Definition BinOpDivLike_ (op : BinOp) (nz_a : NonzeronessConditionResult) (b : Expr)
  : NonzeronessConditionResult :=
  mkNZ (cond nz_a) (Bin op (value nz_a) b).

Definition Select_ (cond0 : Expr) (nz_a nz_b : NonzeronessConditionResult)
  : NonzeronessConditionResult :=
  if is_const_value (value nz_b) 0 then
    let new_cond := SuperSimplify (cond nz_a && cond0)%E ∅ in
    mkNZ new_cond (value nz_a)
  else if is_const_value (value nz_a) 0 then
    let new_cond := SuperSimplify (cond nz_b && Not cond0)%E ∅ in
    mkNZ new_cond (value nz_b)
  else
    let new_cond :=
      SuperSimplify ((cond0 && cond nz_a) || (Not cond0 && cond nz_b))%E ∅ in
    mkNZ new_cond (Select cond0 (value nz_a) (value nz_b)).

Definition IfThenElse_ (cond0 : Expr) (nz_a nz_b : NonzeronessConditionResult)
  : NonzeronessConditionResult :=
  let new_cond :=
    SuperSimplify ((cond0 && cond nz_a) || (Not cond0 && cond nz_b))%E ∅ in
  mkNZ new_cond (if_then_else cond0 (value nz_a) (value nz_b)).

(** [NonzeronessConditionFunctor] on the expressions of this part (no
    floating point, no node kind without a case); the functor with all its
    cases and its fatal error is [Full.FNonzeronessCondition] below, which
    returns the result of this one on these expressions.  The entry point
    tests the type and then dispatches on the node.  The comparison and
    logical nodes and [Not], for which the functor has no case, are of type
    [Bool] and never dispatched.  The intrinsic [tvm_if_then_else] has three
    arguments; the source reads [args[0..2]] without a test, the embedding
    treats another arity as any other call. *)
Fixpoint NonzeronessCondition (e : Expr) : NonzeronessConditionResult :=
  if is_bool (type_of e) then mkNZ e const_true
  else
    match e with
    | VarNode _ => Default_ e
    | IntImm _ n => Const_ n e
    | UIntImm _ n => Const_ n e
    | StringImm _ => Default_ e
    | Bin op a b =>
        match op with
        | Add | Sub | Min | Max =>
            BinOpAddLike_ op (NonzeronessCondition a) (NonzeronessCondition b)
        | Mul => BinOpMulLike_ op (NonzeronessCondition a) (NonzeronessCondition b)
        | Div | Mod | FloorDiv | FloorMod => BinOpDivLike_ op (NonzeronessCondition a) b
        | _ => Default_ e
        end
    | Not _ => Default_ e
    | Cast t a =>
        let nz_a := NonzeronessCondition a in
        mkNZ (cond nz_a) (Cast t (value nz_a))
    | Select c true_val false_val =>
        Select_ c (NonzeronessCondition true_val) (NonzeronessCondition false_val)
    | Call _ name args _ =>
        if String.eqb name tvm_if_then_else then
          match args with
          | [c; true_val; false_val] =>
              IfThenElse_ c (NonzeronessCondition true_val)
                (NonzeronessCondition false_val)
          | _ => Default_ e
          end
        else Default_ e
    end.



(** *** Soundness of [SuperSimplify] and of [NonzeronessCondition] *)

Hypothesis rewrite_simplify_sound : simplifier_sound rewrite_simplify.
Hypothesis canonical_simplify_sound : simplifier_sound canonical_simplify.

Lemma SuperSimplify_sound vranges e σ :
  ranges_typed vranges -> within σ vranges ->
  eval σ (SuperSimplify e vranges) = eval σ e.
Proof.
  intros Ht Hw. unfold SuperSimplify.
  rewrite rewrite_simplify_sound, canonical_simplify_sound,
    rewrite_simplify_sound by done.
  set (vmap := omap _ vranges).
  destruct (decide (vmap = ∅)); [done|].
  assert (forall v r, vmap !! v = Some r ->
           exists rg, vranges !! v = Some rg /\ r = range_min rg
                      /\ is_const_int (range_extent rg) 1 = true) as Hvm.
  { intros v r. unfold vmap. rewrite lookup_omap.
    destruct (vranges !! v) as [rg|] eqn:E; simpl; [|done].
    destruct (is_const_int (range_extent rg) 1) eqn:E1; [|done].
    intros [= <-]. eauto. }
  rewrite eval_Substitute.
  - apply eval_ext; [|done]. intros v. simpl.
    destruct (vmap !! v) as [r|] eqn:E; [|done].
    destruct (Hvm _ _ E) as (rg & Hrg & -> & H1).
    destruct (Hw _ _ Hrg) as [Hlo Hhi]. simpl in Hlo, Hhi.
    rewrite (is_const_int_sound _ _ _ H1) in Hhi.
    assert (canon (type_of (range_extent rg)) 1 = 1) as Hc1.
    { unfold canon. by destruct (is_bool _). }
    rewrite Hc1 in Hhi.
    assert (eval σ (range_min rg) = canon (vty v) (val σ v)) as -> by lia.
    by rewrite canon_idem.
  - intros v r E. destruct (Hvm _ _ E) as (rg & Hrg & -> & _). by apply Ht.
Qed.

Lemma SuperSimplify_sound_empty e σ : eval σ (SuperSimplify e ∅) = eval σ e.
Proof. apply SuperSimplify_sound; [apply ranges_typed_empty | apply within_empty]. Qed.

Lemma CanProve_sound vranges e σ :
  ranges_typed vranges -> within σ vranges ->
  CanProve e vranges = true -> beval σ e = true.
Proof.
  intros Ht Hw H. unfold beval.
  rewrite <- (SuperSimplify_sound vranges) by done.
  by apply is_one_beval.
Qed.

(** X20. Under the contract of the two simplifiers, at every assignment
    within the ranges (whose minima are of the kind of type of their
    variables), [SuperSimplify] keeps the value of the expression, also
    where it replaces the variables of a range of extent one by the
    minimum of the range; so what [CanProve] accepts holds. *)
Theorem SuperSimplify_CanProve_sound vranges e σ :
  ranges_typed vranges -> within σ vranges ->
  eval σ (SuperSimplify e vranges) = eval σ e /\
  (CanProve e vranges = true -> beval σ e = true).
Proof.
  intros Ht Hw. split; [by apply SuperSimplify_sound|].
  by apply CanProve_sound.
Qed.


Lemma NonzeronessCondition_unfold e :
  NonzeronessCondition e =
  if is_bool (type_of e) then mkNZ e const_true
  else
    match e with
    | VarNode _ => Default_ e
    | IntImm _ n => Const_ n e
    | UIntImm _ n => Const_ n e
    | StringImm _ => Default_ e
    | Bin op a b =>
        match op with
        | Add | Sub | Min | Max =>
            BinOpAddLike_ op (NonzeronessCondition a) (NonzeronessCondition b)
        | Mul => BinOpMulLike_ op (NonzeronessCondition a) (NonzeronessCondition b)
        | Div | Mod | FloorDiv | FloorMod => BinOpDivLike_ op (NonzeronessCondition a) b
        | _ => Default_ e
        end
    | Not _ => Default_ e
    | Cast t a =>
        let nz_a := NonzeronessCondition a in
        mkNZ (cond nz_a) (Cast t (value nz_a))
    | Select c true_val false_val =>
        Select_ c (NonzeronessCondition true_val) (NonzeronessCondition false_val)
    | Call _ name args _ =>
        if String.eqb name tvm_if_then_else then
          match args with
          | [c; true_val; false_val] =>
              IfThenElse_ c (NonzeronessCondition true_val)
                (NonzeronessCondition false_val)
          | _ => Default_ e
          end
        else Default_ e
    end.
Proof. by destruct e. Qed.

(** The value part keeps the type of the expression. *)
Lemma NonzeronessCondition_type e :
  wt e = true -> type_of (value (NonzeronessCondition e)) = type_of e.
Proof.
  induction e using Expr_ind_strong; intros Hwt;
    rewrite NonzeronessCondition_unfold;
    (destruct (is_bool (type_of _)) eqn:Hb;
     [symmetry; by apply is_bool_true |]); simpl in *.
  - done.
  - unfold Const_. by destruct (n =? 0).
  - unfold Const_. by destruct (n =? 0).
  - done.
  - done.
  - bsplit.
    destruct op; simpl in *; try done;
      unfold BinOpAddLike_, BinOpMulLike_, BinOpDivLike_; simpl;
      repeat (match goal with |- context [if ?c then _ else _] => destruct c end);
      simpl; auto.
  - done.
  - bsplit. unfold Select_.
    repeat (match goal with |- context [if ?c then _ else _] => destruct c end);
      simpl; auto.
    rewrite IHe3 by done. done.
  - destruct (String.eqb name tvm_if_then_else); [|done].
    destruct args as [|c [|x [|y [|]]]]; try done.
    simpl in *. bsplit.
    inversion H as [|? ? _ H']; subst. inversion H' as [|? ? IHx _]; subst.
    by rewrite IHx.
Qed.


Lemma eval_to_expr σ r :
  eval σ (to_expr r) = if eval σ (cond r) =? 0 then 0 else eval σ (value r).
Proof. apply eval_SelectElseZero. Qed.

Lemma eval_arith σ op a b :
  is_comparison op || is_logical op = false ->
  is_bool (type_of a) = false ->
  eval σ (Bin op a b) = bin_sem op (eval σ a) (eval σ b).
Proof. intros Hop Hb. simpl. rewrite Hop. by apply canon_not_bool. Qed.

Lemma eval_Default_ σ e : eval σ (to_expr (Default_ e)) = eval σ e.
Proof. by rewrite eval_to_expr. Qed.

Lemma eval_Const_ σ t n e :
  e = IntImm t n \/ e = UIntImm t n ->
  eval σ (to_expr (Const_ n e)) = eval σ e.
Proof.
  intros He. rewrite eval_to_expr. unfold Const_.
  destruct (Z.eqb_spec n 0) as [->|]; simpl; [|done].
  destruct He as [-> | ->]; simpl; by rewrite canon_0.
Qed.

Lemma bin_sem_0_l op y :
  match op with Div | Mod | FloorDiv | FloorMod | Mul => True | _ => False end ->
  bin_sem op 0 y = 0.
Proof.
  destruct op; try done; intros _; simpl;
    auto using Zdiv_0_l, Zmod_0_l; by destruct y.
Qed.

Lemma eval_And σ a b :
  eval σ (a && b)%E = b2z (negb (eval σ a =? 0) && negb (eval σ b =? 0)).
Proof. simpl. apply (canon_b2z TBool). Qed.

Lemma eval_Or σ a b :
  eval σ (a || b)%E = b2z (negb (eval σ a =? 0) || negb (eval σ b =? 0)).
Proof. simpl. apply (canon_b2z TBool). Qed.

Lemma eval_Not σ a : eval σ (Not a) = b2z (eval σ a =? 0).
Proof. done. Qed.

Lemma BinOpAddLike_sound σ op nz_a nz_b :
  match op with Add | Sub | Min | Max => True | _ => False end ->
  is_bool (type_of (value nz_a)) = false ->
  eval σ (to_expr (BinOpAddLike_ op nz_a nz_b))
  = bin_sem op (eval σ (to_expr nz_a)) (eval σ (to_expr nz_b)).
Proof.
  intros Hop Hta. destruct nz_a as [ca va], nz_b as [cb vb]. simpl in Hta.
  assert (is_comparison op || is_logical op = false) as Hop' by by destruct op.
  assert (bin_sem op 0 0 = 0) as H00 by by destruct op.
  unfold BinOpAddLike_, Equal. simpl cond; simpl value.
  case_bool_decide as Hab.
  - subst cb. rewrite !eval_to_expr. simpl cond; simpl value.
    rewrite eval_arith by done. by destruct (eval σ ca =? 0).
  - set (nc := SuperSimplify (ca || cb)%E ∅).
    assert (eval σ nc = b2z (negb (eval σ ca =? 0) || negb (eval σ cb =? 0))) as Hnc.
    { unfold nc. by rewrite SuperSimplify_sound_empty, eval_Or. }
    rewrite (eval_to_expr _ (mkNZ nc _)). simpl cond; simpl value.
    rewrite eval_arith; [|done|by repeat case_bool_decide].
    assert (eval σ nc <> 0 -> forall c v,
             eval σ (if bool_decide (c = nc) then v else to_expr (mkNZ c v))
             = eval σ (to_expr (mkNZ c v))) as Hnew.
    { intros Hn c v. case_bool_decide; [|done]. subst c.
      rewrite eval_to_expr. simpl. by destruct (Z.eqb_spec (eval σ nc) 0). }
    destruct (Z.eqb_spec (eval σ nc) 0) as [Hz|Hnz].
    + rewrite Hz in Hnc. rewrite !eval_to_expr. simpl.
      destruct (eval σ ca =? 0), (eval σ cb =? 0); done.
    + by rewrite !Hnew.
Qed.

Lemma BinOpMulLike_sound σ nz_a nz_b :
  is_bool (type_of (value nz_a)) = false ->
  eval σ (to_expr (BinOpMulLike_ Mul nz_a nz_b))
  = bin_sem Mul (eval σ (to_expr nz_a)) (eval σ (to_expr nz_b)).
Proof.
  intros Hta. destruct nz_a as [ca va], nz_b as [cb vb]. simpl in Hta.
  unfold BinOpMulLike_. rewrite !eval_to_expr. simpl cond; simpl value.
  rewrite SuperSimplify_sound_empty, eval_And, eval_arith by done.
  destruct (eval σ ca =? 0), (eval σ cb =? 0); simpl; lia.
Qed.

Lemma BinOpDivLike_sound σ op nz_a b :
  match op with Div | Mod | FloorDiv | FloorMod => True | _ => False end ->
  is_bool (type_of (value nz_a)) = false ->
  eval σ (to_expr (BinOpDivLike_ op nz_a b))
  = bin_sem op (eval σ (to_expr nz_a)) (eval σ b).
Proof.
  intros Hop Hta. destruct nz_a as [ca va]. simpl in Hta.
  unfold BinOpDivLike_. rewrite !eval_to_expr. simpl cond; simpl value.
  rewrite eval_arith; [|by destruct op|done].
  destruct (eval σ ca =? 0); [|done].
  symmetry. apply bin_sem_0_l. by destruct op.
Qed.

Lemma eval_Select σ c t f :
  type_of t = type_of f ->
  eval σ (Select c t f) = if eval σ c =? 0 then eval σ f else eval σ t.
Proof.
  intros Ht. simpl. destruct (eval σ c =? 0); [rewrite Ht|]; apply eval_canon.
Qed.

Lemma eval_if_then_else σ c t f :
  type_of t = type_of f ->
  eval σ (if_then_else c t f) = if eval σ c =? 0 then eval σ f else eval σ t.
Proof.
  intros Ht. unfold if_then_else. simpl.
  destruct (eval σ c =? 0); [rewrite Ht|]; apply eval_canon.
Qed.

Lemma Select_sound σ c nz_a nz_b :
  type_of (value nz_a) = type_of (value nz_b) ->
  eval σ (to_expr (Select_ c nz_a nz_b))
  = if eval σ c =? 0 then eval σ (to_expr nz_b) else eval σ (to_expr nz_a).
Proof.
  intros Ht. destruct nz_a as [ca va], nz_b as [cb vb]. simpl in Ht.
  unfold Select_. simpl cond; simpl value.
  destruct (is_const_value vb 0) eqn:Hvb; [|destruct (is_const_value va 0) eqn:Hva].
  - rewrite !eval_to_expr. simpl cond; simpl value.
    rewrite SuperSimplify_sound_empty, eval_And, (is_const_value_0_sound σ vb) by done.
    destruct (eval σ ca =? 0), (eval σ c =? 0), (eval σ cb =? 0); done.
  - rewrite !eval_to_expr. simpl cond; simpl value.
    rewrite SuperSimplify_sound_empty, eval_And, eval_Not,
      (is_const_value_0_sound σ va) by done.
    destruct (eval σ ca =? 0), (eval σ c =? 0), (eval σ cb =? 0); done.
  - rewrite !eval_to_expr. simpl cond; simpl value.
    rewrite SuperSimplify_sound_empty, eval_Or, !eval_And, eval_Not, eval_Select by done.
    destruct (eval σ ca =? 0), (eval σ c =? 0), (eval σ cb =? 0); done.
Qed.

Lemma IfThenElse_sound σ c nz_a nz_b :
  type_of (value nz_a) = type_of (value nz_b) ->
  eval σ (to_expr (IfThenElse_ c nz_a nz_b))
  = if eval σ c =? 0 then eval σ (to_expr nz_b) else eval σ (to_expr nz_a).
Proof.
  intros Ht. destruct nz_a as [ca va], nz_b as [cb vb]. simpl in Ht.
  unfold IfThenElse_. rewrite !eval_to_expr. simpl cond; simpl value.
  rewrite SuperSimplify_sound_empty, eval_Or, !eval_And, eval_Not,
    eval_if_then_else by done.
  destruct (eval σ ca =? 0), (eval σ c =? 0), (eval σ cb =? 0); done.
Qed.

Lemma NonzeronessCondition_sound e σ :
  wt e = true -> eval σ (to_expr (NonzeronessCondition e)) = eval σ e.
Proof.
  induction e using Expr_ind_strong; intros Hwt;
    rewrite NonzeronessCondition_unfold;
    (destruct (is_bool (type_of _)) eqn:Hb;
     [rewrite eval_to_expr; simpl cond; simpl value;
      match goal with |- context [eval σ ?e =? 0] =>
        destruct (eval_bool_cases σ e Hb) as [-> | ->]; done end |]).
  - apply eval_Default_.
  - apply (eval_Const_ σ t); auto.
  - apply (eval_Const_ σ t); auto.
  - apply eval_Default_.
  - simpl in Hwt. specialize (IHe Hwt). rewrite eval_to_expr in *. simpl.
    destruct (eval σ (cond _) =? 0); [by rewrite <- IHe, canon_0 | by rewrite IHe].
  - simpl in Hwt, Hb. bsplit.
    pose proof (NonzeronessCondition_type e1 ltac:(done)) as Ht1.
    specialize (IHe1 ltac:(done)). specialize (IHe2 ltac:(done)).
    destruct (is_comparison op || is_logical op) eqn:Hop; [done|].
    assert (is_bool (type_of (value (NonzeronessCondition e1))) = false) as Hva
      by by rewrite Ht1.
    rewrite (eval_arith σ op e1 e2), <- IHe1 by done.
    destruct op; try discriminate.
    1,2,8,9: by rewrite BinOpAddLike_sound, IHe2.
    + by rewrite BinOpMulLike_sound, IHe2.
    + by rewrite BinOpDivLike_sound.
    + by rewrite BinOpDivLike_sound.
    + by rewrite BinOpDivLike_sound.
    + by rewrite BinOpDivLike_sound.
  - done.
  - simpl in Hwt. bsplit.
    rewrite Select_sound by (by rewrite !NonzeronessCondition_type).
    rewrite IHe2, IHe3 by done. by rewrite eval_Select.
  - simpl in Hwt. apply andb_true_iff in Hwt as [Hargs Hite].
    destruct (String.eqb name tvm_if_then_else) eqn:Hname; [|apply eval_Default_].
    destruct args as [|c [|x [|y [|]]]]; try done.
    simpl in Hargs. bsplit.
    inversion H as [|? ? _ H']; subst. inversion H' as [|? ? IHx H'']; subst.
    inversion H'' as [|? ? IHy _]; subst.
    rewrite IfThenElse_sound by (rewrite !NonzeronessCondition_type by done; congruence).
    rewrite IHx, IHy by done.
    simpl. rewrite Hname.
    destruct (eval σ c =? 0); symmetry;
      [replace (type_of x) with (type_of y) by congruence|]; apply eval_canon.
Qed.



(** *** NormalizeComparisons *)

(** [NormalizeComparisonsMutator::Make<TNode>]: [LT] on integers becomes
    [a - b + 1 <= 0], any other comparison [TNode(a - b, 0)]. *)
Definition NormalizeComparisons_Make (op : BinOp) (a b : Expr) : Expr :=
  if bool_decide (op = LT) && (is_int (type_of a) || is_uint (type_of a)) then
    Bin LE (SuperSimplify (a - b + make_const (type_of a) 1)%E ∅) (make_zero (type_of a))
  else
    Bin op (SuperSimplify (a - b)%E ∅) (make_zero (type_of a)).

(** [NormalizeComparisons]: the comparisons are rewritten, [GT] and [GE]
    mirrored; every other node is rebuilt from its mutated children (the
    default of [IRMutator]). *)
Fixpoint NormalizeComparisons (e : Expr) : Expr :=
  match e with
  | Bin EQ a b => NormalizeComparisons_Make EQ a b
  | Bin NE a b => NormalizeComparisons_Make NE a b
  | Bin LT a b => NormalizeComparisons_Make LT a b
  | Bin LE a b => NormalizeComparisons_Make LE a b
  | Bin GT a b => NormalizeComparisons_Make LT b a
  | Bin GE a b => NormalizeComparisons_Make LE b a
  | Bin op a b => Bin op (NormalizeComparisons a) (NormalizeComparisons b)
  | VarNode _ | IntImm _ _ | UIntImm _ _ | StringImm _ => e
  | Cast t a => Cast t (NormalizeComparisons a)
  | Not a => Not (NormalizeComparisons a)
  | Select c t f =>
      Select (NormalizeComparisons c) (NormalizeComparisons t) (NormalizeComparisons f)
  | Call t name args ct => Call t name (map NormalizeComparisons args) ct
  end.

(** The comparisons met by the mutator compare signed integers: below them
    the mutator does not descend. *)
Fixpoint signed_comparisons (e : Expr) : bool :=
  match e with
  | VarNode _ | IntImm _ _ | UIntImm _ _ | StringImm _ => true
  | Cast _ a | Not a => signed_comparisons a
  | Bin op a b =>
      if is_comparison op then is_int (type_of a) && is_int (type_of b)
      else signed_comparisons a && signed_comparisons b
  | Select c t f => signed_comparisons c && signed_comparisons t && signed_comparisons f
  | Call _ _ args _ => forallb signed_comparisons args
  end.

Lemma NormalizeComparisons_Make_sound σ op a b :
  is_comparison op = true -> op <> GT -> op <> GE ->
  is_int (type_of a) = true -> is_int (type_of b) = true ->
  eval σ (NormalizeComparisons_Make op a b) = eval σ (Bin op a b).
Proof.
  intros Hop Hgt Hge Ha Hb.
  assert (is_bool (type_of a) = false) as Hna by (by destruct (type_of a)).
  assert (eval σ (a - b)%E = eval σ a - eval σ b) as Hsub by (by apply eval_arith).
  unfold NormalizeComparisons_Make. rewrite Ha. simpl (true || _).
  destruct (bool_decide (op = LT)) eqn:Hlt; simpl (_ && true).
  - apply bool_decide_eq_true in Hlt as ->.
    cbn [eval type_of is_comparison is_logical orb bin_sem].
    rewrite SuperSimplify_sound_empty, eval_make_zero.
    rewrite (eval_arith σ Add) by done. cbn [bin_sem].
    rewrite Hsub, eval_make_const, (canon_not_bool (type_of a)) by done.
    f_equal. f_equal. destruct (Z.leb_spec (eval σ a - eval σ b + 1) 0);
      destruct (Z.ltb_spec (eval σ a) (eval σ b)); lia.
  - apply bool_decide_eq_false in Hlt.
    cbn [eval type_of]. rewrite Hop. cbn [orb].
    rewrite SuperSimplify_sound_empty, eval_make_zero, Hsub.
    f_equal. destruct op; try done; cbn [bin_sem]; f_equal.
    + destruct (Z.eqb_spec (eval σ a - eval σ b) 0);
        destruct (Z.eqb_spec (eval σ a) (eval σ b)); lia.
    + f_equal. destruct (Z.eqb_spec (eval σ a - eval σ b) 0);
        destruct (Z.eqb_spec (eval σ a) (eval σ b)); lia.
    + destruct (Z.leb_spec (eval σ a - eval σ b) 0);
        destruct (Z.leb_spec (eval σ a) (eval σ b)); lia.
Qed.

Lemma type_of_NormalizeComparisons_Make op a b :
  is_comparison op = true -> type_of (NormalizeComparisons_Make op a b) = TBool.
Proof.
  intros Hop. unfold NormalizeComparisons_Make.
  destruct (_ && _); cbn [type_of]; [done|]. by rewrite Hop.
Qed.

(** X5. [NormalizeComparisons] keeps the type and the value of an
    expression whose comparisons, as far as the mutator descends, compare
    signed integers (taken without overflow): [a < b] and [a - b + 1 <= 0],
    [a > b] and [b - a + 1 <= 0], [a >= b] and [b - a <= 0], and so on, have
    the same truth value. *)
Theorem NormalizeComparisons_sound (e : Expr) (σ : Env) :
  signed_comparisons e = true ->
  type_of (NormalizeComparisons e) = type_of e /\
  eval σ (NormalizeComparisons e) = eval σ e.
Proof.
  induction e as [v|t n|t n|s|t a IHa|op a b IHa IHb|a IHa|c t f IHc IHt IHf
                 |t name args ct IHargs] using Expr_ind_strong; intros H; try done.
  - destruct (IHa H) as [Ta Ea]. simpl. by rewrite Ea.
  - simpl in H. destruct (is_comparison op) eqn:Hop.
    + apply andb_true_iff in H as [Ha Hb].
      destruct op; try done;
        cbn [NormalizeComparisons];
        (split; [by rewrite type_of_NormalizeComparisons_Make|]);
        try (by apply NormalizeComparisons_Make_sound).
      * rewrite NormalizeComparisons_Make_sound by done.
        cbn [eval type_of is_comparison is_logical orb bin_sem]. done.
      * rewrite NormalizeComparisons_Make_sound by done.
        cbn [eval type_of is_comparison is_logical orb bin_sem]. done.
    + apply andb_true_iff in H as [Ha Hb].
      destruct (IHa Ha) as [Ta Ea]. destruct (IHb Hb) as [Tb Eb].
      assert (NormalizeComparisons (Bin op a b)
              = Bin op (NormalizeComparisons a) (NormalizeComparisons b)) as ->
        by (by destruct op).
      cbn [eval type_of]. by rewrite Ta, Ea, Eb.
  - destruct (IHa H) as [Ta Ea]. simpl. by rewrite Ea.
  - simpl in H. apply andb_true_iff in H as [H Hf]. apply andb_true_iff in H as [Hc Ht].
    destruct (IHc Hc) as [Tc Ec]. destruct (IHt Ht) as [Tt Et].
    destruct (IHf Hf) as [Tf Ef].
    cbn [NormalizeComparisons eval type_of]. by rewrite Tt, Ec, Et, Ef.
  - split; [done|]. cbn [NormalizeComparisons eval]. f_equal. f_equal.
    rewrite map_map. simpl in H.
    induction IHargs as [|a args Ha _ IH]; [done|].
    simpl in H. apply andb_true_iff in H as [H1 H2].
    simpl. f_equal; [by apply Ha|by apply IH].
Qed.


(** *** FactorOutAtomicFormulas *)

(** [Compare]: the deep comparison of expressions, negative, zero or
    positive. *)
Variable Compare : Expr -> Expr -> Z.

Definition ExprLess (l r : Expr) : bool := Compare l r <? 0.
Definition ExprEq (l r : Expr) : bool := Compare l r =? 0.

(** [std::set_union], [std::set_intersection] and [std::set_difference] on
    ranges ordered by [ExprLess], as the standard library merges them. *)
Fixpoint set_union (l1 : list Expr) : list Expr -> list Expr :=
  fix go (l2 : list Expr) : list Expr :=
    match l1, l2 with
    | [], _ => l2
    | _, [] => l1
    | x :: l1', y :: l2' =>
        if ExprLess y x then y :: go l2'
        else if ExprLess x y then x :: set_union l1' l2
        else x :: set_union l1' l2'
    end.

Fixpoint set_intersection (l1 : list Expr) : list Expr -> list Expr :=
  fix go (l2 : list Expr) : list Expr :=
    match l1, l2 with
    | [], _ | _, [] => []
    | x :: l1', y :: l2' =>
        if ExprLess x y then set_intersection l1' l2
        else if ExprLess y x then go l2'
        else x :: set_intersection l1' l2'
    end.

Fixpoint set_difference (l1 : list Expr) : list Expr -> list Expr :=
  fix go (l2 : list Expr) : list Expr :=
    match l1, l2 with
    | [], _ => []
    | _, [] => l1
    | x :: l1', y :: l2' =>
        if ExprLess x y then x :: set_difference l1' l2
        else if ExprLess y x then go l2'
        else set_difference l1' l2'
    end.

Record FactorOutAtomicFormulasResult : Type :=
  mkFO { atomic_formulas : list Expr; rest : Expr }.

(** [FactorOutAtomicFormulasResult::to_expr] *)
Definition FO_to_expr (r : FactorOutAtomicFormulasResult) : Expr :=
  fold_left (fun res e => Bin And e res) (atomic_formulas r) (rest r).

(** [FactorOutAtomicFormulasResult::to_array] *)
Definition FO_to_array (r : FactorOutAtomicFormulasResult) : list Expr :=
  atomic_formulas r ++ [rest r].

Definition Atomic_ (e : Expr) : FactorOutAtomicFormulasResult :=
  mkFO [e] (make_const (type_of e) 1).

(** [FactorOutAtomicFormulasFunctor::VisitExpr].  The functor calls itself
    on expressions it builds, so the embedding recurses on a step budget;
    [FactorOut_cost] below is a budget that always suffices.  [None] is the
    fatal error of a node kind without a case ([StringImm], [Cast] and the
    arithmetic nodes other than [Mul]), or a spent budget. *)
Fixpoint FactorOut_VisitExpr (fuel : nat) (e : Expr)
  : option FactorOutAtomicFormulasResult :=
  match fuel with
  | O => None
  | S fuel =>
      match e with
      | VarNode _ | Call _ _ _ _ | IntImm _ _ | UIntImm _ _ => Some (Atomic_ e)
      | Bin op a b =>
          match op with
          | EQ | NE | LE | LT | GE | GT => Some (Atomic_ e)
          | And =>
              res_a ← FactorOut_VisitExpr fuel a;
              res_b ← FactorOut_VisitExpr fuel b;
              let res := set_union (atomic_formulas res_a) (atomic_formulas res_b) in
              Some (mkFO res (rest res_a && rest res_b)%E)
          | Mul =>
              let e_and := (a && b)%E in
              FactorOut_VisitExpr fuel e_and
          | Or =>
              res_a ← FactorOut_VisitExpr fuel a;
              res_b ← FactorOut_VisitExpr fuel b;
              let res :=
                set_intersection (atomic_formulas res_a) (atomic_formulas res_b) in
              let new_cond_a := set_difference (atomic_formulas res_a) res in
              let new_cond_b := set_difference (atomic_formulas res_b) res in
              let res_a := mkFO new_cond_a (rest res_a) in
              let res_b := mkFO new_cond_b (rest res_b) in
              let new_rest := (FO_to_expr res_a || FO_to_expr res_b)%E in
              Some (mkFO res new_rest)
          | _ => None
          end
      | Select c t f =>
          let expr := ((c && t) || (Not c && f))%E in
          FactorOut_VisitExpr fuel expr
      | Not a =>
          match a with
          | Bin Or x y =>
              let expr := (Not x && Not y)%E in
              FactorOut_VisitExpr fuel expr
          | Bin And x y =>
              let expr := (Not x || Not y)%E in
              FactorOut_VisitExpr fuel expr
          | Select c t f =>
              let expr := ((Not c || Not t) && (c || Not f))%E in
              FactorOut_VisitExpr fuel expr
          | _ => Some (Atomic_ e)
          end
      | StringImm _ | Cast _ _ => None
      end
  end.

(** The number of calls of the functor on [e], and on [Not e] when [neg]. *)
Fixpoint FactorOut_cost (neg : bool) (e : Expr) : nat :=
  match e with
  | Bin And a b | Bin Or a b =>
      if neg then 2 + FactorOut_cost true a + FactorOut_cost true b
      else 1 + FactorOut_cost false a + FactorOut_cost false b
  | Bin Mul a b =>
      if neg then 1 else 2 + FactorOut_cost false a + FactorOut_cost false b
  | Select c t f =>
      if neg then
        4 + FactorOut_cost true c + FactorOut_cost true t
          + FactorOut_cost false c + FactorOut_cost true f
      else
        4 + FactorOut_cost false c + FactorOut_cost false t
          + FactorOut_cost true c + FactorOut_cost false f
  | Not a => if neg then 1 else FactorOut_cost true a
  | _ => 1
  end%nat.

(** [FactorOutAtomicFormulas]: the type check, then the functor. *)
Definition FactorOutAtomicFormulas (e : Expr) : option FactorOutAtomicFormulasResult :=
  if is_bool (type_of e) then FactorOut_VisitExpr (FactorOut_cost false e) e
  else None.


(** The contract of the deep comparison: a strict total order whose
    equivalence is structural equality. *)
Definition compare_total_order (cmp : Expr -> Expr -> Z) : Prop :=
  (forall a b, cmp a b = 0 <-> a = b) /\
  (forall a b, cmp a b < 0 <-> 0 < cmp b a) /\
  (forall a b c, cmp a b < 0 -> cmp b c < 0 -> cmp a c < 0).

Hypothesis Compare_order : compare_total_order Compare.

Lemma ExprLess_equiv x y : ExprLess x y = false -> ExprLess y x = false -> x = y.
Proof.
  destruct Compare_order as (Heq & Hanti & _).
  unfold ExprLess. intros H1%Z.ltb_ge H2%Z.ltb_ge.
  apply Heq. destruct (Z.lt_total (Compare x y) 0) as [?|[?|Hgt]]; [lia|done|].
  apply Hanti in Hgt. lia.
Qed.

Lemma ExprLess_irrefl x : ExprLess x x = false.
Proof.
  destruct Compare_order as (Heq & _). unfold ExprLess.
  apply Z.ltb_ge. by rewrite (proj2 (Heq x x)).
Qed.

Lemma ExprLess_trans x y z :
  ExprLess x y = true -> ExprLess y z = true -> ExprLess x z = true.
Proof.
  destruct Compare_order as (_ & _ & Htr). unfold ExprLess.
  rewrite !Z.ltb_lt. apply Htr.
Qed.

Lemma ExprLess_asym x y : ExprLess x y = true -> ExprLess y x = false.
Proof.
  destruct Compare_order as (_ & Hanti & _). unfold ExprLess.
  rewrite Z.ltb_lt, Z.ltb_ge. intros H. apply Hanti in H.
  destruct (Z.lt_total (Compare y x) 0) as [Hlt|[?|?]]; [|lia|lia].
  apply Hanti in Hlt. lia.
Qed.

Lemma elem_of_set_union x l1 l2 :
  x ∈ set_union l1 l2 <-> x ∈ l1 \/ x ∈ l2.
Proof.
  revert l2. induction l1 as [|a l1 IH]; intros l2.
  - destruct l2; simpl; rewrite ?elem_of_nil; tauto.
  - induction l2 as [|b l2 IH2]; simpl.
    + rewrite elem_of_nil. tauto.
    + destruct (ExprLess b a) eqn:Hba; [|destruct (ExprLess a b) eqn:Hab].
      * rewrite !elem_of_cons. simpl in IH2. rewrite IH2, !elem_of_cons. tauto.
      * rewrite !elem_of_cons, IH, !elem_of_cons. tauto.
      * rewrite (ExprLess_equiv a b) by done.
        rewrite !elem_of_cons, IH. tauto.
Qed.

Lemma elem_of_set_intersection x l1 l2 :
  x ∈ set_intersection l1 l2 -> x ∈ l1 /\ x ∈ l2.
Proof.
  revert l2. induction l1 as [|a l1 IH]; intros l2.
  - destruct l2; simpl; by rewrite ?elem_of_nil.
  - induction l2 as [|b l2 IH2]; simpl.
    + by rewrite elem_of_nil.
    + destruct (ExprLess a b) eqn:Hab; [|destruct (ExprLess b a) eqn:Hba].
      * intros [? ?]%IH. rewrite !elem_of_cons in *. tauto.
      * intros [? ?]%IH2. rewrite !elem_of_cons in *. tauto.
      * rewrite (ExprLess_equiv a b) by done.
        rewrite !elem_of_cons. intros [->|[? ?]%IH]; tauto.
Qed.

Lemma elem_of_set_difference x l1 l2 :
  x ∈ set_difference l1 l2 -> x ∈ l1.
Proof.
  revert l2. induction l1 as [|a l1 IH]; intros l2.
  - destruct l2; simpl; by rewrite ?elem_of_nil.
  - induction l2 as [|b l2 IH2]; simpl.
    + done.
    + destruct (ExprLess a b) eqn:Hab; [|destruct (ExprLess b a) eqn:Hba].
      * rewrite !elem_of_cons. intros [->|?%IH]; tauto.
      * apply IH2.
      * intros ?%IH. rewrite elem_of_cons. tauto.
Qed.

Lemma elem_of_set_difference_or x l1 l2 :
  x ∈ l1 -> x ∈ set_difference l1 l2 \/ x ∈ l2.
Proof.
  revert l2. induction l1 as [|a l1 IH]; intros l2.
  - by rewrite elem_of_nil.
  - induction l2 as [|b l2 IH2]; simpl.
    + tauto.
    + destruct (ExprLess a b) eqn:Hab; [|destruct (ExprLess b a) eqn:Hba].
      * rewrite !elem_of_cons. intros [->|[?|?]%(IH (b :: l2))]; try tauto.
        rewrite elem_of_cons in *. tauto.
      * intros [?|?]%IH2; rewrite ?elem_of_cons; tauto.
      * rewrite (ExprLess_equiv a b) by done.
        rewrite !elem_of_cons. intros [->|[?|?]%(IH l2)]; tauto.
Qed.


Lemma canon_eqb_0 t z : (canon t z =? 0) = (z =? 0).
Proof. unfold canon. destruct (is_bool t); [|done]. by destruct (z =? 0). Qed.

Lemma beval_And σ a b : beval σ (a && b)%E = beval σ a && beval σ b.
Proof. unfold beval. rewrite eval_And. by destruct (eval σ a =? 0), (eval σ b =? 0). Qed.

Lemma beval_Or σ a b : beval σ (a || b)%E = beval σ a || beval σ b.
Proof. unfold beval. rewrite eval_Or. by destruct (eval σ a =? 0), (eval σ b =? 0). Qed.

Lemma beval_Not σ a : beval σ (Not a) = negb (beval σ a).
Proof. unfold beval. rewrite eval_Not. by destruct (eval σ a =? 0). Qed.

Lemma beval_Mul σ a b : beval σ (a * b)%E = beval σ a && beval σ b.
Proof.
  unfold beval. simpl. rewrite canon_eqb_0.
  destruct (Z.eqb_spec (eval σ a) 0), (Z.eqb_spec (eval σ b) 0),
    (Z.eqb_spec (eval σ a * eval σ b) 0); simpl; try done; nia.
Qed.

Lemma beval_Select σ c t f :
  beval σ (Select c t f) = if beval σ c then beval σ t else beval σ f.
Proof.
  unfold beval. simpl. rewrite canon_eqb_0. by destruct (eval σ c =? 0).
Qed.

Lemma beval_make_const_1 σ t : beval σ (make_const t 1) = true.
Proof. unfold beval. rewrite eval_make_const. unfold canon. by destruct (is_bool t). Qed.

Lemma beval_const_true σ : beval σ const_true = true.
Proof. done. Qed.

Lemma beval_const_false σ : beval σ const_false = false.
Proof. done. Qed.

(** Every condition of the list holds. *)
Definition all_hold (σ : Env) (l : list Expr) : Prop :=
  Forall (fun e => beval σ e = true) l.

Lemma beval_FO_to_expr σ r :
  beval σ (FO_to_expr r) = true <->
  all_hold σ (atomic_formulas r) /\ beval σ (rest r) = true.
Proof.
  destruct r as [atoms rst]. unfold FO_to_expr, all_hold. simpl.
  revert rst. induction atoms as [|a atoms IH]; intros rst; simpl.
  - rewrite Forall_nil. tauto.
  - rewrite IH, Forall_cons, beval_And, andb_true_iff. tauto.
Qed.

Lemma beval_All σ l : beval σ (All l) = true <-> all_hold σ l.
Proof.
  unfold All, all_hold. destruct l as [|e l].
  - rewrite Forall_nil. by rewrite beval_const_true.
  - rewrite Forall_cons. revert e. induction l as [|x l IH]; intros e; simpl.
    + rewrite Forall_nil. tauto.
    + rewrite IH, beval_And, andb_true_iff, Forall_cons. tauto.
Qed.

Lemma all_hold_set_union σ l1 l2 :
  all_hold σ (set_union l1 l2) <-> all_hold σ l1 /\ all_hold σ l2.
Proof.
  unfold all_hold. rewrite !Forall_forall. split.
  - intros H. split; intros x Hx; apply H, elem_of_set_union; auto.
  - intros [H1 H2] x [?|?]%elem_of_set_union; auto.
Qed.

(** The round trip of the functor: the conjunction of the atomic formulas and
    the residual has the truth value of the expression. *)
Lemma FactorOut_VisitExpr_equiv fuel : forall e r σ,
  FactorOut_VisitExpr fuel e = Some r ->
  (beval σ (FO_to_expr r) = true <-> beval σ e = true).
Proof.
  induction fuel as [|fuel IH]; intros e r σ; [done|].
  assert (forall e, beval σ (FO_to_expr (Atomic_ e)) = true <-> beval σ e = true) as Hatom.
  { intros e'. rewrite beval_FO_to_expr. unfold Atomic_, all_hold. simpl.
    rewrite Forall_singleton, beval_make_const_1. tauto. }
  destruct e; simpl; try done; try (intros [= <-]; apply Hatom).
  - destruct op; try done; try (intros [= <-]; apply Hatom).
    + intros H. rewrite (IH _ _ σ H). by rewrite beval_And, beval_Mul.
    + destruct (FactorOut_VisitExpr fuel e1) as [ra|] eqn:Ea; [|done].
      destruct (FactorOut_VisitExpr fuel e2) as [rb|] eqn:Eb; [|done].
      simpl. intros [= <-].
      rewrite beval_FO_to_expr. simpl.
      rewrite all_hold_set_union, !beval_And, !andb_true_iff.
      rewrite <- (IH _ _ σ Ea), <- (IH _ _ σ Eb), !beval_FO_to_expr. tauto.
    + destruct (FactorOut_VisitExpr fuel e1) as [ra|] eqn:Ea; [|done].
      destruct (FactorOut_VisitExpr fuel e2) as [rb|] eqn:Eb; [|done].
      simpl. intros [= <-].
      rewrite beval_FO_to_expr. simpl.
      rewrite !beval_Or, !orb_true_iff.
      rewrite <- (IH _ _ σ Ea), <- (IH _ _ σ Eb), !beval_FO_to_expr. simpl.
      unfold all_hold. rewrite !Forall_forall.
      split.
      * intros [HI [[HA Hra]|[HB Hrb]]]; [left|right]; (split; [|done]);
          intros x Hx.
        -- destruct (elem_of_set_difference_or x _ (set_intersection
             (atomic_formulas ra) (atomic_formulas rb)) Hx); auto.
        -- destruct (elem_of_set_difference_or x _ (set_intersection
             (atomic_formulas ra) (atomic_formulas rb)) Hx); auto.
      * intros [[HA Hra]|[HB Hrb]].
        -- split; [intros x [? ?]%elem_of_set_intersection; auto|].
           left. split; [|done]. intros x ?%elem_of_set_difference. auto.
        -- split; [intros x [? ?]%elem_of_set_intersection; auto|].
           right. split; [|done]. intros x ?%elem_of_set_difference. auto.
  - destruct e; try (intros [= <-]; apply Hatom).
    + destruct op; try (intros [= <-]; apply Hatom).
      * intros H. rewrite (IH _ _ σ H).
        rewrite beval_Or, !beval_Not, beval_And.
        by destruct (beval σ e1), (beval σ e2).
      * intros H. rewrite (IH _ _ σ H).
        rewrite beval_And, !beval_Not, beval_Or.
        by destruct (beval σ e1), (beval σ e2).
    + intros H. rewrite (IH _ _ σ H).
      rewrite beval_And, !beval_Or, !beval_Not, beval_Select.
      by destruct (beval σ e1), (beval σ e2), (beval σ e3).
  - intros H. rewrite (IH _ _ σ H).
    rewrite beval_Or, !beval_And, beval_Not, beval_Select.
    by destruct (beval σ e1), (beval σ e2), (beval σ e3).
Qed.


(** What the functor returns as an atomic formula: a variable, a call, an
    integer constant, a comparison, or a negation the functor does not push
    inward (of anything but [Or], [And] and [Select]). *)
Definition atomic_shape (e : Expr) : bool :=
  match e with
  | VarNode _ | Call _ _ _ _ | IntImm _ _ | UIntImm _ _ => true
  | Bin op _ _ => is_comparison op
  | Not a =>
      match a with
      | Bin Or _ _ | Bin And _ _ | Select _ _ _ => false
      | _ => true
      end
  | _ => false
  end.

(** The expressions on which the functor meets only node kinds it has a case
    for, visiting [e], or [Not e] when [neg]. *)
Fixpoint FactorOut_supported (neg : bool) (e : Expr) : bool :=
  match e with
  | VarNode _ | Call _ _ _ _ | IntImm _ _ | UIntImm _ _ => true
  | Bin op a b =>
      match op with
      | EQ | NE | LE | LT | GE | GT => true
      | And | Or => FactorOut_supported neg a && FactorOut_supported neg b
      | Mul => neg || (FactorOut_supported false a && FactorOut_supported false b)
      | _ => neg
      end
  | Select c t f =>
      FactorOut_supported false c && FactorOut_supported true c &&
      FactorOut_supported neg t && FactorOut_supported neg f
  | Not a => neg || FactorOut_supported true a
  | StringImm _ | Cast _ _ => neg
  end.

Lemma FactorOut_VisitExpr_shape fuel : forall e r,
  FactorOut_VisitExpr fuel e = Some r ->
  Forall (fun a => atomic_shape a = true) (atomic_formulas r).
Proof.
  induction fuel as [|fuel IH]; intros e r; [done|].
  assert (forall e, atomic_shape e = true ->
            Forall (fun a => atomic_shape a = true) (atomic_formulas (Atomic_ e))) as Hatom.
  { intros e' He'. simpl. by apply Forall_singleton. }
  destruct e; simpl; try done; try (intros [= <-]; by apply Hatom).
  - destruct op; try done; try (intros [= <-]; by apply Hatom); try apply IH.
    + destruct (FactorOut_VisitExpr fuel e1) as [ra|] eqn:Ea; [|done].
      destruct (FactorOut_VisitExpr fuel e2) as [rb|] eqn:Eb; [|done].
      simpl. intros [= <-]. simpl. apply IH in Ea, Eb.
      rewrite Forall_forall in *. intros x [?|?]%elem_of_set_union; auto.
    + destruct (FactorOut_VisitExpr fuel e1) as [ra|] eqn:Ea; [|done].
      destruct (FactorOut_VisitExpr fuel e2) as [rb|] eqn:Eb; [|done].
      simpl. intros [= <-]. simpl. apply IH in Ea, Eb.
      rewrite Forall_forall in *. intros x [? ?]%elem_of_set_intersection; auto.
  - destruct e; try (intros [= <-]; by apply Hatom); try apply IH.
    destruct op; try (intros [= <-]; by apply Hatom); apply IH.
  - apply IH.
Qed.

(** Strictly increasing for [ExprLess]. *)
Definition ExprLess_sorted (l : list Expr) : Prop :=
  StronglySorted (fun x y => ExprLess x y = true) l.

Lemma ExprLess_sorted_cons x l :
  ExprLess_sorted (x :: l) <->
  Forall (fun y => ExprLess x y = true) l /\ ExprLess_sorted l.
Proof.
  split; [intros H; inversion H; subst; auto | intros [? ?]; by constructor].
Qed.

Lemma set_union_sorted l1 l2 :
  ExprLess_sorted l1 -> ExprLess_sorted l2 -> ExprLess_sorted (set_union l1 l2).
Proof.
  revert l2. induction l1 as [|a l1 IH]; intros l2 H1 H2.
  - by destruct l2.
  - induction l2 as [|b l2 IH2]; [done|]. simpl.
    apply ExprLess_sorted_cons in H1 as [Ha H1'].
    apply ExprLess_sorted_cons in H2 as [Hb H2'].
    destruct (ExprLess b a) eqn:Hba; [|destruct (ExprLess a b) eqn:Hab].
    + apply ExprLess_sorted_cons. split.
      * rewrite Forall_forall in *.
        intros x [Hx|Hx]%(elem_of_set_union x (a :: l1) l2); [|auto].
        apply elem_of_cons in Hx as [->|Hx]; [done|].
        eapply ExprLess_trans; eauto.
      * by apply IH2.
    + apply ExprLess_sorted_cons. split.
      * rewrite Forall_forall in *.
        intros x [Hx|Hx]%elem_of_set_union; [auto|].
        apply elem_of_cons in Hx as [->|Hx]; [done|].
        eapply ExprLess_trans; eauto.
      * apply IH; [done|]. apply ExprLess_sorted_cons; auto.
    + pose proof (ExprLess_equiv a b Hab Hba) as ->.
      apply ExprLess_sorted_cons. split.
      * rewrite Forall_forall in *. intros x [Hx|Hx]%elem_of_set_union; auto.
      * by apply IH.
Qed.

Lemma set_intersection_sorted l1 l2 :
  ExprLess_sorted l1 -> ExprLess_sorted l2 ->
  ExprLess_sorted (set_intersection l1 l2).
Proof.
  revert l2. induction l1 as [|a l1 IH]; intros l2 H1 H2.
  - destruct l2; constructor.
  - induction l2 as [|b l2 IH2]; [constructor|]. simpl.
    apply ExprLess_sorted_cons in H1 as [Ha H1'].
    apply ExprLess_sorted_cons in H2 as [Hb H2'].
    destruct (ExprLess a b) eqn:Hab; [|destruct (ExprLess b a) eqn:Hba].
    + apply IH; [done|]. apply ExprLess_sorted_cons; auto.
    + by apply IH2.
    + apply ExprLess_sorted_cons. split; [|by apply IH].
      rewrite Forall_forall in *. intros x [? ?]%elem_of_set_intersection. auto.
Qed.

Lemma FactorOut_VisitExpr_sorted fuel : forall e r,
  FactorOut_VisitExpr fuel e = Some r -> ExprLess_sorted (atomic_formulas r).
Proof.
  induction fuel as [|fuel IH]; intros e r; [done|].
  assert (forall e, ExprLess_sorted (atomic_formulas (Atomic_ e))) as Hatom.
  { intros e'. simpl. repeat constructor. }
  destruct e; simpl; try done; try (intros [= <-]; by apply Hatom).
  - destruct op; try done; try (intros [= <-]; by apply Hatom); try apply IH.
    + destruct (FactorOut_VisitExpr fuel e1) as [ra|] eqn:Ea; [|done].
      destruct (FactorOut_VisitExpr fuel e2) as [rb|] eqn:Eb; [|done].
      simpl. intros [= <-]. simpl. apply set_union_sorted; eauto.
    + destruct (FactorOut_VisitExpr fuel e1) as [ra|] eqn:Ea; [|done].
      destruct (FactorOut_VisitExpr fuel e2) as [rb|] eqn:Eb; [|done].
      simpl. intros [= <-]. simpl. apply set_intersection_sorted; eauto.
  - destruct e; try (intros [= <-]; by apply Hatom); try apply IH.
    destruct op; try (intros [= <-]; by apply Hatom); apply IH.
  - apply IH.
Qed.


Lemma FactorOut_VisitExpr_And fuel a b :
  is_Some (FactorOut_VisitExpr fuel a) -> is_Some (FactorOut_VisitExpr fuel b) ->
  is_Some (FactorOut_VisitExpr (S fuel) (a && b)%E).
Proof. intros [ra Ha] [rb Hb]. simpl. rewrite Ha, Hb. by eexists. Qed.

Lemma FactorOut_VisitExpr_Or fuel a b :
  is_Some (FactorOut_VisitExpr fuel a) -> is_Some (FactorOut_VisitExpr fuel b) ->
  is_Some (FactorOut_VisitExpr (S fuel) (a || b)%E).
Proof. intros [ra Ha] [rb Hb]. simpl. rewrite Ha, Hb. by eexists. Qed.

(** The budget [FactorOut_cost] suffices: on a supported expression the
    functor returns. *)
Lemma FactorOut_VisitExpr_total e :
  (forall fuel, FactorOut_supported false e = true ->
     (FactorOut_cost false e <= fuel)%nat -> is_Some (FactorOut_VisitExpr fuel e)) /\
  (forall fuel, FactorOut_supported true e = true ->
     (FactorOut_cost true e <= fuel)%nat -> is_Some (FactorOut_VisitExpr fuel (Not e))).
Proof.
  induction e as [v|t n|t n|s|t e IHe|op a IHa b IHb|a IHa|c IHc t IHt f IHf|t name args ct].
  1-5, 9: split; intros [|fuel] Hs Hc; simpl in *; try lia; try done; by eexists.
  - destruct IHa as [IHa1 IHa2], IHb as [IHb1 IHb2].
    split; intros fuel Hs Hc; destruct op; simpl in Hs, Hc; try done;
      (destruct fuel as [|fuel]; [lia|]); bsplit; try (simpl; by eexists).
    + destruct fuel as [|fuel]; [lia|].
      change (is_Some (FactorOut_VisitExpr (S fuel) (a && b)%E)).
      apply FactorOut_VisitExpr_And; [apply IHa1 | apply IHb1]; (done || lia).
    + apply FactorOut_VisitExpr_And; [apply IHa1 | apply IHb1]; (done || lia).
    + apply FactorOut_VisitExpr_Or; [apply IHa1 | apply IHb1]; (done || lia).
    + destruct fuel as [|fuel]; [lia|].
      change (is_Some (FactorOut_VisitExpr (S fuel) (Not a || Not b)%E)).
      apply FactorOut_VisitExpr_Or; [apply IHa2 | apply IHb2]; (done || lia).
    + destruct fuel as [|fuel]; [lia|].
      change (is_Some (FactorOut_VisitExpr (S fuel) (Not a && Not b)%E)).
      apply FactorOut_VisitExpr_And; [apply IHa2 | apply IHb2]; (done || lia).
  - destruct IHa as [IHa1 IHa2].
    split; intros fuel Hs Hc; simpl in *.
    + by apply IHa2.
    + destruct fuel as [|fuel]; [lia|]. simpl. by eexists.
  - destruct IHc as [IHc1 IHc2], IHt as [IHt1 IHt2], IHf as [IHf1 IHf2].
    split; intros [|[|[|fuel]]] Hs Hc; simpl in Hs, Hc; try lia; bsplit.
    + change (is_Some (FactorOut_VisitExpr (S (S fuel))
                         ((c && t) || (Not c && f))%E)).
      apply FactorOut_VisitExpr_Or; apply FactorOut_VisitExpr_And;
        [apply IHc1 | apply IHt1 | apply IHc2 | apply IHf1]; (done || lia).
    + change (is_Some (FactorOut_VisitExpr (S (S fuel))
                         ((Not c || Not t) && (c || Not f))%E)).
      apply FactorOut_VisitExpr_And; apply FactorOut_VisitExpr_Or;
        [apply IHc2 | apply IHt2 | apply IHc1 | apply IHf2]; (done || lia).
Qed.

Lemma FactorOutAtomicFormulas_total e :
  is_bool (type_of e) = true -> FactorOut_supported false e = true ->
  is_Some (FactorOutAtomicFormulas e).
Proof.
  intros Hb Hs. unfold FactorOutAtomicFormulas. rewrite Hb.
  by apply FactorOut_VisitExpr_total.
Qed.


(** C5, as far as the code goes.  What [FactorOutAtomicFormulas] guarantees
    on the boolean expressions its functor has cases for: it returns; the atomic formulas are strictly
    increasing for the deep comparison; each is a variable, a call, a
    constant, a comparison or a negation that is not pushed inward (so never
    an [And] or an [Or], but possibly a [Not]); and the conjunction of the
    atomic formulas with the residual has the truth value of the expression
    under every assignment. *)
Theorem FactorOutAtomicFormulas_spec (e : Expr) :
  is_bool (type_of e) = true ->
  FactorOut_supported false e = true ->
  exists r,
    FactorOutAtomicFormulas e = Some r /\
    ExprLess_sorted (atomic_formulas r) /\
    Forall (fun a => atomic_shape a = true) (atomic_formulas r) /\
    forall σ, beval σ (FO_to_expr r) = beval σ e.
Proof.
  intros Hb Hs.
  destruct (FactorOutAtomicFormulas_total e Hb Hs) as [r Hr].
  exists r. split; [done|].
  unfold FactorOutAtomicFormulas in Hr. rewrite Hb in Hr.
  split; [by eapply FactorOut_VisitExpr_sorted|].
  split; [by eapply FactorOut_VisitExpr_shape|].
  intros σ. apply eq_true_iff_eq. by eapply FactorOut_VisitExpr_equiv.
Qed.

(** Whenever [FactorOutAtomicFormulas] returns, the round trip holds. *)
Lemma FactorOutAtomicFormulas_equiv e r σ :
  FactorOutAtomicFormulas e = Some r ->
  beval σ (FO_to_expr r) = beval σ e.
Proof.
  unfold FactorOutAtomicFormulas. destruct (is_bool (type_of e)); [|done].
  intros H. apply eq_true_iff_eq. by eapply FactorOut_VisitExpr_equiv.
Qed.


(** *** ImplicationNotContainingVars *)

(** [ImplicationNotContainingVars]: [None] is the failed check that [cond]
    is of type [Bool]. *)
Fixpoint ImplicationNotContainingVars (cond : Expr) (vars : gset Var)
  : option (Expr * Expr) :=
  if is_bool (type_of cond) then
    match cond with
    | Bin And a b =>
        pair_a ← ImplicationNotContainingVars a vars;
        pair_b ← ImplicationNotContainingVars b vars;
        Some ((pair_a.1 && pair_b.1)%E, (pair_a.2 && pair_b.2)%E)
    | Bin Or a b =>
        pair_a ← ImplicationNotContainingVars a vars;
        pair_b ← ImplicationNotContainingVars b vars;
        Some ((pair_a.1 || pair_b.1)%E,
              ((pair_a.1 || pair_b.2) && (pair_b.1 || pair_a.2)
               && (pair_a.2 || pair_b.2))%E)
    | _ =>
        if negb (ExprUseVar cond vars) then Some (cond, const_true)
        else Some (const_true, cond)
    end
  else None.

Lemma ImplicationNotContainingVars_leaf (cond : Expr) (vars : gset Var) :
  is_bool (type_of cond) = true ->
  match cond with Bin And _ _ | Bin Or _ _ => False | _ => True end ->
  exists outer inner,
    ImplicationNotContainingVars cond vars = Some (outer, inner) /\
    (forall σ, beval σ cond = beval σ (outer && inner)%E) /\
    ExprUseVar outer vars = false.
Proof.
  intros Hb Hleaf.
  assert (ImplicationNotContainingVars cond vars =
            if negb (ExprUseVar cond vars) then Some (cond, const_true)
            else Some (const_true, cond)) as ->.
  { destruct cond as [| | | | |[] | | |]; simpl in *; rewrite ?Hb; done. }
  destruct (ExprUseVar cond vars) eqn:Huse; simpl;
    do 2 eexists; (split; [reflexivity|]); (split; [|done]);
    intros σ; by rewrite beval_And, ?beval_const_true, ?andb_true_r.
Qed.

(** C10.  For every well-typed boolean expression [cond] and every set of
    variables [vars], [ImplicationNotContainingVars] returns a pair
    [(outer, inner)]; under every assignment [cond] has the truth value of
    [outer && inner]; and no variable of [vars] occurs in [outer]. *)
Theorem ImplicationNotContainingVars_spec (cond : Expr) (vars : gset Var) :
  wt cond = true -> is_bool (type_of cond) = true ->
  exists outer inner,
    ImplicationNotContainingVars cond vars = Some (outer, inner) /\
    (forall σ, beval σ cond = beval σ (outer && inner)%E) /\
    ExprUseVar outer vars = false.
Proof.
  induction cond as [v|t n|t n|s|t e IHe|op a IHa b IHb|a IHa|c IHc t IHt f IHf|t name args ct];
    intros Hwt Hb; try (by apply ImplicationNotContainingVars_leaf).
  simpl in Hwt. bsplit.
  destruct op; try (by apply ImplicationNotContainingVars_leaf); simpl in *; bsplit.
  - destruct IHa as (a1 & a2 & -> & Ha & Hua); [done..|].
    destruct IHb as (b1 & b2 & -> & Hb' & Hub); [done..|].
    simpl. do 2 eexists. split; [reflexivity|]. split; [|simpl; by rewrite Hua, Hub].
    intros σ. rewrite !beval_And, Ha, Hb', !beval_And.
    by destruct (beval σ a1), (beval σ a2), (beval σ b1), (beval σ b2).
  - destruct IHa as (a1 & a2 & -> & Ha & Hua); [done..|].
    destruct IHb as (b1 & b2 & -> & Hb' & Hub); [done..|].
    simpl. do 2 eexists. split; [reflexivity|]. split; [|simpl; by rewrite Hua, Hub].
    intros σ. rewrite !beval_And, !beval_Or, Ha, Hb', !beval_And.
    by destruct (beval σ a1), (beval σ a2), (beval σ b1), (beval σ b2).
Qed.


(** *** RemoveRedundantInequalities *)

(** [HasSideEffect]: the IR analysis that finds impure calls. *)
Variable HasSideEffect : Expr -> bool.

(** The constructor of [RemoveRedundantInequalitiesMutator] simplifies the
    known conditions it is given; the result is the member [known_]. *)
Definition RemoveRedundantInequalitiesMutator (known : list Expr) : list Expr :=
  map (fun cond => SuperSimplify cond ∅) known.

(** [MutateAtomic_] *)
Definition MutateAtomic_ (known_ : list Expr) (e : Expr) : Expr :=
  let simplified := SuperSimplify e ∅ in
  if existsb (fun other => Equal simplified other) known_ then const_true
  else simplified.

(** [RemoveRedundantInequalitiesMutator::Mutate] with the member [known_] as
    an argument.  [None] is the fatal error of [FactorOutAtomicFormulas] on
    the simplified condition.  The nodes without a case of their own are
    rebuilt from their mutated children (the default of [IRMutator]). *)
Fixpoint RRI_Mutate (known_ : list Expr) (e : Expr) : option Expr :=
  match e with
  | Select condition true_value false_value =>
      let has_side_effect := HasSideEffect e in
      c ← RRI_Mutate known_ condition;
      let new_cond := SuperSimplify c ∅ in
      if is_one new_cond && negb has_side_effect then
        RRI_Mutate known_ true_value
      else if is_zero new_cond && negb has_side_effect then
        RRI_Mutate known_ false_value
      else
        fo ← FactorOutAtomicFormulas new_cond;
        let new_known := known_ ++ atomic_formulas fo in
        let new_mutator := RemoveRedundantInequalitiesMutator new_known in
        t ← RRI_Mutate new_mutator true_value;
        f ← RRI_Mutate known_ false_value;
        Some (Select new_cond t f)
  | Call ty name args ct =>
      if String.eqb name tvm_if_then_else then
        match args with
        | [a0; a1; a2] =>
            c ← RRI_Mutate known_ a0;
            let new_cond := SuperSimplify c ∅ in
            if is_one new_cond then RRI_Mutate known_ a1
            else if is_zero new_cond then RRI_Mutate known_ a2
            else
              fo ← FactorOutAtomicFormulas new_cond;
              let new_known := known_ ++ atomic_formulas fo in
              let new_mutator := RemoveRedundantInequalitiesMutator new_known in
              t ← RRI_Mutate new_mutator a1;
              f ← RRI_Mutate known_ a2;
              Some (if_then_else new_cond t f)
        | _ => args' ← mapM (RRI_Mutate known_) args; Some (Call ty name args' ct)
        end
      else
        args' ← mapM (RRI_Mutate known_) args; Some (Call ty name args' ct)
  | Bin op a b =>
      match op with
      | EQ | NE | LT | LE | GT | GE => Some (MutateAtomic_ known_ e)
      | _ =>
          a' ← RRI_Mutate known_ a;
          b' ← RRI_Mutate known_ b;
          Some (Bin op a' b')
      end
  | VarNode _ | IntImm _ _ | UIntImm _ _ | StringImm _ => Some e
  | Cast t a => a' ← RRI_Mutate known_ a; Some (Cast t a')
  | Not a => a' ← RRI_Mutate known_ a; Some (Not a')
  end.

(** [RemoveRedundantInequalities] *)
Definition RemoveRedundantInequalities (expr : Expr) (known : list Expr) : option Expr :=
  RRI_Mutate (RemoveRedundantInequalitiesMutator known) expr.


(** What the [Select] case of the mutator does, for a condition that mutates
    to [c'] and simplifies to [new_cond]: with no side effect in the node, a
    condition that is the constant true (false) collapses the node to the
    mutated true (false) branch; in every other case the node is kept, its
    true branch mutated under the known facts extended with the atomic
    formulas of [new_cond], its false branch under the known facts as they
    were. *)
Lemma RRI_Mutate_Select (known_ : list Expr) (c t f c' : Expr) :
  RRI_Mutate known_ c = Some c' ->
  let e := Select c t f in
  let new_cond := SuperSimplify c' ∅ in
  (HasSideEffect e = false -> is_one new_cond = true ->
     RRI_Mutate known_ e = RRI_Mutate known_ t) /\
  (HasSideEffect e = false -> is_one new_cond = false -> is_zero new_cond = true ->
     RRI_Mutate known_ e = RRI_Mutate known_ f) /\
  (HasSideEffect e = true \/ (is_one new_cond = false /\ is_zero new_cond = false) ->
     RRI_Mutate known_ e =
       fo ← FactorOutAtomicFormulas new_cond;
       t' ← RRI_Mutate (RemoveRedundantInequalitiesMutator
                          (known_ ++ atomic_formulas fo)) t;
       f' ← RRI_Mutate known_ f;
       Some (Select new_cond t' f')).
Proof.
  intros Hc e new_cond. subst e new_cond.
  cbn [RRI_Mutate]. rewrite Hc. cbn [mbind option_bind].
  split; [|split].
  - by intros -> ->.
  - by intros -> -> ->.
  - intros [-> | [-> ->]]; [|done]. by rewrite !andb_false_r.
Qed.

(** What the [tvm_if_then_else] case does: a condition that simplifies to a
    constant collapses the call whether or not it has a side effect;
    otherwise the call is kept as the [Select] node is. *)
Lemma RRI_Mutate_if_then_else (known_ : list Expr) (ty : DType) (ct : CallType)
    (c t f c' : Expr) :
  RRI_Mutate known_ c = Some c' ->
  let e := Call ty tvm_if_then_else [c; t; f] ct in
  let new_cond := SuperSimplify c' ∅ in
  (is_one new_cond = true -> RRI_Mutate known_ e = RRI_Mutate known_ t) /\
  (is_one new_cond = false -> is_zero new_cond = true ->
     RRI_Mutate known_ e = RRI_Mutate known_ f) /\
  (is_one new_cond = false -> is_zero new_cond = false ->
     RRI_Mutate known_ e =
       fo ← FactorOutAtomicFormulas new_cond;
       t' ← RRI_Mutate (RemoveRedundantInequalitiesMutator
                          (known_ ++ atomic_formulas fo)) t;
       f' ← RRI_Mutate known_ f;
       Some (if_then_else new_cond t' f')).
Proof.
  intros Hc e new_cond. subst e new_cond.
  cbn [RRI_Mutate]. cbn [String.eqb tvm_if_then_else]. rewrite Hc.
  cbn [mbind option_bind].
  split; [|split].
  - by intros ->.
  - by intros -> ->.
  - by intros -> ->.
Qed.

(** C9, amended.  A [Select] node whose condition simplifies to the constant
    true or false collapses to the mutated branch only when the node has no
    side effect; a [tvm_if_then_else] call collapses on such a condition
    whether or not it has a side effect.  A node that does not collapse is
    kept with the simplified condition, its true branch mutated under the
    known facts extended with the atomic formulas of the condition, its
    false branch under the known facts as they were. *)
Theorem RemoveRedundantInequalities_conditional (known_ : list Expr) (ty : DType)
    (ct : CallType) (c t f c' : Expr) :
  RRI_Mutate known_ c = Some c' ->
  let new_cond := SuperSimplify c' ∅ in
  let kept (make : Expr -> Expr -> Expr -> Expr) :=
    fo ← FactorOutAtomicFormulas new_cond;
    t' ← RRI_Mutate (RemoveRedundantInequalitiesMutator (known_ ++ atomic_formulas fo)) t;
    f' ← RRI_Mutate known_ f;
    Some (make new_cond t' f') in
  let sel := Select c t f in
  let ite := Call ty tvm_if_then_else [c; t; f] ct in
  ((HasSideEffect sel = false -> is_one new_cond = true ->
      RRI_Mutate known_ sel = RRI_Mutate known_ t) /\
   (HasSideEffect sel = false -> is_one new_cond = false -> is_zero new_cond = true ->
      RRI_Mutate known_ sel = RRI_Mutate known_ f) /\
   (HasSideEffect sel = true \/ (is_one new_cond = false /\ is_zero new_cond = false) ->
      RRI_Mutate known_ sel = kept Select)) /\
  ((is_one new_cond = true -> RRI_Mutate known_ ite = RRI_Mutate known_ t) /\
   (is_one new_cond = false -> is_zero new_cond = true ->
      RRI_Mutate known_ ite = RRI_Mutate known_ f) /\
   (is_one new_cond = false -> is_zero new_cond = false ->
      RRI_Mutate known_ ite = kept if_then_else)).
Proof.
  intros Hc. split.
  - by apply RRI_Mutate_Select.
  - by apply RRI_Mutate_if_then_else.
Qed.


(** *** EliminateDivMod *)

Inductive DivMode : Type := kTruncDiv | kFloorDiv.

Definition ModImpl (a b : Expr) (mode : DivMode) : Expr :=
  match mode with kTruncDiv => truncmod a b | kFloorDiv => floormod a b end.

Definition DivImpl (a b : Expr) (mode : DivMode) : Expr :=
  match mode with kTruncDiv => truncdiv a b | kFloorDiv => floordiv a b end.

(** [EvalSet(e, var_intsets).cover_range(Range())] for the interval sets of
    the given ranges: the range evaluator, [None] when it infers no range. *)
Variable EvalSet_cover_range : gmap Var Range -> Expr -> option Range.

(** The members of [EliminateDivModMutator].  [expr_to_vars_] is the
    [std::map] from [(mode, expr, value)] to the pair of variables, kept as
    the list of its entries.  [warnings] collects the expressions of the
    [LOG(WARNING)] lines.  A new [Var] node gets a new address: [next_id] is
    the first address not in use. *)
Record EliminateDivModMutator : Type := mkEDM {
  m_substitution : gmap Var Expr;
  m_new_variables : list Var;
  m_conditions : list Expr;
  m_ranges : gmap Var Range;
  idx_ : Z;
  expr_to_vars_ : list ((DivMode * Expr * Z) * (Var * Var));
  warnings : list Expr;
  next_id : N
}.

(** [EliminateDivModMutator::Compare_]: by mode, then by the constant, then
    by the deep comparison of the expressions. *)
Definition Compare_ (p1 p2 : DivMode * Expr * Z) : bool :=
  let mode_lt (m1 m2 : DivMode) :=
    match m1, m2 with kTruncDiv, kFloorDiv => true | _, _ => false end in
  if mode_lt p1.1.1 p2.1.1 then true
  else if mode_lt p2.1.1 p1.1.1 then false
  else if p1.2 <? p2.2 then true
  else if p2.2 <? p1.2 then false
  else Compare p1.1.2 p2.1.2 <? 0.

(** [expr_to_vars_.find(key)]: the entry whose key is equivalent for
    [Compare_]. *)
Definition expr_to_vars_find (m : list ((DivMode * Expr * Z) * (Var * Var)))
    (key : DivMode * Expr * Z) : option (Var * Var) :=
  snd <$> List.find (fun kv => negb (Compare_ kv.1 key) && negb (Compare_ key kv.1)) m.

(** [expr_to_vars_[key] = p] *)
Fixpoint expr_to_vars_set (m : list ((DivMode * Expr * Z) * (Var * Var)))
    (key : DivMode * Expr * Z) (p : Var * Var) : list ((DivMode * Expr * Z) * (Var * Var)) :=
  match m with
  | [] => [(key, p)]
  | kv :: m' =>
      if negb (Compare_ kv.1 key) && negb (Compare_ key kv.1) then (kv.1, p) :: m'
      else kv :: expr_to_vars_set m' key p
  end.

(** [AddNewVarPair].  [e.same_as(mut)] compares node addresses; when the two
    are the same expression the second lookup repeats the first, which has
    failed, so the embedding tests structural equality. *)
Definition AddNewVarPair (st : EliminateDivModMutator) (e mut : Expr) (val : Z)
    (mode : DivMode) : option (Var * Var) * EliminateDivModMutator :=
  match (if negb (Equal e mut) then expr_to_vars_find (expr_to_vars_ st) (mode, mut, val)
         else None) with
  | Some p => (Some p, st)
  | None =>
      let val_e := make_const (type_of e) val in
      let idx := idx_ st + 1 in
      let div_range := EvalSet_cover_range (m_ranges st) (DivImpl mut val_e mode) in
      let mod_range := EvalSet_cover_range (m_ranges st) (ModImpl mut val_e mode) in
      match div_range, mod_range with
      | Some div_range, Some mod_range =>
          let div_var := mkVar (next_id st) (type_of e) in
          let mod_var := mkVar (next_id st + 1) (type_of e) in
          let new_variables := m_new_variables st ++ [div_var; mod_var] in
          let substitution :=
            <[div_var := DivImpl (Substitute mut (m_substitution st)) val_e mode]>
              (m_substitution st) in
          let substitution :=
            <[mod_var := ModImpl (Substitute mut substitution) val_e mode]> substitution in
          let ranges := <[mod_var := mod_range]> (<[div_var := div_range]> (m_ranges st)) in
          let conditions :=
            m_conditions st ++ [(mut == VarNode div_var * val_e + VarNode mod_var)%E] in
          let unsure := negb (CanProve (range_extent mod_range <= val_e)%E ∅) in
          let conditions :=
            if unsure then
              conditions ++
                [Select (e >= make_zero (type_of e))%E
                        (VarNode mod_var >= make_zero (type_of e))%E
                        (VarNode mod_var <= make_zero (type_of e))%E]
            else conditions in
          let warnings :=
            if unsure then warnings st ++ [ModImpl e val_e mode] else warnings st in
          let p := (div_var, mod_var) in
          let e2v := expr_to_vars_set (expr_to_vars_ st) (mode, e, val) p in
          let e2v := if negb (Equal e mut) then expr_to_vars_set e2v (mode, mut, val) p
                     else e2v in
          (Some p,
           mkEDM substitution new_variables conditions ranges idx e2v warnings
                 (next_id st + 2))
      | _, _ =>
          (None,
           mkEDM (m_substitution st) (m_new_variables st) (m_conditions st)
                 (m_ranges st) idx (expr_to_vars_ st)
                 (warnings st ++ [DivImpl e val_e mode]) (next_id st))
      end
  end.


(** The mutation of a list of children, left to right. *)
Fixpoint EDM_Mutate_list
    (Mutate : EliminateDivModMutator -> Expr -> option (Expr * EliminateDivModMutator))
    (st : EliminateDivModMutator) (l : list Expr)
  : option (list Expr * EliminateDivModMutator) :=
  match l with
  | [] => Some ([], st)
  | x :: l' =>
      r ← Mutate st x;
      rs ← EDM_Mutate_list Mutate r.2 l';
      Some (r.1 :: rs.1, rs.2)
  end.

(** The four cases [Mutate_(Div)], [Mutate_(Mod)], [Mutate_(FloorDiv)] and
    [Mutate_(FloorMod)], which differ in the division mode, in the identity
    that removes a negative constant and in the variable of the pair they
    return. *)
Definition EDM_Mutate_divmod
    (Mutate : EliminateDivModMutator -> Expr -> option (Expr * EliminateDivModMutator))
    (st : EliminateDivModMutator) (op : BinOp) (a b : Expr)
  : option (Expr * EliminateDivModMutator) :=
  let ty := type_of (Bin op a b) in
  let mode := match op with Div | Mod => kTruncDiv | _ => kFloorDiv end in
  let pick (p : Var * Var) :=
    match op with Div | FloorDiv => p.1 | _ => p.2 end in
  let general :=
    ra ← Mutate st a;
    rb ← Mutate ra.2 b;
    Some (Bin op ra.1 rb.1, rb.2) in
  match b with
  | IntImm _ imm_value =>
      if negb (imm_value =? 0) then
        if imm_value <? 0 then
          match op with
          | Div =>
              (* x / -c == -(x/c) for truncated division *)
              r ← Mutate st (truncdiv a (make_const ty (- imm_value)));
              Some ((make_zero ty - r.1)%E, r.2)
          | Mod =>
              (* x % -c == x % c for truncated division *)
              Mutate st (truncmod a (make_const ty (- imm_value)))
          | FloorDiv =>
              (* x / -c == (-x) / c for flooring division *)
              Mutate st (floordiv (make_zero ty - a)%E (make_const ty (- imm_value)))
          | _ =>
              (* x % -c == -(-x % c) for flooring division *)
              Mutate st (make_zero ty
                         - floormod (make_zero ty - a)%E (make_const ty (- imm_value)))%E
          end
        else
          match expr_to_vars_find (expr_to_vars_ st) (mode, a, imm_value) with
          | Some p => Some (VarNode (pick p), st)
          | None =>
              ra ← Mutate st a;
              let mutated_a := ra.1 in
              match AddNewVarPair ra.2 a mutated_a imm_value mode with
              | (Some p, st') => Some (VarNode (pick p), st')
              | (None, st') => Some (Bin op mutated_a b, st')
              end
          end
      else general
  | _ => general
  end.

(** [EliminateDivModMutator::Mutate].  The cases for a negative constant
    call the mutator on an expression they build, so the embedding recurses
    on a step budget; [EDM_cost] below always suffices.  Children are
    mutated left to right. *)
Fixpoint EDM_Mutate (fuel : nat) (st : EliminateDivModMutator) (e : Expr)
  : option (Expr * EliminateDivModMutator) :=
  match fuel with
  | O => None
  | S fuel =>
      match e with
      | Bin op a b =>
          match op with
          | Div | Mod | FloorDiv | FloorMod =>
              EDM_Mutate_divmod (EDM_Mutate fuel) st op a b
          | _ =>
              ra ← EDM_Mutate fuel st a;
              rb ← EDM_Mutate fuel ra.2 b;
              Some (Bin op ra.1 rb.1, rb.2)
          end
      | VarNode _ | IntImm _ _ | UIntImm _ _ | StringImm _ => Some (e, st)
      | Cast t a => ra ← EDM_Mutate fuel st a; Some (Cast t ra.1, ra.2)
      | Not a => ra ← EDM_Mutate fuel st a; Some (Not ra.1, ra.2)
      | Select c t f =>
          rc ← EDM_Mutate fuel st c;
          rt ← EDM_Mutate fuel rc.2 t;
          rf ← EDM_Mutate fuel rt.2 f;
          Some (Select rc.1 rt.1 rf.1, rf.2)
      | Call t name args ct =>
          rs ← EDM_Mutate_list (EDM_Mutate fuel) st args;
          Some (Call t name rs.1 ct, rs.2)
      end
  end.

(** A step budget for [EDM_Mutate]: five calls per level of the expression. *)
Fixpoint EDM_cost (e : Expr) : nat :=
  match e with
  | VarNode _ | IntImm _ _ | UIntImm _ _ | StringImm _ => 1
  | Cast _ a | Not a => 1 + EDM_cost a
  | Bin _ a b => 5 + Nat.max (EDM_cost a) (EDM_cost b)
  | Select c t f => 1 + Nat.max (EDM_cost c) (Nat.max (EDM_cost t) (EDM_cost f))
  | Call _ _ args _ => 1 + foldr (fun a n => Nat.max (EDM_cost a) n) 0%nat args
  end.

Record EliminateDivModResult : Type := mkEDMResult {
  res_expr : Expr;
  res_substitution : gmap Var Expr;
  res_new_variables : list Var;
  res_conditions : list Expr;
  res_ranges : gmap Var Range;
  res_warnings : list Expr;
  res_next_id : N
}.

(** [EliminateDivMod]: [heap] is the first node address not in use. *)
Definition EliminateDivMod (expr : Expr) (ranges : gmap Var Range) (heap : N)
  : option EliminateDivModResult :=
  let mutator := mkEDM ∅ [] [] ranges 0 [] [] heap in
  r ← EDM_Mutate (EDM_cost expr) mutator expr;
  Some (mkEDMResult r.1 (m_substitution r.2) (m_new_variables r.2)
          (m_conditions r.2) (m_ranges r.2) (warnings r.2) (next_id r.2)).


(** [EliminateDivModFromDomainConditions]: the conditions of the domain
    without divisions and remainders by constants, over the variables of
    the domain and the new ones.  [None] is the fatal error of
    [FactorOutAtomicFormulas]. *)
Definition EliminateDivModFromDomainConditions (domain : Domain) (heap : N)
  : option DomainTransformation :=
  elim_res ← EliminateDivMod (All (conditions domain)) (ranges domain) heap;
  let new_vranges := res_ranges elim_res in
  let new_axis := Concat (variables domain) (res_new_variables elim_res) in
  let new_cond := (res_expr elim_res && All (res_conditions elim_res))%E in
  fo ← FactorOutAtomicFormulas new_cond;
  let new_domain := mkDomain new_axis (FO_to_array fo) new_vranges in
  let old_to_new := map_of_vars VarNode (variables domain) in
  let new_to_old :=
    foldl (fun m v => <[v := VarNode v]> m) (res_substitution elim_res)
          (variables domain) in
  Some (mkDomainTransformation new_domain domain new_to_old old_to_new).


(** The budget [EDM_cost] suffices: the mutator returns. *)
Lemma EDM_Mutate_leaf fuel st e :
  match e with VarNode _ | IntImm _ _ | UIntImm _ _ | StringImm _ => True | _ => False end ->
  EDM_Mutate (S fuel) st e = Some (e, st).
Proof. by destruct e. Qed.

Lemma EDM_Mutate_make_const fuel st t n :
  EDM_Mutate (S fuel) st (make_const t n) = Some (make_const t n, st).
Proof. apply EDM_Mutate_leaf. unfold make_const. by destruct (is_uint t). Qed.

Lemma EDM_Mutate_sub_zero fuel t a :
  (forall st, is_Some (EDM_Mutate (S fuel) st a)) ->
  forall st, is_Some (EDM_Mutate (S (S fuel)) st (make_zero t - a)%E).
Proof.
  intros Ha st.
  change (is_Some (ra ← EDM_Mutate (S fuel) st (make_zero t);
                   rb ← EDM_Mutate (S fuel) ra.2 a;
                   Some ((ra.1 - rb.1)%E, rb.2))).
  unfold make_zero. rewrite EDM_Mutate_make_const. cbn [mbind option_bind snd fst].
  destruct (Ha st) as [r ->]. by eexists.
Qed.

Lemma EDM_Mutate_divmod_nonneg fuel op a b :
  match op with Div | Mod | FloorDiv | FloorMod => True | _ => False end ->
  match b with IntImm _ n => 0 <= n | _ => True end ->
  (forall st, is_Some (EDM_Mutate fuel st a)) ->
  (forall st, is_Some (EDM_Mutate fuel st b)) ->
  forall st, is_Some (EDM_Mutate (S fuel) st (Bin op a b)).
Proof.
  intros Hop Hb Ha Hb' st.
  assert (is_Some (ra ← EDM_Mutate fuel st a; rb ← EDM_Mutate fuel ra.2 b;
                   Some (Bin op ra.1 rb.1, rb.2))) as Hgen.
  { destruct (Ha st) as [ra ->]. simpl. destruct (Hb' ra.2) as [rb ->]. by eexists. }
  assert (EDM_Mutate (S fuel) st (Bin op a b)
          = EDM_Mutate_divmod (EDM_Mutate fuel) st op a b) as -> by by destruct op.
  unfold EDM_Mutate_divmod.
  destruct b as [|tb n| | | | | | |]; try done.
  destruct (n =? 0) eqn:E0; [done|]. cbn [negb].
  destruct (Z.ltb_spec n 0); [lia|].
  destruct (expr_to_vars_find _ _); [by eexists|].
  destruct (Ha st) as [ra ->]. cbn [mbind option_bind].
  destruct (AddNewVarPair _ _ _ _ _) as [[p|] st']; by eexists.
Qed.

Lemma make_const_nonneg t n :
  0 <= n -> match make_const t n with IntImm _ n => 0 <= n | _ => True end.
Proof. intros Hn. unfold make_const. by destruct (is_uint t). Qed.

Lemma EDM_Mutate_total e : forall fuel st,
  (EDM_cost e <= fuel)%nat -> is_Some (EDM_Mutate fuel st e).
Proof.
  induction e as [v|t n|t n|s|t e IHe|op a b IHa IHb|a IHa|c t f IHc IHt IHf|t name args ct IHargs]
    using Expr_ind_strong; intros [|fuel] st Hc; simpl in Hc; try lia.
  1-4: by eexists.
  - cbn [EDM_Mutate]. destruct (IHe fuel st) as [r ->]; [lia|]. by eexists.
  - assert (forall st, is_Some (ra ← EDM_Mutate fuel st a; rb ← EDM_Mutate fuel ra.2 b;
                     Some (Bin op ra.1 rb.1, rb.2))) as Hgen.
    { intros st0. destruct (IHa fuel st0) as [ra ->]; [lia|]. simpl.
      destruct (IHb fuel ra.2) as [rb ->]; [lia|]. by eexists. }
    destruct op; try apply Hgen.
    all: cbn [EDM_Mutate]; unfold EDM_Mutate_divmod.
    all: destruct b as [| ty n | | | | | | |]; try apply Hgen.
    all: destruct (n =? 0) eqn:E0; [apply Hgen|]; cbn [negb].
    all: destruct (Z.ltb_spec n 0) as [Hneg|Hpos];
      [|destruct (expr_to_vars_find _ _); [by eexists|];
        destruct (IHa fuel st) as [ra ->]; [lia|]; cbn [mbind option_bind];
        destruct (AddNewVarPair _ _ _ _ _) as [[p|] st']; by eexists].
    all: destruct fuel as [|[|[|fuel]]]; try lia.
    + destruct (EDM_Mutate_divmod_nonneg (S (S fuel)) Div a
                 (make_const (type_of (Bin Div a (IntImm ty n))) (- n))
                 I (make_const_nonneg _ (- n) ltac:(lia))
                 (fun st => IHa (S (S fuel)) st ltac:(lia))
                 (fun st => ltac:(rewrite EDM_Mutate_make_const; by eexists)) st)
        as [r Hr].
      unfold truncdiv. rewrite Hr. by eexists.
    + apply (EDM_Mutate_divmod_nonneg (S (S fuel)) Mod a _
                 I (make_const_nonneg _ (- n) ltac:(lia))
                 (fun st => IHa (S (S fuel)) st ltac:(lia))
                 (fun st => ltac:(rewrite EDM_Mutate_make_const; by eexists)) st).
    + apply (EDM_Mutate_divmod_nonneg (S (S fuel)) FloorDiv _ _
                 I (make_const_nonneg _ (- n) ltac:(lia))).
      * apply EDM_Mutate_sub_zero. intros st0. apply IHa. lia.
      * intros st0. rewrite EDM_Mutate_make_const. by eexists.
    + apply (EDM_Mutate_sub_zero (S fuel)).
      apply (EDM_Mutate_divmod_nonneg (S fuel) FloorMod _ _
                 I (make_const_nonneg _ (- n) ltac:(lia))).
      * destruct fuel as [|fuel]; [lia|].
        apply EDM_Mutate_sub_zero. intros st0. apply IHa. lia.
      * intros st0. rewrite EDM_Mutate_make_const. by eexists.
  - cbn [EDM_Mutate]. destruct (IHa fuel st) as [r ->]; [lia|]. by eexists.
  - cbn [EDM_Mutate]. destruct (IHc fuel st) as [rc ->]; [lia|]. simpl.
    destruct (IHt fuel rc.2) as [rt ->]; [lia|]. simpl.
    destruct (IHf fuel rt.2) as [rf ->]; [lia|]. by eexists.
  - cbn [EDM_Mutate].
    assert (forall st, is_Some (EDM_Mutate_list (EDM_Mutate fuel) st args)) as Hl.
    { assert (foldr (fun a n => Nat.max (EDM_cost a) n) 0%nat args <= fuel)%nat as Hle by lia.
      clear Hc. induction IHargs as [|x l Hx _ IHl]; intros st0; simpl in *.
      - by eexists.
      - destruct (Hx fuel st0) as [r ->]; [lia|]. simpl.
        destruct (IHl ltac:(lia) r.2) as [rs ->]. by eexists. }
    destruct (Hl st) as [rs ->]. by eexists.
Qed.


(** The integer identities behind the cases for a negative constant. *)
Lemma divmod_neg_identities (x c : Z) :
  0 < c ->
  bin_sem Div x (- c) = - bin_sem Div x c /\
  bin_sem Mod x (- c) = bin_sem Mod x c /\
  bin_sem FloorDiv x (- c) = bin_sem FloorDiv (- x) c /\
  bin_sem FloorMod x (- c) = - bin_sem FloorMod (- x) c.
Proof.
  intros Hc. simpl. repeat split.
  - apply Z.quot_opp_r. lia.
  - apply Z.rem_opp_r. lia.
  - rewrite <- (Z.opp_involutive x) at 1. apply Z.div_opp_opp. lia.
  - rewrite <- (Z.opp_involutive x) at 1. rewrite Z.mod_opp_opp by lia. done.
Qed.

Lemma type_of_neg_sub ty e : type_of (make_zero ty - e)%E = ty.
Proof. simpl. unfold make_zero. by rewrite type_of_make_const. Qed.

Lemma eval_neg_sub σ ty e :
  is_bool ty = false -> eval σ (make_zero ty - e)%E = - eval σ e.
Proof.
  intros Hty. rewrite eval_arith; [|done|].
  - by rewrite eval_make_zero.
  - unfold make_zero. by rewrite type_of_make_const.
Qed.

(** C6.  A division or modulo by a negative integer constant [- c]
    ([0 < c]) is rewritten by the mutator into the corresponding operation by
    [c]: the mutator's result on the node is its result on the rewritten
    expression (negated for [truncdiv]), the rewritten expression has the
    value of the node under every assignment, and the rewriting rests on the
    four integer identities, which hold for every integer [x].  With the
    step budget of the node, which is what [EliminateDivMod] runs the
    mutator with, the mutator returns on the rewritten expression and so on
    the node. *)
Theorem EliminateDivMod_negative_constant
    (fuel : nat) (st : EliminateDivModMutator) (a : Expr) (t : DType) (c : Z) :
  0 < c -> is_bool (type_of a) = false -> is_bool t = false ->
  let ty := type_of a in
  let pos := make_const ty c in
  (forall x : Z,
     bin_sem Div x (- c) = - bin_sem Div x c /\
     bin_sem Mod x (- c) = bin_sem Mod x c /\
     bin_sem FloorDiv x (- c) = bin_sem FloorDiv (- x) c /\
     bin_sem FloorMod x (- c) = - bin_sem FloorMod (- x) c) /\
  (EDM_Mutate (S fuel) st (Bin Div a (IntImm t (- c)))
     = (r ← EDM_Mutate fuel st (truncdiv a pos); Some ((make_zero ty - r.1)%E, r.2)) /\
   forall σ, eval σ (make_zero ty - truncdiv a pos)%E
             = eval σ (Bin Div a (IntImm t (- c)))) /\
  (EDM_Mutate (S fuel) st (Bin Mod a (IntImm t (- c)))
     = EDM_Mutate fuel st (truncmod a pos) /\
   forall σ, eval σ (truncmod a pos) = eval σ (Bin Mod a (IntImm t (- c)))) /\
  (EDM_Mutate (S fuel) st (Bin FloorDiv a (IntImm t (- c)))
     = EDM_Mutate fuel st (floordiv (make_zero ty - a)%E pos) /\
   forall σ, eval σ (floordiv (make_zero ty - a)%E pos)
             = eval σ (Bin FloorDiv a (IntImm t (- c)))) /\
  (EDM_Mutate (S fuel) st (Bin FloorMod a (IntImm t (- c)))
     = EDM_Mutate fuel st (make_zero ty - floormod (make_zero ty - a)%E pos)%E /\
   forall σ, eval σ (make_zero ty - floormod (make_zero ty - a)%E pos)%E
             = eval σ (Bin FloorMod a (IntImm t (- c)))) /\
  ((EDM_cost (Bin Div a (IntImm t (- c))) <= S fuel)%nat ->
   (exists r, EDM_Mutate fuel st (truncdiv a pos) = Some r /\
              EDM_Mutate (S fuel) st (Bin Div a (IntImm t (- c)))
              = Some ((make_zero ty - r.1)%E, r.2)) /\
   (exists r, EDM_Mutate fuel st (truncmod a pos) = Some r /\
              EDM_Mutate (S fuel) st (Bin Mod a (IntImm t (- c))) = Some r) /\
   (exists r, EDM_Mutate fuel st (floordiv (make_zero ty - a)%E pos) = Some r /\
              EDM_Mutate (S fuel) st (Bin FloorDiv a (IntImm t (- c))) = Some r) /\
   (exists r, EDM_Mutate fuel st (make_zero ty - floormod (make_zero ty - a)%E pos)%E
              = Some r /\
              EDM_Mutate (S fuel) st (Bin FloorMod a (IntImm t (- c))) = Some r)).
Proof.
  intros Hc Hta Ht ty pos.
  assert ((- c =? 0) = false) as E0 by lia.
  assert ((- c <? 0) = true) as E1 by lia.
  assert (forall σ, eval σ pos = c) as Hpos.
  { intros σ. unfold pos. rewrite eval_make_const. by apply canon_not_bool. }
  assert (forall σ, eval σ (IntImm t (- c)) = - c) as Hneg.
  { intros σ. simpl. by apply canon_not_bool. }
  split; [intros x; by apply divmod_neg_identities|].
  assert (EDM_Mutate (S fuel) st (Bin Div a (IntImm t (- c)))
          = (r ← EDM_Mutate fuel st (truncdiv a pos);
             Some ((make_zero ty - r.1)%E, r.2))) as Hdiv.
  { cbn [EDM_Mutate]. unfold EDM_Mutate_divmod. by rewrite E0, E1, Z.opp_involutive. }
  assert (EDM_Mutate (S fuel) st (Bin Mod a (IntImm t (- c)))
          = EDM_Mutate fuel st (truncmod a pos)) as Hmod.
  { cbn [EDM_Mutate]. unfold EDM_Mutate_divmod. by rewrite E0, E1, Z.opp_involutive. }
  assert (EDM_Mutate (S fuel) st (Bin FloorDiv a (IntImm t (- c)))
          = EDM_Mutate fuel st (floordiv (make_zero ty - a)%E pos)) as Hfdiv.
  { cbn [EDM_Mutate]. unfold EDM_Mutate_divmod. by rewrite E0, E1, Z.opp_involutive. }
  assert (EDM_Mutate (S fuel) st (Bin FloorMod a (IntImm t (- c)))
          = EDM_Mutate fuel st (make_zero ty - floormod (make_zero ty - a)%E pos)%E)
    as Hfmod.
  { cbn [EDM_Mutate]. unfold EDM_Mutate_divmod. by rewrite E0, E1, Z.opp_involutive. }
  split; [split; [exact Hdiv|]
         |split; [split; [exact Hmod|]
                 |split; [split; [exact Hfdiv|]|split; [split; [exact Hfmod|]|]]]].
  - intros σ. rewrite eval_neg_sub by done. unfold truncdiv.
    rewrite !eval_arith, Hpos, Hneg by done.
    symmetry. by apply divmod_neg_identities.
  - intros σ. unfold truncmod. rewrite !eval_arith, Hpos, Hneg by done.
    symmetry. by apply divmod_neg_identities.
  - intros σ. unfold floordiv.
    rewrite (eval_arith σ FloorDiv (make_zero ty - a)%E) by
      (done || by rewrite type_of_neg_sub).
    rewrite (eval_arith σ FloorDiv a), Hpos, Hneg, eval_neg_sub by done.
    symmetry. by apply divmod_neg_identities.
  - intros σ. rewrite eval_neg_sub by done. unfold floormod.
    rewrite (eval_arith σ FloorMod (make_zero ty - a)%E) by
      (done || by rewrite type_of_neg_sub).
    rewrite (eval_arith σ FloorMod a), Hpos, Hneg, eval_neg_sub by done.
    symmetry. by apply divmod_neg_identities.
  - intros Hcost.
    pose proof (EDM_Mutate_total (Bin Div a (IntImm t (- c))) (S fuel) st Hcost)
      as [r1 H1].
    pose proof (EDM_Mutate_total (Bin Mod a (IntImm t (- c))) (S fuel) st Hcost)
      as [r2 H2].
    pose proof (EDM_Mutate_total (Bin FloorDiv a (IntImm t (- c))) (S fuel) st Hcost)
      as [r3 H3].
    pose proof (EDM_Mutate_total (Bin FloorMod a (IntImm t (- c))) (S fuel) st Hcost)
      as [r4 H4].
    split; [|split; [|split]].
    + rewrite H1 in Hdiv.
      destruct (EDM_Mutate fuel st (truncdiv a pos)) as [r|]; [|done].
      exists r. split; [done|]. simpl in Hdiv. congruence.
    + rewrite H2 in Hmod. exists r2. by split.
    + rewrite H3 in Hfdiv. exists r3. by split.
    + rewrite H4 in Hfmod. exists r4. by split.
Qed.


(** C8.  When the range evaluator infers no range for the candidate [div]
    or [mod] expression, [AddNewVarPair] returns no pair and the mutator
    returns normally: the node is kept with its mutated operand, the
    substitution, the new variables, the conditions, the ranges and the table
    of known pairs are those reached by mutating the operand, and the one
    effect is the warning (the counter of names has advanced). *)
Theorem EliminateDivMod_uninferable_range
    (fuel : nat) (st st1 : EliminateDivModMutator) (op : BinOp)
    (a mut : Expr) (t : DType) (c : Z) :
  match op with Div | Mod | FloorDiv | FloorMod => True | _ => False end ->
  0 < c ->
  let mode := match op with Div | Mod => kTruncDiv | _ => kFloorDiv end in
  let val_e := make_const (type_of a) c in
  expr_to_vars_find (expr_to_vars_ st) (mode, a, c) = None ->
  EDM_Mutate fuel st a = Some (mut, st1) ->
  expr_to_vars_find (expr_to_vars_ st1) (mode, mut, c) = None ->
  EvalSet_cover_range (m_ranges st1) (DivImpl mut val_e mode) = None \/
  EvalSet_cover_range (m_ranges st1) (ModImpl mut val_e mode) = None ->
  exists st2,
    EDM_Mutate (S fuel) st (Bin op a (IntImm t c)) = Some (Bin op mut (IntImm t c), st2) /\
    m_new_variables st2 = m_new_variables st1 /\
    m_ranges st2 = m_ranges st1 /\
    m_conditions st2 = m_conditions st1 /\
    m_substitution st2 = m_substitution st1 /\
    expr_to_vars_ st2 = expr_to_vars_ st1 /\
    next_id st2 = next_id st1 /\
    idx_ st2 = idx_ st1 + 1 /\
    warnings st2 = warnings st1 ++ [DivImpl a val_e mode].
Proof.
  intros Hop Hc mode val_e Hfind Hmut Hfind1 Hrange.
  assert ((c =? 0) = false) as E0 by lia.
  assert ((c <? 0) = false) as E1 by lia.
  assert (EDM_Mutate (S fuel) st (Bin op a (IntImm t c))
          = EDM_Mutate_divmod (EDM_Mutate fuel) st op a (IntImm t c)) as ->
    by by destruct op.
  unfold EDM_Mutate_divmod. rewrite E0, E1. cbn [negb].
  fold mode. rewrite Hfind, Hmut. cbn [mbind option_bind fst snd].
  unfold AddNewVarPair. rewrite Hfind1.
  replace (if negb (Equal a mut) then None else None)
    with (@None (Var * Var)) by by destruct (negb _).
  fold val_e.
  destruct Hrange as [-> | Hmod].
  - eexists. split; [reflexivity|]. by repeat split.
  - rewrite Hmod.
    destruct (EvalSet_cover_range _ (DivImpl _ _ _));
      (eexists; split; [reflexivity|]; by repeat split).
Qed.

(** On that path [EliminateDivMod] as a whole still returns. *)
Lemma EliminateDivMod_total expr ranges heap :
  is_Some (EliminateDivMod expr ranges heap).
Proof.
  unfold EliminateDivMod.
  destruct (EDM_Mutate_total expr (EDM_cost expr)
              (mkEDM ∅ [] [] ranges 0 [] [] heap)) as [r ->]; [lia|].
  by eexists.
Qed.


(** *** Composition of domain transformations *)

(** [ComposeDomainTransformations]: [None] is the failed [CHECK] that the
    old domain of [second] and the new domain of [first] are the same
    node. *)
Definition ComposeDomainTransformations (first second : DomainTransformationRef)
  : option DomainTransformationRef :=
  if same_as (ref_old_domain second) (ref_new_domain first) then
    let new_to_old :=
      (fun e => SuperSimplify (Substitute e (ref_new_to_old first))
                              (ranges (ref_old_domain first))) <$> ref_new_to_old second in
    let old_to_new :=
      (fun e => SuperSimplify (Substitute e (ref_old_to_new second))
                              (ranges (ref_new_domain second))) <$> ref_old_to_new first in
    Some (mkDomainTransformationRef (ref_new_domain second) (ref_old_domain first)
            new_to_old old_to_new)
  else None.



Lemma lookup_map_of_vars {V : Type} (f : Var -> V) vars v :
  map_of_vars f vars !! v = if decide (v ∈ vars) then Some (f v) else None.
Proof.
  unfold map_of_vars.
  assert (forall m : gmap Var V, foldl (fun m v => <[v := f v]> m) m vars !! v
          = if decide (v ∈ vars) then Some (f v) else m !! v) as H.
  { induction vars as [|x l IH]; intros m; simpl.
    - destruct (decide (v ∈ [])) as [Hin|]; [by apply elem_of_nil in Hin|done].
    - rewrite IH. destruct (decide (v ∈ l)) as [Hl|Hl].
      + rewrite decide_True; [done|]. by apply elem_of_cons; right.
      + destruct (decide (x = v)) as [->|Hne].
        * rewrite lookup_insert_eq, decide_True; [done|]. by apply elem_of_cons; left.
        * rewrite lookup_insert_ne by done. rewrite decide_False; [done|].
          intros [?|?]%elem_of_cons; congruence. }
  rewrite H. by rewrite lookup_empty.
Qed.




Lemma same_as_true (a b : DomainRef) : same_as a b = true <-> domain_addr a = domain_addr b.
Proof. unfold same_as. apply N.eqb_eq. Qed.



(** X11. [ComposeDomainTransformations] fails exactly when the old domain
    of the second transformation and the new domain of the first are not
    the same node (their addresses differ).  The result goes from the old
    domain of the first to the new domain of the second (the same nodes),
    its maps have the keys of [new_to_old] of the second and of [old_to_new]
    of the first, and each entry is the composition: within the ranges of
    the old domain of the first, a [new_to_old] entry has the value of the
    entry of the second where the variables take the values of their
    [new_to_old] expressions of the first; and the same for [old_to_new]
    with the two transformations exchanged. *)
Theorem ComposeDomainTransformations_entries (first second : DomainTransformationRef) :
  (ComposeDomainTransformations first second = None <->
   domain_addr (ref_old_domain second) <> domain_addr (ref_new_domain first)) /\
  forall t, ComposeDomainTransformations first second = Some t ->
    ref_new_domain t = ref_new_domain second /\ ref_old_domain t = ref_old_domain first /\
    dom (ref_new_to_old t) = dom (ref_new_to_old second) /\
    dom (ref_old_to_new t) = dom (ref_old_to_new first) /\
    (forall σ v,
       ranges_typed (ranges (ref_old_domain first)) ->
       within σ (ranges (ref_old_domain first)) ->
       subst_typed (ref_new_to_old first) ->
       (eval σ <$> ref_new_to_old t !! v)
       = (eval (subst_env σ (ref_new_to_old first)) <$> ref_new_to_old second !! v)) /\
    (forall σ v,
       ranges_typed (ranges (ref_new_domain second)) ->
       within σ (ranges (ref_new_domain second)) ->
       subst_typed (ref_old_to_new second) ->
       (eval σ <$> ref_old_to_new t !! v)
       = (eval (subst_env σ (ref_old_to_new second)) <$> ref_old_to_new first !! v)).
Proof.
  unfold ComposeDomainTransformations.
  destruct (same_as (ref_old_domain second) (ref_new_domain first)) eqn:Hs.
  - apply same_as_true in Hs.
    split; [split; [done|by intros H]|].
    intros t [= <-]. simpl. split_and!; try done.
    + by rewrite dom_fmap_L.
    + by rewrite dom_fmap_L.
    + intros σ v Ht Hw Hst. rewrite lookup_fmap.
      destruct (ref_new_to_old second !! v) as [e|]; simpl; [|done].
      by rewrite SuperSimplify_sound, eval_Substitute.
    + intros σ v Ht Hw Hst. rewrite lookup_fmap.
      destruct (ref_old_to_new first !! v) as [e|]; simpl; [|done].
      by rewrite SuperSimplify_sound, eval_Substitute.
  - split; [|done]. split; [|done]. intros _ Ha. apply same_as_true in Ha. congruence.
Qed.


(** *** SolveSystemOfEquations *)

(** [arith::DetectLinearEquation(e, vars)]: the coefficients of the
    variables and the constant term when [e] is linear in [vars], the empty
    array otherwise. *)
Variable DetectLinearEquation : Expr -> list Var -> list Expr.

(** [xgcd]: the extended Euclidean algorithm on [int64_t], with the
    truncated division of the source.  The loop runs while [r <> 0], and
    [|r|] decreases, so [|b| + 1] steps are enough.  Machine integers are
    taken exactly: signed overflow is undefined in the source. *)
Fixpoint xgcd_loop (fuel : nat) (s old_s t old_t r old_r : Z) : Z * Z * Z :=
  match fuel with
  | O => (old_r, old_s, old_t)
  | S fuel =>
      if r =? 0 then (old_r, old_s, old_t)
      else
        let q := Z.quot old_r r in
        xgcd_loop fuel (old_s - q * s) s (old_t - q * t) t (old_r - q * r) r
  end.

Definition xgcd (a b : Z) : Z * Z * Z :=
  xgcd_loop (S (Z.abs_nat b)) 0 1 1 0 b a.

(** [matrix[i][j]] and its assignment, on a vector of rows. *)
Definition mget (m : list (list Z)) (i j : nat) : Z :=
  default 0 (m !! i ≫= fun row => row !! j).
Definition mset (m : list (list Z)) (i j : nat) (x : Z) : list (list Z) :=
  alter (fun row => <[j := x]> row) i m.

(** [std::swap(l[i], l[j])] *)
Definition swap {A : Type} (l : list A) (i j : nat) : list A :=
  match l !! i, l !! j with
  | Some x, Some y => <[i := y]> (<[j := x]> l)
  | _, _ => l
  end.

(** The state of the diagonalization: the matrix, the column of right hand
    sides, the matrix from old to new variables and the expressions of the
    new variables in terms of the old ones. *)
Record Diag : Type := mkDiag {
  d_matrix : list (list Z);
  d_rhs : list Expr;
  d_old_to_new : list (list Z);
  d_new_to_old : list Expr
}.

(** The identity matrix with which [old_to_new] starts. *)
Definition identity_matrix (n : nat) : list (list Z) :=
  map (fun i => <[i := 1]> (replicate n 0)) (seq 0 n).

(** The row of a formula: [Some (row, rhs)] when the formula is an equation
    whose difference is linear with integer immediates as coefficients. *)
Definition equation_row (formula : Expr) (domain : Domain) : option (list Z * Expr) :=
  match formula with
  | Bin EQ a b =>
      let coefs :=
        DetectLinearEquation (SuperSimplify (a - b)%E (ranges domain)) (variables domain) in
      match coefs with
      | [] => None
      | _ =>
          let row := mapM as_const_int (take (length coefs - 1) coefs) in
          match row with
          | Some (c :: row') => Some (c :: row', neg (List.last coefs (make_zero TInt)))
          | _ => None
          end
      end
  | _ => None
  end.

(** The loop over the conditions: the rows, the right hand sides and the
    conditions left aside. *)
Fixpoint equation_rows (formulas : list Expr) (domain : Domain)
  : list (list Z) * list Expr * list Expr :=
  match formulas with
  | [] => ([], [], [])
  | formula :: formulas' =>
      let '(matrix, rhs, rest) := equation_rows formulas' domain in
      match equation_row formula domain with
      | Some (row, r) => (row :: matrix, r :: rhs, rest)
      | None => (matrix, rhs, formula :: rest)
      end
  end.

(** The row of least nonzero absolute value in column [index], from row
    [index] on. *)
Definition find_best_row (m : list (list Z)) (index : nat) : nat :=
  foldl (fun best_i i =>
           let m_old := mget m best_i index in
           let m_new := mget m i index in
           if negb (m_new =? 0) && ((m_old =? 0) || (Z.abs m_new <? Z.abs m_old))
           then i else best_i)
        index (seq index (length m - index)).

(** The coefficients [(g, a, b)] of the elimination of [n] by [m]: the
    extended gcd, or [(m, 1, 0)] when [m] divides [n]; the flag tells which. *)
Definition elimination_coefs (m n : Z) : Z * Z * Z * bool :=
  if negb (Z.rem n m =? 0) then (xgcd m n, true) else ((m, 1, 0), false).

(** The loop over the columns [cols] that replaces row [index] by
    [a * row index + b * row i] and row [i] by
    [n_g * row index - m_g * row i]. *)
Definition combine_rows (index i : nat) (a b m_g n_g : Z) (cols : list nat)
    (matrix : list (list Z)) : list (list Z) :=
  foldl (fun matrix j =>
           let new_index_j := a * mget matrix index j + b * mget matrix i j in
           let new_i_j := n_g * mget matrix index j - m_g * mget matrix i j in
           mset (mset matrix index j new_index_j) i j new_i_j)
        matrix cols.

(** The same on the columns [index] and [j], over the rows [rows]. *)
Definition combine_columns (index j : nat) (a b m_g n_g : Z) (rows : list nat)
    (mat : list (list Z)) : list (list Z) :=
  foldl (fun mat i =>
           let new_i_index := a * mget mat i index + b * mget mat i j in
           let new_i_j := n_g * mget mat i index - m_g * mget mat i j in
           mset (mset mat i index new_i_index) i j new_i_j)
        mat rows.

(** One row operation: row [i] is used to zero [matrix[i][index]]. *)
Definition eliminate_column_at (index : nat) (st : Diag) (i : nat) : Diag :=
  let matrix := d_matrix st in
  let rhs := d_rhs st in
  if negb (mget matrix i index =? 0) then
    let '(g, a, b, _) := elimination_coefs (mget matrix index index) (mget matrix i index) in
    let m_g := Z.quot (mget matrix index index) g in
    let n_g := Z.quot (mget matrix i index) g in
    let matrix :=
      combine_rows index i a b m_g n_g
        (seq index (length (List.nth i matrix []) - index)) matrix in
    let rhs_index := List.nth index rhs (make_zero TInt) in
    let rhs_i := List.nth i rhs (make_zero TInt) in
    let ea := make_const (type_of rhs_index) a in
    let eb := make_const (type_of rhs_i) b in
    let e_m_g := make_const (type_of rhs_i) m_g in
    let e_n_g := make_const (type_of rhs_index) n_g in
    let new_index_rhs := (ea * rhs_index + eb * rhs_i)%E in
    let new_i_rhs := (e_n_g * rhs_index - e_m_g * rhs_i)%E in
    mkDiag matrix (<[i := new_i_rhs]> (<[index := new_index_rhs]> rhs))
           (d_old_to_new st) (d_new_to_old st)
  else st.

(** Zeroing column [index] below the diagonal by row operations. *)
Definition eliminate_column (index : nat) (st : Diag) : Diag :=
  foldl (eliminate_column_at index) st
        (seq (S index) (length (d_matrix st) - S index)).

(** One column operation: column [j] is used to zero [matrix[index][j]]; the
    flag tells whether [xgcd] was used. *)
Definition eliminate_row_at (index : nat) (acc : Diag * bool) (j : nat) : Diag * bool :=
  let '(st, changed) := acc in
  let matrix := d_matrix st in
  if negb (mget matrix index j =? 0) then
    let '(g, a, b, used_xgcd) :=
      elimination_coefs (mget matrix index index) (mget matrix index j) in
    let m_g := Z.quot (mget matrix index index) g in
    let n_g := Z.quot (mget matrix index j) g in
    let matrix :=
      combine_columns index j a b m_g n_g
        (seq index (length matrix - index)) matrix in
    let old_to_new :=
      combine_columns index j a b m_g n_g
        (seq 0 (length (d_old_to_new st))) (d_old_to_new st) in
    let n2o := d_new_to_old st in
    let n2o_index := List.nth index n2o (make_zero TInt) in
    let n2o_j := List.nth j n2o (make_zero TInt) in
    let ea := make_const (type_of n2o_j) a in
    let eb := make_const (type_of n2o_index) b in
    let e_m_g := make_const (type_of n2o_index) m_g in
    let e_n_g := make_const (type_of n2o_j) n_g in
    let new_index := (e_m_g * n2o_index + e_n_g * n2o_j)%E in
    let new_j := (eb * n2o_index - ea * n2o_j)%E in
    (mkDiag matrix (d_rhs st) old_to_new (<[j := new_j]> (<[index := new_index]> n2o)),
     changed || used_xgcd)
  else (st, changed).

(** Zeroing row [index] right of the diagonal by column operations; the flag
    tells whether column [index] may have been disturbed. *)
Definition eliminate_row (vars_size : nat) (index : nat) (st : Diag) : Diag * bool :=
  foldl (eliminate_row_at index) (st, false) (seq (S index) (vars_size - S index)).

(** Swapping columns [index] and [j] when the diagonal element is zero. *)
Definition swap_in_rows (index j : nat) (rows : list nat) (mat : list (list Z))
  : list (list Z) :=
  foldl (fun mat i => alter (fun row => swap row index j) i mat) mat rows.

Definition swap_columns (index j : nat) (st : Diag) : Diag :=
  mkDiag (swap_in_rows index j (seq index (length (d_matrix st) - index)) (d_matrix st))
         (d_rhs st)
         (swap_in_rows index j (seq 0 (length (d_old_to_new st))) (d_old_to_new st))
         (swap (d_new_to_old st) index j).

(** One iteration of the diagonalization loop at [index]; the flag is the
    [changed] of the source, on which the loop repeats the index. *)
Definition diagonalize_step (vars_size : nat) (index : nat) (st : Diag) : Diag * bool :=
  let best_i := find_best_row (d_matrix st) index in
  let st := mkDiag (swap (d_matrix st) index best_i) (swap (d_rhs st) index best_i)
                   (d_old_to_new st) (d_new_to_old st) in
  let st :=
    if mget (d_matrix st) index index =? 0 then
      match List.find (fun j => negb (mget (d_matrix st) index j =? 0))
                      (seq (S index) (vars_size - S index)) with
      | Some j => swap_columns index j st
      | None => st
      end
    else st in
  if mget (d_matrix st) index index =? 0 then (st, false)
  else
    let st := eliminate_column index st in
    eliminate_row vars_size index st.

(** The diagonalization loop.  The source repeats an index after a column
    operation that used [xgcd]; the embedding runs on a step budget and
    returns [None] when it is spent. *)
Fixpoint diagonalize (fuel : nat) (vars_size : nat) (index : nat) (st : Diag)
  : option Diag :=
  if (index <? Nat.min (length (d_matrix st)) vars_size)%nat then
    match fuel with
    | O => None
    | S fuel =>
        let '(st, changed) := diagonalize_step vars_size index st in
        diagonalize fuel vars_size (if changed then index else S index) st
    end
  else Some st.


(** [VarMapToVectorOfPairs]: the entries of the map sorted by [Compare] on
    the variables. *)
Definition var_pair_less {T : Type} (l r : Var * T) : Prop :=
  Compare (VarNode l.1) (VarNode r.1) < 0.

#[local] Instance var_pair_less_dec {T : Type} (l r : Var * T) :
  Decision (var_pair_less l r).
Proof. unfold var_pair_less. apply _. Defined.

Definition VarMapToVectorOfPairs {T : Type} (varmap : gmap Var T) : list (Var * T) :=
  merge_sort var_pair_less (map_to_list varmap).

(** [e == 0] for an integer literal on the right: the literal takes the type
    of [e]. *)
Definition eq_zero (e : Expr) : Expr := (e == make_const (type_of e) 0)%E.

(** The condition of the existence of a solution for row [j], simplified. *)
Definition existence_condition (vars_size : nat) (matrix : list (list Z))
    (rhs : list Expr) (vranges : gmap Var Range) (j : nat) : Expr :=
  let rhs_j := List.nth j rhs (make_zero TInt) in
  let new_cond :=
    if (vars_size <=? j)%nat || (mget matrix j j =? 0) then eq_zero rhs_j
    else eq_zero (floormod rhs_j (make_const (type_of rhs_j) (Z.abs (mget matrix j j)))) in
  SuperSimplify new_cond vranges.

(** The loop that collects the conditions of existence; [None] is the early
    return of the source on a condition that is constant false. *)
Fixpoint existence_conditions (vars_size : nat) (matrix : list (list Z))
    (rhs : list Expr) (vranges : gmap Var Range) (js : list nat)
    (conditions : list Expr) : option (list Expr) :=
  match js with
  | [] => Some conditions
  | j :: js =>
      let new_cond := existence_condition vars_size matrix rhs vranges j in
      if is_const_int new_cond 0 then None
      else if negb (is_const_int new_cond 1)
           then existence_conditions vars_size matrix rhs vranges js (conditions ++ [new_cond])
           else existence_conditions vars_size matrix rhs vranges js conditions
  end.

(** The loop that creates the new variables or solves the equations: the new
    variables, their expressions over the old ones and the solution.  A new
    [Var] node gets the first address not in use. *)
Definition solve_variable (matrix : list (list Z)) (rhs new_to_old : list Expr)
    (vranges : gmap Var Range) (next_id : N)
    (acc : list Var * gmap Var Expr * list Expr) (j : nat)
  : list Var * gmap Var Expr * list Expr :=
  let '(new_vars, new_to_old_map, solution) := acc in
  if (length matrix <=? j)%nat || (mget matrix j j =? 0) then
    let n2o_j := List.nth j new_to_old (make_zero TInt) in
    let to_old := SuperSimplify n2o_j vranges in
    let v := mkVar (next_id + N.of_nat (length new_vars)) (type_of n2o_j) in
    (new_vars ++ [v], <[v := to_old]> new_to_old_map, solution ++ [VarNode v])
  else
    let rhs_j := List.nth j rhs (make_zero TInt) in
    if 0 <=? mget matrix j j then
      let a := make_const (type_of rhs_j) (mget matrix j j) in
      (new_vars, new_to_old_map, solution ++ [SuperSimplify (floordiv rhs_j a) vranges])
    else
      let a := make_const (type_of rhs_j) (- mget matrix j j) in
      (new_vars, new_to_old_map, solution ++ [SuperSimplify (floordiv (neg rhs_j) a) vranges]).

(** The expression of an old variable over the new ones, from its row of the
    [old_to_new] matrix. *)
Definition old_to_new_expr (vars_size : nat) (old_to_new : list (list Z))
    (solution : list Expr) (i : nat) (v : Var) : Expr :=
  let e :=
    foldl (fun e j =>
             (e + make_const (type_of e) (mget old_to_new i j)
                  * List.nth j solution (make_zero TInt))%E)
          (make_zero (vty v)) (seq 0 vars_size) in
  SuperSimplify e ∅.

(** The conditions that the ranges of the old variables turn into. *)
Definition range_conditions (sorted_domain_ranges : list (Var * Range))
    (old_to_new_map : gmap Var Expr) (vranges : gmap Var Range)
    (conditions : list Expr) : list Expr :=
  foldl (fun conditions p =>
           match old_to_new_map !! p.1 with
           | Some in_terms_of_new =>
               let lower_cond :=
                 SuperSimplify (range_min p.2 <= in_terms_of_new)%E vranges in
               let upper_cond :=
                 SuperSimplify (in_terms_of_new < range_min p.2 + range_extent p.2)%E vranges in
               let conditions :=
                 if negb (is_const_int lower_cond 1) then conditions ++ [lower_cond]
                 else conditions in
               if negb (is_const_int upper_cond 1) then conditions ++ [upper_cond]
               else conditions
           | None => conditions
           end)
        conditions sorted_domain_ranges.

(** The part of [SolveSystemOfEquations] after the diagonalization. *)
Definition SolveSystemOfEquations_finish (domain : Domain) (rest : list Expr)
    (st : Diag) (next_id : N) : DomainTransformation :=
  let vars_size := length (variables domain) in
  let matrix := d_matrix st in
  let rhs := map (fun r => SuperSimplify r (ranges domain)) (d_rhs st) in
  match existence_conditions vars_size matrix rhs (ranges domain)
          (seq 0 (length matrix)) [] with
  | None => EmptyDomainTransformation domain
  | Some conditions =>
      let '(new_vars, new_to_old_map, solution) :=
        foldl (solve_variable matrix rhs (d_new_to_old st) (ranges domain) next_id)
              ([], ∅, []) (seq 0 vars_size) in
      let old_to_new_map :=
        foldl (fun m '(i, v) =>
                 <[v := old_to_new_expr vars_size (d_old_to_new st) solution i v]> m)
              ∅ (imap (fun i v => (i, v)) (variables domain)) in
      let sorted_domain_ranges := VarMapToVectorOfPairs (ranges domain) in
      let vranges :=
        foldl (fun m p => if bool_decide (p.1 ∈ variables domain) then m
                          else <[p.1 := p.2]> m)
              ∅ sorted_domain_ranges in
      let vranges :=
        foldl (fun m p =>
                 match EvalSet_cover_range (ranges domain) p.2 with
                 | Some range => <[p.1 := range]> m
                 | None => m
                 end)
              vranges (map_to_list new_to_old_map) in
      let conditions :=
        range_conditions sorted_domain_ranges old_to_new_map vranges conditions in
      let conditions :=
        conditions ++ map (fun cond => Substitute cond old_to_new_map) rest in
      let new_domain := mkDomain new_vars conditions vranges in
      mkDomainTransformation new_domain domain new_to_old_map old_to_new_map
  end.

(** [SolveSystemOfEquations], on a step budget for the diagonalization. *)
Definition SolveSystemOfEquations (fuel : nat) (domain : Domain) (next_id : N)
  : option DomainTransformation :=
  let vars_size := length (variables domain) in
  let '(matrix, rhs, rest) := equation_rows (conditions domain) domain in
  let st := mkDiag matrix rhs (identity_matrix vars_size)
                   (map VarNode (variables domain)) in
  match diagonalize fuel vars_size 0 st with
  | Some st => Some (SolveSystemOfEquations_finish domain rest st next_id)
  | None => None
  end.


(** The loop of the conditions of existence: it stops on the first
    condition that is constant false, and otherwise appends the conditions
    that are not constant true, in the order of the rows. *)
Lemma existence_conditions_spec vars_size matrix rhs vranges js acc :
  existence_conditions vars_size matrix rhs vranges js acc =
  if existsb (fun j => is_const_int (existence_condition vars_size matrix rhs vranges j) 0) js
  then None
  else Some (acc ++ filter (fun c => negb (is_const_int c 1) = true)
                      (map (existence_condition vars_size matrix rhs vranges) js)).
Proof.
  revert acc. induction js as [|j js IH]; intros acc; simpl.
  - by rewrite app_nil_r.
  - destruct (is_const_int (existence_condition vars_size matrix rhs vranges j) 0) eqn:E0;
      [done|]. simpl.
    rewrite filter_cons.
    destruct (is_const_int (existence_condition vars_size matrix rhs vranges j) 1) eqn:E1;
      simpl; rewrite IH.
    + by destruct (decide (false = true)).
    + destruct (decide (true = true)); [|done].
      destruct (existsb _ js); [done|]. by rewrite <- app_assoc.
Qed.

Lemma range_conditions_app sorted o2n vranges acc :
  range_conditions sorted o2n vranges acc = acc ++ range_conditions sorted o2n vranges [].
Proof.
  revert acc. unfold range_conditions.
  induction sorted as [|p sorted IH]; intros acc; simpl.
  - by rewrite app_nil_r.
  - rewrite IH. symmetry. rewrite IH. symmetry.
    destruct (o2n !! p.1) as [e|]; [|done].
    destruct (negb (is_const_int (SuperSimplify (range_min p.2 <= e)%E vranges) 1));
      destruct (negb (is_const_int
        (SuperSimplify (e < range_min p.2 + range_extent p.2)%E vranges) 1));
      simpl; by rewrite <- ?app_assoc.
Qed.

(** The meaning of the two shapes of condition, for a right hand side of
    integer type. *)
Lemma beval_eq_zero σ e :
  is_bool (type_of e) = false ->
  beval σ (eq_zero e) = (eval σ e =? 0).
Proof.
  intros Ht. unfold beval, eq_zero. simpl.
  unfold make_const. destruct (is_uint (type_of e)); simpl;
    unfold canon; rewrite Ht; by destruct (eval σ e =? 0).
Qed.

Lemma beval_floormod_eq_zero σ e d :
  is_bool (type_of e) = false ->
  beval σ (eq_zero (floormod e (make_const (type_of e) d))) = (eval σ e mod d =? 0).
Proof.
  intros Ht. rewrite beval_eq_zero by done. simpl.
  unfold make_const. destruct (is_uint (type_of e)); simpl;
    unfold canon; by rewrite Ht.
Qed.

Lemma lookup_EmptyDomainTransformation domain v :
  v ∈ variables domain ->
  old_to_new (EmptyDomainTransformation domain) !! v = Some (make_zero (vty v)).
Proof. intros Hv. simpl. rewrite lookup_map_of_vars. by destruct (decide (v ∈ variables domain)). Qed.


(** *** SolveSystemOfInequalities *)

(** The conversion of an [int64_t] argument to an [int] parameter: the value
    modulo [2^32], in the signed range. *)
Definition to_int (z : Z) : Z := (z + 2 ^ 31) mod 2 ^ 32 - 2 ^ 31.

(** [gcd(int a, int b)]: Euclid's loop on [int] with the truncated remainder
    of the source.  The remainder decreases in absolute value, so [|b| + 1]
    steps are enough. *)
Fixpoint gcd_loop (fuel : nat) (a b : Z) : Z :=
  match fuel with
  | O => a
  | S fuel => if b =? 0 then a else gcd_loop fuel b (Z.rem a b)
  end.

Definition gcd (a b : Z) : Z :=
  let a := to_int a in
  let b := to_int b in
  let '(a, b) := if a <? b then (b, a) else (a, b) in
  gcd_loop (S (Z.abs_nat b)) a b.

(** [lcm(int a, int b)]: [(a*b)/gcd(a, b)] on [int].  A zero divisor and an
    overflow of the product are undefined in the source: [None]. *)
Definition lcm (a b : Z) : option Z :=
  let a := to_int a in
  let b := to_int b in
  let g := gcd a b in
  if g =? 0 then None
  else if (- 2 ^ 31 <=? a * b) && (a * b <? 2 ^ 31) then Some (Z.quot (a * b) g)
  else None.

(** [VarBounds] and [SolveSystemOfInequalitiesResult] *)
Record VarBounds : Type := mkVarBounds {
  vb_coef : Expr;
  vb_lower : list Expr;
  vb_equal : list Expr;
  vb_upper : list Expr
}.

Record SolveSystemOfInequalitiesResult : Type := mkSSIResult {
  sr_variables : list Var;
  sr_bounds : gmap Var VarBounds;
  sr_other_conditions : list Expr
}.

(** [SolveSystemOfInequalitiesResult::as_conditions]; [None] is the failed
    [CHECK] on a variable without bounds. *)
Definition as_conditions (res : SolveSystemOfInequalitiesResult) : option (list Expr) :=
  option_map (fun l => concat l ++ sr_other_conditions res)
    (mapM (fun v =>
             match sr_bounds res !! v with
             | Some bnds =>
                 let lhs := (vb_coef bnds * VarNode v)%E in
                 Some (map (fun rhs => Bin EQ lhs rhs) (vb_equal bnds)
                       ++ map (fun rhs => Bin GE lhs rhs) (vb_lower bnds)
                       ++ map (fun rhs => Bin LE lhs rhs) (vb_upper bnds))
             | None => None
             end)
          (sr_variables res)).

(** [e <= 0] and [e >= 0] for an integer literal on the right. *)
Definition le_zero (e : Expr) : Expr := (e <= make_const (type_of e) 0)%E.
Definition ge_zero (e : Expr) : Expr := (e >= make_const (type_of e) 0)%E.

(** A [std::set<Expr, ExprLess>] is the sorted list of its elements.
    [set_lower_bound x s] splits [s] at [lower_bound(x)]: the elements
    less than [x], and the others. *)
Fixpoint set_lower_bound (x : Expr) (s : list Expr) : list Expr * list Expr :=
  match s with
  | [] => ([], [])
  | y :: s' =>
      if ExprLess y x then
        let '(before, after) := set_lower_bound x s' in (y :: before, after)
      else ([], s)
  end.

(** [std::set::insert]: no effect when an equivalent element is there. *)
Fixpoint set_insert (x : Expr) (s : list Expr) : list Expr :=
  match s with
  | [] => [x]
  | y :: s' =>
      if ExprLess y x then y :: set_insert x s'
      else if ExprLess x y then x :: s
      else s
  end.

(** The helper [add_to_new_current] of [SolveSystemOfInequalities]. *)
Definition add_to_new_current (vranges : gmap Var Range) (new_current : list Expr)
    (new_ineq : Expr) : list Expr :=
  if CanProve new_ineq vranges then new_current
  else
    match new_ineq with
    | Bin LE new_a _ =>
        let '(before, after) := set_lower_bound new_ineq new_current in
        (* the neighbor before the position, when there is one *)
        let prev_step : option (list Expr) :=
          match List.last (map Some before) None with
          | Some (Bin LE le_a _) =>
              if CanProve (le_zero (new_a - le_a)) vranges then None
              else if CanProve (le_zero (le_a - new_a)) vranges
                   then Some (removelast before)
                   else Some before
          | _ => Some before
          end in
        match prev_step with
        | None => new_current
        | Some before =>
            match after with
            | (Bin LE le_a _) as le :: after' =>
                if CanProve (le_zero (new_a - le_a)) vranges then before ++ after
                else if CanProve (le_zero (le_a - new_a)) vranges
                     then before ++ set_insert new_ineq after'
                     else before ++ set_insert new_ineq after
            | _ => before ++ set_insert new_ineq after
            end
        end
    | _ => set_insert new_ineq new_current
    end.

(** The classification of one formula of [current] by its polarity in [v]:
    the state is [new_current], [coef_pos], [coef_neg] and [rest]; [None] is
    the dereference of a null [as_const_int] or a missing [coef[1]]. *)
Definition classify (vranges : gmap Var Range) (v : Var)
    (acc : list Expr * list (Z * Expr) * list (Z * Expr) * list Expr) (ineq : Expr)
  : option (list Expr * list (Z * Expr) * list (Z * Expr) * list Expr) :=
  let '(new_current, coef_pos, coef_neg, rest) := acc in
  let to_rest := Some (new_current, coef_pos, coef_neg, rest ++ [ineq]) in
  match ineq with
  | Bin LE a _ =>
      let coef := DetectLinearEquation a [v] in
      match coef with
      | c0 :: _ =>
          if is_const c0 then
            match as_const_int c0, coef !! 1%nat with
            | Some coef0, Some c1 =>
                if coef0 =? 0 then
                  Some (add_to_new_current vranges new_current ineq, coef_pos, coef_neg, rest)
                else if 0 <? coef0 then
                  Some (new_current, coef_pos ++ [(coef0, c1)], coef_neg, rest)
                else
                  Some (new_current, coef_pos, coef_neg ++ [(coef0, c1)], rest)
            | _, _ => None
            end
          else to_rest
      | [] => to_rest
      end
  | Bin EQ a _ =>
      let coef := DetectLinearEquation a [v] in
      match coef with
      | c0 :: _ =>
          if is_const c0 then
            match as_const_int c0, coef !! 1%nat with
            | Some coef0, Some c1 =>
                if coef0 =? 0 then
                  Some (add_to_new_current vranges new_current ineq, coef_pos, coef_neg, rest)
                else if 0 <? coef0 then
                  Some (new_current, coef_pos ++ [(coef0, c1)],
                        coef_neg ++ [(- coef0, neg c1)], rest)
                else
                  Some (new_current, coef_pos ++ [(- coef0, neg c1)],
                        coef_neg ++ [(coef0, c1)], rest)
            | _, _ => None
            end
          else to_rest
      | [] => to_rest
      end
  | _ => to_rest
  end.

(** The combination of a positive and a negative inequality; [None] is the
    division by a zero [gcd]. *)
Definition combine (vranges : gmap Var Range) (v : Var) (pos neg_ : Z * Expr)
    (new_current : list Expr) : option (list Expr) :=
  let first_gcd := gcd pos.1 (- neg_.1) in
  if first_gcd =? 0 then None
  else
    let c_pos := make_const (vty v) (Z.quot neg_.1 first_gcd) in
    let c_neg := make_const (vty v) (Z.quot pos.1 first_gcd) in
    let new_lhs := (c_neg * neg_.2 - c_pos * pos.2)%E in
    let new_ineq := Bin LE new_lhs (make_zero (type_of pos.2)) in
    let new_ineq := NormalizeComparisons (SuperSimplify new_ineq vranges) in
    Some (add_to_new_current vranges new_current new_ineq).

(** The loops that keep the best upper and the best lower bounds. *)
Definition add_upper_bound (vranges : gmap Var Range) (v : Var) (coef_lcm : Z)
    (upper_bounds : list Expr) (pos : Z * Expr) : list Expr :=
  let bound := (make_const (vty v) (Z.quot (- coef_lcm) pos.1) * pos.2)%E in
  let bound := SuperSimplify bound vranges in
  if existsb (fun o => CanProve (le_zero (o - bound)) vranges) upper_bounds
  then upper_bounds
  else List.filter (fun o => negb (CanProve (ge_zero (o - bound)) vranges)) upper_bounds
       ++ [bound].

Definition add_lower_bound (vranges : gmap Var Range) (v : Var) (coef_lcm : Z)
    (lower_bounds : list Expr) (neg_ : Z * Expr) : list Expr :=
  let bound := (make_const (vty v) (Z.quot (- coef_lcm) neg_.1) * neg_.2)%E in
  let bound := SuperSimplify bound vranges in
  if existsb (fun o => CanProve (ge_zero (o - bound)) vranges) lower_bounds
  then lower_bounds
  else List.filter (fun o => negb (CanProve (le_zero (o - bound)) vranges)) lower_bounds
       ++ [bound].


(** [std::sort] by [ExprLess] and [std::unique] by [ExprEq]. *)
Definition ExprLess_rel (x y : Expr) : Prop := ExprLess x y = true.

#[local] Instance ExprLess_rel_dec (x y : Expr) : Decision (ExprLess_rel x y).
Proof. unfold ExprLess_rel. apply _. Defined.

Fixpoint unique_from (last : Expr) (l : list Expr) : list Expr :=
  match l with
  | [] => []
  | x :: l' => if ExprEq last x then unique_from last l' else x :: unique_from x l'
  end.

Definition unique (l : list Expr) : list Expr :=
  match l with
  | [] => []
  | x :: l' => x :: unique_from x l'
  end.

Definition sort_unique (l : list Expr) : list Expr :=
  unique (merge_sort ExprLess_rel l).

(** A fold that stops on the first failure. *)
Fixpoint foldM {A B : Type} (f : A -> B -> option A) (a : A) (l : list B) : option A :=
  match l with
  | [] => Some a
  | x :: l' => match f a x with Some a' => foldM f a' l' | None => None end
  end.

(** The body of the loop of [SolveSystemOfInequalities] over the variables:
    the state is the bounds found so far, [current] and [rest]. *)
Definition solve_inequalities_for (vranges : gmap Var Range)
    (acc : gmap Var VarBounds * list Expr * list Expr) (v : Var)
  : option (gmap Var VarBounds * list Expr * list Expr) :=
  let '(bounds, current, rest) := acc in
  if bool_decide (is_Some (bounds !! v)) then None
  else
    (* bounds from vranges *)
    let '(coef_pos, coef_neg) :=
      match vranges !! v with
      | Some range =>
          let range_lbound := SuperSimplify (range_min range) vranges in
          let range_ubound :=
            SuperSimplify
              (range_min range + range_extent range
               - make_const (type_of (range_min range)) 1)%E vranges in
          ([(1, neg range_ubound)], [(-1, range_lbound)])
      | None => ([], [])
      end in
    match foldM (classify vranges v) ([], coef_pos, coef_neg, rest) current with
    | None => None
    | Some (new_current, coef_pos, coef_neg, rest) =>
        match foldM (fun nc pos => foldM (fun nc neg_ => combine vranges v pos neg_ nc)
                                         nc coef_neg)
                    new_current coef_pos with
        | None => None
        | Some new_current =>
            match foldM (fun coef_lcm pos => lcm coef_lcm pos.1) 1 coef_pos with
            | None => None
            | Some coef_lcm =>
                match foldM (fun coef_lcm neg_ => lcm coef_lcm (- neg_.1))
                        coef_lcm coef_neg with
                | None => None
                | Some coef_lcm =>
                    let upper_bounds :=
                      sort_unique (foldl (add_upper_bound vranges v coef_lcm) [] coef_pos) in
                    let lower_bounds :=
                      sort_unique (foldl (add_lower_bound vranges v coef_lcm) [] coef_neg) in
                    let equal := set_intersection upper_bounds lower_bounds in
                    let new_upper := set_difference upper_bounds equal in
                    let new_lower := set_difference lower_bounds equal in
                    let bnds :=
                      mkVarBounds (make_const (vty v) coef_lcm) new_lower equal new_upper in
                    Some (<[v := bnds]> bounds, new_current, rest)
                end
            end
        end
    end.


(** The last loop over [current]: [None] is the contradiction detected. *)
Fixpoint simplify_current (vranges : gmap Var Range) (current : list Expr)
    (other_conditions : list Expr) : option (list Expr) :=
  match current with
  | [] => Some other_conditions
  | e :: current' =>
      let e_simp := SuperSimplify e vranges in
      if is_const_int e_simp 0 then None
      else if is_const_int e_simp 1
           then simplify_current vranges current' other_conditions
           else simplify_current vranges current' (other_conditions ++ [e_simp])
  end.

(** [SolveSystemOfInequalities]: [None] is a failed [CHECK] or an undefined
    operation of the source. *)
Definition SolveSystemOfInequalities (inequalities : list Expr) (vars : list Var)
    (vranges : gmap Var Range) : option SolveSystemOfInequalitiesResult :=
  let current :=
    foldl (fun new_current ineq =>
             add_to_new_current vranges new_current
               (NormalizeComparisons (SuperSimplify ineq vranges)))
          [] inequalities in
  match foldM (solve_inequalities_for vranges) (∅, current, []) vars with
  | None => None
  | Some (bounds, current, rest) =>
      match simplify_current vranges current [] with
      | None => Some (mkSSIResult vars bounds [const_false])
      | Some other_conditions => Some (mkSSIResult vars bounds (other_conditions ++ rest))
      end
  end.


(** *** The diagonalization: arithmetic of the elimination steps *)

Lemma xgcd_loop_spec (a b : Z) fuel :
  forall s old_s t old_t r old_r,
  Z.abs r < Z.of_nat fuel ->
  old_r = old_s * a + old_t * b -> r = s * a + t * b ->
  let '(g, x, y) := xgcd_loop fuel s old_s t old_t r old_r in
  g = x * a + y * b /\ (g | old_r) /\ (g | r) /\ ((old_r <> 0 \/ r <> 0) -> g <> 0).
Proof.
  induction fuel as [|fuel IH]; intros s old_s t old_t r old_r Hf Ho Hr.
  - lia.
  - simpl. destruct (Z.eqb_spec r 0) as [->|Hr0].
    + repeat split; [done|apply Z.divide_refl|apply Z.divide_0_r|].
      intros [?|?]; done.
    + pose proof (Z.rem_bound_abs old_r r Hr0) as Hb.
      assert (old_r - old_r ÷ r * r = Z.rem old_r r) as Hrem.
      { pose proof (Z.quot_rem' old_r r). lia. }
      specialize (IH (old_s - old_r ÷ r * s) s (old_t - old_r ÷ r * t) t
                     (old_r - old_r ÷ r * r) r).
      destruct (xgcd_loop fuel _ _ _ _ _ _) as [[g x] y].
      destruct IH as (Hg & Hd1 & Hd2 & Hnz); [lia|done|lia|].
      repeat split; [done| |done|].
      * replace old_r with ((old_r - old_r ÷ r * r) + old_r ÷ r * r) by lia.
        apply Z.divide_add_r; [done|]. by apply Z.divide_mul_r.
      * intros _. apply Hnz. by left.
Qed.

(** The three [CHECK]s at the end of [xgcd] hold. *)
Lemma xgcd_spec (a b : Z) :
  let '(g, x, y) := xgcd a b in
  g = x * a + y * b /\ (g | a) /\ (g | b) /\ (a <> 0 -> g <> 0).
Proof.
  unfold xgcd.
  pose proof (xgcd_loop_spec a b (S (Z.abs_nat b)) 0 1 1 0 b a) as H.
  destruct (xgcd_loop _ _ _ _ _ _ _) as [[g x] y].
  destruct H as (Hg & Hd1 & Hd2 & Hnz); [lia|lia|lia|].
  repeat split; try done. intros Ha. apply Hnz. by left.
Qed.

(** The coefficients of an elimination step by a nonzero pivot [m]: the
    matrix [[a, b], [n/g, -m/g]] has determinant [-1], the new pivot [g] is
    not larger than [m], and smaller when [xgcd] was used. *)
Lemma elimination_coefs_spec (m n : Z) :
  m <> 0 ->
  let '(g, a, b, used) := elimination_coefs m n in
  let m_g := Z.quot m g in
  let n_g := Z.quot n g in
  g = a * m + b * n /\ g <> 0 /\ m = m_g * g /\ n = n_g * g /\
  a * m_g + b * n_g = 1 /\ Z.abs g <= Z.abs m /\
  (if used then Z.abs g < Z.abs m else a = 1 /\ b = 0 /\ g = m /\ m_g = 1).
Proof.
  intros Hm. unfold elimination_coefs.
  destruct (Z.eqb_spec (Z.rem n m) 0) as [Hrem|Hrem]; simpl.
  - assert (n = n ÷ m * m) as Hn.
    { pose proof (Z.quot_rem' n m). lia. }
    rewrite Z.quot_same by done.
    repeat split; try lia.
  - pose proof (xgcd_spec m n) as H.
    destruct (xgcd m n) as [[g a] b].
    destruct H as (Hg & [k Hk] & [l Hl] & Hnz). specialize (Hnz Hm).
    assert (m ÷ g = k) as Hmg by (rewrite Hk; by apply Z.quot_mul).
    assert (n ÷ g = l) as Hng by (rewrite Hl; by apply Z.quot_mul).
    simpl. rewrite Hmg, Hng.
    assert (a * k + b * l = 1) as Hdet.
    { apply (Z.mul_cancel_r _ _ g); [done|]. lia. }
    assert (Z.abs g <= Z.abs m) as Hle.
    { rewrite Hk, Z.abs_mul. assert (k <> 0) by (intros ->; lia). nia. }
    repeat split; try done.
    destruct (Z.eq_dec (Z.abs g) (Z.abs m)) as [Heq|Hne]; [|lia].
    exfalso. apply Hrem.
    assert (Z.abs k = 1) as Hk1.
    { rewrite Hk, Z.abs_mul in Heq. nia. }
    assert (n = (l * k) * m) as ->.
    { rewrite Hl, Hk. assert (k * k = 1) by nia. nia. }
    by apply Z.rem_mul.
Qed.


(** *** The diagonalization: the matrix operations entry by entry *)

(** Every row has [n] entries. *)
Definition mwf (n : nat) (m : list (list Z)) : Prop :=
  Forall (fun row => length row = n) m.

Lemma mset_length m i j x : length (mset m i j x) = length m.
Proof. unfold mset. by rewrite length_alter. Qed.

Lemma mset_mwf n m i j x : mwf n m -> mwf n (mset m i j x).
Proof.
  intros H. apply Forall_alter; [done|]. intros row _ Hrow.
  by rewrite length_insert.
Qed.

Lemma mget_mset_ne m i j x i' j' :
  i <> i' \/ j <> j' -> mget (mset m i j x) i' j' = mget m i' j'.
Proof.
  intros Hne. unfold mget, mset.
  destruct (decide (i = i')) as [->|Hi].
  - rewrite list_lookup_alter_eq. destruct (m !! i') as [row|]; [|done]. simpl.
    rewrite list_lookup_insert_ne; [done|]. destruct Hne; [done|lia].
  - by rewrite list_lookup_alter_ne.
Qed.

Lemma mget_mset_eq n m i j x :
  mwf n m -> (i < length m)%nat -> (j < n)%nat -> mget (mset m i j x) i j = x.
Proof.
  intros Hwf Hi Hj. unfold mget, mset. rewrite list_lookup_alter_eq.
  destruct (lookup_lt_is_Some_2 m i Hi) as [row Hrow]. rewrite Hrow. simpl.
  rewrite list_lookup_insert_eq; [done|].
  unfold mwf in Hwf. rewrite Forall_lookup in Hwf. by rewrite (Hwf _ _ Hrow).
Qed.

Lemma mget_mset n m i j x i' j' :
  mwf n m -> (i < length m)%nat -> (j < n)%nat ->
  mget (mset m i j x) i' j' = if decide (i = i' /\ j = j') then x else mget m i' j'.
Proof.
  intros Hwf Hi Hj. destruct (decide (i = i' /\ j = j')) as [[<- <-]|Hne].
  - by eapply mget_mset_eq.
  - apply mget_mset_ne. destruct (decide (i = i')); [right|left]; naive_solver.
Qed.

Lemma combine_rows_spec n index i a b m_g n_g cols m :
  mwf n m -> (index < length m)%nat -> (i < length m)%nat -> index <> i ->
  (forall c, c ∈ cols -> (c < n)%nat) -> NoDup cols ->
  let m' := combine_rows index i a b m_g n_g cols m in
  mwf n m' /\ length m' = length m /\
  forall r c, mget m' r c =
    if decide (c ∈ cols) then
      if decide (r = index) then a * mget m index c + b * mget m i c
      else if decide (r = i) then n_g * mget m index c - m_g * mget m i c
      else mget m r c
    else mget m r c.
Proof.
  intros Hwf Hindex Hi Hne Hcols Hnd. revert m Hwf Hindex Hi.
  induction cols as [|j cols IH]; intros m Hwf Hindex Hi; simpl.
  - by repeat split.
  - apply NoDup_cons in Hnd as [Hj Hnd].
    assert (j < n)%nat as Hjn by (apply Hcols, elem_of_cons; by left).
    set (m1 := mset (mset m index j _) i j _).
    assert (mwf n m1) as Hwf1 by (by do 2 apply mset_mwf).
    assert (length m1 = length m) as Hlen1 by (unfold m1; by rewrite !mset_length).
    destruct (IH ltac:(intros; apply Hcols, elem_of_cons; by right) Hnd m1 Hwf1
                ltac:(lia) ltac:(lia)) as (Hwf' & Hlen' & Hget).
    split; [done|]. split; [lia|]. intros r c. rewrite Hget.
    assert (forall r' c', mget m1 r' c' =
              if decide (c' = j) then
                if decide (r' = index) then a * mget m index j + b * mget m i j
                else if decide (r' = i) then n_g * mget m index j - m_g * mget m i j
                else mget m r' c'
              else mget m r' c') as Hm1.
    { intros r' c'. unfold m1.
      rewrite (mget_mset n) by (try apply mset_mwf; rewrite ?mset_length; done).
      rewrite (mget_mset n) by done.
      repeat case_decide; try done; exfalso; lia. }
    destruct (decide (c = j)) as [->|Hcj].
    + rewrite (decide_False (P := j ∈ cols)) by done.
      rewrite (decide_True (P := j ∈ j :: cols)) by (apply elem_of_cons; by left).
      rewrite Hm1. by rewrite (decide_True (P := j = j)).
    + rewrite !Hm1. rewrite !(decide_False (P := c = j)) by done.
      destruct (decide (c ∈ cols)) as [Hc|Hc].
      * by rewrite (decide_True (P := c ∈ j :: cols)) by (apply elem_of_cons; by right).
      * rewrite (decide_False (P := c ∈ j :: cols)); [done|].
        intros [?|?]%elem_of_cons; done.
Qed.

Lemma combine_columns_spec n index j a b m_g n_g rows m :
  mwf n m -> (index < n)%nat -> (j < n)%nat -> index <> j ->
  (forall r, r ∈ rows -> (r < length m)%nat) -> NoDup rows ->
  let m' := combine_columns index j a b m_g n_g rows m in
  mwf n m' /\ length m' = length m /\
  forall r c, mget m' r c =
    if decide (r ∈ rows) then
      if decide (c = index) then a * mget m r index + b * mget m r j
      else if decide (c = j) then n_g * mget m r index - m_g * mget m r j
      else mget m r c
    else mget m r c.
Proof.
  intros Hwf Hindex Hj Hne Hrows Hnd. revert m Hwf Hrows.
  induction rows as [|i rows IH]; intros m Hwf Hrows; simpl.
  - by repeat split.
  - apply NoDup_cons in Hnd as [Hi Hnd].
    assert (i < length m)%nat as Hil by (apply Hrows, elem_of_cons; by left).
    set (m1 := mset (mset m i index _) i j _).
    assert (mwf n m1) as Hwf1 by (by do 2 apply mset_mwf).
    assert (length m1 = length m) as Hlen1 by (unfold m1; by rewrite !mset_length).
    destruct (IH Hnd m1 Hwf1) as (Hwf' & Hlen' & Hget).
    { intros r Hr. rewrite Hlen1. apply Hrows, elem_of_cons. by right. }
    split; [done|]. split; [lia|]. intros r c. rewrite Hget.
    assert (forall r' c', mget m1 r' c' =
              if decide (r' = i) then
                if decide (c' = index) then a * mget m i index + b * mget m i j
                else if decide (c' = j) then n_g * mget m i index - m_g * mget m i j
                else mget m r' c'
              else mget m r' c') as Hm1.
    { intros r' c'. unfold m1.
      rewrite (mget_mset n) by (try apply mset_mwf; rewrite ?mset_length; done).
      rewrite (mget_mset n) by done.
      repeat case_decide; try done; exfalso; lia. }
    destruct (decide (r = i)) as [->|Hri].
    + rewrite (decide_False (P := i ∈ rows)) by done.
      rewrite (decide_True (P := i ∈ i :: rows)) by (apply elem_of_cons; by left).
      rewrite Hm1. by rewrite (decide_True (P := i = i)).
    + rewrite !Hm1. rewrite !(decide_False (P := r = i)) by done.
      destruct (decide (r ∈ rows)) as [Hr|Hr].
      * by rewrite (decide_True (P := r ∈ i :: rows)) by (apply elem_of_cons; by right).
      * rewrite (decide_False (P := r ∈ i :: rows)); [done|].
        intros [?|?]%elem_of_cons; done.
Qed.


Lemma swap_length {A : Type} (l : list A) p q : length (swap l p q) = length l.
Proof.
  unfold swap. destruct (l !! p), (l !! q); try done.
  by rewrite !length_insert.
Qed.

(** The transposition of two indices. *)
Definition transpose (p q r : nat) : nat :=
  if decide (r = p) then q else if decide (r = q) then p else r.

Lemma lookup_swap {A : Type} (l : list A) p q r :
  (p < length l)%nat -> (q < length l)%nat ->
  swap l p q !! r = l !! transpose p q r.
Proof.
  intros Hp Hq. unfold swap, transpose.
  destruct (lookup_lt_is_Some_2 l p Hp) as [x Hx].
  destruct (lookup_lt_is_Some_2 l q Hq) as [y Hy].
  rewrite Hx, Hy.
  destruct (decide (r = p)) as [->|Hrp].
  - rewrite list_lookup_insert_eq by (by rewrite length_insert). done.
  - rewrite list_lookup_insert_ne by done.
    destruct (decide (r = q)) as [->|Hrq].
    + by rewrite list_lookup_insert_eq.
    + by rewrite list_lookup_insert_ne.
Qed.

Lemma swap_mwf n (m : list (list Z)) p q : mwf n m -> mwf n (swap m p q).
Proof.
  intros Hwf. unfold swap.
  destruct (m !! p) as [x|] eqn:Hx; [|done].
  destruct (m !! q) as [y|] eqn:Hy; [|done].
  unfold mwf in *. rewrite Forall_lookup in Hwf.
  apply Forall_insert; [apply Forall_insert|]; try by eapply Hwf.
  by apply Forall_lookup.
Qed.

Lemma mget_swap (m : list (list Z)) p q r c :
  (p < length m)%nat -> (q < length m)%nat ->
  mget (swap m p q) r c = mget m (transpose p q r) c.
Proof. intros Hp Hq. unfold mget. by rewrite lookup_swap. Qed.

Lemma nth_swap {A : Type} (l : list A) p q r d :
  (p < length l)%nat -> (q < length l)%nat ->
  List.nth r (swap l p q) d = List.nth (transpose p q r) l d.
Proof. intros Hp Hq. by rewrite !nth_lookup, lookup_swap. Qed.

Lemma swap_in_rows_spec n index j rows m :
  mwf n m -> (index < n)%nat -> (j < n)%nat -> NoDup rows ->
  let m' := swap_in_rows index j rows m in
  mwf n m' /\ length m' = length m /\
  forall r c, mget m' r c =
    if decide (r ∈ rows) then mget m r (transpose index j c) else mget m r c.
Proof.
  intros Hwf Hindex Hj Hnd. revert m Hwf.
  induction rows as [|i rows IH]; intros m Hwf; simpl.
  - by repeat split.
  - apply NoDup_cons in Hnd as [Hi Hnd].
    set (m1 := alter _ i m).
    assert (mwf n m1) as Hwf1.
    { apply Forall_alter; [done|]. intros row _ Hrow. by rewrite swap_length. }
    assert (length m1 = length m) as Hlen1 by (unfold m1; by rewrite length_alter).
    destruct (IH Hnd m1 Hwf1) as (Hwf' & Hlen' & Hget).
    split; [done|]. split; [lia|]. intros r c. rewrite Hget.
    assert (forall r' c', mget m1 r' c' =
              if decide (r' = i) then mget m r' (transpose index j c')
              else mget m r' c') as Hm1.
    { intros r' c'. unfold m1, mget.
      destruct (decide (r' = i)) as [->|Hne].
      - rewrite list_lookup_alter_eq.
        destruct (m !! i) as [row|] eqn:Hrow; simpl; [|done].
        unfold mwf in Hwf. rewrite Forall_lookup in Hwf.
        rewrite lookup_swap by (by rewrite (Hwf _ _ Hrow)). done.
      - by rewrite list_lookup_alter_ne. }
    rewrite !Hm1.
    destruct (decide (r = i)) as [->|Hri].
    + rewrite (decide_True (P := i ∈ i :: rows)) by (apply elem_of_cons; by left).
      by destruct (decide (i ∈ rows)).
    + destruct (decide (r ∈ rows)) as [Hr|Hr].
      * by rewrite (decide_True (P := r ∈ i :: rows)) by (apply elem_of_cons; by right).
      * rewrite (decide_False (P := r ∈ i :: rows)); [done|].
        intros [?|?]%elem_of_cons; done.
Qed.

(** Sums of the first [n] values of a sequence. *)
Fixpoint zsum (f : nat -> Z) (n : nat) : Z :=
  match n with
  | O => 0
  | S n => zsum f n + f n
  end.

Lemma zsum_ext f g n :
  (forall c, (c < n)%nat -> f c = g c) -> zsum f n = zsum g n.
Proof.
  induction n as [|n IH]; intros H; simpl; [done|].
  rewrite IH, H by (intros; auto with lia). done.
Qed.

Lemma zsum_linear a b f g n :
  zsum (fun c => a * f c + b * g c) n = a * zsum f n + b * zsum g n.
Proof. induction n as [|n IH]; simpl; lia. Qed.

Lemma zsum_zero f n : (forall c, (c < n)%nat -> f c = 0) -> zsum f n = 0.
Proof.
  induction n as [|n IH]; intros H; simpl; [done|].
  rewrite IH, H by (intros; auto with lia). done.
Qed.

Lemma zsum_single f n i :
  (i < n)%nat -> (forall c, (c < n)%nat -> c <> i -> f c = 0) -> zsum f n = f i.
Proof.
  induction n as [|n IH]; intros Hi H; [lia|]. simpl.
  destruct (decide (i = n)) as [->|Hne].
  - rewrite zsum_zero; [lia|]. intros c Hc. apply H; lia.
  - rewrite IH, (H n) by (intros; auto with lia). lia.
Qed.

Lemma zsum_two f g n p q :
  (p < n)%nat -> (q < n)%nat -> p <> q ->
  (forall c, (c < n)%nat -> c <> p -> c <> q -> f c = g c) ->
  zsum f n = zsum g n + (f p - g p) + (f q - g q).
Proof.
  intros Hp Hq Hpq H.
  assert (zsum (fun c => f c - g c) n = (f p - g p) + (f q - g q)) as Hd.
  { clear -Hp Hq Hpq H. induction n as [|n IH]; [lia|]. simpl.
    destruct (decide (p = n)) as [->|Hpn].
    - rewrite (zsum_single _ n q); [lia|lia|].
      intros c Hc Hcq. rewrite H; lia.
    - destruct (decide (q = n)) as [->|Hqn].
      + rewrite (zsum_single _ n p); [lia|lia|].
        intros c Hc Hcq. rewrite H; lia.
      + rewrite IH, (H n) by (intros; auto with lia). lia. }
  assert (zsum f n = zsum g n + zsum (fun c => f c - g c) n) as ->; [|lia].
  clear. induction n as [|n IH]; simpl; lia.
Qed.


(** The row found has the least nonzero absolute value in the column, when
    the column has a nonzero entry from row [index] on. *)
Lemma find_best_row_spec m index :
  (index < length m)%nat ->
  let best_i := find_best_row m index in
  (index <= best_i < length m)%nat /\
  forall i, (index <= i < length m)%nat -> mget m i index <> 0 ->
    mget m best_i index <> 0 /\ Z.abs (mget m best_i index) <= Z.abs (mget m i index).
Proof.
  intros Hindex. unfold find_best_row.
  set (f := fun best_i i : nat => _).
  assert (forall k, (k <= length m - index)%nat ->
            let b := foldl f index (seq index k) in
            (index <= b < length m)%nat /\
            forall i, (index <= i < index + k)%nat -> mget m i index <> 0 ->
              mget m b index <> 0 /\ Z.abs (mget m b index) <= Z.abs (mget m i index))
    as H.
  { induction k as [|k IH]; intros Hk.
    - simpl. split; [lia|]. intros i Hi. lia.
    - rewrite seq_S, foldl_app. simpl.
      destruct (IH ltac:(lia)) as [Hb Hmin].
      set (b := foldl f index (seq index k)) in *.
      set (b' := f b (index + k)%nat).
      assert (b' = if negb (mget m (index + k) index =? 0)
                      && ((mget m b index =? 0)
                          || (Z.abs (mget m (index + k) index) <? Z.abs (mget m b index)))
                   then (index + k)%nat else b) as Hb' by done.
      clearbody b'.
      destruct (Z.eqb_spec (mget m (index + k) index) 0) as [Hz|Hnz];
        destruct (Z.eqb_spec (mget m b index) 0) as [Hbz|Hbnz];
        destruct (Z.ltb_spec (Z.abs (mget m (index + k) index)) (Z.abs (mget m b index)))
          as [Hlt|Hge];
        simpl in Hb'; subst b'; (split; [lia|]); intros i Hi Hnzi;
        (destruct (decide (i = index + k)%nat) as [->|Hne];
         [first [done | split; [done|lia]]
         |destruct (Hmin i ltac:(lia) Hnzi) as [? ?];
          first [done | split; [done|lia]]]). }
  destruct (H (length m - index)%nat ltac:(lia)) as [Hb Hmin].
  split; [done|]. intros i Hi. apply Hmin. lia.
Qed.


(** *** The diagonalization: what the steps preserve *)

Definition non_bool (e : Expr) : Prop := is_bool (type_of e) = false.

Lemma eval_scaled σ a x :
  non_bool x -> eval σ (make_const (type_of x) a * x)%E = a * eval σ x.
Proof.
  intros Hx. rewrite eval_arith by (by rewrite ?type_of_make_const).
  rewrite eval_make_const. by rewrite canon_not_bool.
Qed.

Lemma eval_combination σ (op : BinOp) a b x y :
  op = Add \/ op = Sub -> non_bool x -> non_bool y ->
  eval σ (Bin op (make_const (type_of x) a * x) (make_const (type_of y) b * y))%E
  = bin_sem op (a * eval σ x) (b * eval σ y).
Proof.
  intros Hop Hx Hy.
  rewrite eval_arith; [by rewrite !eval_scaled| |].
  - by destruct Hop as [-> | ->].
  - simpl. by rewrite type_of_make_const.
Qed.

Lemma non_bool_combination (op : BinOp) a b x y :
  op = Add \/ op = Sub -> non_bool x ->
  non_bool (Bin op (make_const (type_of x) a * x) (make_const (type_of y) b * y))%E.
Proof.
  intros Hop Hx. unfold non_bool. destruct Hop as [-> | ->]; simpl;
    by rewrite type_of_make_const.
Qed.

(** A property of expressions that the linear combinations of the
    elimination steps keep. *)
Definition lin_closed (P : Expr -> Prop) : Prop :=
  forall (op : BinOp) a b x y, op = Add \/ op = Sub -> P x -> P y ->
    P (Bin op (make_const (type_of x) a * x) (make_const (type_of y) b * y))%E.

Section Diagonalization.

(** The properties that the right hand sides and the expressions of the new
    variables keep: they are of integer type; the theorems on the solver
    add what they need on the variables that occur. *)
Variables Prhs Pn2o : Expr -> Prop.
Hypothesis Prhs_closed : lin_closed Prhs.
Hypothesis Pn2o_closed : lin_closed Pn2o.
Hypothesis Prhs_non_bool : forall e, Prhs e -> non_bool e.
Hypothesis Pn2o_non_bool : forall e, Pn2o e -> non_bool e.

(** The shape of a state of the diagonalization of [rows] equations in [n]
    variables. *)
Record diag_shape (rows n : nat) (st : Diag) : Prop := mkDiagShape {
  shape_matrix : mwf n (d_matrix st);
  shape_rows : length (d_matrix st) = rows;
  shape_o2n : mwf n (d_old_to_new st);
  shape_o2n_rows : length (d_old_to_new st) = n;
  shape_rhs : length (d_rhs st) = rows;
  shape_n2o : length (d_new_to_old st) = n;
  shape_rhs_ok : Forall Prhs (d_rhs st);
  shape_n2o_ok : Forall Pn2o (d_new_to_old st)
}.

(** The matrix is diagonal in the rows and the columns before [k]. *)
Definition partial_diagonal (k : nat) (m : list (list Z)) : Prop :=
  forall i j, (i < k \/ j < k)%nat -> i <> j -> mget m i j = 0.

(** The values of the new variables and of the right hand sides. *)
Definition yv (σ : Env) (st : Diag) (c : nat) : Z :=
  eval σ (List.nth c (d_new_to_old st) (make_zero TInt)).
Definition rv (σ : Env) (st : Diag) (r : nat) : Z :=
  eval σ (List.nth r (d_rhs st) (make_zero TInt)).

(** Equation [r] of the system, and the system. *)
Definition row_holds (σ : Env) (n : nat) (st : Diag) (r : nat) : Prop :=
  zsum (fun c => mget (d_matrix st) r c * yv σ st c) n = rv σ st r.
Definition system (σ : Env) (rows n : nat) (st : Diag) : Prop :=
  forall r, (r < rows)%nat -> row_holds σ n st r.

(** The value that the [old_to_new] matrix gives the old variable [i]. *)
Definition old_value (σ : Env) (n : nat) (st : Diag) (i : nat) : Z :=
  zsum (fun c => mget (d_old_to_new st) i c * yv σ st c) n.

(** Two states describe the same solutions: the systems are equivalent, the
    old variables get the same values, and values [s'] of the new variables
    of the second state come from values [s] of the new variables of the
    first one. *)
Definition diag_equiv (rows n : nat) (st st' : Diag) : Prop :=
  (forall σ, system σ rows n st <-> system σ rows n st') /\
  (forall σ i, (i < n)%nat -> old_value σ n st i = old_value σ n st' i) /\
  (forall s' : nat -> Z, exists s : nat -> Z,
     (forall i, (i < n)%nat ->
        zsum (fun c => mget (d_old_to_new st') i c * s' c) n
        = zsum (fun c => mget (d_old_to_new st) i c * s c) n) /\
     forall σ, (forall c, (c < n)%nat -> yv σ st c = s c) ->
               forall c, (c < n)%nat -> yv σ st' c = s' c).

Lemma diag_equiv_refl rows n st : diag_equiv rows n st st.
Proof.
  repeat split; try done. intros s'. exists s'. by split.
Qed.

Lemma diag_equiv_trans rows n st1 st2 st3 :
  diag_equiv rows n st1 st2 -> diag_equiv rows n st2 st3 -> diag_equiv rows n st1 st3.
Proof.
  intros (Hs1 & Ho1 & Hi1) (Hs2 & Ho2 & Hi2). repeat split.
  - intros H. by apply Hs2, Hs1.
  - intros H. by apply Hs1, Hs2.
  - intros σ i Hi. by rewrite Ho1, Ho2.
  - intros s3. destruct (Hi2 s3) as (s2 & Hsum2 & Hy2).
    destruct (Hi1 s2) as (s1 & Hsum1 & Hy1).
    exists s1. split.
    + intros i Hi. by rewrite Hsum2, Hsum1.
    + intros σ Hy. by apply Hy2, Hy1.
Qed.


Lemma unimodular_kernel a b m_g n_g d1 d2 :
  a * m_g + b * n_g = 1 ->
  a * d1 + b * d2 = 0 -> n_g * d1 - m_g * d2 = 0 -> d1 = 0 /\ d2 = 0.
Proof.
  intros Hdet H1 H2. split.
  - transitivity ((a * m_g + b * n_g) * d1); [rewrite Hdet; ring|].
    transitivity (m_g * (a * d1 + b * d2) + b * (n_g * d1 - m_g * d2)); [ring|].
    rewrite H1, H2. ring.
  - transitivity ((a * m_g + b * n_g) * d2); [rewrite Hdet; ring|].
    transitivity (n_g * (a * d1 + b * d2) - a * (n_g * d1 - m_g * d2)); [ring|].
    rewrite H1, H2. ring.
Qed.

Lemma Forall_swap {A : Type} (P : A -> Prop) (l : list A) p q :
  Forall P l -> Forall P (swap l p q).
Proof.
  intros H. unfold swap.
  destruct (l !! p) as [x|] eqn:Hx; [|done].
  destruct (l !! q) as [y|] eqn:Hy; [|done].
  rewrite Forall_lookup in H.
  apply Forall_insert; [apply Forall_insert|]; try by eapply H.
  by apply Forall_lookup.
Qed.

Lemma Forall_nth_default {A : Type} (P : A -> Prop) (l : list A) i d :
  Forall P l -> (i < length l)%nat -> P (List.nth i l d).
Proof.
  intros H Hi. rewrite nth_lookup.
  destruct (lookup_lt_is_Some_2 l i Hi) as [x Hx]. rewrite Hx. simpl.
  rewrite Forall_lookup in H. by eapply H.
Qed.

Lemma transpose_lt p q r k :
  (p < k)%nat -> (q < k)%nat -> (r < k)%nat -> (transpose p q r < k)%nat.
Proof. intros. unfold transpose. repeat case_decide; lia. Qed.

Lemma transpose_involutive p q r : transpose p q (transpose p q r) = r.
Proof. unfold transpose. repeat case_decide; lia. Qed.

(** Swapping two rows, from row [k] on, with their right hand sides. *)
Lemma swap_rows_equiv rows n k st p q :
  diag_shape rows n st -> (p < rows)%nat -> (q < rows)%nat ->
  let st' := mkDiag (swap (d_matrix st) p q) (swap (d_rhs st) p q)
                    (d_old_to_new st) (d_new_to_old st) in
  diag_shape rows n st' /\ diag_equiv rows n st st' /\
  (partial_diagonal k (d_matrix st) -> (k <= p)%nat -> (k <= q)%nat ->
   partial_diagonal k (d_matrix st')).
Proof.
  intros [Hm Hr Ho Hor Hrhs Hn2o Hrt Hnt] Hp Hq st'.
  assert (forall σ r, row_holds σ n st' r <-> row_holds σ n st (transpose p q r)) as Hrow.
  { intros σ r. unfold row_holds, rv, yv, st'. simpl.
    rewrite nth_swap by lia.
    erewrite zsum_ext; [done|]. intros c Hc. simpl.
    by rewrite mget_swap by lia. }
  split; [|split].
  - split; simpl; try done.
    + by apply swap_mwf.
    + by rewrite swap_length.
    + by rewrite swap_length.
    + by apply Forall_swap.
  - repeat split.
    + intros H r Hlt. apply Hrow, H. by apply transpose_lt.
    + intros H r Hlt. rewrite <- (transpose_involutive p q r).
      apply Hrow, H. by apply transpose_lt.
    + intros s'. exists s'. by split.
  - intros Hpd Hkp Hkq i j Hij Hne. simpl. rewrite mget_swap by lia.
    apply Hpd.
    + unfold transpose. repeat case_decide; lia.
    + unfold transpose. repeat case_decide; lia.
Qed.


Lemma elem_of_seq_lt (a len c : nat) : c ∈ seq a len <-> (a <= c < a + len)%nat.
Proof. apply elem_of_seq. Qed.

Lemma nth_insert_eq {A : Type} (l : list A) i x d :
  (i < length l)%nat -> List.nth i (<[i := x]> l) d = x.
Proof. intros Hi. by rewrite nth_lookup, list_lookup_insert_eq. Qed.

Lemma nth_insert_ne {A : Type} (l : list A) i j x d :
  i <> j -> List.nth j (<[i := x]> l) d = List.nth j l d.
Proof. intros Hne. by rewrite !nth_lookup, list_lookup_insert_ne. Qed.

(** A row operation of determinant [-1] on the rows [k] and [i]. *)
Lemma combine_rows_equiv rows n k st i a b m_g n_g :
  diag_shape rows n st -> (k < rows)%nat -> (i < rows)%nat -> k <> i ->
  partial_diagonal k (d_matrix st) -> (k < i)%nat ->
  a * m_g + b * n_g = 1 ->
  let rhs_k := List.nth k (d_rhs st) (make_zero TInt) in
  let rhs_i := List.nth i (d_rhs st) (make_zero TInt) in
  let new_k :=
    (make_const (type_of rhs_k) a * rhs_k + make_const (type_of rhs_i) b * rhs_i)%E in
  let new_i :=
    (make_const (type_of rhs_k) n_g * rhs_k - make_const (type_of rhs_i) m_g * rhs_i)%E in
  let st' := mkDiag (combine_rows k i a b m_g n_g (seq k (n - k)) (d_matrix st))
                    (<[i := new_i]> (<[k := new_k]> (d_rhs st)))
                    (d_old_to_new st) (d_new_to_old st) in
  diag_shape rows n st' /\ diag_equiv rows n st st' /\
  partial_diagonal k (d_matrix st') /\
  forall r c, mget (d_matrix st') r c =
    if decide (r = k) then a * mget (d_matrix st) k c + b * mget (d_matrix st) i c
    else if decide (r = i)
         then n_g * mget (d_matrix st) k c - m_g * mget (d_matrix st) i c
         else mget (d_matrix st) r c.
Proof.
  intros [Hm Hr Ho Hor Hrhs Hn2o Hrt Hnt] Hk Hi Hne Hpd Hki Hdet rhs_k rhs_i new_k new_i st'.
  destruct (combine_rows_spec n k i a b m_g n_g (seq k (n - k)) (d_matrix st))
    as (Hwf' & Hlen' & Hget); try done; try lia.
  { intros c Hc%elem_of_seq. lia. }
  { apply NoDup_seq. }
  assert (Prhs rhs_k) as Hpk by (apply Forall_nth_default; [done|lia]).
  assert (Prhs rhs_i) as Hpi by (apply Forall_nth_default; [done|lia]).
  assert (forall r c, mget (d_matrix st') r c =
    if decide (r = k) then a * mget (d_matrix st) k c + b * mget (d_matrix st) i c
    else if decide (r = i)
         then n_g * mget (d_matrix st) k c - m_g * mget (d_matrix st) i c
         else mget (d_matrix st) r c) as Hentry.
  { intros r c. unfold st'. simpl. rewrite Hget.
    destruct (decide (c ∈ seq k (n - k))) as [Hc|Hc]; [done|].
    rewrite elem_of_seq in Hc.
    destruct (decide (c < k)%nat) as [Hck|Hck].
    - repeat case_decide; subst; rewrite ?(Hpd k c), ?(Hpd i c) by lia; lia.
    - assert (forall r', mget (d_matrix st) r' c = 0) as Hz.
      { intros r'. unfold mget. destruct (d_matrix st !! r') as [row|] eqn:Hrow; [|done].
        simpl. rewrite lookup_ge_None_2; [done|].
        unfold mwf in Hm. rewrite Forall_lookup in Hm. rewrite (Hm _ _ Hrow). lia. }
      repeat case_decide; subst; rewrite !Hz; lia. }
  assert (forall σ r, rv σ st' r =
    if decide (r = k) then a * rv σ st k + b * rv σ st i
    else if decide (r = i) then n_g * rv σ st k - m_g * rv σ st i
    else rv σ st r) as Hrv.
  { intros σ r. unfold rv, st'. simpl.
    destruct (decide (r = i)) as [->|Hri].
    - rewrite nth_insert_eq by (rewrite length_insert; lia).
      rewrite decide_False by lia. unfold new_i.
      rewrite eval_combination by (auto using Prhs_non_bool). done.
    - rewrite nth_insert_ne by done.
      destruct (decide (r = k)) as [->|Hrk].
      + rewrite nth_insert_eq by lia. unfold new_k.
        rewrite eval_combination by (auto using Prhs_non_bool). done.
      + by rewrite nth_insert_ne. }
  set (L := fun σ r => zsum (fun c => mget (d_matrix st) r c * yv σ st c) n).
  assert (forall σ r, zsum (fun c => mget (d_matrix st') r c * yv σ st' c) n =
    if decide (r = k) then a * L σ k + b * L σ i
    else if decide (r = i) then n_g * L σ k - m_g * L σ i
    else L σ r) as HL.
  { intros σ r. unfold L.
    destruct (decide (r = k)) as [->|Hrk]; [|destruct (decide (r = i)) as [->|Hri]].
    - rewrite <- zsum_linear. apply zsum_ext. intros c Hc.
      rewrite Hentry, decide_True by done. unfold yv. simpl. ring.
    - replace (n_g * zsum (fun c => mget (d_matrix st) k c * yv σ st c) n
               - m_g * zsum (fun c => mget (d_matrix st) i c * yv σ st c) n)
        with (n_g * zsum (fun c => mget (d_matrix st) k c * yv σ st c) n
              + (- m_g) * zsum (fun c => mget (d_matrix st) i c * yv σ st c) n) by ring.
      rewrite <- zsum_linear. apply zsum_ext. intros c Hc.
      rewrite Hentry, decide_False, decide_True by done. unfold yv. simpl. ring.
    - apply zsum_ext. intros c Hc.
      by rewrite Hentry, !decide_False by done. }
  split; [|split; [|split]]; [| | |done].
  - split; simpl; try done.
    + lia.
    + by rewrite !length_insert.
    + apply Forall_insert; [apply Forall_insert|]; try done.
      * by apply Prhs_closed; auto.
      * by apply Prhs_closed; auto.
  - repeat split.
    + intros H r Hlt. unfold row_holds. rewrite HL, Hrv.
      pose proof (H k Hk) as Hk'. pose proof (H i Hi) as Hi'.
      pose proof (H r Hlt) as Hr'. unfold row_holds in Hk', Hi', Hr'. fold (L σ k) in Hk'.
      fold (L σ i) in Hi'. fold (L σ r) in Hr'.
      repeat case_decide; congruence.
    + intros H r Hlt. unfold row_holds. fold (L σ r).
      pose proof (H k Hk) as Hk'. pose proof (H i Hi) as Hi'.
      pose proof (H r Hlt) as Hr'. unfold row_holds in Hk', Hi', Hr'.
      rewrite HL, Hrv in Hk', Hi', Hr'.
      destruct (decide (k = k)); [|done]. destruct (decide (i = k)); [lia|].
      destruct (decide (i = i)); [|done].
      destruct (unimodular_kernel a b m_g n_g (L σ k - rv σ st k) (L σ i - rv σ st i))
        as [H1 H2]; [done|lia|lia|].
      destruct (decide (r = k)) as [->|Hrk]; [lia|].
      destruct (decide (r = i)) as [->|Hri]; [lia|done].
    + intros s'. exists s'. by split.
  - intros r c Hrc Hne'. rewrite Hentry.
    destruct (decide (r = k)) as [->|Hrk]; [|destruct (decide (r = i)) as [->|Hri]].
    + rewrite (Hpd k c), (Hpd i c) by lia. lia.
    + rewrite (Hpd k c), (Hpd i c) by lia. lia.
    + by apply Hpd.
Qed.


Lemma column_op_sum a b m_g n_g mk mj yk yj :
  a * m_g + b * n_g = 1 ->
  (a * mk + b * mj) * (m_g * yk + n_g * yj) + (n_g * mk - m_g * mj) * (b * yk - a * yj)
  = mk * yk + mj * yj.
Proof.
  intros H. transitivity ((a * m_g + b * n_g) * (mk * yk + mj * yj)); [ring|].
  rewrite H. ring.
Qed.

Lemma mget_row_ge (m : list (list Z)) r c : (length m <= r)%nat -> mget m r c = 0.
Proof. intros H. unfold mget. by rewrite lookup_ge_None_2. Qed.

Lemma mget_col_ge n (m : list (list Z)) r c : mwf n m -> (n <= c)%nat -> mget m r c = 0.
Proof.
  intros Hm Hc. unfold mget. destruct (m !! r) as [row|] eqn:Hrow; [|done].
  simpl. rewrite lookup_ge_None_2; [done|].
  unfold mwf in Hm. rewrite Forall_lookup in Hm. rewrite (Hm _ _ Hrow). lia.
Qed.

(** A column operation of determinant [-1] on the columns [k] and [j], with
    the inverse operation on the expressions of the new variables. *)
Lemma combine_columns_equiv rows n k st j a b m_g n_g :
  diag_shape rows n st -> (k < n)%nat -> (j < n)%nat -> (k < j)%nat ->
  partial_diagonal k (d_matrix st) ->
  a * m_g + b * n_g = 1 ->
  let n2o_k := List.nth k (d_new_to_old st) (make_zero TInt) in
  let n2o_j := List.nth j (d_new_to_old st) (make_zero TInt) in
  let new_k :=
    (make_const (type_of n2o_k) m_g * n2o_k + make_const (type_of n2o_j) n_g * n2o_j)%E in
  let new_j :=
    (make_const (type_of n2o_k) b * n2o_k - make_const (type_of n2o_j) a * n2o_j)%E in
  let st' :=
    mkDiag (combine_columns k j a b m_g n_g (seq k (length (d_matrix st) - k)) (d_matrix st))
           (d_rhs st)
           (combine_columns k j a b m_g n_g (seq 0 (length (d_old_to_new st)))
              (d_old_to_new st))
           (<[j := new_j]> (<[k := new_k]> (d_new_to_old st))) in
  diag_shape rows n st' /\ diag_equiv rows n st st' /\
  partial_diagonal k (d_matrix st') /\
  forall r c, mget (d_matrix st') r c =
    if decide (c = k) then a * mget (d_matrix st) r k + b * mget (d_matrix st) r j
    else if decide (c = j)
         then n_g * mget (d_matrix st) r k - m_g * mget (d_matrix st) r j
         else mget (d_matrix st) r c.
Proof.
  intros [Hm Hr Ho Hor Hrhs Hn2o Hrt Hnt] Hk Hj Hkj Hpd Hdet n2o_k n2o_j new_k new_j st'.
  destruct (combine_columns_spec n k j a b m_g n_g (seq k (length (d_matrix st) - k))
              (d_matrix st)) as (Hwf' & Hlen' & Hget); try done; try lia.
  { intros c Hc%elem_of_seq. lia. }
  { apply NoDup_seq. }
  destruct (combine_columns_spec n k j a b m_g n_g (seq 0 (length (d_old_to_new st)))
              (d_old_to_new st)) as (Hwfo & Hleno & Hgeto); try done; try lia.
  { intros c Hc%elem_of_seq. lia. }
  { apply NoDup_seq. }
  assert (Pn2o n2o_k) as Hpk by (apply Forall_nth_default; [done|lia]).
  assert (Pn2o n2o_j) as Hpj by (apply Forall_nth_default; [done|lia]).
  assert (forall r c, mget (d_matrix st') r c =
    if decide (c = k) then a * mget (d_matrix st) r k + b * mget (d_matrix st) r j
    else if decide (c = j)
         then n_g * mget (d_matrix st) r k - m_g * mget (d_matrix st) r j
         else mget (d_matrix st) r c) as Hentry.
  { intros r c. unfold st'. simpl. rewrite Hget.
    destruct (decide (r ∈ seq k (length (d_matrix st) - k))) as [Hc|Hc]; [done|].
    rewrite elem_of_seq in Hc.
    destruct (decide (r < k)%nat) as [Hrk|Hrk].
    - repeat case_decide; subst; rewrite ?(Hpd r k), ?(Hpd r j) by lia; lia.
    - repeat case_decide; subst; rewrite !(mget_row_ge (d_matrix st) r) by lia; lia. }
  assert (forall r c, mget (d_old_to_new st') r c =
    if decide (c = k) then a * mget (d_old_to_new st) r k + b * mget (d_old_to_new st) r j
    else if decide (c = j)
         then n_g * mget (d_old_to_new st) r k - m_g * mget (d_old_to_new st) r j
         else mget (d_old_to_new st) r c) as Hentryo.
  { intros r c. unfold st'. simpl. rewrite Hgeto.
    destruct (decide (r ∈ seq 0 (length (d_old_to_new st)))) as [Hc|Hc]; [done|].
    rewrite elem_of_seq in Hc.
    repeat case_decide; subst; rewrite !(mget_row_ge (d_old_to_new st) r) by lia; lia. }
  assert (forall σ c, yv σ st' c =
    if decide (c = k) then m_g * yv σ st k + n_g * yv σ st j
    else if decide (c = j) then b * yv σ st k - a * yv σ st j
    else yv σ st c) as Hyv.
  { intros σ c. unfold yv, st'. simpl.
    destruct (decide (c = j)) as [->|Hcj].
    - rewrite nth_insert_eq by (rewrite length_insert; lia).
      rewrite decide_False by lia. unfold new_j.
      rewrite eval_combination by (auto using Pn2o_non_bool). done.
    - rewrite nth_insert_ne by done.
      destruct (decide (c = k)) as [->|Hck].
      + rewrite nth_insert_eq by lia. unfold new_k.
        rewrite eval_combination by (auto using Pn2o_non_bool). done.
      + by rewrite nth_insert_ne. }
  assert (forall (f : nat -> nat -> Z) (f' : nat -> nat -> Z) σ r,
    (forall c, f' r c =
       if decide (c = k) then a * f r k + b * f r j
       else if decide (c = j) then n_g * f r k - m_g * f r j else f r c) ->
    zsum (fun c => f' r c * yv σ st' c) n = zsum (fun c => f r c * yv σ st c) n) as Hsum.
  { intros f f' σ r Hf.
    rewrite (zsum_two _ (fun c => f r c * yv σ st c) n k j); try done; try lia.
    - rewrite !Hf, !Hyv.
      rewrite !(decide_True (P := k = k)) by done.
      rewrite !(decide_False (P := j = k)) by lia.
      rewrite !(decide_True (P := j = j)) by done.
      pose proof (column_op_sum a b m_g n_g (f r k) (f r j) (yv σ st k) (yv σ st j) Hdet).
      lia.
    - intros c Hc Hck Hcj. by rewrite Hf, Hyv, !decide_False by done. }
  split; [|split; [|split]]; [| | |done].
  - split; simpl; try done.
    + lia.
    + lia.
    + by rewrite !length_insert.
    + apply Forall_insert; [apply Forall_insert|]; try done.
      * by apply Pn2o_closed; auto.
      * by apply Pn2o_closed; auto.
  - repeat split.
    + intros H r Hlt. unfold row_holds.
      rewrite (Hsum (mget (d_matrix st)) (mget (d_matrix st'))) by apply Hentry.
      apply (H r Hlt).
    + intros H r Hlt. unfold row_holds.
      rewrite <- (Hsum (mget (d_matrix st)) (mget (d_matrix st'))) by apply Hentry.
      apply (H r Hlt).
    + intros σ i Hi. unfold old_value. symmetry.
      apply (Hsum (mget (d_old_to_new st)) (mget (d_old_to_new st'))), Hentryo.
    + intros s'.
      exists (fun c => if decide (c = k) then a * s' k + n_g * s' j
                       else if decide (c = j) then b * s' k - m_g * s' j
                       else s' c).
      split.
      * intros i Hi.
        rewrite (zsum_two _ (fun c => mget (d_old_to_new st) i c *
                   (if decide (c = k) then a * s' k + n_g * s' j
                    else if decide (c = j) then b * s' k - m_g * s' j
                    else s' c)) n k j); try done; try lia.
        -- rewrite !Hentryo.
           rewrite !(decide_True (P := k = k)) by done.
           rewrite !(decide_False (P := j = k)) by lia.
           rewrite !(decide_True (P := j = j)) by done. ring.
        -- intros c Hc Hck Hcj. by rewrite Hentryo, !decide_False by done.
      * intros σ Hy c Hc. rewrite Hyv, !Hy by lia.
        rewrite !(decide_True (P := k = k)) by done.
        rewrite !(decide_False (P := j = k)) by lia.
        rewrite !(decide_True (P := j = j)) by done.
        destruct (decide (c = k)) as [->|Hck]; [|destruct (decide (c = j)) as [->|Hcj]].
        -- transitivity ((a * m_g + b * n_g) * s' k); [ring|]. rewrite Hdet. ring.
        -- transitivity ((a * m_g + b * n_g) * s' j); [ring|]. rewrite Hdet. ring.
        -- done.
  - intros r c Hrc Hne'. rewrite Hentry.
    destruct (decide (c = k)) as [->|Hck]; [|destruct (decide (c = j)) as [->|Hcj]].
    + rewrite (Hpd r k), (Hpd r j) by lia. lia.
    + rewrite (Hpd r k), (Hpd r j) by lia. lia.
    + by apply Hpd.
Qed.


Lemma zsum_transpose g n p q :
  (p < n)%nat -> (q < n)%nat ->
  zsum (fun c => g (transpose p q c)) n = zsum g n.
Proof.
  intros Hp Hq. destruct (decide (p = q)) as [->|Hne].
  - apply zsum_ext. intros c _. f_equal. unfold transpose. repeat case_decide; lia.
  - rewrite (zsum_two _ g n p q); try done.
    + unfold transpose.
      rewrite !(decide_True (P := p = p)) by done.
      rewrite !(decide_False (P := q = p)) by done.
      rewrite !(decide_True (P := q = q)) by done. lia.
    + intros c Hc Hcp Hcq. unfold transpose. by rewrite !decide_False.
Qed.

(** Swapping the columns [k] and [j], with the new variables. *)
Lemma swap_columns_equiv rows n k st j :
  diag_shape rows n st -> (k < n)%nat -> (j < n)%nat -> (k < j)%nat ->
  partial_diagonal k (d_matrix st) ->
  let st' := swap_columns k j st in
  diag_shape rows n st' /\ diag_equiv rows n st st' /\
  partial_diagonal k (d_matrix st') /\
  forall r c, mget (d_matrix st') r c = mget (d_matrix st) r (transpose k j c).
Proof.
  intros [Hm Hr Ho Hor Hrhs Hn2o Hrt Hnt] Hk Hj Hkj Hpd st'.
  destruct (swap_in_rows_spec n k j (seq k (length (d_matrix st) - k)) (d_matrix st))
    as (Hwf' & Hlen' & Hget); try done. { apply NoDup_seq. }
  destruct (swap_in_rows_spec n k j (seq 0 (length (d_old_to_new st))) (d_old_to_new st))
    as (Hwfo & Hleno & Hgeto); try done. { apply NoDup_seq. }
  assert (forall r c, mget (d_matrix st') r c = mget (d_matrix st) r (transpose k j c))
    as Hentry.
  { intros r c. unfold st'. simpl. rewrite Hget.
    destruct (decide (r ∈ seq k (length (d_matrix st) - k))) as [Hc|Hc]; [done|].
    rewrite elem_of_seq in Hc.
    destruct (decide (r < k)%nat) as [Hrk|Hrk].
    - unfold transpose. repeat case_decide; subst; rewrite ?(Hpd r k), ?(Hpd r j) by lia; lia.
    - by rewrite !(mget_row_ge (d_matrix st) r) by lia. }
  assert (forall r c, mget (d_old_to_new st') r c
                      = mget (d_old_to_new st) r (transpose k j c)) as Hentryo.
  { intros r c. unfold st'. simpl. rewrite Hgeto.
    destruct (decide (r ∈ seq 0 (length (d_old_to_new st)))) as [Hc|Hc]; [done|].
    rewrite elem_of_seq in Hc.
    by rewrite !(mget_row_ge (d_old_to_new st) r) by lia. }
  assert (forall σ c, yv σ st' c = yv σ st (transpose k j c)) as Hyv.
  { intros σ c. unfold yv, st'. simpl. by rewrite nth_swap by lia. }
  assert (forall (f f' : nat -> nat -> Z) σ r,
    (forall c, f' r c = f r (transpose k j c)) ->
    zsum (fun c => f' r c * yv σ st' c) n = zsum (fun c => f r c * yv σ st c) n) as Hsum.
  { intros f f' σ r Hf.
    rewrite <- (zsum_transpose (fun c => f r c * yv σ st c) n k j) by done.
    apply zsum_ext. intros c Hc. by rewrite Hf, Hyv. }
  split; [|split; [|split]]; [| | |done].
  - split; simpl; try done.
    + lia.
    + lia.
    + by rewrite swap_length.
    + by apply Forall_swap.
  - repeat split.
    + intros H r Hlt. unfold row_holds.
      rewrite (Hsum (mget (d_matrix st)) (mget (d_matrix st'))) by apply Hentry.
      apply (H r Hlt).
    + intros H r Hlt. unfold row_holds.
      rewrite <- (Hsum (mget (d_matrix st)) (mget (d_matrix st'))) by apply Hentry.
      apply (H r Hlt).
    + intros σ i Hi. unfold old_value. symmetry.
      apply (Hsum (mget (d_old_to_new st)) (mget (d_old_to_new st'))), Hentryo.
    + intros s'. exists (fun c => s' (transpose k j c)). split.
      * intros i Hi.
        rewrite <- (zsum_transpose
          (fun c => mget (d_old_to_new st) i c * s' (transpose k j c)) n k j) by done.
        apply zsum_ext. intros c Hc. by rewrite Hentryo, transpose_involutive.
      * intros σ Hy c Hc. rewrite Hyv, Hy by (apply transpose_lt; lia).
        by rewrite transpose_involutive.
  - intros r c Hrc Hne'. rewrite Hentry. apply Hpd.
    + unfold transpose. repeat case_decide; lia.
    + unfold transpose. repeat case_decide; lia.
Qed.


(** One row operation of the elimination of column [k]. *)
Lemma eliminate_column_at_spec rows n k st i :
  diag_shape rows n st -> partial_diagonal k (d_matrix st) ->
  (k < rows)%nat -> (k < n)%nat -> mget (d_matrix st) k k <> 0 ->
  (k < i < rows)%nat ->
  let st' := eliminate_column_at k st i in
  diag_shape rows n st' /\ diag_equiv rows n st st' /\
  partial_diagonal k (d_matrix st') /\
  mget (d_matrix st') k k <> 0 /\
  Z.abs (mget (d_matrix st') k k) <= Z.abs (mget (d_matrix st) k k) /\
  mget (d_matrix st') i k = 0 /\
  (forall r c, r <> k -> r <> i -> mget (d_matrix st') r c = mget (d_matrix st) r c) /\
  d_old_to_new st' = d_old_to_new st /\ d_new_to_old st' = d_new_to_old st.
Proof.
  intros Hshape Hpd Hk Hkn Hdiag Hi st'. unfold st', eliminate_column_at.
  destruct (Z.eqb_spec (mget (d_matrix st) i k) 0) as [Hz|Hnz]; simpl.
  - split_and!; try done. apply diag_equiv_refl.
  - pose proof (elimination_coefs_spec (mget (d_matrix st) k k) (mget (d_matrix st) i k) Hdiag)
      as Hc.
    destruct (elimination_coefs _ _) as [[[g a] b] used].
    destruct Hc as (Hg & Hg0 & Hmg & Hng & Hdet & Hle & _).
    assert (length (List.nth i (d_matrix st) []) = n) as ->.
    { destruct Hshape as [Hm Hr _ _ _ _ _ _].
      apply (Forall_nth_default (fun row => length row = n)); [done|lia]. }
    destruct (combine_rows_equiv rows n k st i a b
                (mget (d_matrix st) k k ÷ g) (mget (d_matrix st) i k ÷ g))
      as (Hshape' & Hequiv & Hpd' & Hentry); try done; try lia.
    split; [done|]. split; [done|]. split; [done|].
    simpl in Hentry. simpl.
    split_and!; try done.
    + rewrite Hentry, decide_True by done. by rewrite <- Hg.
    + rewrite Hentry, decide_True by done. by rewrite <- Hg.
    + rewrite Hentry, decide_False, decide_True by lia.
      set (mg := mget (d_matrix st) k k ÷ g) in *.
      set (ng := mget (d_matrix st) i k ÷ g) in *.
      transitivity (ng * (mg * g) - mg * (ng * g)); [|ring].
      by rewrite <- Hmg, <- Hng.
    + intros r c Hrk Hri. by rewrite Hentry, !decide_False.
Qed.

Lemma eliminate_column_rows rows n k l st :
  diag_shape rows n st -> partial_diagonal k (d_matrix st) ->
  (k < rows)%nat -> (k < n)%nat -> mget (d_matrix st) k k <> 0 ->
  (forall i, i ∈ l -> (k < i < rows)%nat) -> NoDup l ->
  let st' := foldl (eliminate_column_at k) st l in
  diag_shape rows n st' /\ diag_equiv rows n st st' /\
  partial_diagonal k (d_matrix st') /\
  mget (d_matrix st') k k <> 0 /\
  Z.abs (mget (d_matrix st') k k) <= Z.abs (mget (d_matrix st) k k) /\
  (forall i, i ∈ l -> mget (d_matrix st') i k = 0) /\
  (forall r c, r <> k -> r ∉ l -> mget (d_matrix st') r c = mget (d_matrix st) r c) /\
  d_old_to_new st' = d_old_to_new st /\ d_new_to_old st' = d_new_to_old st.
Proof.
  revert st. induction l as [|i l IH]; intros st Hshape Hpd Hk Hkn Hdiag Hl Hnd; simpl.
  - split_and!; try done. { apply diag_equiv_refl. } intros i Hi. by apply elem_of_nil in Hi.
  - apply NoDup_cons in Hnd as [Hil Hnd].
    destruct (eliminate_column_at_spec rows n k st i)
      as (Hs1 & He1 & Hp1 & Hd1 & Hle1 & Hz1 & Hsame1 & Ho1 & Hn1); try done.
    { apply Hl, elem_of_cons. by left. }
    destruct (IH (eliminate_column_at k st i))
      as (Hs2 & He2 & Hp2 & Hd2 & Hle2 & Hz2 & Hsame2 & Ho2 & Hn2); try done.
    { intros i' Hi'. apply Hl, elem_of_cons. by right. }
    split; [done|]. split; [by eapply diag_equiv_trans|]. split; [done|].
    split; [done|]. split; [lia|]. split; [|split; [|split]].
    + intros i' [->|Hi']%elem_of_cons.
      * rewrite Hsame2; [done| |done]. specialize (Hl i ltac:(apply elem_of_cons; by left)).
        lia.
      * by apply Hz2.
    + intros r c Hrk Hr. rewrite Hsame2, Hsame1; try done.
      * intros ->. apply Hr, elem_of_cons. by left.
      * intros Hr'. apply Hr, elem_of_cons. by right.
    + by rewrite Ho2.
    + by rewrite Hn2.
Qed.

(** The row operations zero column [k] below a nonzero diagonal element. *)
Lemma eliminate_column_spec rows n k st :
  diag_shape rows n st -> partial_diagonal k (d_matrix st) ->
  (k < rows)%nat -> (k < n)%nat -> mget (d_matrix st) k k <> 0 ->
  let st' := eliminate_column k st in
  diag_shape rows n st' /\ diag_equiv rows n st st' /\
  partial_diagonal k (d_matrix st') /\
  mget (d_matrix st') k k <> 0 /\
  Z.abs (mget (d_matrix st') k k) <= Z.abs (mget (d_matrix st) k k) /\
  (forall i, (k < i)%nat -> mget (d_matrix st') i k = 0).
Proof.
  intros Hshape Hpd Hk Hkn Hdiag st'.
  destruct (eliminate_column_rows rows n k (seq (S k) (length (d_matrix st) - S k)) st)
    as (Hs & He & Hp & Hd & Hle & Hz & _); try done.
  { intros i Hi%elem_of_seq. destruct Hshape. lia. }
  { apply NoDup_seq. }
  split_and!; try done.
  intros i Hi. destruct (decide (i < rows)%nat) as [Hlt|Hge].
  - apply Hz, elem_of_seq. destruct Hshape. lia.
  - apply mget_row_ge. destruct Hs. unfold st', eliminate_column. lia.
Qed.


(** One column operation of the elimination of row [k]. *)
Lemma eliminate_row_at_spec rows n k st ch j :
  diag_shape rows n st -> partial_diagonal k (d_matrix st) ->
  (k < rows)%nat -> (k < n)%nat -> mget (d_matrix st) k k <> 0 ->
  (k < j < n)%nat ->
  let st' := (eliminate_row_at k (st, ch) j).1 in
  let ch' := (eliminate_row_at k (st, ch) j).2 in
  diag_shape rows n st' /\ diag_equiv rows n st st' /\
  partial_diagonal k (d_matrix st') /\
  mget (d_matrix st') k k <> 0 /\
  Z.abs (mget (d_matrix st') k k) <= Z.abs (mget (d_matrix st) k k) /\
  mget (d_matrix st') k j = 0 /\
  (forall r c, c <> k -> c <> j -> mget (d_matrix st') r c = mget (d_matrix st) r c) /\
  (ch' = true -> ch = true \/
                 Z.abs (mget (d_matrix st') k k) < Z.abs (mget (d_matrix st) k k)) /\
  (ch' = false -> ch = false /\
                  forall r, mget (d_matrix st') r k = mget (d_matrix st) r k).
Proof.
  intros Hshape Hpd Hk Hkn Hdiag Hj. unfold eliminate_row_at.
  destruct (Z.eqb_spec (mget (d_matrix st) k j) 0) as [Hz|Hnz]; simpl.
  - split_and!; try done; try by auto. apply diag_equiv_refl.
  - pose proof (elimination_coefs_spec (mget (d_matrix st) k k) (mget (d_matrix st) k j) Hdiag)
      as Hc.
    destruct (elimination_coefs _ _) as [[[g a] b] used].
    destruct Hc as (Hg & Hg0 & Hmg & Hng & Hdet & Hle & Hused).
    destruct (combine_columns_equiv rows n k st j a b
                (mget (d_matrix st) k k ÷ g) (mget (d_matrix st) k j ÷ g))
      as (Hshape' & Hequiv & Hpd' & Hentry); try done; try lia.
    simpl in Hentry. simpl.
    split; [done|]. split; [done|]. split; [done|].
    split_and!.
    + rewrite Hentry, decide_True by done. by rewrite <- Hg.
    + rewrite Hentry, decide_True by done. by rewrite <- Hg.
    + rewrite Hentry, decide_False, decide_True by lia.
      set (mg := mget (d_matrix st) k k ÷ g) in *.
      set (ng := mget (d_matrix st) k j ÷ g) in *.
      transitivity (ng * (mg * g) - mg * (ng * g)); [|ring].
      by rewrite <- Hmg, <- Hng.
    + intros r c Hck Hcj. by rewrite Hentry, !decide_False.
    + intros Hch. destruct ch; [by left|]. right. simpl in Hch. subst used.
      rewrite Hentry, decide_True by done. by rewrite <- Hg.
    + intros Hch. destruct ch; [done|]. simpl in Hch. subst used.
      split; [done|]. intros r. rewrite Hentry, decide_True by done.
      destruct Hused as (-> & -> & _). ring.
Qed.

Lemma eliminate_row_columns rows n k l st ch :
  diag_shape rows n st -> partial_diagonal k (d_matrix st) ->
  (k < rows)%nat -> (k < n)%nat -> mget (d_matrix st) k k <> 0 ->
  (forall j, j ∈ l -> (k < j < n)%nat) -> NoDup l ->
  let st' := (foldl (eliminate_row_at k) (st, ch) l).1 in
  let ch' := (foldl (eliminate_row_at k) (st, ch) l).2 in
  diag_shape rows n st' /\ diag_equiv rows n st st' /\
  partial_diagonal k (d_matrix st') /\
  mget (d_matrix st') k k <> 0 /\
  Z.abs (mget (d_matrix st') k k) <= Z.abs (mget (d_matrix st) k k) /\
  (forall j, j ∈ l -> mget (d_matrix st') k j = 0) /\
  (forall r c, c <> k -> c ∉ l -> mget (d_matrix st') r c = mget (d_matrix st) r c) /\
  (ch' = true -> ch = true \/
                 Z.abs (mget (d_matrix st') k k) < Z.abs (mget (d_matrix st) k k)) /\
  (ch' = false -> ch = false /\
                  forall r, mget (d_matrix st') r k = mget (d_matrix st) r k).
Proof.
  revert st ch. induction l as [|j l IH]; intros st ch Hshape Hpd Hk Hkn Hdiag Hl Hnd.
  - simpl. split_and!; try done; try by auto. { apply diag_equiv_refl. }
    intros j Hj. by apply elem_of_nil in Hj.
  - cbn [foldl]. apply NoDup_cons in Hnd as [Hjl Hnd].
    destruct (eliminate_row_at_spec rows n k st ch j)
      as (Hs1 & He1 & Hp1 & Hd1 & Hle1 & Hz1 & Hsame1 & Ht1 & Hf1); try done.
    { apply Hl, elem_of_cons. by left. }
    destruct (eliminate_row_at k (st, ch) j) as [st1 ch1] eqn:E1.
    cbn [fst snd] in *.
    destruct (IH st1 ch1)
      as (Hs2 & He2 & Hp2 & Hd2 & Hle2 & Hz2 & Hsame2 & Ht2 & Hf2); try done.
    { intros j' Hj'. apply Hl, elem_of_cons. by right. }
    split; [done|]. split; [by eapply diag_equiv_trans|]. split; [done|].
    split; [done|]. split; [lia|]. split_and!.
    + intros j' [->|Hj']%elem_of_cons.
      * rewrite Hsame2; [done| |done]. specialize (Hl j ltac:(apply elem_of_cons; by left)).
        lia.
      * by apply Hz2.
    + intros r c Hck Hc. rewrite Hsame2, Hsame1; try done.
      * intros ->. apply Hc, elem_of_cons. by left.
      * intros Hc'. apply Hc, elem_of_cons. by right.
    + intros Hch. destruct (Ht2 Hch) as [Hc1|Hlt].
      * destruct (Ht1 Hc1) as [?|?]; [by left|right; lia].
      * right. lia.
    + intros Hch. destruct (Hf2 Hch) as [Hc1 Hcol2].
      destruct (Hf1 Hc1) as [Hc0 Hcol1]. split; [done|].
      intros r. by rewrite Hcol2, Hcol1.
Qed.

(** The column operations zero row [k] right of a nonzero diagonal element;
    when [xgcd] was not used, column [k] is as it was. *)
Lemma eliminate_row_spec rows n k st :
  diag_shape rows n st -> partial_diagonal k (d_matrix st) ->
  (k < rows)%nat -> (k < n)%nat -> mget (d_matrix st) k k <> 0 ->
  let st' := (eliminate_row n k st).1 in
  let changed := (eliminate_row n k st).2 in
  diag_shape rows n st' /\ diag_equiv rows n st st' /\
  partial_diagonal k (d_matrix st') /\
  mget (d_matrix st') k k <> 0 /\
  Z.abs (mget (d_matrix st') k k) <= Z.abs (mget (d_matrix st) k k) /\
  (forall j, (k < j)%nat -> mget (d_matrix st') k j = 0) /\
  (changed = true ->
     Z.abs (mget (d_matrix st') k k) < Z.abs (mget (d_matrix st) k k)) /\
  (changed = false -> forall r, mget (d_matrix st') r k = mget (d_matrix st) r k).
Proof.
  intros Hshape Hpd Hk Hkn Hdiag.
  destruct (eliminate_row_columns rows n k (seq (S k) (n - S k)) st false)
    as (Hs & He & Hp & Hd & Hle & Hz & _ & Ht & Hf); try done.
  { intros j Hj%elem_of_seq. lia. }
  { apply NoDup_seq. }
  unfold eliminate_row. split_and!; try done.
  - intros j Hj. destruct (decide (j < n)%nat) as [Hlt|Hge].
    + apply Hz, elem_of_seq. lia.
    + apply (mget_col_ge n); [by destruct Hs|lia].
  - intros Hch. by destruct (Ht Hch).
  - intros Hch. by destruct (Hf Hch).
Qed.


(** One iteration of the loop at [k]: either the matrix is diagonal up to
    and including [k], or the iteration is to be repeated and the diagonal
    element is nonzero and has become smaller. *)
Lemma diagonalize_step_spec rows n k st :
  diag_shape rows n st -> partial_diagonal k (d_matrix st) ->
  (k < rows)%nat -> (k < n)%nat ->
  let st' := (diagonalize_step n k st).1 in
  let changed := (diagonalize_step n k st).2 in
  diag_shape rows n st' /\ diag_equiv rows n st st' /\
  (changed = true ->
     partial_diagonal k (d_matrix st') /\ mget (d_matrix st') k k <> 0 /\
     (mget (d_matrix st) k k <> 0 ->
      Z.abs (mget (d_matrix st') k k) < Z.abs (mget (d_matrix st) k k))) /\
  (changed = false -> partial_diagonal (S k) (d_matrix st')).
Proof.
  intros Hshape Hpd Hk Hkn. unfold diagonalize_step.
  assert (length (d_matrix st) = rows) as Hrows by (by destruct Hshape).
  destruct (find_best_row_spec (d_matrix st) k ltac:(lia)) as [Hbest Hmin].
  set (best_i := find_best_row (d_matrix st) k) in *.
  destruct (swap_rows_equiv rows n k st k best_i Hshape ltac:(lia) ltac:(lia))
    as (Hs1 & He1 & Hp1).
  specialize (Hp1 Hpd ltac:(lia) ltac:(lia)).
  set (st1 := mkDiag (swap (d_matrix st) k best_i) _ _ _) in *.
  assert (forall r c, mget (d_matrix st1) r c
                      = mget (d_matrix st) (transpose k best_i r) c) as Hent1.
  { intros r c. unfold st1. simpl. apply mget_swap; lia. }
  assert (mget (d_matrix st) k k <> 0 ->
          Z.abs (mget (d_matrix st1) k k) <= Z.abs (mget (d_matrix st) k k)) as Hle1.
  { intros Hnz. rewrite Hent1. unfold transpose. rewrite decide_True by done.
    apply (Hmin k); [lia|done]. }
  assert (mget (d_matrix st1) k k = 0 ->
          forall i, (k < i)%nat -> mget (d_matrix st1) i k = 0) as Hcol1.
  { intros Hz i Hi. rewrite Hent1 in Hz |- *. unfold transpose in Hz.
    rewrite decide_True in Hz by done.
    destruct (decide (i < rows)%nat) as [Hlt|Hge].
    - destruct (Z.eq_dec (mget (d_matrix st) (transpose k best_i i) k) 0) as [?|Hnz];
        [done|].
      destruct (Hmin (transpose k best_i i)) as [? _]; [|done|done].
      unfold transpose. repeat case_decide; lia.
    - apply mget_row_ge. unfold transpose. repeat case_decide; lia. }
  set (st2 := if mget (d_matrix st1) k k =? 0 then _ else st1).
  assert (diag_shape rows n st2 /\ diag_equiv rows n st1 st2 /\
          partial_diagonal k (d_matrix st2) /\
          (mget (d_matrix st1) k k <> 0 -> st2 = st1) /\
          (mget (d_matrix st2) k k = 0 -> partial_diagonal (S k) (d_matrix st2)))
    as (Hs2 & He2 & Hp2 & Hsame2 & Hzero2).
  { unfold st2. destruct (Z.eqb_spec (mget (d_matrix st1) k k) 0) as [Hz|Hnz].
    - destruct (List.find _ _) as [j|] eqn:Hfind.
      + apply find_some in Hfind as [Hj%list_elem_of_In%elem_of_seq Hnzj].
        apply negb_true_iff, Z.eqb_neq in Hnzj.
        destruct (swap_columns_equiv rows n k st1 j) as (Hs & He & Hp & Hent);
          try done; try lia.
        split_and!; try done.
        rewrite Hent. unfold transpose. rewrite decide_True by done. done.
      + split_and!; try done. { apply diag_equiv_refl. }
        intros _ i j Hij Hne.
        destruct (decide (i < k \/ j < k)%nat) as [Hlt|Hge]; [by apply Hp1|].
        destruct (decide (i = k)) as [->|Hik].
        * destruct (decide (j < n)%nat) as [Hjn|Hjn].
          -- pose proof (find_none _ _ Hfind j
               ltac:(apply list_elem_of_In, elem_of_seq; lia)) as Hnone.
             apply negb_false_iff, Z.eqb_eq in Hnone. exact Hnone.
          -- apply (mget_col_ge n); [by destruct Hs1|lia].
        * assert (j = k) as -> by lia. apply Hcol1; [done|lia].
    - split_and!; try done. apply diag_equiv_refl. }
  clearbody st2.
  destruct (Z.eqb_spec (mget (d_matrix st2) k k) 0) as [Hz|Hnz]; simpl.
  - split_and!; try done.
    + eapply diag_equiv_trans; done.
    + intros _. by apply Hzero2.
  - destruct (eliminate_column_spec rows n k st2)
      as (Hs3 & He3 & Hp3 & Hd3 & Hle3 & Hcol3); try done.
    set (st3 := eliminate_column k st2) in *.
    destruct (eliminate_row_spec rows n k st3)
      as (Hs4 & He4 & Hp4 & Hd4 & Hle4 & Hrow4 & Ht4 & Hf4); try done.
    split; [done|]. split.
    { eapply diag_equiv_trans; [done|]. eapply diag_equiv_trans; [done|].
      eapply diag_equiv_trans; done. }
    split.
    + intros Hch. split; [done|]. split; [done|]. intros Hnz0.
      specialize (Ht4 Hch). specialize (Hle1 Hnz0).
      destruct (Z.eq_dec (mget (d_matrix st1) k k) 0) as [Hz1|Hnz1].
      * exfalso. rewrite Hent1 in Hz1. unfold transpose in Hz1.
        rewrite decide_True in Hz1 by done.
        destruct (Hmin k ltac:(lia) Hnz0) as [? _]. done.
      * rewrite (Hsame2 Hnz1) in *. lia.
    + intros Hch i j Hij Hne. specialize (Hf4 Hch).
      destruct (decide (i < k \/ j < k)%nat) as [Hlt|Hge]; [by apply Hp4|].
      destruct (decide (i = k)) as [->|Hik].
      * apply Hrow4. lia.
      * assert (j = k) as -> by lia. rewrite Hf4. apply Hcol3. lia.
Qed.


Lemma diagonalize_done fuel n k st :
  (Nat.min (length (d_matrix st)) n <= k)%nat -> diagonalize fuel n k st = Some st.
Proof.
  intros H. destruct fuel; simpl;
    by destruct (Nat.ltb_spec k (Nat.min (length (d_matrix st)) n)); try lia.
Qed.

Lemma diagonalize_S fuel n k st :
  (k < Nat.min (length (d_matrix st)) n)%nat ->
  diagonalize (S fuel) n k st =
  diagonalize fuel n (if (diagonalize_step n k st).2 then k else S k)
              (diagonalize_step n k st).1.
Proof.
  intros H. simpl.
  destruct (Nat.ltb_spec k (Nat.min (length (d_matrix st)) n)); [|lia].
  by destruct (diagonalize_step n k st).
Qed.

(** The result of a terminating run of the loop from [k]. *)
Definition diagonalizes (rows n k : nat) (st : Diag) : Prop :=
  exists fuel st',
    (forall fuel', (fuel <= fuel')%nat -> diagonalize fuel' n k st = Some st') /\
    diag_shape rows n st' /\ diag_equiv rows n st st' /\
    partial_diagonal (Nat.min rows n) (d_matrix st').

Lemma diagonalizes_step rows n k st :
  diag_shape rows n st -> (k < Nat.min rows n)%nat ->
  diagonalizes rows n (if (diagonalize_step n k st).2 then k else S k)
               (diagonalize_step n k st).1 ->
  diag_equiv rows n st (diagonalize_step n k st).1 ->
  diagonalizes rows n k st.
Proof.
  intros Hshape Hk (fuel & st' & Hrun & Hs & He & Hp) He1.
  exists (S fuel), st'. split_and!; try done.
  - intros [|fuel'] Hf; [lia|]. rewrite diagonalize_S by (destruct Hshape; lia).
    apply Hrun. lia.
  - by eapply diag_equiv_trans.
Qed.

(** The loop terminates: a repeated iteration makes the nonzero diagonal
    element smaller. *)
Lemma diagonalize_repeat rows n k :
  (k < Nat.min rows n)%nat ->
  (forall st, diag_shape rows n st -> partial_diagonal (S k) (d_matrix st) ->
              diagonalizes rows n (S k) st) ->
  forall (bound : nat) st,
    diag_shape rows n st -> partial_diagonal k (d_matrix st) ->
    mget (d_matrix st) k k <> 0 ->
    Z.abs (mget (d_matrix st) k k) <= Z.of_nat bound ->
    diagonalizes rows n k st.
Proof.
  intros Hk Hnext bound.
  induction bound as [|bound IH]; intros st Hshape Hpd Hnz Hb; [lia|].
  destruct (diagonalize_step_spec rows n k st) as (Hs1 & He1 & Ht & Hf);
    try done; try lia.
  apply diagonalizes_step; try done.
  destruct ((diagonalize_step n k st).2).
  - destruct (Ht eq_refl) as (Hp1 & Hnz1 & Hlt). specialize (Hlt Hnz).
    apply IH; try done. lia.
  - apply Hnext; [done|]. by apply Hf.
Qed.

Lemma diagonalize_terminates rows n :
  forall d k st, (Nat.min rows n - k = d)%nat -> (k <= Nat.min rows n)%nat ->
    diag_shape rows n st -> partial_diagonal k (d_matrix st) ->
    diagonalizes rows n k st.
Proof.
  induction d as [|d IH]; intros k st Hd Hk Hshape Hpd.
  - exists 0%nat, st. split_and!; try done.
    + intros fuel' _. apply diagonalize_done. destruct Hshape. lia.
    + apply diag_equiv_refl.
    + by replace (Nat.min rows n) with k by lia.
  - assert (forall st, diag_shape rows n st -> partial_diagonal (S k) (d_matrix st) ->
                       diagonalizes rows n (S k) st) as Hnext.
    { intros st0 Hs0 Hp0. apply (IH (S k)); try done; lia. }
    destruct (diagonalize_step_spec rows n k st) as (Hs1 & He1 & Ht & Hf);
      try done; try lia.
    apply diagonalizes_step; try done; [lia|].
    destruct ((diagonalize_step n k st).2).
    + destruct (Ht eq_refl) as (Hp1 & Hnz1 & _).
      apply (diagonalize_repeat rows n k ltac:(lia) Hnext
               (Z.abs_nat (mget (d_matrix (diagonalize_step n k st).1) k k)));
        try done. lia.
    + apply Hnext; [done|]. by apply Hf.
Qed.

End Diagonalization.


(** *** The diagonalization and the right hand sides *)

(** The matrices of a run do not depend on the right hand sides and on the
    expressions of the new variables. *)
Definition same_matrices (st1 st2 : Diag) : Prop :=
  d_matrix st1 = d_matrix st2 /\ d_old_to_new st1 = d_old_to_new st2.

Lemma eliminate_column_at_same k st1 st2 i :
  same_matrices st1 st2 ->
  same_matrices (eliminate_column_at k st1 i) (eliminate_column_at k st2 i).
Proof.
  intros [Hm Ho]. unfold eliminate_column_at. rewrite <- Hm.
  destruct (negb (mget (d_matrix st1) i k =? 0)); [|done].
  destruct (elimination_coefs _ _) as [[[g a] b] used]. by split.
Qed.

Lemma eliminate_row_at_same k st1 st2 ch j :
  same_matrices st1 st2 ->
  same_matrices (eliminate_row_at k (st1, ch) j).1 (eliminate_row_at k (st2, ch) j).1 /\
  (eliminate_row_at k (st1, ch) j).2 = (eliminate_row_at k (st2, ch) j).2.
Proof.
  intros [Hm Ho]. unfold eliminate_row_at. rewrite <- Hm, <- Ho.
  destruct (negb (mget (d_matrix st1) k j =? 0)); [|done].
  destruct (elimination_coefs _ _) as [[[g a] b] used]. by split.
Qed.

Lemma eliminate_column_same k l : forall s1 s2,
  same_matrices s1 s2 ->
  same_matrices (foldl (eliminate_column_at k) s1 l) (foldl (eliminate_column_at k) s2 l).
Proof.
  induction l as [|i l IH]; intros s1 s2 H; simpl; [done|].
  by apply IH, eliminate_column_at_same.
Qed.

Lemma eliminate_row_same k l : forall s1 s2 ch,
  same_matrices s1 s2 ->
  same_matrices (foldl (eliminate_row_at k) (s1, ch) l).1
                (foldl (eliminate_row_at k) (s2, ch) l).1 /\
  (foldl (eliminate_row_at k) (s1, ch) l).2 = (foldl (eliminate_row_at k) (s2, ch) l).2.
Proof.
  induction l as [|j l IH]; intros s1 s2 ch H; cbn [foldl]; [done|].
  destruct (eliminate_row_at_same k s1 s2 ch j H) as [H1 H2].
  destruct (eliminate_row_at k (s1, ch) j) as [s1' ch1].
  destruct (eliminate_row_at k (s2, ch) j) as [s2' ch2].
  simpl in H1, H2. subst ch2. by apply IH.
Qed.

Lemma diagonalize_step_same n k st1 st2 :
  same_matrices st1 st2 ->
  same_matrices (diagonalize_step n k st1).1 (diagonalize_step n k st2).1 /\
  (diagonalize_step n k st1).2 = (diagonalize_step n k st2).2.
Proof.
  intros [Hm Ho]. unfold diagonalize_step. rewrite <- Hm, <- Ho. simpl.
  set (m1 := swap (d_matrix st1) k (find_best_row (d_matrix st1) k)).
  set (sa := mkDiag m1 (swap (d_rhs st1) _ _) _ _).
  set (sb := mkDiag m1 (swap (d_rhs st2) _ _) _ _).
  assert (same_matrices sa sb) as Hab by done.
  set (sa2 := if mget m1 k k =? 0 then _ else sa).
  set (sb2 := if mget m1 k k =? 0 then _ else sb).
  assert (same_matrices sa2 sb2) as H2.
  { unfold sa2, sb2. destruct (mget m1 k k =? 0); [|done].
    destruct (List.find _ _); [|done]. by unfold same_matrices, swap_columns. }
  clearbody sa2 sb2. pose proof H2 as [Hm2 Ho2]. rewrite <- Hm2.
  destruct (mget (d_matrix sa2) k k =? 0); [done|].
  unfold eliminate_row, eliminate_column. rewrite <- Hm2.
  by apply eliminate_row_same, eliminate_column_same.
Qed.

Lemma diagonalize_same fuel n : forall k st1 st2,
  same_matrices st1 st2 ->
  match diagonalize fuel n k st1, diagonalize fuel n k st2 with
  | Some st1', Some st2' => same_matrices st1' st2'
  | None, None => True
  | _, _ => False
  end.
Proof.
  induction fuel as [|fuel IH]; intros k st1 st2 H; simpl.
  - destruct H as [Hm Ho]. rewrite <- Hm.
    by destruct (k <? Nat.min (length (d_matrix st1)) n)%nat.
  - pose proof H as [Hm Ho]. rewrite <- Hm.
    destruct (k <? Nat.min (length (d_matrix st1)) n)%nat; [|done].
    destruct (diagonalize_step_same n k st1 st2 H) as [H1 H2].
    destruct (diagonalize_step n k st1) as [s1 ch1].
    destruct (diagonalize_step n k st2) as [s2 ch2].
    simpl in *. subst ch2. by apply IH.
Qed.


(** The contract of [DetectLinearEquation] on the size of its result: no
    coefficient at all, or one for each variable and the constant term. *)
Definition detector_arity (detect : Expr -> list Var -> list Expr) : Prop :=
  forall e vars, detect e vars = [] \/ length (detect e vars) = S (length vars).

Lemma identity_matrix_mwf n : mwf n (identity_matrix n) /\ length (identity_matrix n) = n.
Proof.
  unfold identity_matrix, mwf. split.
  - apply Forall_map, Forall_forall. intros i _. simpl.
    by rewrite length_insert, length_replicate.
  - by rewrite length_map, length_seq.
Qed.

Lemma equation_row_length formula domain row r :
  detector_arity DetectLinearEquation ->
  equation_row formula domain = Some (row, r) ->
  length row = length (variables domain).
Proof.
  intros Har. unfold equation_row.
  destruct formula as [| | | | |op a b| | |]; try done.
  destruct op; try done.
  set (coefs := DetectLinearEquation _ _).
  destruct (Har (SuperSimplify (a - b)%E (ranges domain)) (variables domain)) as [H|H];
    fold coefs in H.
  - by rewrite H.
  - destruct coefs as [|c0 coefs'] eqn:Ec; [done|]. rewrite <- Ec in *.
    destruct (mapM as_const_int (take (length coefs - 1) coefs)) as [[|c row']|] eqn:Em;
      try done.
    intros [= <- <-]. apply length_mapM in Em.
    rewrite <- Em, length_take. lia.
Qed.

Lemma equation_rows_shape formulas domain :
  detector_arity DetectLinearEquation ->
  mwf (length (variables domain)) (equation_rows formulas domain).1.1 /\
  length (equation_rows formulas domain).1.1 = length (equation_rows formulas domain).1.2.
Proof.
  intros Har. induction formulas as [|formula formulas [IH1 IH2]]; simpl.
  - split; [apply Forall_nil_2|done].
  - destruct (equation_rows formulas domain) as [[matrix rhs] rest]. simpl in *.
    destruct (equation_row formula domain) as [[row r]|] eqn:E; simpl; [|done].
    split; [|by rewrite IH2].
    apply Forall_cons_2; [|done]. by eapply equation_row_length.
Qed.

Lemma lin_closed_non_bool : lin_closed non_bool.
Proof. intros op a b x y Hop Hx _. by apply non_bool_combination. Qed.

(** A run that returns does not depend on the budget it was given. *)
Lemma diagonalize_fuel_mono n fuel : forall fuel' k st st',
  diagonalize fuel n k st = Some st' -> (fuel <= fuel')%nat ->
  diagonalize fuel' n k st = Some st'.
Proof.
  induction fuel as [|fuel IH]; intros fuel' k st st' E Hf.
  - simpl in E. destruct (k <? Nat.min (length (d_matrix st)) n)%nat eqn:Ek; [done|].
    rewrite diagonalize_done by (apply Nat.ltb_ge in Ek; lia). done.
  - destruct fuel' as [|fuel']; [lia|]. simpl in E |- *.
    destruct (k <? Nat.min (length (d_matrix st)) n)%nat; [|done].
    destruct (diagonalize_step n k st) as [s' ch]. apply IH; [done|lia].
Qed.

(** The diagonalization terminates on the system of a domain, and leaves a
    diagonal matrix. *)
Lemma diagonalize_total (matrix : list (list Z)) (rhs n2o : list Expr) (n : nat) :
  mwf n matrix -> length rhs = length matrix -> length n2o = n ->
  exists fuel st,
    (forall fuel', (fuel <= fuel')%nat ->
       diagonalize fuel' n 0 (mkDiag matrix rhs (identity_matrix n) n2o) = Some st) /\
    length (d_matrix st) = length matrix /\ mwf n (d_matrix st) /\
    partial_diagonal (Nat.min (length matrix) n) (d_matrix st).
Proof.
  intros Hm Hrhs Hn2o.
  set (dummy := mkDiag matrix (map (fun _ => make_zero TInt) rhs) (identity_matrix n)
                       (map (fun _ => make_zero TInt) n2o)).
  destruct (identity_matrix_mwf n) as [Hi1 Hi2].
  destruct (diagonalize_terminates non_bool non_bool lin_closed_non_bool lin_closed_non_bool
              ltac:(done) ltac:(done) (length matrix) n
              (Nat.min (length matrix) n - 0) 0%nat dummy)
    as (fuel & st' & Hrun & Hs & _ & Hp); try done; try lia.
  { split; simpl; try done.
    - by rewrite length_map.
    - by rewrite length_map.
    - apply Forall_map, Forall_forall. by intros.
    - apply Forall_map, Forall_forall. by intros. }
  { intros i j Hij. lia. }
  pose proof (diagonalize_same fuel n 0 (mkDiag matrix rhs (identity_matrix n) n2o) dummy
                ltac:(done)) as Hsame.
  rewrite (Hrun fuel) in Hsame by lia.
  destruct (diagonalize fuel n 0 (mkDiag matrix rhs (identity_matrix n) n2o))
    as [st|] eqn:E; [|done].
  destruct Hsame as [Hsm _]. destruct Hs as [Hs1 Hs2 _ _ _ _ _ _].
  exists fuel, st. rewrite Hsm. split_and!; try done.
  intros fuel' Hf. by apply (diagonalize_fuel_mono n fuel).
Qed.


Lemma SolveSystemOfEquations_unfold fuel domain next_id :
  SolveSystemOfEquations fuel domain next_id =
  option_map
    (fun st => SolveSystemOfEquations_finish domain
                 (equation_rows (conditions domain) domain).2 st next_id)
    (diagonalize fuel (length (variables domain)) 0
       (mkDiag (equation_rows (conditions domain) domain).1.1
               (equation_rows (conditions domain) domain).1.2
               (identity_matrix (length (variables domain)))
               (map VarNode (variables domain)))).
Proof.
  unfold SolveSystemOfEquations.
  destruct (equation_rows (conditions domain) domain) as [[matrix rhs] rest_]. simpl.
  by destruct (diagonalize _ _ _ _).
Qed.

Lemma SolveSystemOfEquations_finish_conditions domain rest_ st next_id :
  let vars_size := length (variables domain) in
  let rhs := map (fun r => SuperSimplify r (ranges domain)) (d_rhs st) in
  let new_cond := existence_condition vars_size (d_matrix st) rhs (ranges domain) in
  let rows := seq 0 (length (d_matrix st)) in
  if existsb (fun j => is_const_int (new_cond j) 0) rows
  then SolveSystemOfEquations_finish domain rest_ st next_id
       = EmptyDomainTransformation domain
  else exists more,
       conditions (new_domain (SolveSystemOfEquations_finish domain rest_ st next_id))
       = filter (fun c => negb (is_const_int c 1) = true) (map new_cond rows) ++ more
       /\ old_domain (SolveSystemOfEquations_finish domain rest_ st next_id) = domain.
Proof.
  intros vars_size rhs new_cond rows. unfold SolveSystemOfEquations_finish.
  fold vars_size. fold rhs. rewrite existence_conditions_spec. fold new_cond. fold rows.
  destruct (existsb _ rows); [done|].
  destruct (foldl _ _ _) as [[new_vars new_to_old_map] solution]. simpl.
  rewrite range_conditions_app. rewrite <- app_assoc. by eexists.
Qed.

(** C7.  The diagonalization returns, with a diagonal matrix, so that a row
    whose diagonal element is zero, or that lies beyond the diagonal, is a
    zero row.  For such a row [j] the condition emitted is the simplified
    [rhs[j] == 0], for the other rows the simplified
    [floormod(rhs[j], |d_j|) == 0]; for a right hand side of integer type
    they mean that [rhs[j]] is zero, and that [rhs[j] mod |d_j|] is zero.
    If one of the conditions is the constant false the result is
    [EmptyDomainTransformation(domain)]; otherwise the conditions that are
    not constant true open the conditions of the new domain, in the order of
    the rows.  The new domain of [EmptyDomainTransformation(domain)] has no
    variable and the single condition false, and its [old_to_new] maps every
    variable of the domain to the zero of its type. *)
Theorem SolveSystemOfEquations_existence_conditions (domain : Domain) (next_id : N) :
  detector_arity DetectLinearEquation ->
  let vars_size := length (variables domain) in
  exists (fuel : nat) (st : Diag),
    let rhs := map (fun r => SuperSimplify r (ranges domain)) (d_rhs st) in
    let rhs_j := fun j => List.nth j rhs (make_zero TInt) in
    let d := fun j => mget (d_matrix st) j j in
    let new_cond := existence_condition vars_size (d_matrix st) rhs (ranges domain) in
    let rows := seq 0 (length (d_matrix st)) in
    (forall fuel', (fuel <= fuel')%nat ->
       diagonalize fuel' vars_size 0
         (mkDiag (equation_rows (conditions domain) domain).1.1
                 (equation_rows (conditions domain) domain).1.2
                 (identity_matrix vars_size) (map VarNode (variables domain)))
       = Some st) /\
    (forall i j, i <> j -> mget (d_matrix st) i j = 0) /\
    (forall j, (vars_size <= j)%nat \/ d j = 0 ->
       (forall c, mget (d_matrix st) j c = 0) /\
       new_cond j = SuperSimplify (eq_zero (rhs_j j)) (ranges domain) /\
       forall σ, non_bool (rhs_j j) ->
         beval σ (eq_zero (rhs_j j)) = (eval σ (rhs_j j) =? 0)) /\
    (forall j, (j < vars_size)%nat -> d j <> 0 ->
       new_cond j =
         SuperSimplify
           (eq_zero (floormod (rhs_j j) (make_const (type_of (rhs_j j)) (Z.abs (d j)))))
           (ranges domain) /\
       forall σ, non_bool (rhs_j j) ->
         beval σ (eq_zero (floormod (rhs_j j)
                             (make_const (type_of (rhs_j j)) (Z.abs (d j)))))
         = (eval σ (rhs_j j) mod Z.abs (d j) =? 0)) /\
    ((exists j, (j < length (d_matrix st))%nat /\ is_const_int (new_cond j) 0 = true) ->
     forall fuel', (fuel <= fuel')%nat ->
       SolveSystemOfEquations fuel' domain next_id
       = Some (EmptyDomainTransformation domain)) /\
    ((forall j, (j < length (d_matrix st))%nat -> is_const_int (new_cond j) 0 = false) ->
     forall fuel', (fuel <= fuel')%nat ->
       exists t more,
         SolveSystemOfEquations fuel' domain next_id = Some t /\
         old_domain t = domain /\
         conditions (new_domain t)
         = filter (fun c => negb (is_const_int c 1) = true) (map new_cond rows) ++ more) /\
    variables (new_domain (EmptyDomainTransformation domain)) = [] /\
    conditions (new_domain (EmptyDomainTransformation domain)) = [const_false] /\
    forall v, v ∈ variables domain ->
      old_to_new (EmptyDomainTransformation domain) !! v = Some (make_zero (vty v)).
Proof.
  intros Har vars_size.
  destruct (equation_rows_shape (conditions domain) domain Har) as [Hwf Hlen].
  destruct (diagonalize_total (equation_rows (conditions domain) domain).1.1
              (equation_rows (conditions domain) domain).1.2
              (map VarNode (variables domain)) vars_size)
    as (fuel & st & Hrun & Hrows & Hwf' & Hpd); try done.
  { by rewrite length_map. }
  exists fuel, st. intros rhs rhs_j d new_cond rows.
  assert (forall i j, i <> j -> mget (d_matrix st) i j = 0) as Hdiag.
  { intros i j Hne.
    destruct (decide (i < length (d_matrix st))%nat) as [Hi|Hi];
      [|apply mget_row_ge; lia].
    destruct (decide (j < vars_size)%nat) as [Hj|Hj];
      [|apply (mget_col_ge vars_size); [done|lia]].
    apply Hpd; [|done]. lia. }
  pose proof (SolveSystemOfEquations_finish_conditions domain
                (equation_rows (conditions domain) domain).2 st next_id) as Hfin.
  simpl in Hfin. fold vars_size in Hfin. fold rhs in Hfin. fold new_cond in Hfin.
  fold rows in Hfin.
  split_and!; try done.
  - intros j Hj. split_and!.
    + intros c. destruct (decide (j = c)) as [<-|Hne]; [|by apply Hdiag].
      destruct Hj as [Hj|Hj]; [|done]. apply (mget_col_ge vars_size); [done|lia].
    + unfold new_cond, existence_condition. fold (rhs_j j). fold (d j).
      destruct Hj as [Hj|Hj].
      * apply Nat.leb_le in Hj. by rewrite Hj.
      * apply Z.eqb_eq in Hj. rewrite Hj. by rewrite orb_true_r.
    + intros σ Ht. by apply beval_eq_zero.
  - intros j Hj Hd. split.
    + unfold new_cond, existence_condition. fold (rhs_j j). fold (d j).
      apply Nat.leb_gt in Hj. apply Z.eqb_neq in Hd. by rewrite Hj, Hd.
    + intros σ Ht. by apply beval_floormod_eq_zero.
  - intros (j & Hj & Hc) fuel' Hf.
    rewrite SolveSystemOfEquations_unfold. fold vars_size. rewrite (Hrun fuel' Hf). simpl.
    assert (existsb (fun j => is_const_int (new_cond j) 0) rows = true) as Hex.
    { apply existsb_exists. exists j. split; [|done].
      apply list_elem_of_In, elem_of_seq. lia. }
    rewrite Hex in Hfin. by rewrite Hfin.
  - intros Hall fuel' Hf.
    rewrite SolveSystemOfEquations_unfold. fold vars_size. rewrite (Hrun fuel' Hf). simpl.
    assert (existsb (fun j => is_const_int (new_cond j) 0) rows = false) as Hex.
    { apply not_true_is_false. intros (j & Hj & Hc)%existsb_exists.
      apply list_elem_of_In, elem_of_seq in Hj. rewrite Hall in Hc by lia. done. }
    rewrite Hex in Hfin. destruct Hfin as (more & Hc & Ho).
    eexists _, more. by split_and!.
  - intros v Hv. by apply lookup_EmptyDomainTransformation.
Qed.


(** *** The variables of the expressions of the solver *)

(** Every variable that occurs in [e] has the property [S]. *)
Definition scoped (S : Var -> Prop) (e : Expr) : Prop :=
  forall v, ExprUseVar e {[v]} = true -> S v.

Definition ranges_scoped (S : Var -> Prop) (vranges : gmap Var Range) : Prop :=
  forall v r, vranges !! v = Some r ->
    scoped S (range_min r) /\ scoped S (range_extent r).

Lemma scoped_weaken (S S' : Var -> Prop) e :
  (forall v, S v -> S' v) -> scoped S e -> scoped S' e.
Proof. intros H He v Hv. by apply H, He. Qed.

Lemma scoped_VarNode (S : Var -> Prop) v : S v -> scoped S (VarNode v).
Proof.
  intros H u Hu. simpl in Hu. apply bool_decide_eq_true in Hu.
  by apply elem_of_singleton in Hu as ->.
Qed.

Lemma scoped_make_const S t n : scoped S (make_const t n).
Proof. intros v. unfold make_const. by destruct (is_uint t). Qed.

Lemma scoped_Bin S op a b : scoped S a -> scoped S b -> scoped S (Bin op a b).
Proof.
  intros Ha Hb v Hv. simpl in Hv. apply orb_true_iff in Hv as [?|?]; auto.
Qed.

Lemma scoped_Bin_inv S op a b : scoped S (Bin op a b) -> scoped S a /\ scoped S b.
Proof.
  intros H. split; intros v Hv; apply H; simpl; rewrite Hv; by rewrite ?orb_true_r.
Qed.

(** An expression has the same value under two assignments that agree on
    the variables that occur in it. *)
Lemma eval_scoped_ext σ1 σ2 e :
  scoped (fun v => val σ1 v = val σ2 v) e -> call σ1 = call σ2 ->
  eval σ1 e = eval σ2 e.
Proof.
  intros Hs Hc. induction e as [v|t n|t n|s|t a IHa|op a b IHa IHb|a IHa|c t f IHc IHt IHf
                               |t name args ct IHargs] using Expr_ind_strong; simpl; try done.
  - rewrite (Hs v); [done|]. simpl. apply bool_decide_eq_true. by apply elem_of_singleton.
  - by rewrite IHa.
  - apply scoped_Bin_inv in Hs as [? ?]. by rewrite IHa, IHb.
  - by rewrite IHa.
  - rewrite IHc, IHt, IHf; [done| | |]; intros v Hv; apply Hs; simpl; rewrite Hv;
      by rewrite ?orb_true_r.
  - assert (map (eval σ1) args = map (eval σ2) args) as ->.
    { unfold scoped in Hs. simpl in Hs.
      induction IHargs as [|x l Hx _ IHl]; simpl; [done|].
      rewrite Hx, IHl; [done| |].
      - intros v Hv. apply Hs. simpl. rewrite Hv. by rewrite orb_true_r.
      - intros v Hv. apply Hs. simpl. by rewrite Hv. }
    by rewrite (call_value_ext σ1 σ2).
Qed.

Lemma scoped_Substitute S e (vmap : gmap Var Expr) :
  scoped S e -> (forall v r, vmap !! v = Some r -> scoped S r) ->
  scoped S (Substitute e vmap).
Proof.
  intros He Hm. induction e as [v|t n|t n|s|t a IHa|op a b IHa IHb|a IHa|c t f IHc IHt IHf
                               |t name args ct IHargs] using Expr_ind_strong; simpl; try done.
  - destruct (vmap !! v) as [r|] eqn:E; [by eapply Hm|done].
  - by apply IHa.
  - apply scoped_Bin_inv in He as [? ?]. apply scoped_Bin; auto.
  - by apply IHa.
  - intros v Hv. simpl in Hv.
    apply orb_true_iff in Hv as [Hv|Hv]; [apply orb_true_iff in Hv as [Hv|Hv]|].
    + apply IHc; [|done]. intros u Hu. apply He. simpl. by rewrite Hu.
    + apply IHt; [|done]. intros u Hu. apply He. simpl. rewrite Hu. by rewrite orb_true_r.
    + apply IHf; [|done]. intros u Hu. apply He. simpl. rewrite Hu. by rewrite orb_true_r.
  - unfold scoped in He |- *. simpl in He |- *.
    induction IHargs as [|x l Hx _ IHl]; simpl; [done|].
    intros v Hv. apply orb_true_iff in Hv as [Hv|Hv].
    + apply Hx; [|done]. intros u Hu. apply He. simpl. by rewrite Hu.
    + apply IHl; [|done]. intros u Hu. apply He. simpl. rewrite Hu. by rewrite orb_true_r.
Qed.

(** Substituting for variables that [e] does not mention. *)
Lemma eval_subst_env_scoped σ (vmap : gmap Var Expr) e :
  scoped (fun v => vmap !! v = None) e ->
  eval (subst_env σ vmap) e = eval σ e.
Proof.
  intros H. apply eval_scoped_ext; [|done].
  intros v Hv. simpl. by rewrite (H v Hv).
Qed.

(** The contracts of the simplifiers beyond soundness: they bring in no
    variable, other than through the ranges, and keep the kind of type. *)
Definition simplifier_scoped (simp : gmap Var Range -> Expr -> Expr) : Prop :=
  forall (S : Var -> Prop) vranges e,
    ranges_scoped S vranges -> scoped S e -> scoped S (simp vranges e).

Definition simplifier_typed (simp : gmap Var Range -> Expr -> Expr) : Prop :=
  forall vranges e, is_bool (type_of (simp vranges e)) = is_bool (type_of e).

Lemma SuperSimplify_scoped (S : Var -> Prop) vranges e :
  simplifier_scoped rewrite_simplify -> simplifier_scoped canonical_simplify ->
  ranges_scoped S vranges -> scoped S e -> scoped S (SuperSimplify e vranges).
Proof.
  intros Hr Hc Hvr He. unfold SuperSimplify.
  apply Hr; [done|]. apply Hc; [done|]. apply Hr; [done|].
  destruct (decide _); [done|].
  apply scoped_Substitute; [done|].
  intros v r. rewrite lookup_omap.
  destruct (vranges !! v) as [rg|] eqn:E; simpl; [|done].
  destruct (is_const_int (range_extent rg) 1); [|done].
  intros [= <-]. by apply (Hvr v rg).
Qed.

Lemma SuperSimplify_typed vranges e :
  simplifier_typed rewrite_simplify -> simplifier_typed canonical_simplify ->
  ranges_typed vranges ->
  is_bool (type_of (SuperSimplify e vranges)) = is_bool (type_of e).
Proof.
  intros Hr Hc Hvr. unfold SuperSimplify.
  rewrite Hr, Hc, Hr.
  destruct (decide _); [done|].
  apply type_of_Substitute.
  intros v r. rewrite lookup_omap.
  destruct (vranges !! v) as [rg|] eqn:E; simpl; [|done].
  destruct (is_const_int (range_extent rg) 1); [|done].
  intros [= <-]. by apply Hvr.
Qed.


(** *** The soundness of SolveSystemOfEquations *)

(** The value of the [i]-th variable of a list, [0] past its end. *)
Definition xv (σ : Env) (vars : list Var) (i : nat) : Z :=
  match vars !! i with Some v => eval σ (VarNode v) | None => 0 end.

(** The contract of [DetectLinearEquation]: a nonempty result for an
    expression of integer type in variables of integer type holds
    coefficients of integer type, in which the variables do not occur, and
    the expression is the sum of the variables times their coefficients and
    of the last coefficient. *)
Definition detector_sound (detect : Expr -> list Var -> list Expr) : Prop :=
  forall e vars, detect e vars <> [] -> non_bool e ->
    Forall (fun v => is_bool (vty v) = false) vars ->
    Forall non_bool (detect e vars) /\
    forall σ,
      eval σ e
      = zsum (fun i => eval σ (List.nth i (detect e vars) (make_zero TInt)) * xv σ vars i)
             (length vars)
        + eval σ (List.last (detect e vars) (make_zero TInt)).

Definition detector_scoped (detect : Expr -> list Var -> list Expr) : Prop :=
  forall (S : Var -> Prop) e vars, scoped S e ->
    Forall (scoped (fun v => S v /\ v ∉ vars)) (detect e vars).

(** The contract of the interval evaluation: under assignments within the
    ranges the value of the expression is in the range returned, which has
    no variable of its own and the kind of type of the expression. *)
Definition evalset_sound (evalset : gmap Var Range -> Expr -> option Range) : Prop :=
  forall vranges e r, evalset vranges e = Some r ->
    (forall σ, within σ vranges ->
       eval σ (range_min r) <= eval σ e < eval σ (range_min r) + eval σ (range_extent r)) /\
    (forall S : Var -> Prop, ranges_scoped S vranges -> scoped S e ->
       scoped S (range_min r) /\ scoped S (range_extent r)) /\
    is_bool (type_of (range_min r)) = is_bool (type_of e).

(** The equations of the solver compare integers. *)
Definition cond_typed (c : Expr) : Prop :=
  match c with Bin EQ a _ => non_bool a | _ => True end.

(** An assignment satisfies a domain: it is within the ranges and makes the
    conditions true. *)
Definition satisfies (σ : Env) (d : Domain) : Prop :=
  within σ (ranges d) /\ Forall (fun c => beval σ c = true) (conditions d).

Section SolverSoundness.

Hypothesis rewrite_simplify_scoped : simplifier_scoped rewrite_simplify.
Hypothesis canonical_simplify_scoped : simplifier_scoped canonical_simplify.
Hypothesis rewrite_simplify_typed : simplifier_typed rewrite_simplify.
Hypothesis canonical_simplify_typed : simplifier_typed canonical_simplify.
Hypothesis detect_arity : detector_arity DetectLinearEquation.
Hypothesis detect_sound : detector_sound DetectLinearEquation.
Hypothesis detect_scoped : detector_scoped DetectLinearEquation.
Hypothesis evalset_ok : evalset_sound EvalSet_cover_range.

Variable domain : Domain.
Variable next_id : N.

(** The addresses in use are below [next_id]. *)
Definition below (v : Var) : Prop := (vid v < next_id)%N.
(** The variables that a right hand side may mention. *)
Definition outer (v : Var) : Prop := below v /\ v ∉ variables domain.

Hypothesis variables_NoDup : NoDup (variables domain).
Hypothesis variables_int : Forall (fun v => is_bool (vty v) = false) (variables domain).
Hypothesis variables_below : Forall below (variables domain).
Hypothesis conditions_typed : Forall cond_typed (conditions domain).
Hypothesis conditions_below : Forall (scoped below) (conditions domain).
Hypothesis domain_ranges_typed : ranges_typed (ranges domain).
Hypothesis domain_ranges_outer : ranges_scoped outer (ranges domain).
Hypothesis domain_ranges_below : forall v r, ranges domain !! v = Some r -> below v.

Let vars_size := length (variables domain).
Let Prhs (e : Expr) : Prop := non_bool e /\ scoped outer e.
Let Pn2o (e : Expr) : Prop := non_bool e /\ scoped below e.

Lemma Prhs_closed : lin_closed Prhs.
Proof.
  intros op a b x y Hop [Hx Hsx] [Hy Hsy]. split.
  - by apply non_bool_combination.
  - apply scoped_Bin; apply scoped_Bin; auto using scoped_make_const.
Qed.

Lemma Pn2o_closed : lin_closed Pn2o.
Proof.
  intros op a b x y Hop [Hx Hsx] [Hy Hsy]. split.
  - by apply non_bool_combination.
  - apply scoped_Bin; apply scoped_Bin; auto using scoped_make_const.
Qed.

Lemma outer_below v : outer v -> below v.
Proof. by intros [? _]. Qed.

Lemma domain_ranges_scoped_below : ranges_scoped below (ranges domain).
Proof.
  intros v r Hr. destruct (domain_ranges_outer v r Hr) as [H1 H2].
  split; [apply (scoped_weaken outer below _ outer_below H1)
         |apply (scoped_weaken outer below _ outer_below H2)].
Qed.

Lemma SuperSimplify_domain_sound σ e :
  within σ (ranges domain) -> eval σ (SuperSimplify e (ranges domain)) = eval σ e.
Proof. intros Hw. by apply SuperSimplify_sound. Qed.

Lemma SuperSimplify_domain_typed e :
  is_bool (type_of (SuperSimplify e (ranges domain))) = is_bool (type_of e).
Proof. by apply SuperSimplify_typed. Qed.

Lemma SuperSimplify_domain_Prhs e : Prhs e -> Prhs (SuperSimplify e (ranges domain)).
Proof.
  intros [Ht Hs]. split.
  - unfold non_bool. by rewrite SuperSimplify_domain_typed.
  - by apply SuperSimplify_scoped.
Qed.


Lemma Forall_last_default {A : Type} (P : A -> Prop) (l : list A) d :
  Forall P l -> l <> [] -> P (List.last l d).
Proof.
  induction 1 as [|x l Hx Hl IH]; [done|]. intros _.
  destruct l as [|y l]; [done|]. by apply IH.
Qed.

Lemma xv_lt σ vars i v : vars !! i = Some v -> xv σ vars i = eval σ (VarNode v).
Proof. unfold xv. by intros ->. Qed.

Lemma beval_EQ σ a b : beval σ (Bin EQ a b) = (eval σ a =? eval σ b).
Proof.
  unfold beval. simpl. rewrite (canon_b2z TBool).
  by destruct (eval σ a =? eval σ b).
Qed.

(** A condition that becomes a row of the matrix says that the row times
    the variables is the right hand side. *)
Lemma equation_row_sound formula row r :
  cond_typed formula -> scoped below formula ->
  equation_row formula domain = Some (row, r) ->
  length row = vars_size /\ Prhs r /\
  forall σ, within σ (ranges domain) ->
    (beval σ formula = true <->
     zsum (fun c => List.nth c row 0 * xv σ (variables domain) c) vars_size = eval σ r).
Proof.
  intros Ht Hs Hrow.
  split; [by eapply equation_row_length|].
  unfold equation_row in Hrow.
  destruct formula as [| | | | |op a b| | |]; try done.
  destruct op; try done. simpl in Ht.
  apply scoped_Bin_inv in Hs as [Hsa Hsb].
  set (e := SuperSimplify (a - b)%E (ranges domain)) in *.
  set (coefs := DetectLinearEquation e (variables domain)) in *.
  assert (non_bool e) as Hte.
  { unfold non_bool, e. by rewrite SuperSimplify_domain_typed. }
  assert (scoped below e) as Hse.
  { apply SuperSimplify_scoped; try done.
    - apply domain_ranges_scoped_below.
    - by apply scoped_Bin. }
  destruct coefs as [|c0 coefs'] eqn:Ec; [done|]. rewrite <- Ec in *.
  assert (coefs <> []) as Hne by (by rewrite Ec).
  destruct (detect_sound e (variables domain) Hne Hte variables_int) as [Hnb Heq].
  fold coefs in Hnb, Heq.
  pose proof (detect_scoped below e (variables domain) Hse) as Hsc. fold coefs in Hsc.
  assert (length coefs = S vars_size) as Hlen.
  { destruct (detect_arity e (variables domain)) as [H|H]; [by fold coefs in H|done]. }
  destruct (mapM as_const_int (take (length coefs - 1) coefs)) as [[|c row']|] eqn:Em;
    try done.
  injection Hrow as <- <-.
  apply mapM_Some_1 in Em.
  replace (length coefs - 1)%nat with vars_size in Em by lia.
  assert (forall i σ, (i < vars_size)%nat ->
            eval σ (List.nth i coefs (make_zero TInt)) = List.nth i (c :: row') 0) as Hco.
  { intros i σ Hi.
    destruct (lookup_lt_is_Some_2 (take vars_size coefs) i) as [x Hx].
    { rewrite length_take. lia. }
    destruct (Forall2_lookup_l _ _ _ _ _ Em Hx) as (y & Hy & Hxy).
    rewrite lookup_take_lt in Hx by lia.
    rewrite !nth_lookup, Hx, Hy. simpl.
    destruct x as [|t n| | | | | | |]; try done. simpl in Hxy. injection Hxy as ->.
    simpl. apply canon_not_bool.
    rewrite Forall_lookup in Hnb. apply (Hnb _ _ Hx). }
  assert (non_bool (List.last coefs (make_zero TInt))) as Hlast
    by (by apply Forall_last_default).
  split.
  - split.
    + unfold non_bool, neg. by rewrite type_of_neg_sub.
    + apply scoped_Bin; [apply scoped_make_const|].
      by apply (Forall_last_default (scoped outer)).
  - intros σ Hw. rewrite beval_EQ. unfold neg. rewrite eval_neg_sub by done.
    specialize (Heq σ). unfold e in Heq at 1.
    rewrite SuperSimplify_domain_sound in Heq by done.
    rewrite eval_arith in Heq by done. simpl in Heq.
    rewrite (zsum_ext _ (fun i => List.nth i (c :: row') 0 * xv σ (variables domain) i))
      in Heq by (intros i Hi; by rewrite Hco).
    fold vars_size in Heq. rewrite Z.eqb_eq. lia.
Qed.


Lemma mget_cons_0 row (m : list (list Z)) c : mget (row :: m) 0 c = List.nth c row 0.
Proof. unfold mget. simpl. by rewrite nth_lookup. Qed.

Lemma mget_cons_S row (m : list (list Z)) r c : mget (row :: m) (S r) c = mget m r c.
Proof. done. Qed.

(** The conditions of the domain are the equations of the matrix and the
    conditions left aside. *)
Lemma equation_rows_sound formulas :
  Forall cond_typed formulas -> Forall (scoped below) formulas ->
  let matrix := (equation_rows formulas domain).1.1 in
  let rhs := (equation_rows formulas domain).1.2 in
  let rest_ := (equation_rows formulas domain).2 in
  length rhs = length matrix /\ Forall Prhs rhs /\
  Forall (scoped below) rest_ /\
  forall σ, within σ (ranges domain) ->
    (Forall (fun c => beval σ c = true) formulas <->
     (forall r, (r < length matrix)%nat ->
        zsum (fun c => mget matrix r c * xv σ (variables domain) c) vars_size
        = eval σ (List.nth r rhs (make_zero TInt))) /\
     Forall (fun c => beval σ c = true) rest_).
Proof.
  induction formulas as [|formula formulas IH]; intros Ht Hs; simpl.
  - split_and!; try done. intros σ Hw. split; [|done]. intros _. split; [|done].
    intros r Hr. simpl in Hr. lia.
  - apply Forall_cons in Ht as [Ht1 Ht]. apply Forall_cons in Hs as [Hs1 Hs].
    destruct (IH Ht Hs) as (Hlen & Hrhs & Hrest & Hsem). clear IH.
    destruct (equation_rows formulas domain) as [[matrix rhs] rest_]. simpl in *.
    destruct (equation_row formula domain) as [[row r]|] eqn:E; simpl.
    + destruct (equation_row_sound formula row r Ht1 Hs1 E) as (Hl & Hp & Hrow).
      split_and!; try done.
      * by rewrite Hlen.
      * by apply Forall_cons_2.
      * intros σ Hw. rewrite Forall_cons, (Hsem σ Hw), (Hrow σ Hw). split.
        -- intros (H0 & HS & Hr). split; [|done].
           intros [|k] Hk.
           ++ erewrite zsum_ext; [exact H0|]. intros c _. simpl.
              by rewrite mget_cons_0.
           ++ simpl. apply HS. lia.
        -- intros (HS & Hr). split_and!; try done.
           ++ specialize (HS 0%nat ltac:(lia)). simpl in HS.
              erewrite zsum_ext; [exact HS|]. intros c _. simpl.
              by rewrite mget_cons_0.
           ++ intros k Hk. apply (HS (S k)). lia.
    + split_and!; try done.
      * by apply Forall_cons_2.
      * intros σ Hw. rewrite !Forall_cons, (Hsem σ Hw). tauto.
Qed.


Lemma mget_identity_matrix n i c :
  mget (identity_matrix n) i c = if decide (i = c /\ (i < n)%nat) then 1 else 0.
Proof.
  unfold mget, identity_matrix.
  rewrite list_lookup_fmap.
  destruct (decide (i < n)%nat) as [Hi|Hi].
  - rewrite lookup_seq_lt by done. simpl.
    destruct (decide (i = c)) as [<-|Hne].
    + rewrite list_lookup_insert_eq by (by rewrite length_replicate).
      by rewrite decide_True.
    + rewrite list_lookup_insert_ne by done.
      rewrite decide_False by tauto.
      destruct (replicate n 0 !! c) as [x|] eqn:E; [|done].
      by apply lookup_replicate in E as [-> _].
  - rewrite lookup_seq_ge by lia. simpl. rewrite decide_False; [done|tauto].
Qed.

(** The state from which the diagonalization starts. *)
Definition initial_state : Diag :=
  mkDiag (equation_rows (conditions domain) domain).1.1
         (equation_rows (conditions domain) domain).1.2
         (identity_matrix vars_size) (map VarNode (variables domain)).

Lemma yv_initial_state σ c : yv σ initial_state c = xv σ (variables domain) c.
Proof.
  unfold yv, xv, initial_state. simpl. rewrite nth_lookup, list_lookup_fmap.
  by destruct (variables domain !! c).
Qed.

Lemma initial_state_shape :
  diag_shape Prhs Pn2o (length (d_matrix initial_state)) vars_size initial_state.
Proof.
  destruct (equation_rows_shape (conditions domain) domain detect_arity) as [Hwf Hlen].
  destruct (equation_rows_sound (conditions domain) conditions_typed conditions_below)
    as (_ & Hrhs & _).
  destruct (identity_matrix_mwf vars_size) as [Hi1 Hi2].
  split; simpl; try done.
  - by rewrite length_map.
  - apply Forall_map, Forall_forall. intros v Hv. split.
    + unfold non_bool. simpl. rewrite Forall_forall in variables_int.
      by apply variables_int.
    + apply scoped_VarNode. rewrite Forall_forall in variables_below.
      by apply variables_below.
Qed.

(** After the diagonalization: the matrix is diagonal; under an assignment
    within the ranges the conditions of the domain say that the system holds
    and that the conditions left aside do; the [old_to_new] matrix gives the
    old variables from the new ones, and the expressions of the new
    variables invert it. *)
Lemma diagonalized :
  exists fuel st,
    (forall fuel', (fuel <= fuel')%nat ->
       diagonalize fuel' vars_size 0 initial_state = Some st) /\
    diag_shape Prhs Pn2o (length (d_matrix st)) vars_size st /\
    (forall i j, i <> j -> mget (d_matrix st) i j = 0) /\
    (forall σ, within σ (ranges domain) ->
       (Forall (fun c => beval σ c = true) (conditions domain) <->
        system σ (length (d_matrix st)) vars_size st /\
        Forall (fun c => beval σ c = true) (equation_rows (conditions domain) domain).2)) /\
    (forall σ i, (i < vars_size)%nat ->
       xv σ (variables domain) i = old_value σ vars_size st i) /\
    (forall σ (s : nat -> Z),
       (forall i, (i < vars_size)%nat ->
          xv σ (variables domain) i
          = zsum (fun c => mget (d_old_to_new st) i c * s c) vars_size) ->
       forall c, (c < vars_size)%nat -> yv σ st c = s c).
Proof.
  pose proof initial_state_shape as Hshape0.
  set (rows := length (d_matrix initial_state)) in *.
  destruct (diagonalize_terminates Prhs Pn2o Prhs_closed Pn2o_closed
              ltac:(by intros e [? _]) ltac:(by intros e [? _]) rows vars_size
              (Nat.min rows vars_size - 0) 0%nat initial_state)
    as (fuel & st & Hrun & Hs & (Hsys & Hold & Hinv) & Hp); try done; try lia.
  { intros i j Hij. lia. }
  assert (length (d_matrix st) = rows) as Hrows by (by destruct Hs).
  exists fuel, st. rewrite Hrows. split_and!; try done.
  - intros i j Hne.
    destruct (decide (i < rows)%nat) as [Hi|Hi]; [|apply mget_row_ge; lia].
    destruct (decide (j < vars_size)%nat) as [Hj|Hj];
      [|apply (mget_col_ge vars_size); [by destruct Hs|lia]].
    apply Hp; [|done]. lia.
  - intros σ Hw.
    destruct (equation_rows_sound (conditions domain) conditions_typed conditions_below)
      as (_ & _ & _ & Hsem).
    rewrite (Hsem σ Hw), <- Hsys.
    assert (system σ rows vars_size initial_state <->
            forall r, (r < rows)%nat ->
              zsum (fun c => mget (d_matrix initial_state) r c * xv σ (variables domain) c)
                   vars_size
              = eval σ (List.nth r (d_rhs initial_state) (make_zero TInt))) as ->; [|done].
    unfold system, row_holds, rv.
    split; intros H r Hr; specialize (H r Hr).
    + erewrite zsum_ext; [exact H|]. intros c _. simpl. by rewrite yv_initial_state.
    + erewrite zsum_ext; [exact H|]. intros c _. simpl. by rewrite yv_initial_state.
  - intros σ i Hi. rewrite <- Hold by done. unfold old_value.
    rewrite (zsum_single _ vars_size i); [|done|].
    + simpl. rewrite mget_identity_matrix, decide_True by done.
      rewrite yv_initial_state. lia.
    + intros c Hc Hne. simpl. rewrite mget_identity_matrix, decide_False by lia. lia.
  - intros σ s Hx c Hc.
    destruct (Hinv s) as (s0 & Hsum & Hy). apply Hy; [|done].
    intros c0 Hc0. rewrite yv_initial_state, Hx, Hsum by done.
    rewrite (zsum_single _ vars_size c0); [|done|].
    + simpl. rewrite mget_identity_matrix, decide_True by done. lia.
    + intros c1 Hc1 Hne. simpl. rewrite mget_identity_matrix, decide_False by lia. lia.
Qed.


Section Finish.

(** A state the diagonalization has returned. *)
Variable st : Diag.
Let rows := length (d_matrix st).
Hypothesis st_shape : diag_shape Prhs Pn2o rows vars_size st.
Hypothesis st_diagonal : forall i j, i <> j -> mget (d_matrix st) i j = 0.

Let rhs' := map (fun r => SuperSimplify r (ranges domain)) (d_rhs st).
Let d (j : nat) : Z := mget (d_matrix st) j j.

Lemma rhs_Prhs j : (j < rows)%nat -> Prhs (List.nth j (d_rhs st) (make_zero TInt)).
Proof.
  intros Hj. destruct st_shape. apply Forall_nth_default; [done|lia].
Qed.

Lemma n2o_Pn2o j :
  (j < vars_size)%nat -> Pn2o (List.nth j (d_new_to_old st) (make_zero TInt)).
Proof.
  intros Hj. destruct st_shape. apply Forall_nth_default; [done|lia].
Qed.

Lemma nth_rhs' j :
  (j < rows)%nat ->
  List.nth j rhs' (make_zero TInt)
  = SuperSimplify (List.nth j (d_rhs st) (make_zero TInt)) (ranges domain).
Proof.
  intros Hj. unfold rhs'. rewrite !nth_lookup, list_lookup_fmap.
  destruct (lookup_lt_is_Some_2 (d_rhs st) j) as [x Hx].
  { destruct st_shape. lia. }
  by rewrite Hx.
Qed.

Lemma rhs'_Prhs j : (j < rows)%nat -> Prhs (List.nth j rhs' (make_zero TInt)).
Proof.
  intros Hj. rewrite nth_rhs' by done. by apply SuperSimplify_domain_Prhs, rhs_Prhs.
Qed.

Lemma eval_rhs' σ j :
  (j < rows)%nat -> within σ (ranges domain) ->
  eval σ (List.nth j rhs' (make_zero TInt)) = rv σ st j.
Proof.
  intros Hj Hw. rewrite nth_rhs' by done. by apply SuperSimplify_domain_sound.
Qed.

(** The condition of existence of row [j], before it is simplified. *)
Definition raw_condition (j : nat) : Expr :=
  let rhs_j := List.nth j rhs' (make_zero TInt) in
  if (vars_size <=? j)%nat || (d j =? 0) then eq_zero rhs_j
  else eq_zero (floormod rhs_j (make_const (type_of rhs_j) (Z.abs (d j)))).

Lemma existence_condition_raw j :
  existence_condition vars_size (d_matrix st) rhs' (ranges domain) j
  = SuperSimplify (raw_condition j) (ranges domain).
Proof. done. Qed.

Lemma beval_raw_condition σ j :
  (j < rows)%nat -> within σ (ranges domain) ->
  beval σ (raw_condition j) =
  if (vars_size <=? j)%nat || (d j =? 0) then rv σ st j =? 0
  else rv σ st j mod Z.abs (d j) =? 0.
Proof.
  intros Hj Hw. unfold raw_condition.
  destruct (rhs'_Prhs j Hj) as [Ht _].
  destruct ((vars_size <=? j)%nat || (d j =? 0)).
  - rewrite beval_eq_zero by done. by rewrite eval_rhs'.
  - rewrite beval_floormod_eq_zero by done. by rewrite eval_rhs'.
Qed.

Lemma raw_condition_scoped j : (j < rows)%nat -> scoped outer (raw_condition j).
Proof.
  intros Hj. unfold raw_condition, eq_zero.
  destruct (rhs'_Prhs j Hj) as [_ Hs].
  destruct ((vars_size <=? j)%nat || (d j =? 0));
    repeat apply scoped_Bin; auto using scoped_make_const.
Qed.

Lemma existence_condition_scoped j :
  (j < rows)%nat ->
  scoped outer (existence_condition vars_size (d_matrix st) rhs' (ranges domain) j).
Proof.
  intros Hj. rewrite existence_condition_raw.
  apply SuperSimplify_scoped; try done. by apply raw_condition_scoped.
Qed.

(** Under an assignment within the ranges, the conditions of existence say
    that the diagonal system has a solution. *)
Lemma existence_condition_sound σ j :
  (j < rows)%nat -> within σ (ranges domain) ->
  beval σ (existence_condition vars_size (d_matrix st) rhs' (ranges domain) j) =
  if (vars_size <=? j)%nat || (d j =? 0) then rv σ st j =? 0
  else rv σ st j mod Z.abs (d j) =? 0.
Proof.
  intros Hj Hw. rewrite existence_condition_raw. unfold beval.
  rewrite SuperSimplify_domain_sound by done. by apply beval_raw_condition.
Qed.


(** The columns without an equation: their new variable is free. *)
Definition is_free (j : nat) : bool := (rows <=? j)%nat || (d j =? 0).

Fixpoint count_free (k : nat) : nat :=
  match k with
  | O => O
  | S k => (count_free k + if is_free k then 1 else 0)%nat
  end.

Let n2o_j (j : nat) : Expr := List.nth j (d_new_to_old st) (make_zero TInt).
Let rhs_j (j : nat) : Expr := List.nth j rhs' (make_zero TInt).

(** The variable created for the free column [j], its expression over the
    old variables, and the solution for column [j]. *)
Definition new_var (j : nat) : Var :=
  mkVar (next_id + N.of_nat (count_free j)) (type_of (n2o_j j)).

Definition to_old (j : nat) : Expr := SuperSimplify (n2o_j j) (ranges domain).

Definition sol (j : nat) : Expr :=
  if is_free j then VarNode (new_var j)
  else if 0 <=? d j then
    SuperSimplify (floordiv (rhs_j j) (make_const (type_of (rhs_j j)) (d j))) (ranges domain)
  else
    SuperSimplify (floordiv (neg (rhs_j j)) (make_const (type_of (rhs_j j)) (- d j)))
                  (ranges domain).

Definition fresh_vars (k : nat) : list Var :=
  map new_var (List.filter is_free (seq 0 k)).

Lemma fresh_vars_length k : length (fresh_vars k) = count_free k.
Proof.
  unfold fresh_vars. rewrite length_map.
  induction k as [|k IH]; [done|].
  rewrite seq_S, List.filter_app, length_app, IH. simpl.
  by destruct (is_free k).
Qed.

Lemma count_free_mono j k : (j <= k)%nat -> (count_free j <= count_free k)%nat.
Proof. induction 1; simpl; lia. Qed.

Lemma new_var_inj j k :
  is_free j = true -> is_free k = true -> new_var j = new_var k -> j = k.
Proof.
  intros Hj Hk H. injection H as Hc _.
  assert (count_free j = count_free k) as Hcount by lia.
  destruct (Nat.lt_trichotomy j k) as [Hlt|[?|Hlt]]; [|done|].
  - pose proof (count_free_mono (S j) k Hlt). simpl in *. rewrite Hj in *. lia.
  - pose proof (count_free_mono (S k) j Hlt). simpl in *. rewrite Hk in *. lia.
Qed.

(** The loop that creates the variables and solves the equations. *)
Lemma solve_loop k :
  let r := foldl (solve_variable (d_matrix st) rhs' (d_new_to_old st) (ranges domain) next_id)
                 ([], ∅, []) (seq 0 k) in
  r.1.1 = fresh_vars k /\ r.2 = map sol (seq 0 k) /\
  forall v e, r.1.2 !! v = Some e <->
    exists j, (j < k)%nat /\ is_free j = true /\ v = new_var j /\ e = to_old j.
Proof.
  induction k as [|k IH].
  - simpl. split_and!; try done. intros v e. rewrite lookup_empty. split; [done|].
    intros (j & Hj & _). lia.
  - rewrite seq_S, foldl_app. simpl.
    destruct IH as (Hv & Hs & Hm).
    destruct (foldl _ _ (seq 0 k)) as [[new_vars m] solution]. simpl in *.
    unfold solve_variable. fold rows. fold (d k). fold (is_free k).
    fold (n2o_j k). fold (rhs_j k).
    assert (fresh_vars (S k) = fresh_vars k ++ if is_free k then [new_var k] else [])
      as Hfv.
    { unfold fresh_vars. rewrite seq_S, List.filter_app, map_app. simpl.
      by destruct (is_free k). }
    rewrite Hfv, map_app. cbn [map]. unfold sol at 2.
    destruct (is_free k) eqn:Hfree; simpl.
    + assert (mkVar (next_id + N.of_nat (length new_vars)) (type_of (n2o_j k)) = new_var k)
        as Hnew.
      { unfold new_var. by rewrite Hv, fresh_vars_length. }
      rewrite Hnew. split_and!; [by rewrite Hv|by rewrite Hs|].
      intros v e. destruct (decide (v = new_var k)) as [->|Hne].
      * rewrite lookup_insert_eq. split.
        -- intros [= <-]. exists k. split_and!; try done. lia.
        -- intros (j & Hj & Hfj & Heq & ->).
           apply new_var_inj in Heq; [by subst|done|done].
      * rewrite lookup_insert_ne by done. rewrite Hm. split.
        -- intros (j & Hj & ?). exists j. split; [lia|done].
        -- intros (j & Hj & Hfj & -> & ->). exists j. split_and!; try done.
           destruct (decide (j = k)) as [->|?]; [done|lia].
    + destruct (0 <=? d k); simpl.
      * split_and!; [by rewrite Hv, app_nil_r|by rewrite Hs|].
        intros v e. rewrite Hm. split.
        -- intros (j & Hj & ?). exists j. split; [lia|done].
        -- intros (j & Hj & Hfj & -> & ->). exists j. split_and!; try done.
           destruct (decide (j = k)) as [->|?]; [congruence|lia].
      * split_and!; [by rewrite Hv, app_nil_r|by rewrite Hs|].
        intros v e. rewrite Hm. split.
        -- intros (j & Hj & ?). exists j. split; [lia|done].
        -- intros (j & Hj & Hfj & -> & ->). exists j. split_and!; try done.
           destruct (decide (j = k)) as [->|?]; [congruence|lia].
Qed.


(** Maps filled by a loop of [Set] over a list without repeated keys. *)
Definition fill {A V : Type} (key : A -> Var) (f : A -> option V)
    (m0 : gmap Var V) (l : list A) : gmap Var V :=
  foldl (fun m p => match f p with Some x => <[key p := x]> m | None => m end) m0 l.

Lemma fill_cons {A V : Type} (key : A -> Var) (f : A -> option V) m0 p l :
  fill key f m0 (p :: l)
  = fill key f (match f p with Some x => <[key p := x]> m0 | None => m0 end) l.
Proof. done. Qed.

Lemma fill_notin {A V : Type} (key : A -> Var) (f : A -> option V) l : forall m0 k,
  k ∉ map key l -> fill key f m0 l !! k = m0 !! k.
Proof.
  induction l as [|p l IH]; intros m0 k Hk; [done|].
  simpl in Hk. apply not_elem_of_cons in Hk as [Hne Hk].
  rewrite fill_cons, IH by done.
  destruct (f p); [|done]. by rewrite lookup_insert_ne.
Qed.

Lemma fill_in {A V : Type} (key : A -> Var) (f : A -> option V) l : forall m0 p,
  NoDup (map key l) -> p ∈ l ->
  fill key f m0 l !! key p = match f p with Some x => Some x | None => m0 !! key p end.
Proof.
  induction l as [|q l IH]; intros m0 p Hnd Hp; [by apply elem_of_nil in Hp|].
  simpl in Hnd. apply NoDup_cons in Hnd as [Hq Hnd].
  rewrite fill_cons.
  apply elem_of_cons in Hp as [->|Hp].
  - rewrite fill_notin by done.
    destruct (f q); [by rewrite lookup_insert_eq|done].
  - rewrite IH by done.
    destruct (f p); [done|].
    assert (key q <> key p) as Hne.
    { intros Heq. apply Hq. rewrite Heq. by apply (list_elem_of_fmap_2 key). }
    destruct (f q); [by rewrite lookup_insert_ne|done].
Qed.

Lemma foldl_ext {A B : Type} (f g : A -> B -> A) l : forall a,
  (forall a x, f a x = g a x) -> foldl f a l = foldl g a l.
Proof.
  induction l as [|x l IH]; intros a H; simpl; [done|]. rewrite H. by apply IH.
Qed.


(** The solution, and the map from the old variables. *)
Definition solution : list Expr := map sol (seq 0 vars_size).

Definition old_to_new_map : gmap Var Expr :=
  foldl (fun m '(i, v) =>
           <[v := old_to_new_expr vars_size (d_old_to_new st) solution i v]> m)
        ∅ (imap (fun i v => (i, v)) (variables domain)).

Lemma nth_solution j : (j < vars_size)%nat -> List.nth j solution (make_zero TInt) = sol j.
Proof.
  intros Hj. unfold solution. rewrite nth_lookup, list_lookup_fmap.
  by rewrite lookup_seq_lt.
Qed.

Lemma old_to_new_map_fill :
  old_to_new_map =
  fill snd (fun p => Some (old_to_new_expr vars_size (d_old_to_new st) solution p.1 p.2))
       ∅ (imap (fun i v => (i, v)) (variables domain)).
Proof. unfold old_to_new_map, fill. apply foldl_ext. by intros m [i v]. Qed.

Lemma map_snd_imap {A : Type} (l : list A) : map snd (imap (fun i v => (i, v)) l) = l.
Proof.
  apply list_eq. intros i. rewrite list_lookup_fmap, list_lookup_imap.
  by destruct (l !! i).
Qed.

Lemma old_to_new_map_lookup i v :
  variables domain !! i = Some v ->
  old_to_new_map !! v = Some (old_to_new_expr vars_size (d_old_to_new st) solution i v).
Proof.
  intros Hv. rewrite old_to_new_map_fill.
  rewrite (fill_in snd _ _ ∅ (i, v)); [done| |].
  - by rewrite map_snd_imap.
  - apply list_elem_of_lookup. exists i. rewrite list_lookup_imap. by rewrite Hv.
Qed.

Lemma old_to_new_map_None v : v ∉ variables domain -> old_to_new_map !! v = None.
Proof.
  intros Hv. rewrite old_to_new_map_fill, fill_notin; [done|].
  by rewrite map_snd_imap.
Qed.

Lemma eval_old_to_new_expr σ (sols : list Expr) i v :
  is_bool (vty v) = false ->
  eval σ (old_to_new_expr vars_size (d_old_to_new st) sols i v)
  = zsum (fun j => mget (d_old_to_new st) i j * eval σ (List.nth j sols (make_zero TInt)))
         vars_size
  /\ is_bool (type_of (old_to_new_expr vars_size (d_old_to_new st) sols i v)) = false.
Proof.
  intros Hv. unfold old_to_new_expr.
  rewrite SuperSimplify_sound_empty.
  rewrite SuperSimplify_typed by (done || apply ranges_typed_empty).
  generalize vars_size. intros k.
  induction k as [|k [IH1 IH2]].
  - simpl. split; [apply eval_make_zero|]. unfold make_zero. by rewrite type_of_make_const.
  - rewrite seq_S, foldl_app. simpl.
    set (e := foldl _ _ (seq 0 k)) in *.
    split; [|done].
    rewrite type_of_make_const, eval_make_const, !canon_not_bool by done.
    by rewrite IH1.
Qed.


(** The new variables and their expressions over the old ones. *)
Definition solved : list Var * gmap Var Expr * list Expr :=
  foldl (solve_variable (d_matrix st) rhs' (d_new_to_old st) (ranges domain) next_id)
        ([], ∅, []) (seq 0 vars_size).

Definition new_vars : list Var := solved.1.1.
Definition new_to_old_map : gmap Var Expr := solved.1.2.

Lemma solved_solution : solved.2 = solution.
Proof. by destruct (solve_loop vars_size) as (_ & H & _). Qed.

Lemma new_to_old_map_lookup v e :
  new_to_old_map !! v = Some e <->
  exists j, (j < vars_size)%nat /\ is_free j = true /\ v = new_var j /\ e = to_old j.
Proof. by destruct (solve_loop vars_size) as (_ & _ & H). Qed.

(** The ranges of the new domain. *)
Definition sorted_domain_ranges : list (Var * Range) :=
  VarMapToVectorOfPairs (ranges domain).

Definition outer_ranges : gmap Var Range :=
  foldl (fun m p => if bool_decide (p.1 ∈ variables domain) then m else <[p.1 := p.2]> m)
        ∅ sorted_domain_ranges.

Definition new_ranges : gmap Var Range :=
  foldl (fun m p =>
           match EvalSet_cover_range (ranges domain) p.2 with
           | Some range => <[p.1 := range]> m
           | None => m
           end)
        outer_ranges (map_to_list new_to_old_map).

Lemma elem_of_sorted_domain_ranges v r :
  (v, r) ∈ sorted_domain_ranges <-> ranges domain !! v = Some r.
Proof.
  unfold sorted_domain_ranges, VarMapToVectorOfPairs.
  rewrite merge_sort_Permutation. apply elem_of_map_to_list.
Qed.

Lemma sorted_domain_ranges_NoDup : NoDup (map fst sorted_domain_ranges).
Proof.
  unfold sorted_domain_ranges, VarMapToVectorOfPairs.
  change (NoDup (fst <$> merge_sort var_pair_less (map_to_list (ranges domain)))).
  rewrite merge_sort_Permutation. apply NoDup_fst_map_to_list.
Qed.

Lemma outer_ranges_lookup v :
  outer_ranges !! v = if decide (v ∈ variables domain) then None else ranges domain !! v.
Proof.
  assert (outer_ranges =
          fill fst (fun p : Var * Range =>
                      if bool_decide (p.1 ∈ variables domain) then None else Some p.2)
               ∅ sorted_domain_ranges) as ->.
  { unfold outer_ranges, fill. apply foldl_ext. intros m p. by destruct (bool_decide _). }
  destruct (ranges domain !! v) as [r|] eqn:Hr.
  - apply elem_of_sorted_domain_ranges in Hr.
    rewrite (fill_in fst _ _ ∅ (v, r) sorted_domain_ranges_NoDup Hr). simpl.
    destruct (decide (v ∈ variables domain)).
    + by rewrite bool_decide_true.
    + by rewrite bool_decide_false.
  - rewrite fill_notin.
    + rewrite lookup_empty. by destruct (decide _).
    + intros (p & -> & Hp)%list_elem_of_fmap_1. destruct p as [v' r'].
      apply elem_of_sorted_domain_ranges in Hp. simpl in Hr. congruence.
Qed.

Lemma new_ranges_lookup v :
  new_ranges !! v =
  match new_to_old_map !! v with
  | Some e =>
      match EvalSet_cover_range (ranges domain) e with
      | Some r => Some r
      | None => outer_ranges !! v
      end
  | None => outer_ranges !! v
  end.
Proof.
  change new_ranges with
    (fill fst (fun p : Var * Expr => EvalSet_cover_range (ranges domain) p.2)
          outer_ranges (map_to_list new_to_old_map)).
  destruct (new_to_old_map !! v) as [e|] eqn:He.
  - apply elem_of_map_to_list in He.
    rewrite (fill_in fst _ _ outer_ranges (v, e)); [done| |done].
    apply NoDup_fst_map_to_list.
  - rewrite fill_notin; [done|].
    intros (p & -> & Hp)%list_elem_of_fmap_1. destruct p as [v' e'].
    apply elem_of_map_to_list in Hp. simpl in He. congruence.
Qed.

(** The result of [SolveSystemOfEquations_finish]. *)
Lemma SolveSystemOfEquations_finish_unfold rest_ :
  SolveSystemOfEquations_finish domain rest_ st next_id =
  match existence_conditions vars_size (d_matrix st) rhs' (ranges domain)
          (seq 0 rows) [] with
  | None => EmptyDomainTransformation domain
  | Some conds =>
      mkDomainTransformation
        (mkDomain new_vars
           (range_conditions sorted_domain_ranges old_to_new_map new_ranges conds
            ++ map (fun c => Substitute c old_to_new_map) rest_)
           new_ranges)
        domain new_to_old_map old_to_new_map
  end.
Proof.
  unfold SolveSystemOfEquations_finish. fold vars_size. fold rhs'. fold rows.
  destruct (existence_conditions _ _ _ _ _ _) as [conds|]; [|done].
  fold solved.
  unfold new_ranges, outer_ranges, new_to_old_map, new_vars, sorted_domain_ranges,
    old_to_new_map.
  rewrite <- solved_solution.
  by destruct solved as [[nv m] s].
Qed.


(** The conditions from the range of an old variable with expression [e]
    over the new variables. *)
Definition lower_cond (vranges : gmap Var Range) (r : Range) (e : Expr) : Expr :=
  SuperSimplify (range_min r <= e)%E vranges.
Definition upper_cond (vranges : gmap Var Range) (r : Range) (e : Expr) : Expr :=
  SuperSimplify (e < range_min r + range_extent r)%E vranges.

Lemma elem_of_range_conditions (l : list (Var * Range)) (o2n : gmap Var Expr) vranges :
  forall acc c,
  c ∈ range_conditions l o2n vranges acc <->
  c ∈ acc \/
  exists v r e, (v, r) ∈ l /\ o2n !! v = Some e /\ is_const_int c 1 = false /\
                (c = lower_cond vranges r e \/ c = upper_cond vranges r e).
Proof.
  induction l as [|[v r] l IH]; intros acc c.
  - simpl. split; [by left|]. intros [?|(v & r & e & H & _)]; [done|].
    by apply elem_of_nil in H.
  - unfold range_conditions in *. cbn [foldl]. rewrite IH. clear IH. simpl.
    destruct (o2n !! v) as [e|] eqn:He.
    + fold (lower_cond vranges r e). fold (upper_cond vranges r e).
      split.
      * intros [Hc|(v' & r' & e' & Hin & ?)].
        -- destruct (is_const_int (lower_cond vranges r e) 1) eqn:E1;
             destruct (is_const_int (upper_cond vranges r e) 1) eqn:E2; simpl in Hc;
             rewrite ?elem_of_app, ?list_elem_of_singleton in Hc;
             intuition (subst; try (by left);
                        right; exists v, r, e; split_and!;
                        [apply elem_of_cons; by left|done|done|tauto]).
        -- right. exists v', r', e'. split; [apply elem_of_cons; by right|done].
      * intros [Hc|(v' & r' & e' & Hin & He' & Hc1 & Hc)].
        -- left. destruct (negb (is_const_int (lower_cond vranges r e) 1));
             destruct (negb (is_const_int (upper_cond vranges r e) 1));
             rewrite ?elem_of_app; tauto.
        -- apply elem_of_cons in Hin as [[= -> ->]|Hin].
           ++ left. rewrite He in He'. injection He' as <-.
              destruct Hc as [-> | ->]; rewrite Hc1; simpl.
              ** destruct (negb (is_const_int (upper_cond vranges r e) 1));
                   rewrite ?elem_of_app, ?list_elem_of_singleton; tauto.
              ** rewrite elem_of_app, list_elem_of_singleton. tauto.
           ++ right. by exists v', r', e'.
    + split.
      * intros [Hc|(v' & r' & e' & Hin & ?)]; [by left|].
        right. exists v', r', e'. split; [apply elem_of_cons; by right|done].
      * intros [Hc|(v' & r' & e' & Hin & He' & Hc)]; [by left|].
        apply elem_of_cons in Hin as [[= -> ->]|Hin]; [congruence|].
        right. by exists v', r', e'.
Qed.


Lemma beval_LE σ a b : beval σ (a <= b)%E = (eval σ a <=? eval σ b).
Proof.
  unfold beval. simpl. rewrite (canon_b2z TBool).
  by destruct (eval σ a <=? eval σ b).
Qed.

Lemma beval_LT σ a b : beval σ (a < b)%E = (eval σ a <? eval σ b).
Proof.
  unfold beval. simpl. rewrite (canon_b2z TBool).
  by destruct (eval σ a <? eval σ b).
Qed.

Lemma is_const_int_1_beval σ c : is_const_int c 1 = true -> beval σ c = true.
Proof. apply is_one_beval. Qed.

Lemma is_const_int_0_beval σ c : is_const_int c 0 = true -> beval σ c = false.
Proof.
  intros H. unfold beval. rewrite (is_const_int_sound _ _ _ H). by rewrite canon_0.
Qed.

(** The diagonal system, row by row. *)
Lemma system_diagonal σ :
  system σ rows vars_size st <->
  forall r, (r < rows)%nat ->
    (if decide (r < vars_size)%nat then d r * yv σ st r else 0) = rv σ st r.
Proof.
  assert (forall r, zsum (fun c => mget (d_matrix st) r c * yv σ st c) vars_size
                    = if decide (r < vars_size)%nat then d r * yv σ st r else 0) as H.
  { intros r. destruct (decide (r < vars_size)%nat) as [Hr|Hr].
    - rewrite (zsum_single _ vars_size r); [done|done|].
      intros c Hc Hne. rewrite st_diagonal by done. lia.
    - apply zsum_zero. intros c Hc. rewrite st_diagonal by lia. lia. }
  unfold system, row_holds. split; intros Hs r Hr; specialize (Hs r Hr); by rewrite H in *.
Qed.

Lemma is_free_false j :
  (j < vars_size)%nat -> is_free j = false -> (j < rows)%nat /\ d j <> 0.
Proof.
  unfold is_free. intros Hj H. apply orb_false_iff in H as [H1 H2].
  apply Nat.leb_gt in H1. by apply Z.eqb_neq in H2.
Qed.

(** The solution of a column with an equation. *)
Lemma eval_sol_solved σ j :
  (j < vars_size)%nat -> is_free j = false -> within σ (ranges domain) ->
  eval σ (sol j) = if 0 <=? d j then rv σ st j `div` d j else (- rv σ st j) `div` (- d j).
Proof.
  intros Hj Hf Hw. unfold sol. rewrite Hf.
  destruct (is_free_false j Hj Hf) as [Hr Hd].
  destruct (rhs'_Prhs j Hr) as [Ht _]. fold (rhs_j j) in Ht.
  destruct (0 <=? d j).
  - rewrite SuperSimplify_domain_sound by done.
    unfold floordiv. rewrite eval_arith by done. simpl.
    rewrite eval_make_const, canon_not_bool by done.
    unfold rhs_j. by rewrite eval_rhs'.
  - rewrite SuperSimplify_domain_sound by done.
    unfold floordiv. rewrite eval_arith; [|done|by unfold neg; rewrite type_of_neg_sub].
    cbn [bin_sem]. rewrite eval_make_const, canon_not_bool by done.
    unfold neg. rewrite eval_neg_sub by done.
    unfold rhs_j. by rewrite eval_rhs'.
Qed.

Lemma sol_solved_scoped j :
  (j < vars_size)%nat -> is_free j = false -> scoped outer (sol j).
Proof.
  intros Hj Hf. unfold sol. rewrite Hf.
  destruct (is_free_false j Hj Hf) as [Hr Hd].
  destruct (rhs'_Prhs j Hr) as [_ Hs]. fold (rhs_j j) in Hs.
  destruct (0 <=? d j); apply SuperSimplify_scoped; try done;
    unfold floordiv, neg, make_zero; repeat apply scoped_Bin;
    auto using scoped_make_const.
Qed.

(** The new variables are not among the addresses in use. *)
Lemma new_var_not_below j : ~ below (new_var j).
Proof. unfold below, new_var. simpl. lia. Qed.

Lemma new_to_old_map_below v : below v -> new_to_old_map !! v = None.
Proof.
  intros Hv. destruct (new_to_old_map !! v) as [e|] eqn:E; [|done].
  apply new_to_old_map_lookup in E as (j & _ & _ & -> & _).
  by apply new_var_not_below in Hv.
Qed.

Lemma variables_lookup_below i v : variables domain !! i = Some v -> below v.
Proof.
  intros H. rewrite Forall_lookup in variables_below. by eapply variables_below.
Qed.

Lemma variables_lookup_int i v :
  variables domain !! i = Some v -> is_bool (vty v) = false.
Proof.
  intros H. rewrite Forall_lookup in variables_int. by eapply variables_int.
Qed.

Lemma to_old_Pn2o j : (j < vars_size)%nat -> Pn2o (to_old j).
Proof.
  intros Hj. destruct (n2o_Pn2o j Hj) as [Ht Hs]. unfold to_old. split.
  - unfold non_bool. by rewrite SuperSimplify_domain_typed.
  - apply SuperSimplify_scoped; try done. apply domain_ranges_scoped_below.
Qed.

Lemma eval_to_old σ j :
  within σ (ranges domain) -> eval σ (to_old j) = yv σ st j.
Proof. intros Hw. unfold to_old. by rewrite SuperSimplify_domain_sound. Qed.

(** The ranges of the new domain are typed as those of the domain are. *)
Lemma new_ranges_typed : ranges_typed new_ranges.
Proof.
  intros v r. rewrite new_ranges_lookup, outer_ranges_lookup.
  destruct (new_to_old_map !! v) as [e|] eqn:He.
  - apply new_to_old_map_lookup in He as (j & Hj & Hf & -> & ->).
    destruct (EvalSet_cover_range (ranges domain) (to_old j)) as [r'|] eqn:Er.
    + intros [= <-]. destruct (evalset_ok _ _ _ Er) as (_ & _ & Ht).
      rewrite Ht. unfold to_old. by rewrite SuperSimplify_domain_typed.
    + destruct (decide _); [done|]. intros Hr.
      by apply domain_ranges_below, new_var_not_below in Hr.
  - destruct (decide _); [done|]. apply domain_ranges_typed.
Qed.


Lemma eval_VarNode_int σ v : is_bool (vty v) = false -> eval σ (VarNode v) = val σ v.
Proof. intros H. simpl. by apply canon_not_bool. Qed.

Lemma old_to_new_map_Some v e :
  old_to_new_map !! v = Some e ->
  exists i, variables domain !! i = Some v /\
            e = old_to_new_expr vars_size (d_old_to_new st) solution i v.
Proof.
  intros He. destruct (decide (v ∈ variables domain)) as [Hin|Hn].
  - apply list_elem_of_lookup in Hin as [i Hi]. exists i. split; [done|].
    rewrite (old_to_new_map_lookup i v Hi) in He. by injection He.
  - by rewrite old_to_new_map_None in He.
Qed.

Lemma old_to_new_map_typed (σ : Env) : subst_typed old_to_new_map.
Proof.
  intros v e He. apply old_to_new_map_Some in He as (i & Hi & ->).
  pose proof (variables_lookup_int i v Hi) as Hv.
  destruct (eval_old_to_new_expr σ solution i v Hv) as [_ ->]. by rewrite Hv.
Qed.

(** The range of a variable of the domain has bounds that are not Boolean. *)
Lemma variable_range_non_bool i v r :
  variables domain !! i = Some v -> ranges domain !! v = Some r ->
  is_bool (type_of (range_min r)) = false.
Proof.
  intros Hi Hr. rewrite (domain_ranges_typed v r Hr). by eapply variables_lookup_int.
Qed.

(** The conditions over the ranges of the solved variables say that the
    solutions are within the ranges. *)
Lemma range_conditions_hold σ' acc v r e :
  within σ' new_ranges ->
  (forall c, c ∈ range_conditions sorted_domain_ranges old_to_new_map new_ranges acc ->
             beval σ' c = true) ->
  ranges domain !! v = Some r -> old_to_new_map !! v = Some e ->
  eval σ' (range_min r) <= eval σ' e
  < eval σ' (range_min r) + eval σ' (range_extent r).
Proof.
  intros Hw Hc Hr He.
  destruct (old_to_new_map_Some v e He) as (i & Hi & _).
  pose proof (variable_range_non_bool i v r Hi Hr) as Hnb.
  assert (forall c, c = lower_cond new_ranges r e \/ c = upper_cond new_ranges r e ->
                    beval σ' c = true) as Hb.
  { intros c Hcc. destruct (is_const_int c 1) eqn:E1; [by apply is_const_int_1_beval|].
    apply Hc, elem_of_range_conditions. right. exists v, r, e.
    by rewrite elem_of_sorted_domain_ranges. }
  pose proof (Hb _ (or_introl eq_refl)) as Hlo.
  pose proof (Hb _ (or_intror eq_refl)) as Hup.
  unfold lower_cond, upper_cond, beval in Hlo, Hup.
  rewrite SuperSimplify_sound in Hlo, Hup by (done || apply new_ranges_typed).
  fold (beval σ' (range_min r <= e)%E) in Hlo.
  fold (beval σ' (e < range_min r + range_extent r)%E) in Hup.
  rewrite beval_LE in Hlo. rewrite beval_LT in Hup.
  rewrite eval_arith in Hup by done. simpl in Hup. lia.
Qed.

Lemma range_conditions_true σ' acc :
  within σ' new_ranges ->
  (forall v r e, ranges domain !! v = Some r -> old_to_new_map !! v = Some e ->
     eval σ' (range_min r) <= eval σ' e
     < eval σ' (range_min r) + eval σ' (range_extent r)) ->
  (forall c, c ∈ acc -> beval σ' c = true) ->
  forall c, c ∈ range_conditions sorted_domain_ranges old_to_new_map new_ranges acc ->
            beval σ' c = true.
Proof.
  intros Hw Hb Hacc c Hc. apply elem_of_range_conditions in Hc as [Hc|Hc]; [by apply Hacc|].
  destruct Hc as (v & r & e & Hvr & He & _ & Hc).
  apply elem_of_sorted_domain_ranges in Hvr.
  destruct (old_to_new_map_Some v e He) as (i & Hi & _).
  pose proof (variable_range_non_bool i v r Hi Hvr) as Hnb.
  specialize (Hb v r e Hvr He).
  destruct Hc as [-> | ->]; unfold lower_cond, upper_cond, beval;
    rewrite SuperSimplify_sound by (done || apply new_ranges_typed).
  - fold (beval σ' (range_min r <= e)%E). rewrite beval_LE. apply Z.leb_le. lia.
  - fold (beval σ' (e < range_min r + range_extent r)%E). rewrite beval_LT.
    rewrite eval_arith by done. simpl. apply Z.ltb_lt. lia.
Qed.


Let rest_ : list Expr := (equation_rows (conditions domain) domain).2.

Hypothesis st_system : forall σ, within σ (ranges domain) ->
  (Forall (fun c => beval σ c = true) (conditions domain) <->
   system σ rows vars_size st /\ Forall (fun c => beval σ c = true) rest_).
Hypothesis st_old : forall σ i, (i < vars_size)%nat ->
  xv σ (variables domain) i = old_value σ vars_size st i.
Hypothesis st_inverse : forall σ (s : nat -> Z),
  (forall i, (i < vars_size)%nat ->
     xv σ (variables domain) i
     = zsum (fun c => mget (d_old_to_new st) i c * s c) vars_size) ->
  forall c, (c < vars_size)%nat -> yv σ st c = s c.
Hypothesis rest_below : Forall (scoped below) rest_.

Lemma outer_old_to_new_map e :
  scoped outer e -> scoped (fun v => old_to_new_map !! v = None) e.
Proof.
  apply scoped_weaken. intros v [_ Hv]. by apply old_to_new_map_None.
Qed.

Lemma below_new_to_old_map e :
  scoped below e -> scoped (fun v => new_to_old_map !! v = None) e.
Proof. apply scoped_weaken. intros v Hv. by apply new_to_old_map_below. Qed.

(** From a model of the new domain to a model of the domain. *)
Lemma finish_new_to_old conds σ' :
  existence_conditions vars_size (d_matrix st) rhs' (ranges domain) (seq 0 rows) []
  = Some conds ->
  within σ' new_ranges ->
  Forall (fun c => beval σ' c = true)
    (range_conditions sorted_domain_ranges old_to_new_map new_ranges conds
     ++ map (fun c => Substitute c old_to_new_map) rest_) ->
  let σ := subst_env σ' old_to_new_map in
  satisfies σ domain /\
  forall v e, new_to_old_map !! v = Some e -> eval σ e = eval σ' (VarNode v).
Proof.
  intros Hex Hw' Hc σ.
  apply Forall_app in Hc as [Hrc Hrest].
  rewrite Forall_forall in Hrc.
  rewrite existence_conditions_spec in Hex.
  destruct (existsb _ _) eqn:Hz; [done|]. injection Hex as <-.
  set (s := fun j => eval σ' (sol j)).
  assert (forall i v, variables domain !! i = Some v ->
            eval σ (VarNode v) = zsum (fun j => mget (d_old_to_new st) i j * s j) vars_size
            /\ eval σ (VarNode v)
               = eval σ' (old_to_new_expr vars_size (d_old_to_new st) solution i v))
    as Hval.
  { intros i v Hi. rewrite eval_VarNode_int by (by eapply variables_lookup_int).
    unfold σ, subst_env. simpl. rewrite (old_to_new_map_lookup i v Hi).
    destruct (eval_old_to_new_expr σ' solution i v (variables_lookup_int i v Hi)) as [-> _].
    split; [|done]. apply zsum_ext. intros j Hj. by rewrite nth_solution. }
  assert (forall e, scoped outer e -> eval σ e = eval σ' e) as Houter.
  { intros e He. by apply eval_subst_env_scoped, outer_old_to_new_map. }
  assert (within σ (ranges domain)) as Hw.
  { intros v r Hr. destruct (domain_ranges_outer v r Hr) as [Hmin Hext].
    unfold in_range. rewrite (Houter _ Hmin), (Houter _ Hext).
    destruct (decide (v ∈ variables domain)) as [Hin|Hn].
    - apply list_elem_of_lookup in Hin as [i Hi].
      destruct (Hval i v Hi) as [_ ->].
      eapply (range_conditions_hold σ' _ v r);
        [done|apply Hrc|done|by apply old_to_new_map_lookup].
    - rewrite Houter.
      + apply Hw'. rewrite new_ranges_lookup, outer_ranges_lookup.
        rewrite new_to_old_map_below by (by eapply domain_ranges_below).
        by rewrite decide_False.
      + apply scoped_VarNode. split; [by eapply domain_ranges_below|done]. }
  assert (forall c, (c < vars_size)%nat -> yv σ st c = s c) as Hy.
  { apply st_inverse. intros i Hi. unfold xv.
    destruct (lookup_lt_is_Some_2 (variables domain) i Hi) as [v Hv]. rewrite Hv.
    by destruct (Hval i v Hv). }
  assert (forall j, (j < rows)%nat ->
            beval σ (existence_condition vars_size (d_matrix st) rhs' (ranges domain) j)
            = true) as Hexist.
  { intros j Hj.
    set (c := existence_condition vars_size (d_matrix st) rhs' (ranges domain) j).
    unfold beval. rewrite Houter by (by apply existence_condition_scoped).
    fold (beval σ' c).
    destruct (is_const_int c 1) eqn:E1; [by apply is_const_int_1_beval|].
    apply Hrc, elem_of_range_conditions. left. simpl.
    apply list_elem_of_filter. split; [by rewrite E1|].
    apply (list_elem_of_fmap_2' _ _ j); [|done]. apply elem_of_seq. lia. }
  split; [split; [done|]|].
  - apply (st_system σ Hw). split.
    + apply system_diagonal. intros r Hr. specialize (Hexist r Hr).
      rewrite existence_condition_sound in Hexist by done.
      destruct (decide (r < vars_size)%nat) as [Hrn|Hrn].
      * destruct (d r =? 0) eqn:Ed.
        -- rewrite orb_true_r in Hexist. apply Z.eqb_eq in Ed, Hexist. rewrite Ed. lia.
        -- assert (is_free r = false) as Hf.
           { unfold is_free. rewrite Ed. rewrite orb_false_r. apply Nat.leb_gt. done. }
           replace (vars_size <=? r)%nat with false in Hexist
             by (symmetry; apply Nat.leb_gt; lia).
           simpl in Hexist. apply Z.eqb_eq in Hexist. apply Z.eqb_neq in Ed.
           rewrite Hy by done. unfold s.
           rewrite <- Houter by (by apply sol_solved_scoped).
           rewrite eval_sol_solved by done.
           destruct (0 <=? d r) eqn:Es.
           ++ apply Z.leb_le in Es. rewrite Z.abs_eq in Hexist by done.
              symmetry. apply Z.div_exact; lia.
           ++ apply Z.leb_gt in Es. rewrite Z.abs_neq in Hexist by lia.
              assert ((- rv σ st r) mod (- d r) = 0) as Hm.
              { rewrite Z.mod_opp_l_z; lia. }
              apply Z.div_exact in Hm; lia.
      * replace (vars_size <=? r)%nat with true in Hexist
          by (symmetry; apply Nat.leb_le; lia).
        simpl in Hexist. apply Z.eqb_eq in Hexist. lia.
    + rewrite Forall_forall. intros c Hcin. rewrite Forall_forall in Hrest.
      specialize (Hrest (Substitute c old_to_new_map)).
      unfold beval in *. rewrite eval_Substitute in Hrest by apply (old_to_new_map_typed σ').
      apply Hrest. by apply (list_elem_of_fmap_2' _ _ c).
  - intros v e Hve. apply new_to_old_map_lookup in Hve as (j & Hj & Hf & -> & ->).
    rewrite eval_to_old, Hy by done. unfold s, sol. by rewrite Hf.
Qed.


(** From a model of the domain to a model of the new domain: the conditions
    of existence hold, so the result is not the empty transformation. *)
Lemma finish_old_to_new σ :
  satisfies σ domain ->
  let σ' := subst_env σ new_to_old_map in
  exists conds,
    existence_conditions vars_size (d_matrix st) rhs' (ranges domain) (seq 0 rows) []
    = Some conds /\
    within σ' new_ranges /\
    Forall (fun c => beval σ' c = true)
      (range_conditions sorted_domain_ranges old_to_new_map new_ranges conds
       ++ map (fun c => Substitute c old_to_new_map) rest_) /\
    forall v e, old_to_new_map !! v = Some e -> eval σ' e = eval σ (VarNode v).
Proof.
  intros [Hw Hc] σ'.
  apply (st_system σ Hw) in Hc as [Hsys Hrest].
  rewrite system_diagonal in Hsys.
  assert (forall e, scoped below e -> eval σ' e = eval σ e) as Hbelow.
  { intros e He. by apply eval_subst_env_scoped, below_new_to_old_map. }
  assert (forall j, (j < rows)%nat ->
            beval σ (existence_condition vars_size (d_matrix st) rhs' (ranges domain) j)
            = true) as Hexist.
  { intros j Hj. rewrite existence_condition_sound by done.
    specialize (Hsys j Hj).
    destruct (decide (j < vars_size)%nat) as [Hjn|Hjn].
    - replace (vars_size <=? j)%nat with false by (symmetry; apply Nat.leb_gt; lia).
      simpl. destruct (d j =? 0) eqn:Ed.
      + apply Z.eqb_eq in Ed. apply Z.eqb_eq. rewrite Ed in Hsys. lia.
      + apply Z.eqb_neq in Ed. apply Z.eqb_eq. rewrite <- Hsys.
        apply Z.mod_divide; [lia|]. apply Z.divide_abs_l. by apply Z.divide_factor_l.
    - replace (vars_size <=? j)%nat with true by (symmetry; apply Nat.leb_le; lia).
      simpl. apply Z.eqb_eq. lia. }
  assert (forall j, (j < vars_size)%nat -> eval σ' (sol j) = yv σ st j) as Hs.
  { intros j Hj. destruct (is_free j) eqn:Hf.
    - unfold sol. rewrite Hf.
      destruct (n2o_Pn2o j Hj) as [Ht _].
      rewrite eval_VarNode_int by done.
      unfold σ', subst_env. simpl.
      assert (new_to_old_map !! new_var j = Some (to_old j)) as ->.
      { apply new_to_old_map_lookup. by exists j. }
      by apply eval_to_old.
    - rewrite Hbelow
        by (apply (scoped_weaken outer below _ outer_below), sol_solved_scoped; done).
      rewrite eval_sol_solved by done.
      destruct (is_free_false j Hj Hf) as [Hr Hd].
      specialize (Hsys j Hr). rewrite decide_True in Hsys by done. rewrite <- Hsys.
      destruct (0 <=? d j) eqn:Es.
      + rewrite Z.mul_comm. by apply Z.div_mul.
      + replace (- (d j * yv σ st j)) with (yv σ st j * - d j) by ring.
        apply Z.div_mul. lia. }
  assert (forall i v, variables domain !! i = Some v ->
            eval σ' (old_to_new_expr vars_size (d_old_to_new st) solution i v)
            = eval σ (VarNode v)) as Hround.
  { intros i v Hi.
    destruct (eval_old_to_new_expr σ' solution i v (variables_lookup_int i v Hi)) as [-> _].
    assert (i < vars_size)%nat as Hlt by (by eapply lookup_lt_Some).
    pose proof (st_old σ i Hlt) as Hx. unfold xv in Hx. rewrite Hi in Hx.
    rewrite Hx. unfold old_value. apply zsum_ext. intros j Hj.
    by rewrite nth_solution, Hs. }
  assert (within σ' new_ranges) as Hw'.
  { intros v r. rewrite new_ranges_lookup, outer_ranges_lookup.
    assert (ranges domain !! v = Some r -> in_range σ' v r) as Hold.
    { intros Hr. destruct (domain_ranges_scoped_below v r Hr) as [Hmin Hext].
      unfold in_range. rewrite (Hbelow _ Hmin), (Hbelow _ Hext).
      rewrite Hbelow; [by apply Hw|].
      apply scoped_VarNode. by eapply domain_ranges_below. }
    destruct (new_to_old_map !! v) as [e|] eqn:He.
    - pose proof He as He'.
      apply new_to_old_map_lookup in He' as (j & Hj & Hf & -> & ->).
      destruct (EvalSet_cover_range (ranges domain) (to_old j)) as [r'|] eqn:Er.
      + intros [= <-]. destruct (evalset_ok _ _ _ Er) as (Hcov & Hsc & _).
        destruct (to_old_Pn2o j Hj) as [_ Hto].
        destruct (Hsc below domain_ranges_scoped_below Hto) as [Hmin Hext].
        unfold in_range. rewrite (Hbelow _ Hmin), (Hbelow _ Hext).
        specialize (Hs j Hj). unfold sol in Hs. rewrite Hf in Hs. rewrite Hs.
        rewrite <- eval_to_old by done. by apply Hcov.
      + destruct (decide _); [done|apply Hold].
    - destruct (decide _); [done|apply Hold]. }
  assert (forall j, (j < rows)%nat ->
            beval σ' (existence_condition vars_size (d_matrix st) rhs' (ranges domain) j)
            = true) as Hexist'.
  { intros j Hj. unfold beval. rewrite Hbelow; [by apply Hexist|].
    by apply (scoped_weaken outer below _ outer_below), existence_condition_scoped. }
  rewrite existence_conditions_spec.
  destruct (existsb _ _) eqn:Hz.
  { apply existsb_exists in Hz as (j & Hj & Hz). apply in_seq in Hj.
    apply (is_const_int_0_beval σ) in Hz. rewrite Hexist in Hz by lia. done. }
  eexists. split; [done|]. split; [done|]. split.
  - apply Forall_app. split.
    + rewrite Forall_forall. apply range_conditions_true; [done| |].
      * intros v r e Hr He. apply old_to_new_map_Some in He as (i & Hi & ->).
        destruct (domain_ranges_scoped_below v r Hr) as [Hmin Hext].
        rewrite (Hbelow _ Hmin), (Hbelow _ Hext), (Hround i v Hi). by apply Hw.
      * intros c Hcin. simpl in Hcin.
        apply list_elem_of_filter in Hcin as [_ Hcin].
        apply list_elem_of_fmap_1 in Hcin as (j & -> & Hj).
        apply elem_of_seq in Hj. apply Hexist'. lia.
    + rewrite Forall_forall. intros c' Hcin.
      apply list_elem_of_fmap_1 in Hcin as (c & -> & Hcin).
      rewrite Forall_forall in Hrest, rest_below.
      unfold beval. rewrite eval_Substitute by apply (old_to_new_map_typed σ).
      rewrite (eval_scoped_ext _ σ); [by apply Hrest| |done].
      intros v Hv. apply (rest_below c Hcin) in Hv. simpl.
      destruct (old_to_new_map !! v) as [e|] eqn:He.
      * apply old_to_new_map_Some in He as (i & Hi & ->).
        rewrite (Hround i v Hi). apply eval_VarNode_int. by eapply variables_lookup_int.
      * by rewrite new_to_old_map_below.
  - intros v e He. apply old_to_new_map_Some in He as (i & Hi & ->). by apply Hround.
Qed.

End Finish.


(** The solver as a whole: it returns a transformation whose two maps carry
    the models of each domain to models of the other, and each map undoes
    the other on the models. *)
Lemma SolveSystemOfEquations_models :
  exists fuel t,
    (forall fuel', (fuel <= fuel')%nat ->
       SolveSystemOfEquations fuel' domain next_id = Some t) /\
    old_domain t = domain /\
    (forall σ', satisfies σ' (new_domain t) ->
       let σ := subst_env σ' (old_to_new t) in
       satisfies σ domain /\
       forall v e, new_to_old t !! v = Some e -> eval σ e = eval σ' (VarNode v)) /\
    (forall σ, satisfies σ domain ->
       let σ' := subst_env σ (new_to_old t) in
       satisfies σ' (new_domain t) /\
       forall v e, old_to_new t !! v = Some e -> eval σ' e = eval σ (VarNode v)).
Proof.
  destruct diagonalized as (fuel & st & Hrun & Hshape & Hdiag & Hsys & Hold & Hinv).
  destruct (equation_rows_sound (conditions domain) conditions_typed conditions_below)
    as (_ & _ & Hrest & _).
  exists fuel,
    (SolveSystemOfEquations_finish domain (equation_rows (conditions domain) domain).2
       st next_id).
  split.
  { intros fuel' Hf. rewrite SolveSystemOfEquations_unfold.
    fold vars_size. fold initial_state. by rewrite (Hrun fuel' Hf). }
  rewrite (SolveSystemOfEquations_finish_unfold st).
  destruct (existence_conditions _ _ _ _ _ _) as [conds|] eqn:Ec.
  - split; [done|]. split.
    + intros σ' [Hw' Hc]. simpl in *.
      by apply (finish_new_to_old st Hshape Hdiag Hsys Hinv conds).
    + intros σ Hsat. simpl.
      destruct (finish_old_to_new st Hshape Hdiag Hsys Hold Hrest σ Hsat)
        as (conds' & Ec' & Hw' & Hc' & Hround).
      rewrite Ec in Ec'. injection Ec' as <-. by split.
  - split; [done|]. split.
    + intros σ' [_ Hc]. simpl in Hc. apply Forall_cons in Hc as [Hc _].
      by rewrite beval_const_false in Hc.
    + intros σ Hsat.
      destruct (finish_old_to_new st Hshape Hdiag Hsys Hold Hrest σ Hsat)
        as (conds' & Ec' & _).
      by rewrite Ec in Ec'.
Qed.

End SolverSoundness.


(** *** VarMapToVectorOfPairs *)

(** The order of the pairs is strict; it compares any two pairs of
    different variables, which is what the merges of the sort compare. *)
Section SortedPairs.

Context {T : Type}.

Lemma var_pair_less_trans (a b c : Var * T) :
  var_pair_less a b -> var_pair_less b c -> var_pair_less a c.
Proof. destruct Compare_order as (_ & _ & Htr). apply Htr. Qed.

Lemma var_pair_less_asym (a b : Var * T) : var_pair_less a b -> ~ var_pair_less b a.
Proof.
  destruct Compare_order as (_ & Hanti & _). unfold var_pair_less.
  intros H1 H2. apply Hanti in H1. lia.
Qed.

Lemma var_pair_less_total (a b : Var * T) :
  a.1 <> b.1 -> ~ var_pair_less a b -> var_pair_less b a.
Proof.
  destruct Compare_order as (Heq & Hanti & _). unfold var_pair_less.
  intros Hne Hn. apply Hanti.
  destruct (Z.lt_total (Compare (VarNode a.1) (VarNode b.1)) 0) as [?|[H0|?]];
    [done| |done].
  apply Heq in H0. congruence.
Qed.

Lemma Sorted_list_merge_keys (l1 l2 : list (Var * T)) :
  NoDup ((l1 ++ l2).*1) ->
  Sorted var_pair_less l1 -> Sorted var_pair_less l2 ->
  Sorted var_pair_less (list_merge var_pair_less l1 l2).
Proof.
  intros Hnd Hl1. revert l2 Hnd.
  induction Hl1 as [|x1 l1 Hs1 IH1 Hh1]; intros l2 Hnd Hl2.
  { by rewrite list_merge_nil_l. }
  induction Hl2 as [|x2 l2 Hs2 IH2 Hh2].
  { rewrite list_merge_nil_r. by constructor. }
  rewrite list_merge_cons.
  assert (x1.1 <> x2.1) as Hne.
  { intros He. rewrite fmap_app, !fmap_cons in Hnd.
    apply NoDup_app in Hnd as (_ & Hd & _). apply (Hd x1.1); [by left|].
    rewrite He. by left. }
  destruct (decide (var_pair_less x1 x2)) as [Hlt|Hlt].
  - constructor.
    + apply IH1; [|by constructor]. simpl in Hnd. by apply NoDup_cons in Hnd as [_ ?].
    + apply HdRel_list_merge; [done|by constructor].
  - apply var_pair_less_total in Hlt; [|done].
    constructor.
    + apply IH2. revert Hnd. rewrite !fmap_app, !fmap_cons.
      rewrite <- Permutation_middle. by intros [_ ?]%NoDup_cons.
    + apply HdRel_list_merge; [by constructor|done].
Qed.

Lemma Sorted_merge_list_to_stack_keys (st : list (option (list (Var * T)))) l :
  merge_stack_Sorted var_pair_less st -> Sorted var_pair_less l ->
  NoDup ((l ++ merge_stack_flatten st).*1) ->
  merge_stack_Sorted var_pair_less (merge_list_to_stack var_pair_less st l).
Proof.
  intros Hst. revert l. induction Hst as [|st Hst IH|l' st Hl' Hst IH]; intros l Hl Hnd;
    simpl.
  - by repeat constructor.
  - by repeat constructor.
  - constructor. simpl in Hnd. apply IH.
    + apply Sorted_list_merge_keys; [|done..].
      revert Hnd. rewrite (assoc_L (++)), (fmap_app _ (l ++ l')).
      intros [Hnd _]%NoDup_app. revert Hnd. by rewrite !fmap_app, (comm (++)).
    + revert Hnd. by rewrite merge_Permutation, (assoc_L (++)), (comm (++) l).
Qed.

Lemma Sorted_merge_stack_keys (st : list (option (list (Var * T)))) :
  merge_stack_Sorted var_pair_less st -> NoDup ((merge_stack_flatten st).*1) ->
  Sorted var_pair_less (merge_stack var_pair_less st).
Proof.
  induction 1 as [|st Hst IH|l st Hl Hst IH]; intros Hnd; simpl in *.
  - constructor.
  - by apply IH.
  - apply Sorted_list_merge_keys; [by rewrite merge_stack_Permutation|done|].
    apply IH. revert Hnd. rewrite fmap_app. by intros (_ & _ & ?)%NoDup_app.
Qed.

Lemma Sorted_merge_sort_aux_keys l : forall st : list (option (list (Var * T))),
  merge_stack_Sorted var_pair_less st -> NoDup ((merge_stack_flatten st ++ l).*1) ->
  Sorted var_pair_less (merge_sort_aux var_pair_less st l).
Proof.
  induction l as [|x l IH]; intros st Hst Hnd; simpl.
  - apply Sorted_merge_stack_keys; [done|]. revert Hnd. by rewrite (right_id_L [] (++)).
  - apply IH.
    + apply Sorted_merge_list_to_stack_keys; [done|by repeat constructor|].
      assert (NoDup (x.1 :: (merge_stack_flatten st).*1 ++ l.*1)) as Hnd'.
      { revert Hnd. rewrite fmap_app, fmap_cons. by rewrite <- Permutation_middle. }
      rewrite fmap_app. simpl. rewrite app_comm_cons in Hnd'.
      by apply NoDup_app in Hnd' as [? _].
    + revert Hnd. rewrite merge_list_to_stack_Permutation. simpl.
      by rewrite <- Permutation_middle.
Qed.

(** X21. [VarMapToVectorOfPairs] returns the entries of the map, each one
    once, in the strictly increasing order of the deep comparison of their
    variables; it is the only arrangement of the entries in that order, so
    the result does not depend on the sorting algorithm. *)
Theorem VarMapToVectorOfPairs_spec (varmap : gmap Var T) :
  (forall v x, (v, x) ∈ VarMapToVectorOfPairs varmap <-> varmap !! v = Some x) /\
  NoDup (VarMapToVectorOfPairs varmap).*1 /\
  StronglySorted var_pair_less (VarMapToVectorOfPairs varmap) /\
  forall l, l ≡ₚ map_to_list varmap -> Sorted var_pair_less l ->
            l = VarMapToVectorOfPairs varmap.
Proof.
  unfold VarMapToVectorOfPairs.
  assert (Transitive (@var_pair_less T)) as Htr.
  { intros a b c. apply var_pair_less_trans. }
  assert (StronglySorted var_pair_less (merge_sort var_pair_less (map_to_list varmap)))
    as Hs.
  { apply Sorted_StronglySorted; [done|]. apply Sorted_merge_sort_aux_keys; [constructor|].
    simpl. apply NoDup_fst_map_to_list. }
  split_and!.
  - intros v x. rewrite merge_sort_Permutation. apply elem_of_map_to_list.
  - rewrite merge_sort_Permutation. apply NoDup_fst_map_to_list.
  - done.
  - intros l Hp Hl. apply StronglySorted_unique_strong with (R := var_pair_less).
    + intros a b _ _ H1 H2. by destruct (var_pair_less_asym a b).
    + by apply Sorted_StronglySorted.
    + done.
    + by rewrite merge_sort_Permutation.
Qed.

End SortedPairs.


(** *** The mutators keep the value of the expression *)

Section MutatorSoundness.

Hypothesis rewrite_simplify_typed : simplifier_typed rewrite_simplify.
Hypothesis canonical_simplify_typed : simplifier_typed canonical_simplify.

Lemma SuperSimplify_empty_typed e :
  is_bool (type_of (SuperSimplify e ∅)) = is_bool (type_of e).
Proof. by apply SuperSimplify_typed. Qed.

Lemma RemoveRedundantInequalitiesMutator_hold σ known :
  all_hold σ known -> all_hold σ (RemoveRedundantInequalitiesMutator known).
Proof.
  intros H. apply Forall_map. eapply Forall_impl; [exact H|].
  intros c Hc. unfold beval in *. by rewrite SuperSimplify_sound_empty.
Qed.

Lemma MutateAtomic_sound σ known_ e :
  is_bool (type_of e) = true ->
  is_bool (type_of (MutateAtomic_ known_ e)) = true /\
  (all_hold σ known_ -> eval σ (MutateAtomic_ known_ e) = eval σ e).
Proof.
  intros Hb. unfold MutateAtomic_.
  destruct (existsb _ _) eqn:Ex.
  - split; [done|]. intros Hk.
    apply existsb_exists in Ex as (other & Hin & Heq).
    apply bool_decide_eq_true in Heq.
    apply list_elem_of_In in Hin. unfold all_hold in Hk. rewrite Forall_forall in Hk.
    specialize (Hk other Hin). rewrite <- Heq in Hk.
    unfold beval in Hk. rewrite SuperSimplify_sound_empty in Hk.
    destruct (eval_bool_cases σ e Hb) as [H0|H1]; [by rewrite H0 in Hk|].
    by rewrite H1.
  - split; [by rewrite SuperSimplify_empty_typed|].
    intros _. apply SuperSimplify_sound_empty.
Qed.

Lemma RRI_known_extended σ known_ new_cond fo :
  all_hold σ known_ -> FactorOutAtomicFormulas new_cond = Some fo ->
  beval σ new_cond = true ->
  all_hold σ (RemoveRedundantInequalitiesMutator (known_ ++ atomic_formulas fo)).
Proof.
  intros Hk Hfo Hc. apply RemoveRedundantInequalitiesMutator_hold.
  apply Forall_app. split; [done|].
  rewrite <- (FactorOutAtomicFormulas_equiv _ _ σ Hfo) in Hc.
  by apply beval_FO_to_expr in Hc as [? _].
Qed.

Lemma RRI_Mutate_sound σ e : forall known_ e',
  wt e = true -> RRI_Mutate known_ e = Some e' ->
  is_bool (type_of e') = is_bool (type_of e) /\
  (all_hold σ known_ -> eval σ e' = eval σ e).
Proof.
  induction e as [v|t n|t n|s|t a IHa|op a b IHa IHb|a IHa|c t f IHc IHt IHf
                 |ty name args ct IHargs] using Expr_ind_strong;
    intros known_ e' Hwt H.
  - by injection H as <-.
  - by injection H as <-.
  - by injection H as <-.
  - by injection H as <-.
  - simpl in H, Hwt. destruct (RRI_Mutate known_ a) as [a'|] eqn:Ea; [|done].
    injection H as <-. destruct (IHa _ _ Hwt Ea) as [Ta Va].
    split; [done|]. intros Hk. simpl. by rewrite Va.
  - simpl in Hwt. apply andb_true_iff in Hwt as [Hwt Hty].
    apply andb_true_iff in Hwt as [Hwa Hwb].
    assert (is_comparison op = true ->
            is_bool (type_of e') = is_bool (type_of (Bin op a b)) /\
            (all_hold σ known_ -> eval σ e' = eval σ (Bin op a b))) as Hcmp.
    { intros Hop. assert (e' = MutateAtomic_ known_ (Bin op a b)) as ->.
      { destruct op; try done; simpl in H; by injection H. }
      assert (is_bool (type_of (Bin op a b)) = true) as Hb by (simpl; by rewrite Hop).
      destruct (MutateAtomic_sound σ known_ (Bin op a b) Hb) as [-> Hv].
      by rewrite Hb. }
    destruct (is_comparison op) eqn:Hop; [by apply Hcmp|].
    assert (RRI_Mutate known_ (Bin op a b)
            = (a' ← RRI_Mutate known_ a; b' ← RRI_Mutate known_ b; Some (Bin op a' b')))
      as Hun by (by destruct op).
    rewrite Hun in H. clear Hun.
    destruct (RRI_Mutate known_ a) as [a'|] eqn:Ea; [|done].
    destruct (RRI_Mutate known_ b) as [b'|] eqn:Eb; [|done].
    simpl in H. injection H as <-.
    destruct (IHa _ _ Hwa Ea) as [Ta Va]. destruct (IHb _ _ Hwb Eb) as [Tb Vb].
    assert (is_bool (type_of (Bin op a' b')) = is_bool (type_of (Bin op a b))) as Hty'.
    { simpl. rewrite Hop. simpl. by destruct (is_logical op). }
    split; [done|]. intros Hk. cbn [eval].
    rewrite (canon_ext _ _ _ Hty'). by rewrite Va, Vb.
  - simpl in H, Hwt. apply andb_true_iff in Hwt as [Hwt _].
    destruct (RRI_Mutate known_ a) as [a'|] eqn:Ea; [|done].
    injection H as <-. destruct (IHa _ _ Hwt Ea) as [Ta Va].
    split; [done|]. intros Hk. simpl. by rewrite Va.
  - simpl in Hwt. apply andb_true_iff in Hwt as [Hwt Htf].
    apply bool_decide_eq_true in Htf.
    apply andb_true_iff in Hwt as [Hwt _].
    apply andb_true_iff in Hwt as [Hwt Hwf].
    apply andb_true_iff in Hwt as [Hwc Hwt].
    cbn [RRI_Mutate] in H.
    destruct (RRI_Mutate known_ c) as [c'|] eqn:Ec; [|done]. cbn [mbind option_bind] in H.
    destruct (IHc _ _ Hwc Ec) as [Tc Vc].
    set (new_cond := SuperSimplify c' ∅) in *.
    assert (all_hold σ known_ -> eval σ new_cond = eval σ c) as Vn.
    { intros Hk. unfold new_cond. by rewrite SuperSimplify_sound_empty, Vc. }
    destruct (is_one new_cond && negb (HasSideEffect (Select c t f))) eqn:H1.
    { apply andb_true_iff in H1 as [H1 _].
      destruct (IHt _ _ Hwt H) as [Tt Vt]. split; [done|].
      intros Hk. rewrite (Vt Hk). cbn [eval]. rewrite <- (Vn Hk).
      pose proof (is_one_beval σ _ H1) as Hb. unfold beval in Hb.
      destruct (eval σ new_cond =? 0); [done|]. by rewrite eval_canon. }
    destruct (is_zero new_cond && negb (HasSideEffect (Select c t f))) eqn:H0.
    { apply andb_true_iff in H0 as [H0 _].
      destruct (IHf _ _ Hwf H) as [Tf Vf]. split; [cbn [type_of]; by rewrite Tf, Htf|].
      intros Hk. rewrite (Vf Hk). cbn [eval]. rewrite <- (Vn Hk).
      pose proof (is_zero_beval σ _ H0) as Hb. unfold beval in Hb.
      destruct (eval σ new_cond =? 0); [|done]. by rewrite Htf, eval_canon. }
    destruct (FactorOutAtomicFormulas new_cond) as [fo|] eqn:Efo; [|done].
    cbn [mbind option_bind] in H.
    destruct (RRI_Mutate _ t) as [t'|] eqn:Et; [|done]. cbn [mbind option_bind] in H.
    destruct (RRI_Mutate known_ f) as [f'|] eqn:Ef; [|done]. cbn [mbind option_bind] in H.
    injection H as <-.
    destruct (IHt _ _ Hwt Et) as [Tt Vt]. destruct (IHf _ _ Hwf Ef) as [Tf Vf].
    split; [done|]. intros Hk. cbn [eval].
    rewrite (canon_ext _ _ _ Tt), (Vn Hk), (Vf Hk).
    destruct (eval σ c =? 0) eqn:E0; [done|].
    rewrite Vt; [done|]. apply (RRI_known_extended σ known_ new_cond fo); try done.
    unfold beval. by rewrite (Vn Hk), E0.
  - cbn [wt] in Hwt. apply andb_true_iff in Hwt as [Hwargs Hite].
    assert (forall args', mapM (RRI_Mutate known_) args = Some args' ->
              all_hold σ known_ -> map (eval σ) args' = map (eval σ) args) as Hmap.
    { intros args' Hm Hk. apply mapM_Some in Hm.
      clear Hite H. induction Hm as [|a a' args args' Ha _ IH]; [done|].
      simpl in Hwargs. apply andb_true_iff in Hwargs as [Hwa Hwargs].
      apply Forall_cons in IHargs as [IHa IHargs].
      destruct (IHa _ _ Hwa Ha) as [_ Va]. simpl. f_equal; [by apply Va|by apply IH]. }
    assert ((args' ← mapM (RRI_Mutate known_) args; Some (Call ty name args' ct)) = Some e' ->
            is_bool (type_of e') = is_bool (type_of (Call ty name args ct)) /\
            (all_hold σ known_ -> eval σ e' = eval σ (Call ty name args ct))) as Hdefault.
    { intros Hd. destruct (mapM (RRI_Mutate known_) args) as [args'|] eqn:Em; [|done].
      injection Hd as <-. split; [done|]. intros Hk. cbn [eval].
      by rewrite (Hmap args' eq_refl Hk). }
    cbn [RRI_Mutate] in H.
    destruct (String.eqb name tvm_if_then_else) eqn:Hname; [|by apply Hdefault].
    destruct args as [|a0 [|a1 [|a2 [|a3 args]]]]; try (by apply Hdefault).
    apply andb_true_iff in Hite as [Hite Hy]. apply andb_true_iff in Hite as [_ Hx].
    apply bool_decide_eq_true in Hx, Hy.
    simpl in Hwargs. apply andb_true_iff in Hwargs as [Hw0 Hwargs].
    apply andb_true_iff in Hwargs as [Hw1 Hwargs].
    apply andb_true_iff in Hwargs as [Hw2 _].
    apply Forall_cons in IHargs as [IH0 IHargs].
    apply Forall_cons in IHargs as [IH1 IHargs].
    apply Forall_cons in IHargs as [IH2 _].
    destruct (RRI_Mutate known_ a0) as [c'|] eqn:Ec; [|done]. cbn [mbind option_bind] in H.
    destruct (IH0 _ _ Hw0 Ec) as [Tc Vc].
    set (new_cond := SuperSimplify c' ∅) in *.
    assert (all_hold σ known_ -> eval σ new_cond = eval σ a0) as Vn.
    { intros Hk. unfold new_cond. by rewrite SuperSimplify_sound_empty, Vc. }
    assert (forall x y, eval σ (Call ty name [a0; x; y] ct)
                        = canon ty (if eval σ a0 =? 0 then eval σ y else eval σ x)) as Hev.
    { intros x0 y0. cbn [eval map call_value]. by rewrite Hname. }
    rewrite Hev.
    destruct (is_one new_cond) eqn:H1.
    { destruct (IH1 _ _ Hw1 H) as [Tt Vt]. split; [by rewrite Tt, Hx|].
      intros Hk. rewrite (Vt Hk), <- (Vn Hk).
      pose proof (is_one_beval σ _ H1) as Hb. unfold beval in Hb.
      destruct (eval σ new_cond =? 0); [done|]. by rewrite <- Hx, eval_canon. }
    destruct (is_zero new_cond) eqn:H0.
    { destruct (IH2 _ _ Hw2 H) as [Tf Vf]. split; [by rewrite Tf, Hy|].
      intros Hk. rewrite (Vf Hk), <- (Vn Hk).
      pose proof (is_zero_beval σ _ H0) as Hb. unfold beval in Hb.
      destruct (eval σ new_cond =? 0); [|done]. by rewrite <- Hy, eval_canon. }
    destruct (FactorOutAtomicFormulas new_cond) as [fo|] eqn:Efo; [|done].
    cbn [mbind option_bind] in H.
    destruct (RRI_Mutate _ a1) as [t'|] eqn:Et; [|done]. cbn [mbind option_bind] in H.
    destruct (RRI_Mutate known_ a2) as [f'|] eqn:Ef; [|done]. cbn [mbind option_bind] in H.
    injection H as <-.
    destruct (IH1 _ _ Hw1 Et) as [Tt Vt]. destruct (IH2 _ _ Hw2 Ef) as [Tf Vf].
    split; [cbn [if_then_else type_of]; by rewrite Tt, Hx|].
    intros Hk. unfold if_then_else. cbn [eval map call_value String.eqb].
    assert (String.eqb tvm_if_then_else tvm_if_then_else = true) as -> by done.
    rewrite (canon_ext (type_of t') ty) by (by rewrite Tt, Hx).
    rewrite (Vn Hk), (Vf Hk).
    destruct (eval σ a0 =? 0) eqn:E0; [done|].
    rewrite Vt; [done|]. apply (RRI_known_extended σ known_ new_cond fo); try done.
    unfold beval. by rewrite (Vn Hk), E0.
Qed.

(** X6. [RemoveRedundantInequalities] keeps the value of a well-typed
    expression at every assignment that makes the known conditions true,
    and keeps it Boolean or not; the [Select] and [tvm_if_then_else] nodes
    that it collapses, and the comparisons that it replaces by the constant
    true, included. *)
Theorem RemoveRedundantInequalities_sound (expr : Expr) (known : list Expr) (e' : Expr)
    (σ : Env) :
  wt expr = true ->
  RemoveRedundantInequalities expr known = Some e' ->
  all_hold σ known ->
  eval σ e' = eval σ expr /\ is_bool (type_of e') = is_bool (type_of expr).
Proof.
  intros Hwt H Hk. unfold RemoveRedundantInequalities in H.
  destruct (RRI_Mutate_sound σ expr _ _ Hwt H) as [Ht Hv].
  split; [|done]. by apply Hv, RemoveRedundantInequalitiesMutator_hold.
Qed.

End MutatorSoundness.


(** *** Combiners of reductions *)

(** [CommReducer]: the combiner of a reduction, [result] in terms of the
    variables [lhs] and [rhs], with its identity elements. *)
Record CommReducer : Type := mkCommReducer {
  cr_lhs : list Var;
  cr_rhs : list Var;
  cr_result : list Expr;
  cr_identity_element : list Expr
}.

(** [IsSumCombiner]; [None] is an access out of the bounds of an array of
    the combiner. *)
Definition IsSumCombiner (combiner : CommReducer) (vranges : gmap Var Range)
  : option bool :=
  if negb (length (cr_result combiner) =? 1)%nat then Some false
  else
    id0 ← cr_identity_element combiner !! 0%nat;
    if negb (is_const_value (SuperSimplify id0 vranges) 0) then Some false
    else
      result0 ← cr_result combiner !! 0%nat;
      let combiner_result := SuperSimplify result0 vranges in
      lhs0 ← cr_lhs combiner !! 0%nat;
      rhs0 ← cr_rhs combiner !! 0%nat;
      Some (Equal combiner_result (VarNode lhs0 + VarNode rhs0)%E
            || Equal combiner_result (VarNode rhs0 + VarNode lhs0)%E).

(** [CanFactorZeroFromCombiner] *)
Definition CanFactorZeroFromCombiner (combiner : CommReducer) (value_index : nat)
    (vranges : gmap Var Range) : option bool :=
  id ← cr_identity_element combiner !! value_index;
  if negb (is_const_value (SuperSimplify id vranges) 0) then Some false
  else
    result ← cr_result combiner !! value_index;
    let zero := make_zero (type_of result) in
    lhs ← cr_lhs combiner !! value_index;
    rhs ← cr_rhs combiner !! value_index;
    let in_ := Substitute result (<[rhs := zero]> (<[lhs := zero]> ∅)) in
    let in_ := SuperSimplify in_ vranges in
    Some (is_const_value in_ 0).

(** X9. When [IsSumCombiner] answers yes, the combiner has one result, its
    identity element is zero and the result is the sum of the two
    arguments, at every assignment within the ranges. *)
Theorem IsSumCombiner_sound (combiner : CommReducer) (vranges : gmap Var Range) (σ : Env) :
  ranges_typed vranges -> within σ vranges ->
  IsSumCombiner combiner vranges = Some true ->
  exists result0 id0 lhs0 rhs0,
    cr_result combiner = [result0] /\
    cr_identity_element combiner !! 0%nat = Some id0 /\
    cr_lhs combiner !! 0%nat = Some lhs0 /\ cr_rhs combiner !! 0%nat = Some rhs0 /\
    eval σ id0 = 0 /\
    (eval σ result0 = eval σ (VarNode lhs0 + VarNode rhs0)%E \/
     eval σ result0 = eval σ (VarNode rhs0 + VarNode lhs0)%E) /\
    (is_bool (vty lhs0) = false -> is_bool (vty rhs0) = false ->
     eval σ result0 = val σ lhs0 + val σ rhs0).
Proof.
  intros Ht Hw H. unfold IsSumCombiner in H.
  destruct (length (cr_result combiner) =? 1)%nat eqn:Hlen; [|done]. simpl in H.
  apply Nat.eqb_eq in Hlen.
  destruct (cr_identity_element combiner !! 0%nat) as [id0|] eqn:Eid; [|done]. simpl in H.
  destruct (is_const_value (SuperSimplify id0 vranges) 0) eqn:Hid; [|done]. simpl in H.
  destruct (cr_result combiner) as [|result0 [|]] eqn:Er; try done. simpl in H.
  destruct (cr_lhs combiner !! 0%nat) as [lhs0|] eqn:El; [|done]. simpl in H.
  destruct (cr_rhs combiner !! 0%nat) as [rhs0|] eqn:Err; [|done]. simpl in H.
  injection H as H.
  assert (eval σ result0 = eval σ (VarNode lhs0 + VarNode rhs0)%E \/
          eval σ result0 = eval σ (VarNode rhs0 + VarNode lhs0)%E) as Hsum.
  { rewrite <- (SuperSimplify_sound vranges result0) by done.
    apply orb_true_iff in H as [H|H]; apply bool_decide_eq_true in H; rewrite H; auto. }
  exists result0, id0, lhs0, rhs0. split_and!; try done.
  - rewrite <- (SuperSimplify_sound vranges) by done. by apply is_const_value_0_sound.
  - intros Hl Hr.
    destruct Hsum as [-> | ->]; rewrite eval_arith by done;
      rewrite !eval_VarNode_int by done; simpl; lia.
Qed.

(** X10. When [CanFactorZeroFromCombiner] answers yes for a combiner whose
    arguments have the kind of type of the result, the identity element is
    zero and the result is zero when both arguments are, at every
    assignment within the ranges. *)
Theorem CanFactorZeroFromCombiner_sound (combiner : CommReducer) (value_index : nat)
    (vranges : gmap Var Range) (σ : Env) :
  ranges_typed vranges -> within σ vranges ->
  CanFactorZeroFromCombiner combiner value_index vranges = Some true ->
  exists result id lhs rhs,
    cr_result combiner !! value_index = Some result /\
    cr_identity_element combiner !! value_index = Some id /\
    cr_lhs combiner !! value_index = Some lhs /\
    cr_rhs combiner !! value_index = Some rhs /\
    eval σ id = 0 /\
    (is_bool (vty lhs) = is_bool (type_of result) ->
     is_bool (vty rhs) = is_bool (type_of result) ->
     val σ lhs = 0 -> val σ rhs = 0 -> eval σ result = 0).
Proof.
  intros Ht Hw H. unfold CanFactorZeroFromCombiner in H.
  destruct (cr_identity_element combiner !! value_index) as [id|] eqn:Eid; [|done].
  simpl in H.
  destruct (is_const_value (SuperSimplify id vranges) 0) eqn:Hid; [|done]. simpl in H.
  destruct (cr_result combiner !! value_index) as [result|] eqn:Er; [|done]. simpl in H.
  destruct (cr_lhs combiner !! value_index) as [lhs|] eqn:El; [|done]. simpl in H.
  destruct (cr_rhs combiner !! value_index) as [rhs|] eqn:Err; [|done]. simpl in H.
  injection H as H.
  exists result, id, lhs, rhs. split_and!; try done.
  - rewrite <- (SuperSimplify_sound vranges) by done. by apply is_const_value_0_sound.
  - intros Hlt Hrt Hl0 Hr0.
    apply (is_const_value_0_sound σ) in H.
    rewrite SuperSimplify_sound in H by done.
    set (zero := make_zero (type_of result)) in *.
    rewrite eval_Substitute in H.
    + rewrite <- H. symmetry. apply eval_ext; [|done]. intros v. simpl. f_equal.
      destruct (decide (v = rhs)) as [->|Hne].
      { rewrite lookup_insert_eq. unfold zero. by rewrite eval_make_zero. }
      rewrite lookup_insert_ne by done.
      destruct (decide (v = lhs)) as [->|Hne'].
      { rewrite lookup_insert_eq. unfold zero. by rewrite eval_make_zero. }
      by rewrite lookup_insert_ne, lookup_empty.
    + intros v r Hv.
      apply lookup_insert_Some in Hv as [[<- <-]|[_ Hv]].
      { unfold zero, make_zero. by rewrite type_of_make_const. }
      apply lookup_insert_Some in Hv as [[<- <-]|[_ Hv]]; [|done].
      unfold zero, make_zero. by rewrite type_of_make_const.
Qed.


(** *** The substitution of [EliminateDivMod] gives the expression back *)

Section DivModSoundness.

(** The addresses below [heap] are in use when the mutator starts; the
    variables that it creates are at [heap] and above. *)
Variable heap : N.

(** The ranges that the mutator is given. *)
Variable ranges0 : gmap Var Range.

(** The ranges given are those of old variables, with bounds over old
    variables. *)
Definition ranges_old : Prop :=
  ranges_scoped (below heap) ranges0 /\ forall v r, ranges0 !! v = Some r -> below heap v.

Definition is_floormod (e : Expr) : Prop :=
  match e with Bin FloorMod _ _ => True | _ => False end.

Definition div_op (mode : DivMode) : BinOp :=
  match mode with kTruncDiv => Div | kFloorDiv => FloorDiv end.
Definition mod_op (mode : DivMode) : BinOp :=
  match mode with kTruncDiv => Mod | kFloorDiv => FloorMod end.

(** The divisions and remainders of the expression are on integers, with
    both operands of one type. *)
Fixpoint int_divmod (e : Expr) : bool :=
  match e with
  | VarNode _ | IntImm _ _ | UIntImm _ _ | StringImm _ => true
  | Cast _ a | Not a => int_divmod a
  | Bin op a b =>
      match op with
      | Div | Mod | FloorDiv | FloorMod =>
          negb (is_bool (type_of a)) && bool_decide (type_of b = type_of a)
      | _ => true
      end && int_divmod a && int_divmod b
  | Select c t f => int_divmod c && int_divmod t && int_divmod f
  | Call _ _ args _ => forallb int_divmod args
  end.

(** The variables of a mutated expression: old ones, and new ones that the
    substitution defines. *)
Definition known_var (st : EliminateDivModMutator) (v : Var) : Prop :=
  below heap v \/ is_Some (m_substitution st !! v).

(** The invariant of the mutator: the substitution defines new variables by
    expressions over the old ones, of the type of the variable; every pair
    of the table holds the quotient and the remainder of its expression;
    the conditions hold where the new variables take the values of their
    definitions, unless a warning was given for a remainder of the floor
    division; under the contract of the interval evaluation these values
    are within the ranges. *)
Record edm_inv (st : EliminateDivModMutator) : Prop := {
  inv_heap : (heap <= next_id st)%N;
  inv_subst : forall v r, m_substitution st !! v = Some r ->
    (heap <= vid v < next_id st)%N /\ scoped (below heap) r /\ type_of r = vty v;
  inv_table : forall mode x c p, ((mode, x, c), p) ∈ expr_to_vars_ st ->
    is_Some (m_substitution st !! p.1) /\ is_Some (m_substitution st !! p.2) /\
    vty p.1 = type_of x /\ vty p.2 = type_of x /\ is_bool (type_of x) = false /\
    scoped (known_var st) x /\
    forall σ,
      let σ' := subst_env σ (m_substitution st) in
      val σ' p.1 = bin_sem (div_op mode) (eval σ' x) c /\
      val σ' p.2 = bin_sem (mod_op mode) (eval σ' x) c;
  inv_conditions : forall c, c ∈ m_conditions st ->
    scoped (known_var st) c /\
    ((forall σ, beval (subst_env σ (m_substitution st)) c = true) \/
     Exists is_floormod (warnings st));
  inv_ranges : evalset_sound EvalSet_cover_range -> ranges_old ->
    ranges_scoped (known_var st) (m_ranges st) /\
    (forall v r, m_ranges st !! v = Some r -> known_var st v) /\
    forall σ, within σ ranges0 -> within (subst_env σ (m_substitution st)) (m_ranges st)
}.

Lemma edm_inv_typed st : edm_inv st -> subst_typed (m_substitution st).
Proof. intros Hi v r Hv. destruct (inv_subst st Hi v r Hv) as (_ & _ & ->). done. Qed.

Lemma edm_inv_below st v :
  edm_inv st -> below heap v -> m_substitution st !! v = None.
Proof.
  intros Hi Hv. destruct (m_substitution st !! v) as [r|] eqn:E; [|done].
  destruct (inv_subst st Hi v r E) as ([? ?] & _). unfold below in Hv. lia.
Qed.

Lemma edm_inv_fresh st v :
  edm_inv st -> (next_id st <= vid v)%N -> m_substitution st !! v = None.
Proof.
  intros Hi Hv. destruct (m_substitution st !! v) as [r|] eqn:E; [|done].
  destruct (inv_subst st Hi v r E) as ([? ?] & _). lia.
Qed.

(** An old expression keeps its value when the new variables are defined. *)
Lemma eval_old st σ e :
  edm_inv st -> scoped (below heap) e ->
  eval (subst_env σ (m_substitution st)) e = eval σ e.
Proof.
  intros Hi He. apply eval_subst_env_scoped.
  apply (scoped_weaken (below heap)); [|done]. intros v. by apply edm_inv_below.
Qed.

(** A mutated expression keeps its value when the substitution grows. *)
Lemma eval_known st st' σ e :
  edm_inv st -> edm_inv st' -> m_substitution st ⊆ m_substitution st' ->
  scoped (known_var st) e ->
  eval (subst_env σ (m_substitution st')) e = eval (subst_env σ (m_substitution st)) e.
Proof.
  intros Hi Hi' Hsub He. apply eval_scoped_ext; [|done].
  intros v Hv. apply He in Hv as [Hv|[r Hv]]; simpl.
  - by rewrite !edm_inv_below.
  - rewrite Hv. by rewrite (lookup_weaken _ _ _ _ Hv Hsub).
Qed.

Lemma known_var_mono st st' v :
  m_substitution st ⊆ m_substitution st' -> known_var st v -> known_var st' v.
Proof.
  intros Hsub [Hv|[r Hv]]; [by left|]. right. exists r.
  by apply (lookup_weaken _ _ _ _ Hv Hsub).
Qed.

Lemma scoped_known_mono st st' e :
  m_substitution st ⊆ m_substitution st' ->
  scoped (known_var st) e -> scoped (known_var st') e.
Proof. intros Hsub. apply scoped_weaken. intros v. by apply known_var_mono. Qed.

Lemma scoped_old_known st e : scoped (below heap) e -> scoped (known_var st) e.
Proof. apply scoped_weaken. intros v Hv. by left. Qed.

Lemma type_of_Substitute_exact vmap e :
  (forall v r, vmap !! v = Some r -> type_of r = vty v) ->
  type_of (Substitute e vmap) = type_of e.
Proof.
  intros Ht. induction e using Expr_ind_strong; simpl; try done.
  - destruct (vmap !! v) eqn:E; [by apply Ht | done].
  - destruct (is_comparison op || is_logical op); [done|]. done.
Qed.

(** The substitution of a mutated expression is over the old variables. *)
Lemma scoped_Substitute_known st e :
  edm_inv st -> scoped (known_var st) e ->
  scoped (below heap) (Substitute e (m_substitution st)).
Proof.
  intros Hi.
  induction e as [v|t n|t n|s|t a IHa|op a b IHa IHb|a IHa|c t f IHc IHt IHf
                 |t name args ct IHargs] using Expr_ind_strong; intros He; simpl; try done.
  - destruct (m_substitution st !! v) as [r|] eqn:E.
    + by destruct (inv_subst st Hi v r E) as (_ & ? & _).
    + intros u Hu. destruct (He u Hu) as [?|[r Hr]]; [done|].
      simpl in Hu. apply bool_decide_eq_true, elem_of_singleton in Hu as ->. congruence.
  - apply IHa. intros u Hu. by apply He.
  - apply scoped_Bin_inv in He as [? ?]. apply scoped_Bin; auto.
  - apply IHa. intros u Hu. by apply He.
  - intros u Hu. simpl in Hu. apply orb_true_iff in Hu as [Hu|Hu];
      [apply orb_true_iff in Hu as [Hu|Hu]|].
    + apply IHc; [|done]. intros w Hw. apply He. simpl. by rewrite Hw.
    + apply IHt; [|done]. intros w Hw. apply He. simpl. by rewrite Hw, orb_true_r.
    + apply IHf; [|done]. intros w Hw. apply He. simpl. by rewrite Hw, !orb_true_r.
  - intros u Hu. simpl in Hu. apply existsb_exists in Hu as (a' & Hin & Hu).
    apply in_map_iff in Hin as (a & <- & Hin).
    rewrite Forall_forall in IHargs. apply (IHargs a); [by apply list_elem_of_In| |done].
    intros w Hw. apply He. simpl. apply existsb_exists. by exists a.
Qed.

(** Two keys that [Compare_] does not tell apart are the same key. *)
Lemma Compare__equiv (k1 k2 : DivMode * Expr * Z) :
  negb (Compare_ k1 k2) && negb (Compare_ k2 k1) = true -> k1 = k2.
Proof.
  destruct Compare_order as (Heq & Hanti & _).
  destruct k1 as [[m1 x1] v1], k2 as [[m2 x2] v2]. unfold Compare_. simpl.
  intros H. apply andb_true_iff in H as [H1 H2].
  apply negb_true_iff in H1, H2.
  destruct m1, m2; simpl in *; try done.
  - destruct (Z.ltb_spec v1 v2); [done|]. destruct (Z.ltb_spec v2 v1); [done|].
    assert (v1 = v2) as -> by lia. f_equal. f_equal.
    apply Z.ltb_ge in H1, H2. apply Heq.
    destruct (Z.lt_total (Compare x1 x2) 0) as [?|[?|Hgt]]; [lia|done|].
    apply Hanti in Hgt. lia.
  - destruct (Z.ltb_spec v1 v2); [done|]. destruct (Z.ltb_spec v2 v1); [done|].
    assert (v1 = v2) as -> by lia. f_equal. f_equal.
    apply Z.ltb_ge in H1, H2. apply Heq.
    destruct (Z.lt_total (Compare x1 x2) 0) as [?|[?|Hgt]]; [lia|done|].
    apply Hanti in Hgt. lia.
Qed.

Lemma expr_to_vars_find_Some m key p :
  expr_to_vars_find m key = Some p -> (key, p) ∈ m.
Proof.
  unfold expr_to_vars_find. intros H.
  destruct (List.find _ m) as [[k q]|] eqn:E; [|done]. injection H as <-.
  apply find_some in E as [Hin Hk]. simpl in Hk.
  apply Compare__equiv in Hk as <-. by apply list_elem_of_In.
Qed.

Lemma elem_of_expr_to_vars_set m key p k q :
  (k, q) ∈ expr_to_vars_set m key p -> (k, q) ∈ m \/ (k = key /\ q = p).
Proof.
  induction m as [|kv m IH]; simpl.
  - intros H. apply list_elem_of_singleton in H. injection H as -> ->. by right.
  - destruct (negb (Compare_ kv.1 key) && negb (Compare_ key kv.1)) eqn:E.
    + intros H. apply elem_of_cons in H as [H|H].
      * injection H as -> ->. right. split; [|done]. by apply Compare__equiv.
      * left. by apply list_elem_of_further.
    + intros H. apply elem_of_cons in H as [H|H].
      * left. rewrite H. apply list_elem_of_here.
      * destruct (IH H) as [?|?]; [left; by apply list_elem_of_further|by right].
Qed.


Lemma Substitute_agree (m1 m2 : gmap Var Expr) e :
  scoped (fun v => m1 !! v = m2 !! v) e -> Substitute e m1 = Substitute e m2.
Proof.
  induction e as [v|t n|t n|s|t a IHa|op a b IHa IHb|a IHa|c t f IHc IHt IHf
                 |t name args ct IHargs] using Expr_ind_strong; intros He; simpl; try done.
  - rewrite (He v); [done|]. simpl. apply bool_decide_eq_true. set_solver.
  - f_equal. apply IHa. intros u Hu. by apply He.
  - apply scoped_Bin_inv in He as [? ?]. f_equal; auto.
  - f_equal. apply IHa. intros u Hu. by apply He.
  - f_equal.
    + apply IHc. intros w Hw. apply He. simpl. by rewrite Hw.
    + apply IHt. intros w Hw. apply He. simpl. by rewrite Hw, orb_true_r.
    + apply IHf. intros w Hw. apply He. simpl. by rewrite Hw, !orb_true_r.
  - f_equal. apply map_ext_in. intros a Hin.
    rewrite Forall_forall in IHargs. apply IHargs; [by apply list_elem_of_In|].
    intros w Hw. apply He. simpl. apply existsb_exists. by exists a.
Qed.

Lemma eval_subst_env_mono σ (S S' : gmap Var Expr) e :
  S ⊆ S' -> scoped (fun v => is_Some (S !! v) \/ S' !! v = None) e ->
  eval (subst_env σ S') e = eval (subst_env σ S) e.
Proof.
  intros Hsub He. apply eval_scoped_ext; [|done].
  intros v Hv. apply He in Hv as [[r Hv]|Hv]; simpl.
  - by rewrite Hv, (lookup_weaken _ _ _ _ Hv Hsub).
  - rewrite Hv. destruct (S !! v) as [r|] eqn:E; [|done].
    by rewrite (lookup_weaken _ _ _ _ E Hsub) in Hv.
Qed.

Lemma eval_DivImpl σ a b mode :
  is_bool (type_of a) = false ->
  eval σ (DivImpl a b mode) = bin_sem (div_op mode) (eval σ a) (eval σ b).
Proof. intros Ha. destruct mode; simpl; by rewrite canon_not_bool. Qed.

Lemma eval_ModImpl σ a b mode :
  is_bool (type_of a) = false ->
  eval σ (ModImpl a b mode) = bin_sem (mod_op mode) (eval σ a) (eval σ b).
Proof. intros Ha. destruct mode; simpl; by rewrite canon_not_bool. Qed.

Lemma type_of_DivImpl a b mode : type_of (DivImpl a b mode) = type_of a.
Proof. by destruct mode. Qed.

Lemma type_of_ModImpl a b mode : type_of (ModImpl a b mode) = type_of a.
Proof. by destruct mode. Qed.

Lemma scoped_DivImpl S a b mode : scoped S a -> scoped S b -> scoped S (DivImpl a b mode).
Proof. intros. destruct mode; by apply scoped_Bin. Qed.

Lemma scoped_ModImpl S a b mode : scoped S a -> scoped S b -> scoped S (ModImpl a b mode).
Proof. intros. destruct mode; by apply scoped_Bin. Qed.

(** A state that differs in the counter and in the warnings only. *)
Lemma edm_inv_same st st' :
  edm_inv st -> m_substitution st' = m_substitution st ->
  expr_to_vars_ st' = expr_to_vars_ st -> next_id st' = next_id st ->
  m_conditions st' = m_conditions st -> m_ranges st' = m_ranges st ->
  (Exists is_floormod (warnings st) -> Exists is_floormod (warnings st')) ->
  edm_inv st'.
Proof.
  intros [H1 H2 H3 H4 H5] Hs Ht Hn Hc Hr Hw.
  assert (forall v, known_var st v <-> known_var st' v) as Hk
    by (intros v; unfold known_var; by rewrite Hs).
  split.
  - by rewrite Hn.
  - rewrite Hs, Hn. apply H2.
  - rewrite Ht, Hs. intros mode x c p Hin.
    destruct (H3 mode x c p Hin) as (? & ? & ? & ? & ? & Hsc & ?).
    split_and!; try done. intros v Hv. by apply Hk, Hsc.
  - rewrite Hc, Hs. intros c Hin. destruct (H4 c Hin) as [Hsc Hv].
    split; [intros v Hv'; by apply Hk, Hsc|]. destruct Hv as [?|?]; [by left|right; auto].
  - rewrite Hr, Hs. intros He Ho. destruct (H5 He Ho) as (Hrs & Hrk & Hw').
    split_and!; try done.
    + intros v r Hv. destruct (Hrs v r Hv) as [Hmin Hext].
      split; intros u Hu; apply Hk; auto.
    + intros v r Hv. by apply Hk, (Hrk v r).
Qed.

(** What a pair of variables for [e / c] and [e % c] has to satisfy. *)
Definition pair_for (st : EliminateDivModMutator) (e : Expr) (c : Z) (mode : DivMode)
    (p : Var * Var) : Prop :=
  is_Some (m_substitution st !! p.1) /\ is_Some (m_substitution st !! p.2) /\
  vty p.1 = type_of e /\ vty p.2 = type_of e /\
  forall σ, let σ' := subst_env σ (m_substitution st) in
    val σ' p.1 = bin_sem (div_op mode) (eval σ e) c /\
    val σ' p.2 = bin_sem (mod_op mode) (eval σ e) c.

Lemma AddNewVarPair_sound st e mut c mode :
  edm_inv st -> 0 < c -> is_bool (type_of e) = false ->
  scoped (below heap) e -> scoped (known_var st) mut -> type_of mut = type_of e ->
  (forall σ, eval (subst_env σ (m_substitution st)) mut = eval σ e) ->
  let r := AddNewVarPair st e mut c mode in
  edm_inv r.2 /\ m_substitution st ⊆ m_substitution r.2 /\
  match r.1 with Some p => pair_for r.2 e c mode p | None => True end.
Proof.
  intros Hi Hc Hnb He Hmut Hty Hval. unfold AddNewVarPair.
  destruct (if negb (Equal e mut) then expr_to_vars_find (expr_to_vars_ st) (mode, mut, c)
            else None) as [p|] eqn:Efind.
  { simpl. split; [done|]. split; [done|].
    destruct (negb (Equal e mut)); [|done].
    apply expr_to_vars_find_Some in Efind.
    destruct (inv_table st Hi mode mut c p Efind) as (H1 & H2 & H3 & H4 & _ & _ & H5).
    unfold pair_for. rewrite <- Hty. split_and!; try done.
    intros σ. simpl. rewrite <- Hval. apply H5. }
  clear Efind.
  set (ty := type_of e). set (val_e := make_const ty c).
  destruct (EvalSet_cover_range (m_ranges st) (DivImpl mut val_e mode))
    as [div_range|] eqn:Edr;
    [|simpl; split; [|done]; apply (edm_inv_same st); try done;
      simpl; intros; apply Exists_app; by left].
  destruct (EvalSet_cover_range (m_ranges st) (ModImpl mut val_e mode))
    as [mod_range|] eqn:Emr;
    [|simpl; split; [|done]; apply (edm_inv_same st); try done;
      simpl; intros; apply Exists_app; by left].
  set (S := m_substitution st). set (n := next_id st).
  set (dv := mkVar n ty). set (mv := mkVar (n + 1) ty).
  set (D := DivImpl (Substitute mut S) val_e mode).
  set (S1 := <[dv := D]> S).
  assert (S !! dv = None) as Hdv by (apply edm_inv_fresh; [done|simpl; lia]).
  assert (S !! mv = None) as Hmv by (apply edm_inv_fresh; [done|simpl; unfold n; lia]).
  assert (dv <> mv) as Hne by (intros [= H]; lia).
  assert (Substitute mut S1 = Substitute mut S) as HS1.
  { apply Substitute_agree. intros v Hv. unfold S1.
    apply lookup_insert_ne. intros <-.
    destruct (Hmut _ Hv) as [Hb|[r Hr]].
    - unfold below in Hb. simpl in Hb. pose proof (inv_heap st Hi). lia.
    - unfold S in Hdv. congruence. }
  rewrite HS1.
  set (M := ModImpl (Substitute mut S) val_e mode).
  set (S' := <[mv := M]> S1).
  assert (S ⊆ S') as Hsub.
  { unfold S', S1. etransitivity; [|apply insert_subseteq].
    - by apply insert_subseteq.
    - by rewrite lookup_insert_ne. }
  assert (type_of (Substitute mut S) = ty) as HtyS.
  { rewrite type_of_Substitute_exact; [done|].
    intros v r Hv. by destruct (inv_subst st Hi v r Hv) as (_ & _ & ?). }
  assert (scoped (below heap) (Substitute mut S)) as HscS
    by (by apply scoped_Substitute_known).
  assert (forall v, below heap v -> S' !! v = None) as Hbelow.
  { intros v Hv. pose proof (inv_heap st Hi). unfold below in Hv.
    unfold S', S1. rewrite !lookup_insert_ne.
    - by apply edm_inv_below.
    - intros <-. simpl in Hv. lia.
    - intros <-. simpl in Hv. unfold n in Hv. lia. }
  assert (forall σ, eval σ (Substitute mut S) = eval σ e) as HvalS.
  { intros σ. rewrite eval_Substitute by (by apply edm_inv_typed). apply Hval. }
  assert (forall σ, val (subst_env σ S') dv = bin_sem (div_op mode) (eval σ e) c /\
                    val (subst_env σ S') mv = bin_sem (mod_op mode) (eval σ e) c) as Hvals.
  { intros σ. simpl. unfold S', S1.
    rewrite lookup_insert_ne, !lookup_insert_eq by done.
    unfold D, M. rewrite eval_DivImpl, eval_ModImpl by (by rewrite HtyS).
    unfold val_e. rewrite eval_make_const, canon_not_bool, HvalS by done. done. }
  assert (forall x, scoped (known_var st) x ->
            forall σ, eval (subst_env σ S') x = eval (subst_env σ S) x) as Hmono.
  { intros x Hx σ. apply eval_subst_env_mono; [done|].
    intros v Hv. destruct (Hx v Hv) as [Hb|Hs]; [right; by apply Hbelow|by left]. }
  set (p := (dv, mv)).
  set (e2v := if negb (Equal e mut)
              then expr_to_vars_set (expr_to_vars_set (expr_to_vars_ st) (mode, e, c) p)
                     (mode, mut, c) p
              else expr_to_vars_set (expr_to_vars_ st) (mode, e, c) p).
  assert (forall k q, (k, q) ∈ e2v ->
            (k, q) ∈ expr_to_vars_ st \/
            (q = p /\ (k = (mode, e, c) \/ k = (mode, mut, c)))) as He2v.
  { intros k q. unfold e2v. destruct (negb (Equal e mut)); intros H.
    - apply elem_of_expr_to_vars_set in H as [H|[-> ->]]; [|by right; split; [|right]].
      apply elem_of_expr_to_vars_set in H as [H|[-> ->]]; [by left|by right; split; [|left]].
    - apply elem_of_expr_to_vars_set in H as [H|[-> ->]]; [by left|by right; split; [|left]]. }
  simpl. split; [|split; [done|]].
  - split; simpl.
    + pose proof (inv_heap st Hi). unfold n. lia.
    + fold ty val_e S n dv mv D S1 M S'. intros v r Hv. unfold S', S1 in Hv.
      apply lookup_insert_Some in Hv as [[<- <-]|[_ Hv]].
      { pose proof (inv_heap st Hi). simpl. split; [unfold n; lia|].
        split; [apply scoped_ModImpl; [done|apply scoped_make_const]|].
        unfold M. by rewrite type_of_ModImpl. }
      apply lookup_insert_Some in Hv as [[<- <-]|[_ Hv]].
      { pose proof (inv_heap st Hi). simpl. split; [unfold n; lia|].
        split; [apply scoped_DivImpl; [done|apply scoped_make_const]|].
        unfold D. by rewrite type_of_DivImpl. }
      destruct (inv_subst st Hi v r Hv) as ([? ?] & ? & ?). split_and!; try done. lia.
    + fold ty val_e S n dv mv D S1 M S' p e2v. intros mode' x c' q Hin.
      assert (scoped (known_var st) x ->
              scoped (fun v => below heap v \/ is_Some (S' !! v)) x) as Hkn.
      { apply scoped_weaken. intros v [Hv|[r Hv]]; [by left|right].
        exists r. by apply (lookup_weaken _ _ _ _ Hv Hsub). }
      apply He2v in Hin as [Hin|[-> Hk]].
      * destruct (inv_table st Hi mode' x c' q Hin)
          as ([r1 H1] & [r2 H2] & H3 & H4 & H5 & H6 & H7).
        split_and!; try done.
        -- exists r1. by apply (lookup_weaken _ _ _ _ H1 Hsub).
        -- exists r2. by apply (lookup_weaken _ _ _ _ H2 Hsub).
        -- by apply Hkn.
        -- intros σ. simpl. rewrite (Hmono x H6 σ).
           rewrite (lookup_weaken _ _ _ _ H1 Hsub), (lookup_weaken _ _ _ _ H2 Hsub).
           specialize (H7 σ). simpl in H7. unfold S in H1, H2 |- *.
           by rewrite H1, H2 in H7.
      * assert (is_Some (S' !! dv) /\ is_Some (S' !! mv)) as [Hd Hm].
        { unfold S', S1. rewrite lookup_insert_ne, !lookup_insert_eq by done.
          split; by eexists. }
        destruct Hk as [[= -> -> ->]|[= -> -> ->]].
        -- split_and!; try done; [by apply Hkn, scoped_old_known|].
           intros σ. simpl (val _ p.1). simpl (val _ p.2).
           replace (eval (subst_env σ S') e) with (eval σ e); [apply Hvals|].
           symmetry. apply eval_subst_env_scoped.
           apply (scoped_weaken (below heap)); [|done]. apply Hbelow.
        -- split_and!; try done; [by rewrite Hty|by apply Hkn|].
           intros σ. rewrite (Hmono mut Hmut σ), Hval. apply Hvals.
    + fold ty val_e S n dv mv D S1 M S'.
      set (cond1 := (mut == VarNode dv * val_e + VarNode mv)%E).
      set (sel := Select (e >= make_zero ty)%E (VarNode mv >= make_zero ty)%E
                         (VarNode mv <= make_zero ty)%E).
      assert (forall x, scoped (known_var st) x ->
                scoped (fun v => below heap v \/ is_Some (S' !! v)) x) as Hkn.
      { intros x. apply scoped_weaken. intros v [Hv|[r Hv]]; [by left|right].
        exists r. by apply (lookup_weaken _ _ _ _ Hv Hsub). }
      assert (is_Some (S' !! dv) /\ is_Some (S' !! mv)) as [Hd Hm].
      { unfold S', S1. rewrite lookup_insert_ne, !lookup_insert_eq by done.
        split; by eexists. }
      assert (forall σ, eval (subst_env σ S') (VarNode dv)
                        = bin_sem (div_op mode) (eval σ e) c /\
                        eval (subst_env σ S') (VarNode mv)
                        = bin_sem (mod_op mode) (eval σ e) c) as Hev.
      { intros σ. destruct (Hvals σ) as [H1 H2].
        cbn [eval vty dv mv]. by rewrite !canon_not_bool, H1, H2 by done. }
      assert (forall σ, eval (subst_env σ S') e = eval σ e) as Hold.
      { intros σ. apply eval_subst_env_scoped.
        apply (scoped_weaken (below heap)); [|done]. apply Hbelow. }
      assert (forall σ, eval (subst_env σ S') (make_zero ty) = 0) as Hz
        by (intros σ; apply eval_make_zero).
      assert (scoped (fun v => below heap v \/ is_Some (S' !! v)) cond1 /\
              forall σ, beval (subst_env σ S') cond1 = true) as [Hc1s Hc1v].
      { split.
        - unfold cond1. repeat apply scoped_Bin; try (by apply Hkn);
            try apply scoped_make_const; apply scoped_VarNode; by right.
        - intros σ. unfold cond1. rewrite beval_EQ. apply Z.eqb_eq.
          rewrite (eval_arith _ Add) by done.
          rewrite (eval_arith _ Mul) by done. cbn [bin_sem].
          destruct (Hev σ) as [-> ->].
          rewrite (Hmono mut Hmut σ), Hval.
          unfold val_e. rewrite eval_make_const, canon_not_bool by done.
          destruct mode; simpl.
          + pose proof (Z.quot_rem' (eval σ e) c). lia.
          + pose proof (Z_div_mod_eq_full (eval σ e) c). lia. }
      assert (scoped (fun v => below heap v \/ is_Some (S' !! v)) sel) as Hsels.
      { assert (forall op, scoped (fun v => below heap v \/ is_Some (S' !! v))
                             (Bin op (VarNode mv) (make_zero ty))) as Hmz.
        { intros op. apply scoped_Bin; [|apply scoped_make_const].
          apply scoped_VarNode. by right. }
        unfold sel. intros v Hv. cbn [ExprUseVar] in Hv.
        apply orb_true_iff in Hv as [Hv|Hv]; [apply orb_true_iff in Hv as [Hv|Hv]|].
        - apply orb_true_iff in Hv as [Hv|Hv].
          + by apply (Hkn e (scoped_old_known st e He)).
          + by apply (scoped_make_const (fun _ => False) ty 0) in Hv.
        - by apply (Hmz GE).
        - by apply (Hmz LE). }
      assert (mode = kTruncDiv -> forall σ, beval (subst_env σ S') sel = true) as Hselv.
      { intros -> σ. unfold sel. rewrite beval_Select.
        unfold beval. cbn [eval type_of is_comparison is_logical orb bin_sem].
        rewrite !(canon_b2z TBool), Hz, Hold. destruct (Hvals σ) as [_ H2].
        cbn [vty mv]. rewrite !(canon_not_bool ty), H2 by done. simpl.
        destruct (Z.leb_spec 0 (eval σ e)) as [Hx|Hx]; simpl.
        - pose proof (Z.rem_nonneg (eval σ e) c ltac:(lia) Hx).
          by destruct (Z.leb_spec 0 (Z.rem (eval σ e) c)); [|lia].
        - pose proof (Z.rem_nonpos (eval σ e) c ltac:(lia) ltac:(lia)).
          by destruct (Z.leb_spec (Z.rem (eval σ e) c) 0); [|lia]. }
      assert (forall c0, c0 ∈ m_conditions st ->
                scoped (fun v => below heap v \/ is_Some (S' !! v)) c0 /\
                ((forall σ, beval (subst_env σ S') c0 = true) \/
                 Exists is_floormod (warnings st))) as Hcs.
      { intros c0 Hin. destruct (inv_conditions st Hi c0 Hin) as [Hs0 Hv0].
        split; [by apply Hkn|]. destruct Hv0 as [Hv0|Hv0]; [left|by right].
        intros σ. unfold beval. rewrite (Hmono c0 Hs0 σ). apply Hv0. }
      destruct (negb (CanProve (range_extent mod_range <= val_e)%E ∅)).
      * intros c0 Hin. unfold known_var. simpl.
        apply elem_of_app in Hin as [Hin|Hin].
        -- apply elem_of_app in Hin as [Hin|Hin].
           ++ destruct (Hcs c0 Hin) as [? [?|?]]; split; auto.
              right. apply Exists_app. by left.
           ++ apply list_elem_of_singleton in Hin as ->. by split; [|left].
        -- apply list_elem_of_singleton in Hin as ->. split; [done|].
           destruct mode; [left; by apply Hselv|].
           right. apply Exists_app. right. by apply Exists_cons_hd.
      * intros c0 Hin. unfold known_var. simpl.
        apply elem_of_app in Hin as [Hin|Hin].
        -- destruct (Hcs c0 Hin) as [? [?|?]]; split; auto.
        -- apply list_elem_of_singleton in Hin as ->. by split; [|left].
    + fold ty val_e S n dv mv D S1 M S'. intros Hes Hro.
      destruct (inv_ranges st Hi Hes Hro) as (Hrs & Hrk & Hw).
      assert (forall v, known_var st v -> below heap v \/ is_Some (S' !! v)) as Hkv.
      { intros v [Hv|[r Hv]]; [by left|right].
        exists r. by apply (lookup_weaken _ _ _ _ Hv Hsub). }
      assert (is_Some (S' !! dv) /\ is_Some (S' !! mv)) as [Hd Hm].
      { unfold S', S1. rewrite lookup_insert_ne, !lookup_insert_eq by done.
        split; by eexists. }
      destruct (Hes _ _ _ Edr) as (Hcd & Hsd & _).
      destruct (Hes _ _ _ Emr) as (Hcm & Hsm & _).
      assert (scoped (known_var st) (DivImpl mut val_e mode)) as Hsdiv
        by (apply scoped_DivImpl; [done|apply scoped_make_const]).
      assert (scoped (known_var st) (ModImpl mut val_e mode)) as Hsmod
        by (apply scoped_ModImpl; [done|apply scoped_make_const]).
      destruct (Hsd (known_var st) Hrs Hsdiv) as [Hd1 Hd2].
      destruct (Hsm (known_var st) Hrs Hsmod) as [Hm1 Hm2].
      unfold known_var. simpl. split_and!.
      * intros v r Hv.
        apply lookup_insert_Some in Hv as [[<- <-]|[_ Hv]];
          [split; intros u Hu; apply Hkv; auto|].
        apply lookup_insert_Some in Hv as [[<- <-]|[_ Hv]];
          [split; intros u Hu; apply Hkv; auto|].
        destruct (Hrs v r Hv) as [H1 H2]. split; intros u Hu; apply Hkv; auto.
      * intros v r Hv.
        apply lookup_insert_Some in Hv as [[<- <-]|[_ Hv]]; [by right|].
        apply lookup_insert_Some in Hv as [[<- <-]|[_ Hv]]; [by right|].
        by apply Hkv, (Hrk v r).
      * intros σ Hσ. specialize (Hw σ Hσ). fold S in Hw. intros v r Hv.
        unfold in_range.
        apply lookup_insert_Some in Hv as [[<- <-]|[_ Hv]].
        { rewrite (Hmono _ Hm1 σ), (Hmono _ Hm2 σ).
          destruct (Hvals σ) as [_ H2]. cbn [eval vty mv].
          rewrite canon_not_bool, H2 by done.
          specialize (Hcm (subst_env σ S) Hw).
          rewrite eval_ModImpl in Hcm by (by rewrite Hty).
          unfold val_e in Hcm. rewrite eval_make_const, canon_not_bool, Hval in Hcm by done.
          done. }
        apply lookup_insert_Some in Hv as [[<- <-]|[_ Hv]].
        { rewrite (Hmono _ Hd1 σ), (Hmono _ Hd2 σ).
          destruct (Hvals σ) as [H1 _]. cbn [eval vty dv].
          rewrite canon_not_bool, H1 by done.
          specialize (Hcd (subst_env σ S) Hw).
          rewrite eval_DivImpl in Hcd by (by rewrite Hty).
          unfold val_e in Hcd. rewrite eval_make_const, canon_not_bool, Hval in Hcd by done.
          done. }
        destruct (Hrs v r Hv) as [H1 H2].
        rewrite (Hmono _ H1 σ), (Hmono _ H2 σ).
        rewrite (Hmono (VarNode v)); [by apply Hw|].
        apply scoped_VarNode. by apply (Hrk v r).
  - unfold pair_for. fold ty val_e S n dv mv D S1 M S'.
    assert (is_Some (S' !! dv) /\ is_Some (S' !! mv)) as [Hd Hm].
    { unfold S', S1. rewrite lookup_insert_ne, !lookup_insert_eq by done.
      split; by eexists. }
    split_and!; try done; intros σ; apply Hvals.
Qed.


(** What a call of the mutator on an old expression [e] from the state [st]
    has to return: a state that keeps the invariant and the definitions, and
    an expression of the type of [e] that has the value of [e] where the new
    variables take the values of their definitions. *)
Definition mutate_ok (st : EliminateDivModMutator) (e : Expr)
    (r : Expr * EliminateDivModMutator) : Prop :=
  edm_inv r.2 /\ m_substitution st ⊆ m_substitution r.2 /\
  type_of r.1 = type_of e /\ scoped (known_var r.2) r.1 /\
  forall σ, eval (subst_env σ (m_substitution r.2)) r.1 = eval σ e.

Lemma mutate_ok_leaf st e :
  edm_inv st -> scoped (below heap) e -> mutate_ok st e (e, st).
Proof.
  intros Hi He. split_and!; try done.
  - by apply scoped_old_known.
  - intros σ. by apply eval_old.
Qed.

Lemma mutate_ok_later st e r st2 :
  mutate_ok st e r -> edm_inv st2 -> m_substitution r.2 ⊆ m_substitution st2 ->
  scoped (known_var st2) r.1 /\
  forall σ, eval (subst_env σ (m_substitution st2)) r.1 = eval σ e.
Proof.
  intros (Hi & _ & _ & Hs & Hv) Hi2 Hsub. split.
  - by apply (scoped_known_mono r.2).
  - intros σ. by rewrite (eval_known r.2 st2).
Qed.

Lemma mutate_ok_same st e e' r :
  mutate_ok st e r -> type_of e = type_of e' -> (forall σ, eval σ e = eval σ e') ->
  mutate_ok st e' r.
Proof.
  intros (Hi & Hsub & Ht & Hs & Hv) Hty Hev. split_and!; try done.
  - by rewrite Ht.
  - intros σ. by rewrite Hv.
Qed.

Lemma mutate_ok_Bin st op a b ra rb :
  mutate_ok st a ra -> mutate_ok ra.2 b rb ->
  mutate_ok st (Bin op a b) (Bin op ra.1 rb.1, rb.2).
Proof.
  intros Ha Hb.
  destruct (mutate_ok_later _ _ _ rb.2 Ha) as [Hsa Hva]; [apply Hb..|].
  destruct Ha as (Hia & Hsuba & Hta & _ & _).
  destruct Hb as (Hib & Hsubb & Htb & Hsb & Hvb).
  split_and!; simpl; try done.
  - by etransitivity.
  - by rewrite Hta.
  - by apply scoped_Bin.
  - intros σ. by rewrite Hta, Hva, Hvb.
Qed.

(** The values of the cases for a negative constant. *)
Lemma negative_constant_values (a : Expr) (t : DType) (v : Z) σ :
  v < 0 -> is_bool (type_of a) = false -> t = type_of a ->
  let ty := type_of a in
  let pos := make_const ty (- v) in
  eval σ (make_zero ty - truncdiv a pos)%E = eval σ (Bin Div a (IntImm t v)) /\
  eval σ (truncmod a pos) = eval σ (Bin Mod a (IntImm t v)) /\
  eval σ (floordiv (make_zero ty - a)%E pos) = eval σ (Bin FloorDiv a (IntImm t v)) /\
  eval σ (make_zero ty - floormod (make_zero ty - a)%E pos)%E
  = eval σ (Bin FloorMod a (IntImm t v)).
Proof.
  intros Hv Hta -> ty pos.
  assert (eval σ pos = - v) as Hpos.
  { unfold pos. rewrite eval_make_const. by apply canon_not_bool. }
  assert (eval σ (IntImm (type_of a) v) = v) as Hneg.
  { simpl. by apply canon_not_bool. }
  destruct (divmod_neg_identities (eval σ a) (- v) ltac:(lia)) as (H1 & H2 & H3 & H4).
  rewrite Z.opp_involutive in H1, H2, H3, H4.
  split_and!.
  - rewrite eval_neg_sub by done. unfold truncdiv.
    rewrite !eval_arith, Hpos, Hneg by done. by rewrite H1.
  - unfold truncmod. rewrite !eval_arith, Hpos, Hneg by done. by rewrite H2.
  - unfold floordiv.
    rewrite (eval_arith σ FloorDiv (make_zero ty - a)%E) by
      (done || by rewrite type_of_neg_sub).
    rewrite (eval_arith σ FloorDiv a), Hpos, Hneg, eval_neg_sub by done. by rewrite H3.
  - rewrite eval_neg_sub by done. unfold floormod.
    rewrite (eval_arith σ FloorMod (make_zero ty - a)%E) by
      (done || by rewrite type_of_neg_sub).
    rewrite (eval_arith σ FloorMod a), Hpos, Hneg, eval_neg_sub by done. by rewrite H4.
Qed.

Lemma int_divmod_make_const t n : int_divmod (make_const t n) = true.
Proof. unfold make_const. by destruct (is_uint t). Qed.

(** The node replaced by a variable of a pair. *)
Lemma mutate_ok_pair st st' op a t v p :
  match op with Div | Mod | FloorDiv | FloorMod => True | _ => False end ->
  edm_inv st' -> m_substitution st ⊆ m_substitution st' ->
  is_bool (type_of a) = false -> t = type_of a ->
  pair_for st' a v (match op with Div | Mod => kTruncDiv | _ => kFloorDiv end) p ->
  mutate_ok st (Bin op a (IntImm t v))
    (VarNode (match op with Div | FloorDiv => p.1 | _ => p.2 end), st').
Proof.
  intros Hop Hi Hsub Hnb -> (H1 & H2 & H3 & H4 & H5).
  split_and!; simpl; try done.
  - by destruct op.
  - apply scoped_VarNode. right. by destruct op.
  - intros σ. destruct (H5 σ) as [Hd Hm]. simpl in Hd, Hm.
    rewrite (canon_not_bool (type_of a)) by done.
    destruct op; try done; simpl;
      rewrite ?H3, ?H4, !canon_not_bool by done; done.
Qed.


Definition mutate_sound (fuel : nat) : Prop :=
  forall st e r,
    EDM_Mutate fuel st e = Some r -> edm_inv st -> int_divmod e = true ->
    scoped (below heap) e -> mutate_ok st e r.

Lemma scoped_neg_sub (S : Var -> Prop) ty e : scoped S e -> scoped S (make_zero ty - e)%E.
Proof. intros He. apply scoped_Bin; [apply scoped_make_const|done]. Qed.

Lemma EDM_Mutate_divmod_sound fuel st op a b r :
  mutate_sound fuel ->
  match op with Div | Mod | FloorDiv | FloorMod => True | _ => False end ->
  EDM_Mutate_divmod (EDM_Mutate fuel) st op a b = Some r ->
  edm_inv st -> int_divmod (Bin op a b) = true -> scoped (below heap) (Bin op a b) ->
  mutate_ok st (Bin op a b) r.
Proof.
  intros IH Hop H Hi Hint Hsc.
  apply scoped_Bin_inv in Hsc as [Hsa Hsb].
  assert (is_bool (type_of a) = false /\ type_of b = type_of a /\
          int_divmod a = true /\ int_divmod b = true) as (Hnb & Htb & Hia & Hib).
  { simpl in Hint. apply andb_true_iff in Hint as [Hint ?].
    apply andb_true_iff in Hint as [Hint ?].
    destruct op; try done; apply andb_true_iff in Hint as [Hn Ht];
      apply negb_true_iff in Hn; apply bool_decide_eq_true in Ht; done. }
  assert (type_of (Bin op a b) = type_of a) as Hty by (by destruct op).
  assert ((ra ← EDM_Mutate fuel st a; rb ← EDM_Mutate fuel ra.2 b;
           Some (Bin op ra.1 rb.1, rb.2)) = Some r -> mutate_ok st (Bin op a b) r) as Hgen.
  { intros Hg. destruct (EDM_Mutate fuel st a) as [ra|] eqn:Ea; [|done]. simpl in Hg.
    destruct (EDM_Mutate fuel ra.2 b) as [rb|] eqn:Eb; [|done]. simpl in Hg.
    injection Hg as <-.
    pose proof (IH _ _ _ Ea Hi Hia Hsa) as Ha.
    apply (mutate_ok_Bin st op a b ra rb Ha).
    apply (IH _ _ _ Eb); [apply Ha|done|done]. }
  unfold EDM_Mutate_divmod in H. rewrite Hty in H.
  destruct b as [|tb v| | | | | | |]; try (by apply Hgen).
  simpl in Htb. subst tb.
  destruct (v =? 0) eqn:E0; [by apply Hgen|]. cbn [negb] in H.
  set (ty := type_of a) in *.
  destruct (Z.ltb_spec v 0) as [Hneg|Hpos].
  - (* a negative constant *)
    set (pos := make_const ty (- v)) in *.
    assert (int_divmod pos = true) as Hip by apply int_divmod_make_const.
    assert (type_of pos = ty) as Htp by apply type_of_make_const.
    assert (scoped (below heap) pos) as Hsp by apply scoped_make_const.
    assert (forall op', match op' with Div | Mod | FloorDiv | FloorMod => True | _ => False end ->
              forall x, int_divmod x = true -> type_of x = ty ->
              int_divmod (Bin op' x pos) = true) as Hint'.
    { intros op' Hop' x Hx Htx. simpl. rewrite Hx, Hip, Htp, Htx.
      unfold ty in *. rewrite Hnb. rewrite bool_decide_eq_true_2 by done.
      by destruct op'. }
    assert (int_divmod (make_zero ty - a)%E = true) as Hiz.
    { simpl. unfold make_zero. by rewrite int_divmod_make_const, Hia. }
    assert (type_of (make_zero ty - a)%E = ty) as Htz by apply type_of_neg_sub.
    destruct op; try done.
    + destruct (EDM_Mutate fuel st (truncdiv a pos)) as [r0|] eqn:E; [|done].
      simpl in H. injection H as <-.
      assert (mutate_ok st (truncdiv a pos) r0) as (Hi0 & Hsub0 & Ht0 & Hs0 & Hv0).
      { apply (IH _ _ _ E Hi); [by apply Hint'|by apply scoped_Bin]. }
      split_and!; cbn [fst snd]; try done.
      * by apply (scoped_neg_sub (known_var r0.2)).
      * intros σ.
        destruct (negative_constant_values a ty v σ Hneg Hnb eq_refl) as (H1 & _).
        rewrite <- H1. rewrite !eval_neg_sub by done. by rewrite Hv0.
    + apply (mutate_ok_same st (truncmod a pos)).
      * apply (IH _ _ _ H Hi); [by apply Hint'|by apply scoped_Bin].
      * done.
      * intros σ. by destruct (negative_constant_values a ty v σ Hneg Hnb eq_refl)
          as (_ & H2 & _).
    + apply (mutate_ok_same st (floordiv (make_zero ty - a)%E pos)).
      * apply (IH _ _ _ H Hi); [by apply Hint'|].
        apply scoped_Bin; [by apply scoped_neg_sub|done].
      * done.
      * intros σ. by destruct (negative_constant_values a ty v σ Hneg Hnb eq_refl)
          as (_ & _ & H3 & _).
    + apply (mutate_ok_same st (make_zero ty - floormod (make_zero ty - a)%E pos)%E).
      * apply (IH _ _ _ H Hi).
        -- simpl. unfold make_zero at 1. rewrite int_divmod_make_const.
           change (int_divmod (Bin FloorMod (make_zero ty - a)%E pos) = true).
           by apply Hint'.
        -- apply scoped_neg_sub. apply scoped_Bin; [by apply scoped_neg_sub|done].
      * simpl. unfold make_zero. by rewrite type_of_make_const.
      * intros σ. by destruct (negative_constant_values a ty v σ Hneg Hnb eq_refl)
          as (_ & _ & _ & H4).
  - (* a positive constant *)
    set (mode := match op with Div | Mod => kTruncDiv | _ => kFloorDiv end) in *.
    destruct (expr_to_vars_find (expr_to_vars_ st) (mode, a, v)) as [p|] eqn:Ef.
    + injection H as <-. apply expr_to_vars_find_Some in Ef.
      destruct (inv_table st Hi mode a v p Ef) as (H1 & H2 & H3 & H4 & _ & _ & H5).
      apply mutate_ok_pair; try done.
      split_and!; try done. intros σ. specialize (H5 σ). simpl in H5.
      by rewrite (eval_old st) in H5.
    + destruct (EDM_Mutate fuel st a) as [ra|] eqn:Ea; [|done]. simpl in H.
      pose proof (IH _ _ _ Ea Hi Hia Hsa) as (Hira & Hsubra & Htra & Hsra & Hvra).
      assert (0 < v) as Hv0 by (apply Z.eqb_neq in E0; lia).
      pose proof (AddNewVarPair_sound ra.2 a ra.1 v mode Hira Hv0 Hnb Hsa Hsra Htra Hvra)
        as (Hi' & Hsub' & Hp).
      destruct (AddNewVarPair ra.2 a ra.1 v mode) as [[p|] st'] eqn:Ep;
        simpl in Hi', Hsub', Hp; injection H as <-.
      * apply mutate_ok_pair; try done. by etransitivity.
      * split_and!; simpl; try done.
        -- by etransitivity.
        -- by rewrite Htra.
        -- apply scoped_Bin; [by apply (scoped_known_mono ra.2)|done].
        -- intros σ. rewrite Htra.
           by rewrite (eval_known ra.2 st'), Hvra.
Qed.


Lemma EDM_Mutate_list_sound fuel : mutate_sound fuel -> forall args st rs,
  EDM_Mutate_list (EDM_Mutate fuel) st args = Some rs -> edm_inv st ->
  forallb int_divmod args = true -> Forall (scoped (below heap)) args ->
  edm_inv rs.2 /\ m_substitution st ⊆ m_substitution rs.2 /\
  Forall (scoped (known_var rs.2)) rs.1 /\
  forall σ, map (eval (subst_env σ (m_substitution rs.2))) rs.1 = map (eval σ) args.
Proof.
  intros IH. induction args as [|a args IHargs]; intros st rs H Hi Hint Hsc.
  - injection H as <-. by split_and!.
  - simpl in H. destruct (EDM_Mutate fuel st a) as [ra|] eqn:Ea; [|done]. simpl in H.
    destruct (EDM_Mutate_list (EDM_Mutate fuel) ra.2 args) as [rs'|] eqn:El; [|done].
    simpl in H. injection H as <-. simpl.
    simpl in Hint. apply andb_true_iff in Hint as [Hia Hint].
    apply Forall_cons in Hsc as [Hsa Hsc].
    pose proof (IH _ _ _ Ea Hi Hia Hsa) as Ha.
    destruct (IHargs ra.2 rs' El) as (Hi' & Hsub' & Hs' & Hv'); [apply Ha|done|done|].
    destruct (mutate_ok_later _ _ _ rs'.2 Ha Hi' Hsub') as [Hsa' Hva'].
    split_and!; try done.
    + etransitivity; [apply Ha|done].
    + by apply Forall_cons.
    + intros σ. simpl. by rewrite Hva', Hv'.
Qed.

Lemma EDM_Mutate_sound fuel : mutate_sound fuel.
Proof.
  induction fuel as [|fuel IH]; intros st e r H Hi Hint Hsc; [done|].
  destruct e as [v|t n|t n|s|t a|op a b|a|c t f|t name args ct]; cbn [EDM_Mutate] in H.
  - injection H as <-. by apply mutate_ok_leaf.
  - injection H as <-. by apply mutate_ok_leaf.
  - injection H as <-. by apply mutate_ok_leaf.
  - injection H as <-. by apply mutate_ok_leaf.
  - destruct (EDM_Mutate fuel st a) as [ra|] eqn:Ea; [|done]. simpl in H.
    injection H as <-.
    destruct (IH _ _ _ Ea Hi) as (Hi' & Hsub & Ht & Hs & Hv); [done|by intros u Hu; apply Hsc|].
    split_and!; simpl; try done. intros σ. by rewrite Hv.
  - assert ((ra ← EDM_Mutate fuel st a; rb ← EDM_Mutate fuel ra.2 b;
             Some (Bin op ra.1 rb.1, rb.2)) = Some r -> mutate_ok st (Bin op a b) r) as Hgen.
    { intros Hg. apply scoped_Bin_inv in Hsc as [Hsa Hsb].
      assert (int_divmod a = true /\ int_divmod b = true) as [Hia Hib].
      { simpl in Hint. apply andb_true_iff in Hint as [Hint ?].
        by apply andb_true_iff in Hint as [_ ?]. }
      destruct (EDM_Mutate fuel st a) as [ra|] eqn:Ea; [|done]. simpl in Hg.
      destruct (EDM_Mutate fuel ra.2 b) as [rb|] eqn:Eb; [|done]. simpl in Hg.
      injection Hg as <-.
      pose proof (IH _ _ _ Ea Hi Hia Hsa) as Ha.
      apply (mutate_ok_Bin st op a b ra rb Ha).
      apply (IH _ _ _ Eb); [apply Ha|done|done]. }
    destruct op; try (by apply Hgen); by apply (EDM_Mutate_divmod_sound fuel).
  - destruct (EDM_Mutate fuel st a) as [ra|] eqn:Ea; [|done]. simpl in H.
    injection H as <-.
    destruct (IH _ _ _ Ea Hi) as (Hi' & Hsub & Ht & Hs & Hv); [done|by intros u Hu; apply Hsc|].
    split_and!; simpl; try done. intros σ. by rewrite Hv.
  - simpl in Hint. apply andb_true_iff in Hint as [Hint Hif].
    apply andb_true_iff in Hint as [Hic Hit].
    assert (scoped (below heap) c /\ scoped (below heap) t /\ scoped (below heap) f)
      as (Hsc1 & Hsc2 & Hsc3).
    { split_and!; intros u Hu; apply Hsc; simpl; rewrite Hu; by rewrite ?orb_true_r. }
    destruct (EDM_Mutate fuel st c) as [rc|] eqn:Ec; [|done]. simpl in H.
    destruct (EDM_Mutate fuel rc.2 t) as [rt|] eqn:Et; [|done]. simpl in H.
    destruct (EDM_Mutate fuel rt.2 f) as [rf|] eqn:Ef; [|done]. simpl in H.
    injection H as <-.
    pose proof (IH _ _ _ Ec Hi Hic Hsc1) as Hc.
    pose proof (IH _ _ _ Et ltac:(apply Hc) Hit Hsc2) as Ht.
    pose proof (IH _ _ _ Ef ltac:(apply Ht) Hif Hsc3) as Hf.
    destruct Hf as (Hi3 & Hsub3 & Ht3 & Hs3 & Hv3).
    destruct (mutate_ok_later _ _ _ rf.2 Ht Hi3 Hsub3) as [Hs2 Hv2].
    destruct (mutate_ok_later _ _ _ rf.2 Hc Hi3) as [Hs1 Hv1];
      [etransitivity; [apply Ht|done]|].
    destruct Hc as (_ & Hsub1 & _). destruct Ht as (_ & Hsub2 & Ht2 & _).
    split_and!; cbn [fst snd]; try done.
    + etransitivity; [done|]. by etransitivity.
    + intros u Hu. simpl in Hu. apply orb_true_iff in Hu as [Hu|Hu];
        [apply orb_true_iff in Hu as [Hu|Hu]|]; auto.
    + intros σ. cbn [eval]. by rewrite Ht2, Hv1, Hv2, Hv3.
  - destruct (EDM_Mutate_list (EDM_Mutate fuel) st args) as [rs|] eqn:El; [|done].
    simpl in H. injection H as <-.
    destruct (EDM_Mutate_list_sound fuel IH args st rs El Hi) as (Hi' & Hsub & Hs & Hv).
    + done.
    + apply Forall_forall. intros a Ha u Hu. apply Hsc. simpl.
      apply existsb_exists. exists a. split; [by apply list_elem_of_In|done].
    + split_and!; cbn [fst snd]; try done.
      * intros u Hu. simpl in Hu. apply existsb_exists in Hu as (a & Ha & Hu).
        rewrite Forall_forall in Hs. apply (Hs a); [by apply list_elem_of_In|done].
      * intros σ. cbn [eval]. rewrite Hv. f_equal; by apply call_value_ext.
Qed.

Lemma edm_inv_initial : edm_inv (mkEDM ∅ [] [] ranges0 0 [] [] heap).
Proof.
  split; simpl.
  - lia.
  - by intros v r.
  - intros mode x c p H. by apply elem_of_nil in H.
  - intros c H. by apply elem_of_nil in H.
  - intros _ [Hrs Hrk]. split_and!.
    + intros v r Hv. destruct (Hrs v r Hv) as [H1 H2].
      split; intros u Hu; left; auto.
    + intros v r Hv. left. by apply (Hrk v r).
    + intros σ Hw v r Hv. specialize (Hw v r Hv). unfold in_range in *.
      by rewrite !eval_subst_env_scoped by (by intros u Hu).
Qed.

(** X14. [EliminateDivMod] returns on every expression.  For an expression
    over variables whose addresses are in use (below [heap]) and whose
    divisions and remainders are on integers, the result has the type of
    the expression, its substitution defines new variables only (created at
    [heap] or above) by expressions over the old variables, of the type of
    the variable, and the resulting expression has the value of the given
    one wherever the new variables take the values of their definitions:
    substituting the definitions gives the expression back. *)
Theorem EliminateDivMod_substitution (expr : Expr) :
  int_divmod expr = true -> scoped (below heap) expr ->
  exists res,
    EliminateDivMod expr ranges0 heap = Some res /\
    type_of (res_expr res) = type_of expr /\
    (forall v r, res_substitution res !! v = Some r ->
       (heap <= vid v)%N /\ scoped (below heap) r /\ type_of r = vty v) /\
    forall σ,
      eval (subst_env σ (res_substitution res)) (res_expr res) = eval σ expr /\
      eval σ (Substitute (res_expr res) (res_substitution res)) = eval σ expr.
Proof.
  intros Hint Hsc. unfold EliminateDivMod.
  destruct (EDM_Mutate_total expr (EDM_cost expr) (mkEDM ∅ [] [] ranges0 0 [] [] heap))
    as [r Hr]; [done|].
  rewrite Hr. simpl. eexists. split; [done|]. simpl.
  destruct (EDM_Mutate_sound _ _ _ _ Hr edm_inv_initial Hint Hsc)
    as (Hi & _ & Ht & _ & Hv).
  split_and!; try done.
  - intros v r' Hv'. destruct (inv_subst _ Hi v r' Hv') as ([? _] & ? & ?). done.
  - intros σ. split; [done|].
    rewrite eval_Substitute by (by apply edm_inv_typed). apply Hv.
Qed.


(** X15. Under the contract of the interval evaluation, for ranges of old
    variables with bounds over old variables: wherever the old variables
    are within the ranges given and the new variables take the values of
    their definitions, all variables are within the resulting ranges, and
    all resulting conditions hold unless a warning was given for a
    remainder of the floor division (then the condition on the sign of the
    remainder, which is that of the truncated division, may fail). *)
Theorem EliminateDivMod_conditions (expr : Expr) :
  int_divmod expr = true -> scoped (below heap) expr ->
  evalset_sound EvalSet_cover_range -> ranges_old ->
  exists res,
    EliminateDivMod expr ranges0 heap = Some res /\
    forall σ, within σ ranges0 ->
      within (subst_env σ (res_substitution res)) (res_ranges res) /\
      (~ Exists is_floormod (res_warnings res) ->
       all_hold (subst_env σ (res_substitution res)) (res_conditions res)).
Proof.
  intros Hint Hsc Hes Hro. unfold EliminateDivMod.
  destruct (EDM_Mutate_total expr (EDM_cost expr) (mkEDM ∅ [] [] ranges0 0 [] [] heap))
    as [r Hr]; [done|].
  rewrite Hr. simpl. eexists. split; [done|]. simpl.
  destruct (EDM_Mutate_sound _ _ _ _ Hr edm_inv_initial Hint Hsc) as (Hi & _).
  intros σ Hσ. split.
  - destruct (inv_ranges _ Hi Hes Hro) as (_ & _ & Hw). by apply Hw.
  - intros Hnw. apply Forall_forall. intros c Hc.
    destruct (inv_conditions _ Hi c Hc) as [_ [Hv|Hv]]; [apply Hv|done].
Qed.

End DivModSoundness.

(** *** EliminateDivModFromDomainConditions *)

(** The mutator keeps the shape that [FactorOutAtomicFormulas] has cases
    for: it rewrites below the logical structure only, and the conditions
    it adds are comparisons and a [Select] of comparisons. *)
Lemma AddNewVarPair_conditions_supported st e mut c mode :
  Forall (fun x => FactorOut_supported false x = true) (m_conditions st) ->
  Forall (fun x => FactorOut_supported false x = true)
         (m_conditions (AddNewVarPair st e mut c mode).2).
Proof.
  intros H. unfold AddNewVarPair.
  destruct (if negb (Equal e mut) then _ else None); [done|].
  destruct (EvalSet_cover_range _ _); [|done].
  destruct (EvalSet_cover_range _ _); [|done].
  cbn [snd m_conditions].
  destruct (negb _); rewrite ?Forall_app; split_and?; try done; by repeat constructor.
Qed.

Definition mutate_supported (fuel : nat) : Prop :=
  forall st e r,
    EDM_Mutate fuel st e = Some r ->
    Forall (fun x => FactorOut_supported false x = true) (m_conditions st) ->
    Forall (fun x => FactorOut_supported false x = true) (m_conditions r.2) /\
    forall neg, FactorOut_supported neg e = true -> FactorOut_supported neg r.1 = true.

Lemma EDM_Mutate_divmod_supported fuel st op a b r :
  mutate_supported fuel ->
  match op with Div | Mod | FloorDiv | FloorMod => True | _ => False end ->
  EDM_Mutate_divmod (EDM_Mutate fuel) st op a b = Some r ->
  Forall (fun x => FactorOut_supported false x = true) (m_conditions st) ->
  Forall (fun x => FactorOut_supported false x = true) (m_conditions r.2) /\
  FactorOut_supported true r.1 = true.
Proof.
  intros IH Hop H Hc.
  assert ((ra ← EDM_Mutate fuel st a; rb ← EDM_Mutate fuel ra.2 b;
           Some (Bin op ra.1 rb.1, rb.2)) = Some r ->
          Forall (fun x => FactorOut_supported false x = true) (m_conditions r.2) /\
          FactorOut_supported true r.1 = true) as Hgen.
  { intros Hg. destruct (EDM_Mutate fuel st a) as [ra|] eqn:Ea; [|done]. simpl in Hg.
    destruct (EDM_Mutate fuel ra.2 b) as [rb|] eqn:Eb; [|done]. simpl in Hg.
    injection Hg as <-.
    destruct (IH _ _ _ Ea Hc) as [Hca _]. destruct (IH _ _ _ Eb Hca) as [Hcb _].
    split; [done|]. by destruct op. }
  unfold EDM_Mutate_divmod in H.
  destruct b as [|tb v| | | | | | |]; try (by apply Hgen).
  destruct (v =? 0) eqn:E0; [by apply Hgen|]. cbn [negb] in H.
  destruct (v <? 0).
  - destruct op; try done.
    + destruct (EDM_Mutate fuel st _) as [r0|] eqn:E; [|done].
      simpl in H. injection H as <-. by destruct (IH _ _ _ E Hc) as [? _].
    + destruct (IH _ _ _ H Hc) as [? Hs]. split; [done|]. by apply Hs.
    + destruct (IH _ _ _ H Hc) as [? Hs]. split; [done|]. by apply Hs.
    + destruct (IH _ _ _ H Hc) as [? Hs]. split; [done|]. by apply Hs.
  - destruct (expr_to_vars_find _ _) as [p|]; [by injection H as <-|].
    destruct (EDM_Mutate fuel st a) as [ra|] eqn:Ea; [|done]. simpl in H.
    destruct (IH _ _ _ Ea Hc) as [Hca _].
    pose proof (AddNewVarPair_conditions_supported ra.2 a ra.1 v
                  (match op with Div | Mod => kTruncDiv | _ => kFloorDiv end) Hca) as Hn.
    destruct (AddNewVarPair ra.2 a ra.1 v _) as [[p|] st'];
      injection H as <-; (split; [done|]); [done|by destruct op].
Qed.

Lemma EDM_Mutate_supported fuel : mutate_supported fuel.
Proof.
  induction fuel as [|fuel IH]; intros st e r H Hc; [done|].
  destruct e as [v|t n|t n|s|t a|op a b|a|c t f|t name args ct]; cbn [EDM_Mutate] in H.
  1-4: by injection H as <-.
  - destruct (EDM_Mutate fuel st a) as [ra|] eqn:Ea; [|done]. simpl in H.
    injection H as <-. by destruct (IH _ _ _ Ea Hc) as [? _].
  - assert ((ra ← EDM_Mutate fuel st a; rb ← EDM_Mutate fuel ra.2 b;
             Some (Bin op ra.1 rb.1, rb.2)) = Some r ->
            match op with Div | Mod | FloorDiv | FloorMod => False | _ => True end ->
            Forall (fun x => FactorOut_supported false x = true) (m_conditions r.2) /\
            forall neg, FactorOut_supported neg (Bin op a b) = true ->
                        FactorOut_supported neg r.1 = true) as Hgen.
    { intros Hg Hop. destruct (EDM_Mutate fuel st a) as [ra|] eqn:Ea; [|done]. simpl in Hg.
      destruct (EDM_Mutate fuel ra.2 b) as [rb|] eqn:Eb; [|done]. simpl in Hg.
      injection Hg as <-.
      destruct (IH _ _ _ Ea Hc) as [Hca Hsa]. destruct (IH _ _ _ Eb Hca) as [Hcb Hsb].
      split; [done|]. intros neg Hs. destruct op; try done; simpl in Hs |- *.
      - destruct neg; [done|]. apply andb_true_iff in Hs as [? ?].
        simpl. rewrite Hsa, Hsb; done.
      - apply andb_true_iff in Hs as [? ?]. rewrite Hsa, Hsb; done.
      - apply andb_true_iff in Hs as [? ?]. rewrite Hsa, Hsb; done. }
    destruct op; try (by apply Hgen);
      (match type of H with
       | EDM_Mutate_divmod _ _ ?op' _ _ = _ =>
           destruct (EDM_Mutate_divmod_supported fuel st op' a b r IH I H Hc) as [? Hs]
       end;
       split; [done|]; intros neg Hn; simpl in Hn; by subst neg).
  - destruct (EDM_Mutate fuel st a) as [ra|] eqn:Ea; [|done]. simpl in H.
    injection H as <-. destruct (IH _ _ _ Ea Hc) as [? Hs]. split; [done|].
    intros neg Hn. simpl in Hn |- *. destruct neg; [done|]. simpl in Hn. simpl. by apply Hs.
  - destruct (EDM_Mutate fuel st c) as [rc|] eqn:Ec; [|done]. simpl in H.
    destruct (EDM_Mutate fuel rc.2 t) as [rt|] eqn:Et; [|done]. simpl in H.
    destruct (EDM_Mutate fuel rt.2 f) as [rf|] eqn:Ef; [|done]. simpl in H.
    injection H as <-.
    destruct (IH _ _ _ Ec Hc) as [Hcc Hsc]. destruct (IH _ _ _ Et Hcc) as [Hct Hst].
    destruct (IH _ _ _ Ef Hct) as [Hcf Hsf]. split; [done|].
    intros neg Hn. simpl in Hn |- *.
    apply andb_true_iff in Hn as [Hn ?]. apply andb_true_iff in Hn as [Hn ?].
    apply andb_true_iff in Hn as [? ?]. rewrite !Hsc, Hst, Hsf; done.
  - destruct (EDM_Mutate_list (EDM_Mutate fuel) st args) as [rs|] eqn:El; [|done].
    simpl in H. injection H as <-. split; [|done]. simpl.
    clear -IH El Hc. revert st rs El Hc.
    induction args as [|a args IHargs]; intros st rs El Hc; simpl in El.
    + by injection El as <-.
    + destruct (EDM_Mutate fuel st a) as [ra|] eqn:Ea; [|done]. simpl in El.
      destruct (EDM_Mutate_list (EDM_Mutate fuel) ra.2 args) as [rs'|] eqn:El'; [|done].
      simpl in El. injection El as <-. simpl.
      destruct (IH _ _ _ Ea Hc) as [Hca _]. by apply (IHargs _ _ El').
Qed.

Lemma FactorOut_supported_All l :
  Forall (fun x => FactorOut_supported false x = true) l ->
  FactorOut_supported false (All l) = true.
Proof.
  unfold All. destruct l as [|e l]; [done|]. intros H.
  apply Forall_cons in H as [He Hl]. revert e He.
  induction Hl as [|x l Hx Hl IH]; intros e He; simpl; [done|].
  apply IH. simpl. by rewrite He, Hx.
Qed.

Lemma int_divmod_All l :
  Forall (fun x => int_divmod x = true) l -> int_divmod (All l) = true.
Proof.
  unfold All. destruct l as [|e l]; [done|]. intros H.
  apply Forall_cons in H as [He Hl]. revert e He.
  induction Hl as [|x l Hx Hl IH]; intros e He; simpl; [done|].
  apply IH. simpl. by rewrite He, Hx.
Qed.

Lemma scoped_All S l : Forall (scoped S) l -> scoped S (All l).
Proof.
  unfold All. destruct l as [|e l]; [intros _; apply scoped_make_const|]. intros H.
  apply Forall_cons in H as [He Hl]. revert e He.
  induction Hl as [|x l Hx Hl IH]; intros e He; simpl; [done|].
  apply IH. by apply scoped_Bin.
Qed.

Lemma lookup_foldl_set_vars (m : gmap Var Expr) vars v :
  foldl (fun m v => <[v := VarNode v]> m) m vars !! v
  = if decide (v ∈ vars) then Some (VarNode v) else m !! v.
Proof.
  revert m. induction vars as [|u vars IH]; intros m; cbn [foldl].
  - by rewrite decide_False by apply not_elem_of_nil.
  - rewrite IH. destruct (decide (v ∈ vars)) as [Hin|Hin].
    + by rewrite decide_True by (by right).
    + destruct (decide (v = u)) as [->|Hne].
      * rewrite lookup_insert_eq. by rewrite decide_True by left.
      * rewrite lookup_insert_ne by done.
        rewrite decide_False; [done|]. by intros [?|?]%elem_of_cons.
Qed.

Section DivModDomain.

Variable heap : N.
Variable domain : Domain.

(** The conditions of the domain are over variables in use, of the shape
    that [FactorOutAtomicFormulas] has cases for, with divisions and
    remainders on integers. *)
Definition divmod_domain : Prop :=
  Forall (below heap) (variables domain) /\
  Forall (fun c => int_divmod c = true /\ FactorOut_supported false c = true /\
                   scoped (below heap) c) (conditions domain) /\
  ranges_old heap (ranges domain).

(** X16. On such a domain, under the contract of the interval evaluation,
    [EliminateDivModFromDomainConditions] returns a transformation from
    the domain given, whose new variables are the old ones followed by
    the new ones of [EliminateDivMod], and whose two maps are the identity
    on the old variables.  Every model of the domain, with the new
    variables at the values of their [new_to_old] expressions, is a model
    of the new domain, unless a warning was given for a remainder of the
    floor division. *)
Theorem EliminateDivModFromDomainConditions_old_to_new :
  divmod_domain -> evalset_sound EvalSet_cover_range ->
  exists res t,
    EliminateDivMod (All (conditions domain)) (ranges domain) heap = Some res /\
    EliminateDivModFromDomainConditions domain heap = Some t /\
    old_domain t = domain /\
    variables (new_domain t) = variables domain ++ res_new_variables res /\
    (forall v, v ∈ variables domain ->
       old_to_new t !! v = Some (VarNode v) /\ new_to_old t !! v = Some (VarNode v)) /\
    (forall v, v ∉ variables domain ->
       old_to_new t !! v = None /\ new_to_old t !! v = res_substitution res !! v) /\
    forall σ, satisfies σ domain -> ~ Exists is_floormod (res_warnings res) ->
      satisfies (subst_env σ (new_to_old t)) (new_domain t).
Proof.
  intros (Hvars & Hconds & Hro) Hes.
  assert (int_divmod (All (conditions domain)) = true) as Hint.
  { apply int_divmod_All. eapply Forall_impl; [done|]. by intros c (? & _). }
  assert (scoped (below heap) (All (conditions domain))) as Hsc.
  { apply scoped_All. eapply Forall_impl; [done|]. by intros c (_ & _ & ?). }
  assert (FactorOut_supported false (All (conditions domain)) = true) as Hsup.
  { apply FactorOut_supported_All. eapply Forall_impl; [done|]. by intros c (_ & ? & _). }
  unfold EliminateDivModFromDomainConditions, EliminateDivMod.
  set (st0 := mkEDM ∅ [] [] (ranges domain) 0 [] [] heap).
  destruct (EDM_Mutate_total (All (conditions domain))
              (EDM_cost (All (conditions domain))) st0) as [r Hr]; [done|].
  rewrite Hr. cbn [mbind option_bind].
  set (res := mkEDMResult r.1 (m_substitution r.2) (m_new_variables r.2)
                (m_conditions r.2) (m_ranges r.2) (warnings r.2) (next_id r.2)).
  cbn [res_expr res_conditions res_ranges res_new_variables res_substitution].
  destruct (EDM_Mutate_sound heap (ranges domain) _ _ _ _ Hr
              (edm_inv_initial heap (ranges domain)) Hint Hsc)
    as (Hi & _ & Ht & _ & Hv).
  destruct (EDM_Mutate_supported _ _ _ _ Hr) as [Hcs Hrs]; [by constructor|].
  set (new_cond := (r.1 && All (m_conditions r.2))%E).
  destruct (FactorOutAtomicFormulas_total new_cond) as [fo Hfo].
  { done. }
  { simpl. rewrite (Hrs false Hsup). by apply FactorOut_supported_All. }
  change (FactorOutAtomicFormulas (res_expr res && All (res_conditions res))%E)
    with (FactorOutAtomicFormulas new_cond).
  rewrite Hfo. cbn [mbind option_bind].
  exists res. eexists. split; [done|]. split; [done|]. subst res.
  cbn [old_domain new_domain old_to_new new_to_old variables conditions ranges
       res_expr res_conditions res_ranges res_new_variables res_substitution
       res_warnings].
  split; [done|]. split; [done|].
  split_and!.
  - intros v Hin. rewrite lookup_map_of_vars, lookup_foldl_set_vars.
    by rewrite !decide_True by done.
  - intros v Hin. rewrite lookup_map_of_vars, lookup_foldl_set_vars.
    by rewrite !decide_False by done.
  - intros σ [Hw Hc] Hnw.
    set (n2o := foldl (fun m v => <[v := VarNode v]> m) (m_substitution r.2)
                      (variables domain)).
    assert (forall e, eval (subst_env σ n2o) e
                      = eval (subst_env σ (m_substitution r.2)) e) as Heq.
    { intros e. apply eval_ext; [|done]. intros v. simpl. unfold n2o.
      rewrite lookup_foldl_set_vars. destruct (decide (v ∈ variables domain)) as [Hin|]; [|done].
      rewrite Forall_forall in Hvars.
      rewrite (edm_inv_below heap (ranges domain) r.2 v Hi (Hvars v Hin)).
      simpl. apply canon_idem. }
    split.
    + destruct (inv_ranges heap (ranges domain) _ Hi Hes Hro) as (_ & _ & Hwr).
      intros v rg Hrg. specialize (Hwr σ Hw v rg Hrg). unfold in_range in *.
      by rewrite !Heq.
    + simpl. change (all_hold (subst_env σ n2o) (FO_to_array fo)).
      unfold FO_to_array, all_hold. rewrite Forall_app, Forall_singleton.
      apply beval_FO_to_expr.
      rewrite (FactorOutAtomicFormulas_equiv _ _ _ Hfo).
      unfold new_cond. rewrite beval_And. apply andb_true_iff. split.
      * unfold beval. rewrite Heq, Hv. fold (beval σ (All (conditions domain))).
        by apply beval_All.
      * apply beval_All, Forall_forall. intros c Hc'. unfold beval. rewrite Heq.
        destruct (inv_conditions heap (ranges domain) _ Hi c Hc') as [_ [Hb|Hb]];
          [apply Hb|done].
Qed.

End DivModDomain.

End ZeroElimination.

(** ** Free variables *)

(** [ExprFreeVarsVisitor]: the array of the free variables in the order of
    their first visit, and the sets of the bound and of the free variables.
    The expressions of this development have no binder ([Let], [Reduce]),
    so [bound] stays as it is; the visit goes through the children from
    left to right. *)
Record ExprFreeVarsVisitor : Type := mkEFV {
  free_array : list Var;
  bound : gset Var;
  free : gset Var
}.

Fixpoint EFV_Visit (e : Expr) (vis : ExprFreeVarsVisitor) : ExprFreeVarsVisitor :=
  match e with
  | VarNode v =>
      if negb (bool_decide (v ∈ bound vis)) && negb (bool_decide (v ∈ free vis)) then
        mkEFV (free_array vis ++ [v]) (bound vis) ({[v]} ∪ free vis)
      else vis
  | IntImm _ _ | UIntImm _ _ | StringImm _ => vis
  | Cast _ a | Not a => EFV_Visit a vis
  | Bin _ a b => EFV_Visit b (EFV_Visit a vis)
  | Select c t f => EFV_Visit f (EFV_Visit t (EFV_Visit c vis))
  | Call _ _ args _ => fold_left (fun vis a => EFV_Visit a vis) args vis
  end.

(** [ExprFreeVars] *)
Definition ExprFreeVars (expr : Expr) : list Var :=
  free_array (EFV_Visit expr (mkEFV [] ∅ ∅)).

(** The visitor with nothing bound: the set is the set of the array, which
    has no duplicates. *)
Definition efv_inv (vis : ExprFreeVarsVisitor) : Prop :=
  bound vis = ∅ /\ NoDup (free_array vis) /\
  forall v, v ∈ free vis <-> v ∈ free_array vis.

Lemma EFV_Visit_spec e : forall vis,
  efv_inv vis ->
  efv_inv (EFV_Visit e vis) /\
  (exists l, free_array (EFV_Visit e vis) = free_array vis ++ l) /\
  forall v, v ∈ free_array (EFV_Visit e vis) <->
            v ∈ free_array vis \/ ExprUseVar e {[v]} = true.
Proof.
  induction e as [x|t n|t n|s|t a IHa|op a b IHa IHb|a IHa|c t f IHc IHt IHf
                 |t name args ct IHargs] using Expr_ind_strong; intros vis Hi.
  - destruct Hi as (Hb & Hnd & Hf). cbn [EFV_Visit ExprUseVar]. rewrite Hb.
    rewrite bool_decide_eq_false_2 by set_solver. cbn [negb andb].
    destruct (bool_decide (x ∈ free vis)) eqn:E; cbn [negb].
    + apply bool_decide_eq_true in E. split; [done|]. split; [exists []; by rewrite app_nil_r|].
      intros v. rewrite bool_decide_eq_true, elem_of_singleton. split; [auto|].
      intros [?| ->]; [done|]. by apply Hf.
    + apply bool_decide_eq_false in E. cbn [free_array bound free].
      split; [|split; [by eexists|]].
      * split_and!; [done| |].
        -- apply NoDup_app. split_and!; [done| |apply NoDup_singleton].
           intros y Hy ->%list_elem_of_singleton. apply E. by apply Hf.
        -- intros v. cbn [free free_array]. rewrite elem_of_union, elem_of_singleton, elem_of_app,
             list_elem_of_singleton, Hf. tauto.
      * intros v. rewrite elem_of_app, list_elem_of_singleton, bool_decide_eq_true,
          elem_of_singleton. intuition done.
  - split; [done|]. split; [exists []; by rewrite app_nil_r|]. intros v. simpl. intuition done.
  - split; [done|]. split; [exists []; by rewrite app_nil_r|]. intros v. simpl. intuition done.
  - split; [done|]. split; [exists []; by rewrite app_nil_r|]. intros v. simpl. intuition done.
  - by apply IHa.
  - cbn [EFV_Visit ExprUseVar].
    destruct (IHa vis Hi) as (Hia & [la Hla] & Hva).
    destruct (IHb _ Hia) as (Hib & [lb Hlb] & Hvb).
    split; [done|]. split; [exists (la ++ lb); by rewrite Hlb, Hla, app_assoc|].
    intros v. rewrite Hvb, Hva, orb_true_iff. tauto.
  - by apply IHa.
  - cbn [EFV_Visit ExprUseVar].
    destruct (IHc vis Hi) as (Hic & [lc Hlc] & Hvc).
    destruct (IHt _ Hic) as (Hit & [lt Hlt] & Hvt).
    destruct (IHf _ Hit) as (Hif & [lf Hlf] & Hvf).
    split; [done|].
    split; [exists (lc ++ lt ++ lf); by rewrite Hlf, Hlt, Hlc, !app_assoc|].
    intros v. rewrite Hvf, Hvt, Hvc, !orb_true_iff. tauto.
  - cbn [EFV_Visit ExprUseVar]. revert vis Hi.
    induction IHargs as [|a args Ha _ IH]; intros vis Hi; cbn [fold_left existsb].
    + split; [done|]. split; [exists []; by rewrite app_nil_r|]. intuition done.
    + destruct (Ha vis Hi) as (Hia & [la Hla] & Hva).
      destruct (IH _ Hia) as (Hi' & [l' Hl'] & Hv').
      split; [done|]. split; [exists (la ++ l'); by rewrite Hl', Hla, app_assoc|].
      intros v. rewrite Hv', Hva, orb_true_iff. tauto.
Qed.

(** X17. [ExprFreeVars] lists the variables that occur in the expression,
    each one once. *)
Theorem ExprFreeVars_spec (e : Expr) :
  NoDup (ExprFreeVars e) /\
  forall v, v ∈ ExprFreeVars e <-> ExprUseVar e {[v]} = true.
Proof.
  destruct (EFV_Visit_spec e (mkEFV [] ∅ ∅)) as ((_ & Hnd & _) & _ & Hv).
  { split_and!; [done|apply NoDup_nil_2|]. intros v. simpl. set_solver. }
  split; [done|]. intros v. unfold ExprFreeVars. rewrite Hv. simpl.
  rewrite elem_of_nil. tauto.
Qed.


(** ** AddOuterVariablesIntoDomain *)

(** The local variables of [AddOuterVariablesIntoDomain].  A copy of a
    variable ([copy_with_suffix]) is a new node: [aov_next_id] is the first
    address not in use. *)
Record AddOuterVariables : Type := mkAOV {
  aov_vset : gset Var;
  aov_new_variables : list Var;
  aov_outer_to_new : gmap Var Expr;
  aov_new_to_old : gmap Var Expr;
  aov_new_conditions : list Expr;
  aov_new_ranges : gmap Var Range;
  aov_next_id : N
}.

(** The body of the loop over the free variables of a condition. *)
Definition AOV_variable (domain : Domain) (st : AddOuterVariables) (v : Var)
  : AddOuterVariables :=
  if negb (bool_decide (v ∈ aov_vset st)) then
    let new_var := mkVar (aov_next_id st) (vty v) in
    mkAOV ({[v]} ∪ ({[new_var]} ∪ aov_vset st))
          (aov_new_variables st ++ [new_var])
          (<[v := VarNode new_var]> (aov_outer_to_new st))
          (<[new_var := VarNode v]> (aov_new_to_old st))
          (aov_new_conditions st ++ [(VarNode new_var == VarNode v)%E])
          (match ranges domain !! v with
           | Some r => <[new_var := r]> (aov_new_ranges st)
           | None => aov_new_ranges st
           end)
          (aov_next_id st + 1)
  else st.

(** The body of the loop over the conditions. *)
Definition AOV_condition (domain : Domain) (st : AddOuterVariables) (cond : Expr)
  : AddOuterVariables :=
  let st := foldl (AOV_variable domain) st (ExprFreeVars cond) in
  mkAOV (aov_vset st) (aov_new_variables st) (aov_outer_to_new st) (aov_new_to_old st)
        (aov_new_conditions st ++ [Substitute cond (aov_outer_to_new st)])
        (aov_new_ranges st) (aov_next_id st).

(** [AddOuterVariablesIntoDomain]: [heap] is the first node address not in
    use. *)
Definition AddOuterVariablesIntoDomain (domain : Domain) (heap : N)
  : DomainTransformation :=
  let st :=
    foldl (AOV_condition domain)
          (mkAOV (list_to_set (variables domain)) (variables domain) ∅ ∅ []
                 (ranges domain) heap)
          (conditions domain) in
  let old_to_new := map_of_vars VarNode (variables domain) in
  let new_to_old :=
    foldl (fun m v => <[v := VarNode v]> m) (aov_new_to_old st) (variables domain) in
  let new_domain :=
    mkDomain (aov_new_variables st) (aov_new_conditions st) (aov_new_ranges st) in
  mkDomainTransformation new_domain domain new_to_old old_to_new.

(** Two assignments that agree, up to the representation of the Booleans,
    on the variables of an expression give it one value. *)
Lemma eval_scoped_canon_ext σ1 σ2 e :
  scoped (fun v => canon (vty v) (val σ1 v) = canon (vty v) (val σ2 v)) e ->
  call σ1 = call σ2 ->
  eval σ1 e = eval σ2 e.
Proof.
  intros Hs Hc.
  set (c1 := mkEnv (fun v => canon (vty v) (val σ1 v)) (call σ1)).
  set (c2 := mkEnv (fun v => canon (vty v) (val σ2 v)) (call σ2)).
  transitivity (eval c1 e); [|transitivity (eval c2 e)].
  - apply eval_ext; [|done]. intros v. simpl. by rewrite canon_idem.
  - by apply eval_scoped_ext.
  - apply eval_ext; [|done]. intros v. simpl. by rewrite canon_idem.
Qed.

(** The variables of a substituted expression: those of the expressions
    put in, and those left. *)
Lemma scoped_Substitute_cases (S : Var -> Prop) e (vmap : gmap Var Expr) :
  scoped (fun v => match vmap !! v with Some r => scoped S r | None => S v end) e ->
  scoped S (Substitute e vmap).
Proof.
  intros He. induction e as [v|t n|t n|s|t a IHa|op a b IHa IHb|a IHa|c t f IHc IHt IHf
                            |t name args ct IHargs] using Expr_ind_strong; simpl; try done.
  - assert (match vmap !! v with Some r => scoped S r | None => S v end) as H.
    { apply He. simpl. apply bool_decide_eq_true. by apply elem_of_singleton. }
    destruct (vmap !! v) as [r|]; [done|]. by apply scoped_VarNode.
  - by apply IHa.
  - apply scoped_Bin_inv in He as [? ?]. apply scoped_Bin; auto.
  - by apply IHa.
  - intros v Hv. simpl in Hv.
    apply orb_true_iff in Hv as [Hv|Hv]; [apply orb_true_iff in Hv as [Hv|Hv]|].
    + apply IHc; [|done]. intros u Hu. apply He. simpl. by rewrite Hu.
    + apply IHt; [|done]. intros u Hu. apply He. simpl. rewrite Hu. by rewrite orb_true_r.
    + apply IHf; [|done]. intros u Hu. apply He. simpl. rewrite Hu. by rewrite orb_true_r.
  - unfold scoped in He |- *. simpl in He |- *.
    induction IHargs as [|x l Hx _ IHl]; simpl; [done|].
    intros v Hv. apply orb_true_iff in Hv as [Hv|Hv].
    + apply Hx; [|done]. intros u Hu. apply He. simpl. by rewrite Hu.
    + apply IHl; [|done]. intros u Hu. apply He. simpl. rewrite Hu. by rewrite orb_true_r.
Qed.

Section AddOuterVariablesSoundness.

Variable heap : N.
Variable domain : Domain.

(** The variables of the domain and of its conditions and ranges are nodes
    in use. *)
Hypothesis variables_below : Forall (below heap) (variables domain).
Hypothesis conditions_below : Forall (scoped (below heap)) (conditions domain).
Hypothesis domain_ranges_old : ranges_old heap (ranges domain).

(** An equality of a copy and its outer variable. *)
Definition copy_equality (st : AddOuterVariables) (c : Expr) : Prop :=
  exists nv v, c = Bin EQ (VarNode nv) (VarNode v) /\ nv ∈ aov_new_variables st /\
               (v ∉ variables domain) /\ aov_new_to_old st !! nv = Some (VarNode v).

(** The invariant of the loops, after the conditions [done]. *)
Record aov_inv (st : AddOuterVariables) (done : list Expr) : Prop := {
  aov_heap : (heap <= aov_next_id st)%N;
  aov_set : forall v, v ∈ aov_vset st <->
    v ∈ variables domain \/ is_Some (aov_outer_to_new st !! v)
    \/ is_Some (aov_new_to_old st !! v);
  aov_o2n : forall v e, aov_outer_to_new st !! v = Some e ->
    below heap v /\ (v ∉ variables domain) /\
    exists nv, e = VarNode nv /\ vty nv = vty v /\
               aov_new_to_old st !! nv = Some (VarNode v) /\
               Bin EQ (VarNode nv) (VarNode v) ∈ aov_new_conditions st;
  aov_n2o : forall nv e, aov_new_to_old st !! nv = Some e ->
    (heap <= vid nv < aov_next_id st)%N /\
    exists v, e = VarNode v /\ below heap v /\ vty nv = vty v;
  aov_vars : forall u, u ∈ aov_new_variables st <->
    u ∈ variables domain \/ is_Some (aov_new_to_old st !! u);
  aov_fwd : forall σ, all_hold σ done ->
    all_hold (subst_env σ (aov_new_to_old st)) (aov_new_conditions st);
  aov_bwd : forall σ, all_hold σ (aov_new_conditions st) -> all_hold σ done;
  aov_scoped : Forall (scoped (fun u => (vid u < aov_next_id st)%N))
                      (aov_new_conditions st);
  aov_closed : Forall (fun c => copy_equality st c \/
                                scoped (fun u => u ∈ aov_new_variables st) c)
                      (aov_new_conditions st);
  aov_ranges : ranges domain ⊆ aov_new_ranges st /\
    forall nv r, aov_new_ranges st !! nv = Some r ->
      ranges domain !! nv = Some r \/
      exists v, aov_new_to_old st !! nv = Some (VarNode v) /\ ranges domain !! v = Some r
}.

Lemma aov_inv_initial :
  aov_inv (mkAOV (list_to_set (variables domain)) (variables domain) ∅ ∅ []
                 (ranges domain) heap) [].
Proof.
  split; simpl; try done.
  - intros v. rewrite elem_of_list_to_set, !lookup_empty, !is_Some_alt. tauto.
  - intros u. rewrite lookup_empty, is_Some_alt. tauto.
  - intros σ _. by apply Forall_nil.
  - split; [done|]. intros nv r H. by left.
Qed.

Lemma aov_n2o_below st done v :
  aov_inv st done -> below heap v -> aov_new_to_old st !! v = None.
Proof.
  intros Hi Hv. destruct (aov_new_to_old st !! v) as [e|] eqn:E; [|done].
  destruct (aov_n2o st done Hi v e E) as [[? ?] _]. unfold below in Hv. lia.
Qed.

(** The old variables keep their values when the copies get the values of
    their outer variables. *)
Lemma aov_eval_old st done σ e :
  aov_inv st done -> scoped (below heap) e ->
  eval (subst_env σ (aov_new_to_old st)) e = eval σ e.
Proof.
  intros Hi He. apply eval_subst_env_scoped. intros v Hv.
  by apply (aov_n2o_below st done), He.
Qed.

Lemma aov_subst_typed st done : aov_inv st done -> subst_typed (aov_outer_to_new st).
Proof.
  intros Hi v e Hv. destruct (aov_o2n st done Hi v e Hv) as (_ & _ & nv & -> & Ht & _).
  simpl. by rewrite Ht.
Qed.

Lemma AOV_variable_inv st done v :
  aov_inv st done -> below heap v ->
  aov_inv (AOV_variable domain st v) done /\ v ∈ aov_vset (AOV_variable domain st v) /\
  aov_vset st ⊆ aov_vset (AOV_variable domain st v).
Proof.
  intros Hi Hv. unfold AOV_variable.
  destruct (bool_decide (v ∈ aov_vset st)) eqn:E; cbn [negb].
  { apply bool_decide_eq_true in E. done. }
  apply bool_decide_eq_false in E.
  set (nv := mkVar (aov_next_id st) (vty v)).
  pose proof (aov_heap st done Hi) as Hheap.
  assert ((v ∉ variables domain) /\ aov_outer_to_new st !! v = None /\
          aov_new_to_old st !! v = None) as (Hvd & Hvo & Hvn).
  { rewrite (aov_set st done Hi) in E. split_and!.
    - intros ?. apply E. by left.
    - apply eq_None_not_Some. intros ?. apply E. right. by left.
    - apply eq_None_not_Some. intros ?. apply E. right. by right. }
  assert (~ below heap nv) as Hnb by (unfold below, nv; simpl; lia).
  assert (aov_new_to_old st !! nv = None) as Hnn.
  { destruct (aov_new_to_old st !! nv) as [e|] eqn:En; [|done].
    destruct (aov_n2o st done Hi nv e En) as [[_ ?] _]. simpl in *. lia. }
  assert (aov_outer_to_new st !! nv = None) as Hno.
  { destruct (aov_outer_to_new st !! nv) as [e|] eqn:En; [|done].
    by destruct (aov_o2n st done Hi nv e En) as [? _]. }
  assert (nv ∉ variables domain) as Hnd.
  { intros Hin. rewrite Forall_forall in variables_below. by apply Hnb, variables_below. }
  assert (nv <> v) as Hne by (by intros ->).
  assert (ranges domain !! nv = None) as Hnr.
  { destruct (ranges domain !! nv) as [r|] eqn:Er; [|done].
    destruct domain_ranges_old as [_ Hk]. by destruct Hnb; apply (Hk nv r). }
  assert (aov_new_ranges st !! nv = None) as Hnr'.
  { destruct (aov_new_ranges st !! nv) as [r|] eqn:Er; [|done].
    destruct (aov_ranges st done Hi) as [_ Hk].
    destruct (Hk nv r Er) as [?|(u & ? & _)]; congruence. }
  split; [|split; [set_solver|set_solver]].
  split; cbn [aov_vset aov_new_variables aov_outer_to_new aov_new_to_old
              aov_new_conditions aov_new_ranges aov_next_id].
  - lia.
  - intros u. rewrite !elem_of_union, !elem_of_singleton, !lookup_insert_is_Some',
      (aov_set st done Hi).
    intuition congruence.
  - intros u e Hu. apply lookup_insert_Some in Hu as [[<- <-]|[Hne' Hu]].
    + split_and!; [done..|]. exists nv. split_and!; [done|done| |].
      * by rewrite lookup_insert_eq.
      * apply elem_of_app. right. by apply list_elem_of_singleton.
    + destruct (aov_o2n st done Hi u e Hu) as (? & ? & nu & -> & ? & Hn & Hc).
      split_and!; [done..|]. exists nu. split_and!; [done|done| |].
      * rewrite lookup_insert_ne; [done|]. intros <-. congruence.
      * apply elem_of_app. by left.
  - intros u e Hu. apply lookup_insert_Some in Hu as [[<- <-]|[Hne' Hu]].
    + split; [simpl; lia|]. by exists v.
    + destruct (aov_n2o st done Hi u e Hu) as ([? ?] & Hr). split; [lia|done].
  - intros u. rewrite elem_of_app, list_elem_of_singleton, lookup_insert_is_Some',
      (aov_vars st done Hi).
    intuition congruence.
  - intros σ Hd. unfold all_hold. rewrite Forall_app, Forall_singleton. split.
    + pose proof (aov_fwd st done Hi σ Hd) as Hf. unfold all_hold in Hf.
      rewrite Forall_forall in Hf |- *. intros c Hc. rewrite <- (Hf c Hc).
      unfold beval. f_equal. f_equal. apply eval_scoped_ext; [|done].
      pose proof (aov_scoped st done Hi) as Hs. rewrite Forall_forall in Hs.
      intros u Hu. specialize (Hs c Hc u Hu). simpl in Hs. simpl.
      rewrite lookup_insert_ne; [done|]. intros <-. simpl in Hs. lia.
    + rewrite beval_EQ. apply Z.eqb_eq. cbn [eval]. simpl.
      rewrite lookup_insert_eq, lookup_insert_ne by done. rewrite Hvn.
      simpl. by rewrite canon_idem.
  - intros σ Hc. unfold all_hold in Hc. rewrite Forall_app in Hc.
    by apply (aov_bwd st done Hi), Hc.
  - rewrite Forall_app, Forall_singleton. split.
    + eapply Forall_impl; [apply (aov_scoped st done Hi)|].
      intros c Hc. eapply scoped_weaken; [|done]. intros u. simpl. lia.
    + apply scoped_Bin; apply scoped_VarNode; simpl; [lia|]. unfold below in Hv. lia.
  - rewrite Forall_app, Forall_singleton. unfold copy_equality.
    cbn [aov_new_variables aov_new_to_old]. split.
    + eapply Forall_impl; [apply (aov_closed st done Hi)|].
      intros c [(nu & u & -> & Hin & Hu & Hn)|Hc]; [left|right].
      * exists nu, u. split_and!; [done| |done|].
        -- apply elem_of_app. by left.
        -- rewrite lookup_insert_ne; [done|]. intros <-. congruence.
      * eapply scoped_weaken; [|done]. intros u Hu. apply elem_of_app. by left.
    + left. exists nv, v. split_and!; [done| |done|].
      * apply elem_of_app. right. by apply list_elem_of_singleton.
      * by rewrite lookup_insert_eq.
  - destruct (aov_ranges st done Hi) as [Hsub Hk].
    destruct (ranges domain !! v) as [r|] eqn:Er.
    + split.
      * etransitivity; [done|]. by apply insert_subseteq.
      * intros u r' Hu. apply lookup_insert_Some in Hu as [[<- <-]|[Hne' Hu]].
        -- right. exists v. by rewrite lookup_insert_eq.
        -- destruct (Hk u r' Hu) as [?|(w & Hw & ?)]; [by left|right].
           exists w. split; [|done]. rewrite lookup_insert_ne; [done|]. congruence.
    + split; [done|]. intros u r' Hu.
      destruct (Hk u r' Hu) as [?|(w & Hw & ?)]; [by left|right].
      exists w. split; [|done]. rewrite lookup_insert_ne; [done|]. congruence.
Qed.

Lemma AOV_variables_inv l : forall st done,
  aov_inv st done -> Forall (below heap) l ->
  let st' := foldl (AOV_variable domain) st l in
  aov_inv st' done /\ (forall v, v ∈ l -> v ∈ aov_vset st') /\ aov_vset st ⊆ aov_vset st'.
Proof.
  induction l as [|v l IH]; intros st done Hi Hl; cbn [foldl].
  - split_and!; [done| |done]. by intros v ?%elem_of_nil.
  - apply Forall_cons in Hl as [Hv Hl].
    destruct (AOV_variable_inv st done v Hi Hv) as (Hi1 & Hin1 & Hsub1).
    destruct (IH _ _ Hi1 Hl) as (Hi2 & Hin2 & Hsub2).
    split_and!; [done| |by etransitivity].
    intros u [->|Hu]%elem_of_cons; [|by apply Hin2].
    by apply (proj1 (elem_of_subseteq _ _) Hsub2).
Qed.

Lemma AOV_condition_inv st done cond :
  aov_inv st done -> scoped (below heap) cond ->
  aov_inv (AOV_condition domain st cond) (done ++ [cond]).
Proof.
  intros Hi Hc. unfold AOV_condition.
  destruct (ExprFreeVars_spec cond) as [_ Hfv].
  destruct (AOV_variables_inv (ExprFreeVars cond) st done Hi) as (Hi' & Hin & _).
  { apply Forall_forall. intros v Hv. by apply Hc, Hfv. }
  set (st' := foldl (AOV_variable domain) st (ExprFreeVars cond)) in *.
  pose proof (aov_subst_typed st' done Hi') as Hty.
  split; cbn [aov_vset aov_new_variables aov_outer_to_new aov_new_to_old
              aov_new_conditions aov_new_ranges aov_next_id];
    try (by destruct Hi').
  - intros v e Hv. destruct (aov_o2n st' done Hi' v e Hv) as (? & ? & nv & ? & ? & ? & ?).
    split_and!; [done..|]. exists nv. split_and!; try done. apply elem_of_app. by left.
  - intros σ Hd. unfold all_hold in Hd |- *. rewrite Forall_app, Forall_singleton in Hd.
    destruct Hd as [Hd Hcond]. rewrite Forall_app, Forall_singleton.
    split; [by apply (aov_fwd st' done Hi')|].
    rewrite <- Hcond. unfold beval. f_equal. f_equal.
    rewrite eval_Substitute by done. apply eval_scoped_canon_ext; [|done].
    intros v Hv. simpl.
    destruct (aov_outer_to_new st' !! v) as [e|] eqn:E.
    + destruct (aov_o2n st' done Hi' v e E) as (_ & _ & nv & -> & Ht & Hn & _).
      simpl. rewrite Hn. simpl. rewrite Ht. by rewrite !canon_idem.
    + by rewrite (aov_n2o_below st' done v Hi' (Hc v Hv)).
  - intros σ Hd. unfold all_hold in Hd |- *. rewrite Forall_app, Forall_singleton in Hd.
    destruct Hd as [Hd Hcond]. rewrite Forall_app, Forall_singleton.
    split; [by apply (aov_bwd st' done Hi')|].
    rewrite <- Hcond. unfold beval. f_equal. f_equal.
    rewrite eval_Substitute by done. symmetry. apply eval_scoped_canon_ext; [|done].
    intros v Hv. simpl.
    destruct (aov_outer_to_new st' !! v) as [e|] eqn:E; [|done].
    destruct (aov_o2n st' done Hi' v e E) as (_ & _ & nv & -> & Ht & _ & Heq).
    rewrite Forall_forall in Hd. specialize (Hd _ Heq).
    rewrite beval_EQ in Hd. apply Z.eqb_eq in Hd. rewrite Hd. simpl.
    by rewrite canon_idem.
  - rewrite Forall_app, Forall_singleton. split; [apply (aov_scoped st' done Hi')|].
    apply scoped_Substitute.
    + eapply scoped_weaken; [|done]. intros u Hu. pose proof (aov_heap st' done Hi').
      unfold below in Hu. simpl. lia.
    + intros v e Hv. destruct (aov_o2n st' done Hi' v e Hv) as (_ & _ & nv & -> & _ & Hn & _).
      destruct (aov_n2o st' done Hi' nv _ Hn) as [[_ ?] _]. by apply scoped_VarNode.
  - rewrite Forall_app, Forall_singleton. split; [apply (aov_closed st' done Hi')|].
    right. apply scoped_Substitute_cases. intros v Hv.
    destruct (aov_outer_to_new st' !! v) as [e|] eqn:E.
    + destruct (aov_o2n st' done Hi' v e E) as (_ & _ & nv & -> & _ & Hn & _).
      apply scoped_VarNode. apply (aov_vars st' done Hi'). right. by rewrite Hn.
    + assert (v ∈ aov_vset st') as Hvs by (by apply Hin, Hfv).
      apply (aov_set st' done Hi') in Hvs as [?|[Hs|Hs]].
      * apply (aov_vars st' done Hi'). by left.
      * rewrite E in Hs. by destruct Hs.
      * rewrite (aov_n2o_below st' done v Hi' (Hc v Hv)) in Hs. by destruct Hs.
Qed.

Lemma AOV_conditions_inv l : forall st done,
  aov_inv st done -> Forall (scoped (below heap)) l ->
  aov_inv (foldl (AOV_condition domain) st l) (done ++ l).
Proof.
  induction l as [|c l IH]; intros st done Hi Hl; cbn [foldl].
  - by rewrite app_nil_r.
  - apply Forall_cons in Hl as [Hc Hl].
    replace (done ++ c :: l) with ((done ++ [c]) ++ l) by (by rewrite <- app_assoc).
    apply IH; [|done]. by apply AOV_condition_inv.
Qed.


Lemma AddOuterVariablesIntoDomain_inv :
  aov_inv (foldl (AOV_condition domain)
             (mkAOV (list_to_set (variables domain)) (variables domain) ∅ ∅ []
                    (ranges domain) heap)
             (conditions domain))
          (conditions domain).
Proof.
  change (conditions domain) with ([] ++ conditions domain) at 2.
  apply AOV_conditions_inv; [apply aov_inv_initial|done].
Qed.

(** X18. [AddOuterVariablesIntoDomain] returns a transformation from the
    domain given whose two maps are the identity on the variables of the
    domain.  The new domain has the same models: a model of the domain,
    with the copies at the values of their [new_to_old] expressions (their
    outer variables), is a model of the new domain, and a model of the new
    domain is a model of the domain. *)
Theorem AddOuterVariablesIntoDomain_sound :
  let t := AddOuterVariablesIntoDomain domain heap in
  old_domain t = domain /\
  (forall v, v ∈ variables domain ->
     old_to_new t !! v = Some (VarNode v) /\ new_to_old t !! v = Some (VarNode v)) /\
  (forall σ, satisfies σ domain ->
     satisfies (subst_env σ (new_to_old t)) (new_domain t)) /\
  (forall σ, satisfies σ (new_domain t) -> satisfies σ domain).
Proof.
  pose proof AddOuterVariablesIntoDomain_inv as Hi.
  unfold AddOuterVariablesIntoDomain.
  set (st := foldl (AOV_condition domain) _ (conditions domain)) in *.
  cbn zeta. cbn [old_domain new_domain old_to_new new_to_old].
  split; [done|]. split_and!.
  - intros v Hin. rewrite lookup_map_of_vars, lookup_foldl_set_vars.
    by rewrite !decide_True by done.
  - intros σ [Hw Hc].
    set (n2o := foldl (fun m v => <[v := VarNode v]> m) (aov_new_to_old st)
                      (variables domain)).
    assert (forall e, eval (subst_env σ n2o) e
                      = eval (subst_env σ (aov_new_to_old st)) e) as Heq.
    { intros e. apply eval_ext; [|done]. intros v. simpl. unfold n2o.
      rewrite lookup_foldl_set_vars.
      destruct (decide (v ∈ variables domain)) as [Hin|]; [|done].
      rewrite Forall_forall in variables_below.
      rewrite (aov_n2o_below st _ v Hi (variables_below v Hin)).
      simpl. apply canon_idem. }
    destruct domain_ranges_old as [Hrs Hrk].
    split.
    + intros k r Hk. cbn [ranges] in Hk. unfold in_range. rewrite !Heq.
      destruct (aov_ranges st _ Hi) as [_ Hcases].
      destruct (Hcases k r Hk) as [Hd|(v & Hn & Hd)].
      * destruct (Hrs k r Hd) as [H1 H2].
        rewrite !(aov_eval_old st (conditions domain)); try done.
        -- by apply Hw.
        -- apply scoped_VarNode. by apply (Hrk k r).
      * destruct (Hrs v r Hd) as [H1 H2].
        rewrite !(aov_eval_old st (conditions domain) σ (range_min r)),
          !(aov_eval_old st (conditions domain) σ (range_extent r)) by done.
        destruct (aov_n2o st _ Hi k _ Hn) as (_ & v' & [= <-] & _ & Ht).
        assert (eval (subst_env σ (aov_new_to_old st)) (VarNode k) = eval σ (VarNode v))
          as ->.
        { simpl. rewrite Hn. simpl. rewrite Ht. by rewrite canon_idem. }
        by apply Hw.
    + cbn [conditions]. eapply Forall_impl; [apply (aov_fwd st _ Hi σ Hc)|].
      intros c Hb. unfold beval in *. by rewrite Heq.
  - intros σ [Hw Hc]. cbn [ranges conditions] in Hw, Hc. split.
    + intros k r Hk. apply Hw. cbn [ranges].
      destruct (aov_ranges st _ Hi) as [Hsub _]. by eapply lookup_weaken.
    + by apply (aov_bwd st _ Hi).
Qed.

(** X19. In the result of [AddOuterVariablesIntoDomain], [new_to_old] is
    defined on the variables of the new domain and on no other, and every
    condition of the new domain either equates a copy with its outer
    variable or mentions variables of the new domain only. *)
Theorem AddOuterVariablesIntoDomain_closed :
  let t := AddOuterVariablesIntoDomain domain heap in
  (forall v, v ∈ variables (new_domain t) <-> is_Some (new_to_old t !! v)) /\
  Forall (fun c =>
            (exists nv v, c = Bin EQ (VarNode nv) (VarNode v) /\
                          nv ∈ variables (new_domain t) /\ (v ∉ variables domain) /\
                          new_to_old t !! nv = Some (VarNode v)) \/
            scoped (fun u => u ∈ variables (new_domain t)) c)
         (conditions (new_domain t)).
Proof.
  pose proof AddOuterVariablesIntoDomain_inv as Hi.
  unfold AddOuterVariablesIntoDomain.
  set (st := foldl (AOV_condition domain) _ (conditions domain)) in *.
  cbn zeta. cbn [old_domain new_domain old_to_new new_to_old variables conditions].
  split.
  - intros v. rewrite lookup_foldl_set_vars, (aov_vars st _ Hi).
    destruct (decide (v ∈ variables domain)); [|tauto].
    split; [by eexists|by left].
  - eapply Forall_impl; [apply (aov_closed st _ Hi)|].
    intros c [(nv & v & -> & Hin & Hv & Hn)|Hc]; [left|by right].
    exists nv, v. split_and!; try done.
    rewrite lookup_foldl_set_vars, decide_False; [done|].
    intros Hd. rewrite Forall_forall in variables_below.
    by rewrite (aov_n2o_below st _ nv Hi (variables_below nv Hd)) in Hn.
Qed.

End AddOuterVariablesSoundness.


(** ** Iteration variables *)

(** [IterVarType], and [IterVar]: a variable with its range, the type of
    the iteration and the thread tag. *)
Inductive IterVarType : Type :=
| kDataPar | kThreadIndex | kCommReduce | kOrdered | kOpaque
| kUnrolled | kVectorized | kParallelized | kTensorized.

Record IterVar : Type := mkIterVar {
  iv_dom : Range;
  iv_var : Var;
  iv_iter_type : IterVarType;
  iv_thread_tag : string
}.

(** [IterVarsToInequalities] *)
Definition IterVarsToInequalities (itervars : list IterVar) : list Expr :=
  foldl (fun res v =>
           res ++ [(VarNode (iv_var v) >= range_min (iv_dom v))%E;
                   (VarNode (iv_var v)
                    < range_min (iv_dom v) + range_extent (iv_dom v))%E])
        [] itervars.

(** [IterVarsToMap] *)
Definition IterVarsToMap (itervars : list IterVar) : gmap Var Range :=
  foldl (fun res v => <[iv_var v := iv_dom v]> res) ∅ itervars.

(** [IterVarsToVars] *)
Definition IterVarsToVars (itervars : list IterVar) : list Var :=
  foldl (fun res v => res ++ [iv_var v]) [] itervars.

(** [IterVarsFromMap]: [None] is the failed [CHECK] that every variable has
    a range in the map. *)
Definition IterVarsFromMap (vars : list Var) (vranges : gmap Var Range)
    (iter_type : IterVarType) (thread_tag : string) : option (list IterVar) :=
  foldl (fun res v =>
           res ← res;
           r ← vranges !! v;
           Some (res ++ [mkIterVar r v iter_type thread_tag]))
        (Some []) vars.

Lemma IterVarsToInequalities_unfold itervars :
  IterVarsToInequalities itervars
  = concat (map (fun v => [(VarNode (iv_var v) >= range_min (iv_dom v))%E;
                           (VarNode (iv_var v)
                            < range_min (iv_dom v) + range_extent (iv_dom v))%E])
                itervars).
Proof.
  unfold IterVarsToInequalities.
  enough (forall acc,
            foldl (fun res v =>
                     res ++ [(VarNode (iv_var v) >= range_min (iv_dom v))%E;
                             (VarNode (iv_var v)
                              < range_min (iv_dom v) + range_extent (iv_dom v))%E])
                  acc itervars
            = acc ++ concat (map (fun v =>
                       [(VarNode (iv_var v) >= range_min (iv_dom v))%E;
                        (VarNode (iv_var v)
                         < range_min (iv_dom v) + range_extent (iv_dom v))%E]) itervars))
    as H by apply (H []).
  induction itervars as [|v l IH]; intros acc; simpl; [by rewrite app_nil_r|].
  by rewrite IH, <- !app_assoc.
Qed.

Lemma IterVarsToVars_unfold itervars : IterVarsToVars itervars = map iv_var itervars.
Proof.
  unfold IterVarsToVars.
  enough (forall acc, foldl (fun res v => res ++ [iv_var v]) acc itervars
                      = acc ++ map iv_var itervars) as H by apply (H []).
  induction itervars as [|v l IH]; intros acc; simpl; [by rewrite app_nil_r|].
  by rewrite IH, <- app_assoc.
Qed.

Lemma IterVarsToMap_snoc itervars v :
  IterVarsToMap (itervars ++ [v]) = <[iv_var v := iv_dom v]> (IterVarsToMap itervars).
Proof. unfold IterVarsToMap. by rewrite foldl_app. Qed.

(** The map holds, for a variable, the range of its last iteration
    variable. *)
Lemma IterVarsToMap_lookup itervars v r :
  IterVarsToMap itervars !! v = Some r <->
  exists l1 iv l2, itervars = l1 ++ iv :: l2 /\ iv_var iv = v /\ iv_dom iv = r /\
                   v ∉ map iv_var l2.
Proof.
  revert r. induction itervars as [|iv l IH] using rev_ind; intros r.
  - unfold IterVarsToMap. simpl. rewrite lookup_empty. split; [done|].
    intros (l1 & iv & l2 & H & _). by destruct l1.
  - rewrite IterVarsToMap_snoc. destruct (decide (iv_var iv = v)) as [Hv|Hv].
    + rewrite Hv, lookup_insert_eq. split.
      * intros [= <-]. exists l, iv, []. split_and!; try done. apply not_elem_of_nil.
      * intros (l1 & iv' & l2 & H & Hv' & Hr & Hn).
        destruct l2 as [|x l2 _] using rev_ind.
        -- apply app_inj_tail in H as [_ ->]. by rewrite Hr.
        -- rewrite app_comm_cons, app_assoc in H. apply app_inj_tail in H as [_ ->].
           exfalso. apply Hn. rewrite map_app, elem_of_app. right. simpl.
           rewrite Hv. by left.
    + rewrite lookup_insert_ne by done. rewrite IH. split.
      * intros (l1 & iv' & l2 & -> & Hv' & Hr & Hn).
        exists l1, iv', (l2 ++ [iv]). rewrite <- app_assoc. split_and!; try done.
        rewrite map_app, elem_of_app. simpl. rewrite list_elem_of_singleton.
        intros [?|?]; [done|]. by apply Hv.
      * intros (l1 & iv' & l2 & H & Hv' & Hr & Hn).
        destruct l2 as [|x l2 _] using rev_ind.
        -- apply app_inj_tail in H as [_ ->]. done.
        -- rewrite app_comm_cons, app_assoc in H. apply app_inj_tail in H as [-> ->].
           exists l1, iv', l2. split_and!; try done.
           intros Hin. apply Hn. rewrite map_app, elem_of_app. by left.
Qed.

Lemma beval_GE σ a b : beval σ (a >= b)%E = (eval σ b <=? eval σ a).
Proof.
  unfold beval. simpl. rewrite (canon_b2z TBool).
  by destruct (eval σ b <=? eval σ a).
Qed.

Lemma beval_LT_sum σ a b c :
  is_bool (type_of b) = false ->
  beval σ (a < b + c)%E = (eval σ a <? eval σ b + eval σ c).
Proof.
  intros Hb. unfold beval. cbn [eval type_of is_comparison is_logical orb bin_sem].
  rewrite (canon_not_bool (type_of b)) by done. rewrite (canon_b2z TBool).
  by destruct (eval σ a <? eval σ b + eval σ c).
Qed.

(** X7. The inequalities of [IterVarsToInequalities] hold at an assignment
    exactly when every iteration variable is within its range, for ranges
    of integer type; so for distinct variables exactly when the assignment
    is within the map of [IterVarsToMap], and [IterVarsToVars] lists the
    keys of that map. *)
Theorem IterVarsToInequalities_within (itervars : list IterVar) (σ : Env) :
  Forall (fun v => is_bool (type_of (range_min (iv_dom v))) = false) itervars ->
  NoDup (IterVarsToVars itervars) ->
  (Forall (fun c => beval σ c = true) (IterVarsToInequalities itervars) <->
   within σ (IterVarsToMap itervars)) /\
  (forall v, v ∈ IterVarsToVars itervars <-> is_Some (IterVarsToMap itervars !! v)).
Proof.
  rewrite IterVarsToVars_unfold, IterVarsToInequalities_unfold. intros Hty Hnd.
  assert (forall iv, iv ∈ itervars -> IterVarsToMap itervars !! iv_var iv = Some (iv_dom iv))
    as Hin.
  { intros iv Hiv. apply IterVarsToMap_lookup.
    apply list_elem_of_split in Hiv as (l1 & l2 & ->).
    exists l1, iv, l2. split_and!; try done.
    rewrite map_app in Hnd. apply NoDup_app in Hnd as (_ & _ & Hnd).
    simpl in Hnd. by apply NoDup_cons in Hnd as [? _]. }
  split.
  - split.
    + intros Hall v r Hr.
      apply IterVarsToMap_lookup in Hr as (l1 & iv & l2 & -> & <- & <- & _).
      rewrite map_app, concat_app, Forall_app in Hall. destruct Hall as [_ Hall].
      simpl in Hall. apply Forall_cons in Hall as [Hge Hall].
      apply Forall_cons in Hall as [Hlt _].
      apply Forall_app in Hty as [_ Hty]. apply Forall_cons in Hty as [Hty _].
      rewrite beval_GE in Hge. rewrite beval_LT_sum in Hlt by done.
      unfold in_range. lia.
    + intros Hw. apply Forall_concat, Forall_map, Forall_forall. intros iv Hiv.
      rewrite Forall_forall in Hty.
      specialize (Hw _ _ (Hin iv Hiv)). unfold in_range in Hw.
      repeat apply Forall_cons_2; [| |done].
      * rewrite beval_GE. apply Z.leb_le. lia.
      * rewrite beval_LT_sum by (by apply Hty). apply Z.ltb_lt. lia.
  - intros v. split.
    + intros Hv. apply list_elem_of_fmap_1 in Hv as (iv & -> & Hiv).
      rewrite (Hin iv Hiv). by eexists.
    + intros [r Hr].
      apply IterVarsToMap_lookup in Hr as (l1 & iv & l2 & -> & <- & _).
      rewrite map_app, elem_of_app. right. simpl. by left.
Qed.

Lemma IterVarsFromMap_app vars1 vars2 vranges iter_type thread_tag :
  IterVarsFromMap (vars1 ++ vars2) vranges iter_type thread_tag
  = foldl (fun res v =>
             res ← res;
             r ← vranges !! v;
             Some (res ++ [mkIterVar r v iter_type thread_tag]))
          (IterVarsFromMap vars1 vranges iter_type thread_tag) vars2.
Proof. unfold IterVarsFromMap. by rewrite foldl_app. Qed.

(** X8. [IterVarsFromMap] fails exactly when a variable has no range in the
    map; a result lists the variables given, in order, each with its range
    in the map and with the type and tag given, so [IterVarsToVars] gives
    the variables back. *)
Theorem IterVarsFromMap_spec (vars : list Var) (vranges : gmap Var Range)
    (iter_type : IterVarType) (thread_tag : string) :
  (IterVarsFromMap vars vranges iter_type thread_tag = None <->
   exists v, v ∈ vars /\ vranges !! v = None) /\
  forall itervars, IterVarsFromMap vars vranges iter_type thread_tag = Some itervars ->
    IterVarsToVars itervars = vars /\
    Forall (fun iv => vranges !! iv_var iv = Some (iv_dom iv) /\
                      iv_iter_type iv = iter_type /\ iv_thread_tag iv = thread_tag)
           itervars.
Proof.
  induction vars as [|v vars IH] using rev_ind.
  - split.
    + split; [done|]. intros (v & Hv & _). by apply elem_of_nil in Hv.
    + intros itervars [= <-]. by split.
  - rewrite IterVarsFromMap_app. simpl. destruct IH as [IHn IHs].
    destruct (IterVarsFromMap vars vranges iter_type thread_tag) as [ivs|] eqn:E.
    + simpl. destruct (IHs ivs eq_refl) as [Hvars Hall].
      destruct (vranges !! v) as [r|] eqn:Er; simpl.
      * split.
        -- split; [done|]. intros (u & Hu & Hn).
           apply elem_of_app in Hu as [Hu|Hu].
           ++ assert (Some ivs = None) as H; [|done]. apply IHn. by exists u.
           ++ apply list_elem_of_singleton in Hu as ->. congruence.
        -- intros itervars [= <-]. split.
           ++ rewrite IterVarsToVars_unfold, map_app. simpl.
              by rewrite <- IterVarsToVars_unfold, Hvars.
           ++ apply Forall_app. split; [done|]. by apply Forall_singleton.
      * split; [|done]. split; [|done]. intros _. exists v. split; [|done].
        apply elem_of_app. right. by apply list_elem_of_singleton.
    + simpl. split; [|done]. split; [|done]. intros _.
      destruct IHn as [IHn _]. destruct (IHn eq_refl) as (u & Hu & Hn).
      exists u. split; [|done]. apply elem_of_app. by left.
Qed.


(** ** The greatest common divisor and the least common multiple on [int] *)

Lemma to_int_id (z : Z) : - 2 ^ 31 <= z < 2 ^ 31 -> to_int z = z.
Proof. intros H. unfold to_int. rewrite Z.mod_small; lia. Qed.

Lemma gcd_loop_spec (fuel : nat) : forall a b,
  Z.abs b < Z.of_nat fuel ->
  Z.abs (gcd_loop fuel a b) = Z.gcd a b /\
  (0 <= a -> 0 <= b -> 0 <= gcd_loop fuel a b).
Proof.
  induction fuel as [|fuel IH]; intros a b Hf; [lia|].
  simpl. destruct (Z.eqb_spec b 0) as [->|Hb].
  - rewrite Z.gcd_0_r. split; [done|]. lia.
  - pose proof (Z.rem_bound_abs a b Hb) as Hr.
    destruct (IH b (Z.rem a b)) as [Hg Hs]; [lia|].
    split.
    + rewrite Hg. rewrite (Z.gcd_comm a b).
      replace (Z.rem a b) with (a + (- (a ÷ b)) * b)
        by (pose proof (Z.quot_rem' a b); lia).
      apply Z.gcd_add_mult_diag_r.
    + intros Ha Hb0. apply Hs; [done|]. apply Z.rem_nonneg; lia.
Qed.

(** X12. On arguments in the range of [int] other than its least value,
    [gcd(a, b)] is the greatest common divisor of [a] and [b] up to its
    sign, and the greatest common divisor itself when neither argument is
    negative. *)
Theorem gcd_spec (a b : Z) :
  - 2 ^ 31 < a < 2 ^ 31 -> - 2 ^ 31 < b < 2 ^ 31 ->
  Z.abs (gcd a b) = Z.gcd a b /\ (0 <= a -> 0 <= b -> gcd a b = Z.gcd a b).
Proof.
  intros Ha Hb. unfold gcd. rewrite !to_int_id by lia.
  destruct (a <? b) eqn:E.
  - destruct (gcd_loop_spec (S (Z.abs_nat a)) b a) as [Hg Hs]; [lia|].
    rewrite (Z.gcd_comm a b). split; [done|]. intros H1 H2. rewrite <- Hg.
    symmetry. apply Z.abs_eq. by apply Hs.
  - destruct (gcd_loop_spec (S (Z.abs_nat b)) a b) as [Hg Hs]; [lia|].
    split; [done|]. intros H1 H2. rewrite <- Hg.
    symmetry. apply Z.abs_eq. by apply Hs.
Qed.

(** X13. [lcm(a, b)] of two positive arguments whose product is in the
    range of [int] is their least common multiple; it is undefined (a
    division by zero) when both arguments are zero. *)
Theorem lcm_spec (a b : Z) :
  (0 < a -> 0 < b -> a * b < 2 ^ 31 -> lcm a b = Some (Z.lcm a b)) /\
  (a = 0 -> b = 0 -> lcm a b = None).
Proof.
  split; [|by intros -> ->]. intros Ha Hb Hab.
  assert (a < 2 ^ 31 /\ b < 2 ^ 31) as [Ha' Hb'] by nia.
  unfold lcm. rewrite !to_int_id by lia.
  destruct (gcd_spec a b) as [_ Hg]; [lia|lia|]. rewrite Hg by lia.
  assert (0 < Z.gcd a b) as Hpos.
  { pose proof (Z.gcd_nonneg a b). assert (Z.gcd a b <> 0); [|lia].
    intros H0. apply Z.gcd_eq_0_l in H0. lia. }
  destruct (Z.eqb_spec (Z.gcd a b) 0); [lia|].
  replace ((- 2 ^ 31 <=? a * b) && (a * b <? 2 ^ 31)) with true
    by (symmetry; apply andb_true_iff; split; [apply Z.leb_le|apply Z.ltb_lt]; nia).
  f_equal. rewrite Z.quot_div_nonneg by nia.
  unfold Z.lcm. rewrite Z.abs_eq.
  - apply Z.divide_div_mul_exact; [lia|apply Z.gcd_divide_r].
  - apply Z.mul_nonneg_nonneg; [lia|]. apply Z.div_pos; lia.
Qed.


(** ** The extended Euclidean algorithm and the diagonalization *)

(** X1. For [a] and [b] not both zero, [xgcd a b] returns [(g, x, y)] with
    [g] nonzero, [g = x*a + y*b], and [g] the greatest common divisor of
    [a] and [b] up to its sign: the three [CHECK]s at the end of [xgcd]
    do not fail. *)
Theorem xgcd_bezout (a b : Z) :
  a <> 0 \/ b <> 0 ->
  let '(g, x, y) := xgcd a b in
  g <> 0 /\ g = x * a + y * b /\ Z.rem a g = 0 /\ Z.rem b g = 0 /\
  Z.abs g = Z.gcd a b.
Proof.
  intros Hab. pose proof (xgcd_spec a b) as H.
  destruct (xgcd a b) as [[g x] y]. destruct H as (Hg & Ha & Hb & _).
  assert (g <> 0) as Hg0.
  { intros ->. apply Z.divide_0_l in Ha, Hb. lia. }
  assert ((Z.gcd a b | g)) as Hdiv.
  { rewrite Hg. apply Z.divide_add_r; apply Z.divide_mul_r;
      [apply Z.gcd_divide_l|apply Z.gcd_divide_r]. }
  assert (forall c, (g | c) -> Z.rem c g = 0) as Hrem.
  { intros c [k ->]. by apply Z.rem_mul. }
  split_and!; [done|done|by apply Hrem|by apply Hrem|].
  apply Z.divide_antisym_nonneg; [lia|apply Z.gcd_nonneg| |].
  - apply Z.divide_abs_l. by apply Z.gcd_greatest.
  - by apply Z.divide_abs_r.
Qed.

(** X2. The diagonalization loop of [SolveSystemOfEquations] terminates on
    every matrix whose rows have one entry per variable, whatever the
    budget beyond some bound, and the matrix it leaves has the rows and
    columns of the matrix given and is zero off the diagonal. *)
Theorem diagonalize_diagonal (matrix : list (list Z)) (rhs n2o : list Expr) (n : nat) :
  mwf n matrix -> length rhs = length matrix -> length n2o = n ->
  exists fuel st,
    (forall fuel', (fuel <= fuel')%nat ->
       diagonalize fuel' n 0 (mkDiag matrix rhs (identity_matrix n) n2o) = Some st) /\
    length (d_matrix st) = length matrix /\ mwf n (d_matrix st) /\
    forall i j, i <> j -> mget (d_matrix st) i j = 0.
Proof.
  intros Hm Hrhs Hn2o.
  destruct (diagonalize_total matrix rhs n2o n Hm Hrhs Hn2o)
    as (fuel & st & Hrun & Hlen & Hwf & Hp).
  exists fuel, st. split_and!; try done.
  intros i j Hne.
  destruct (decide (i < length matrix)%nat) as [Hi|Hi];
    [|apply mget_row_ge; lia].
  destruct (decide (j < n)%nat) as [Hj|Hj]; [|by apply (mget_col_ge n); [|lia]].
  apply Hp; [|done]. lia.
Qed.


(** ** The solver of systems of equations as a whole

    The contracts of the collaborators of the solver, and the conditions
    on a domain under which its result is related to the domain: the
    variables are distinct integers, the equations compare integers, the
    ranges are typed as their variables and have bounds over the outer
    variables only, and the variables that the solver creates are new
    ([next_id] is the first address not in use). *)
Record solver_contracts (rewrite_simplify canonical_simplify : gmap Var Range -> Expr -> Expr)
    (EvalSet_cover_range : gmap Var Range -> Expr -> option Range)
    (DetectLinearEquation : Expr -> list Var -> list Expr) : Prop := {
  rewrite_simplify_ok : simplifier_sound rewrite_simplify;
  canonical_simplify_ok : simplifier_sound canonical_simplify;
  rewrite_simplify_vars : simplifier_scoped rewrite_simplify;
  canonical_simplify_vars : simplifier_scoped canonical_simplify;
  rewrite_simplify_type : simplifier_typed rewrite_simplify;
  canonical_simplify_type : simplifier_typed canonical_simplify;
  detect_length : detector_arity DetectLinearEquation;
  detect_value : detector_sound DetectLinearEquation;
  detect_vars : detector_scoped DetectLinearEquation;
  evalset_cover : evalset_sound EvalSet_cover_range
}.

Record solver_domain (domain : Domain) (next_id : N) : Prop := {
  domain_variables_NoDup : NoDup (variables domain);
  domain_variables_int : Forall (fun v => is_bool (vty v) = false) (variables domain);
  domain_variables_below : Forall (below next_id) (variables domain);
  domain_conditions_typed : Forall cond_typed (conditions domain);
  domain_conditions_below : Forall (scoped (below next_id)) (conditions domain);
  domain_ranges_are_typed : ranges_typed (ranges domain);
  domain_ranges_are_outer : ranges_scoped (outer domain next_id) (ranges domain);
  domain_ranges_are_below : forall v r, ranges domain !! v = Some r -> below next_id v
}.

Section Solver.

Variables rewrite_simplify canonical_simplify : gmap Var Range -> Expr -> Expr.
Variable Compare : Expr -> Expr -> Z.
Variable EvalSet_cover_range : gmap Var Range -> Expr -> option Range.
Variable DetectLinearEquation : Expr -> list Var -> list Expr.

Let solve (fuel : nat) (domain : Domain) (next_id : N) : option DomainTransformation :=
  SolveSystemOfEquations rewrite_simplify canonical_simplify Compare EvalSet_cover_range
    DetectLinearEquation fuel domain next_id.

(** A result does not depend on the budget of the diagonalization. *)
Lemma SolveSystemOfEquations_fuel_mono fuel fuel' domain next_id t :
  solve fuel domain next_id = Some t -> (fuel <= fuel')%nat ->
  solve fuel' domain next_id = Some t.
Proof.
  unfold solve. rewrite !SolveSystemOfEquations_unfold. intros E Hf.
  destruct (diagonalize fuel _ _ _) as [st|] eqn:Ed; [|done].
  by rewrite (diagonalize_fuel_mono _ fuel fuel' _ _ st Ed Hf).
Qed.

Lemma SolveSystemOfEquations_result domain next_id :
  solver_contracts rewrite_simplify canonical_simplify EvalSet_cover_range
    DetectLinearEquation ->
  solver_domain domain next_id ->
  exists fuel0 t0,
    solve fuel0 domain next_id = Some t0 /\
    (forall fuel t, solve fuel domain next_id = Some t -> t = t0) /\
    old_domain t0 = domain /\
    (forall σ', satisfies σ' (new_domain t0) ->
       let σ := subst_env σ' (old_to_new t0) in
       satisfies σ domain /\
       forall v e, new_to_old t0 !! v = Some e -> eval σ e = eval σ' (VarNode v)) /\
    (forall σ, satisfies σ domain ->
       let σ' := subst_env σ (new_to_old t0) in
       satisfies σ' (new_domain t0) /\
       forall v e, old_to_new t0 !! v = Some e -> eval σ' e = eval σ (VarNode v)).
Proof.
  intros [] [].
  destruct (SolveSystemOfEquations_models rewrite_simplify canonical_simplify
              ltac:(done) ltac:(done) Compare (fun _ => false) EvalSet_cover_range
              DetectLinearEquation ltac:(done) ltac:(done) ltac:(done) ltac:(done)
              ltac:(done) ltac:(done) ltac:(done) ltac:(done) domain next_id)
    as (fuel0 & t0 & Hrun & Hrest); try done.
  exists fuel0, t0. split; [by apply Hrun|]. split; [|done].
  intros fuel t E.
  pose proof (SolveSystemOfEquations_fuel_mono fuel (Nat.max fuel fuel0) _ _ _ E
                ltac:(lia)) as E'.
  unfold solve in E'. rewrite Hrun in E' by lia. by injection E'.
Qed.

(** X3. Under the contracts of the simplifiers, of the detection of linear
    equations and of the interval evaluation, [SolveSystemOfEquations]
    returns on a domain of distinct integer variables, and every model of
    the new domain of its result gives a model of the domain: the
    assignment that gives each old variable the value of its [old_to_new]
    expression is within the ranges of the domain and makes its conditions
    true; there each [new_to_old] expression has the value that the model
    gives to its new variable. *)
Theorem SolveSystemOfEquations_new_to_old domain next_id :
  solver_contracts rewrite_simplify canonical_simplify EvalSet_cover_range
    DetectLinearEquation ->
  solver_domain domain next_id ->
  (exists fuel, solve fuel domain next_id <> None) /\
  forall fuel t, solve fuel domain next_id = Some t ->
    old_domain t = domain /\
    forall σ', satisfies σ' (new_domain t) ->
      satisfies (subst_env σ' (old_to_new t)) domain /\
      forall v e, new_to_old t !! v = Some e ->
        eval (subst_env σ' (old_to_new t)) e = eval σ' (VarNode v).
Proof.
  intros Hc Hd.
  destruct (SolveSystemOfEquations_result domain next_id Hc Hd)
    as (fuel0 & t0 & Hrun & Huniq & Hold & Hn2o & _).
  split; [exists fuel0; by rewrite Hrun|].
  intros fuel t E. apply Huniq in E as ->. split; [done|]. apply Hn2o.
Qed.

(** X4. Under the same contracts, every model of the domain gives a model
    of the new domain of the result of [SolveSystemOfEquations]: the
    assignment that gives each new variable the value of its [new_to_old]
    expression is within the new ranges and makes the new conditions true
    (so the result is not the empty transformation when the domain has a
    model); there each [old_to_new] expression has the value that the
    model gives to its old variable. *)
Theorem SolveSystemOfEquations_old_to_new domain next_id :
  solver_contracts rewrite_simplify canonical_simplify EvalSet_cover_range
    DetectLinearEquation ->
  solver_domain domain next_id ->
  (exists fuel, solve fuel domain next_id <> None) /\
  forall fuel t, solve fuel domain next_id = Some t ->
    forall σ, satisfies σ domain ->
      satisfies (subst_env σ (new_to_old t)) (new_domain t) /\
      forall v e, old_to_new t !! v = Some e ->
        eval (subst_env σ (new_to_old t)) e = eval σ (VarNode v).
Proof.
  intros Hc Hd.
  destruct (SolveSystemOfEquations_result domain next_id Hc Hd)
    as (fuel0 & t0 & Hrun & Huniq & _ & _ & Ho2n).
  split; [exists fuel0; by rewrite Hrun|].
  intros fuel t E. apply Huniq in E as ->. apply Ho2n.
Qed.

(** C2. Under the contracts of the simplifiers, of the detection of linear
    equations and of the interval evaluation, on a domain of distinct
    integer variables with well-typed conditions and ranges over outer
    variables, [SolveSystemOfEquations] returns a transformation from the
    domain that is sound in both directions.  Every model of the
    new domain comes, through [new_to_old], from a model of the domain:
    the assignment that gives each old variable the value of its
    [old_to_new] expression is within the ranges of the domain, makes its
    conditions true, and there each [new_to_old] expression has the value
    of its new variable.  Every model of the domain comes, through
    [old_to_new], from a model of the new domain: the assignment that
    gives each new variable the value of its [new_to_old] expression is
    within the new ranges, makes the new conditions true, and there each
    [old_to_new] expression has the value of its old variable. *)
Theorem SolveSystemOfEquations_sound domain next_id :
  solver_contracts rewrite_simplify canonical_simplify EvalSet_cover_range
    DetectLinearEquation ->
  solver_domain domain next_id ->
  (exists fuel, solve fuel domain next_id <> None) /\
  forall fuel t, solve fuel domain next_id = Some t ->
    old_domain t = domain /\
    (forall σ', satisfies σ' (new_domain t) ->
       satisfies (subst_env σ' (old_to_new t)) domain /\
       forall v e, new_to_old t !! v = Some e ->
         eval (subst_env σ' (old_to_new t)) e = eval σ' (VarNode v)) /\
    (forall σ, satisfies σ domain ->
       satisfies (subst_env σ (new_to_old t)) (new_domain t) /\
       forall v e, old_to_new t !! v = Some e ->
         eval (subst_env σ (new_to_old t)) e = eval σ (VarNode v)).
Proof.
  intros Hc Hd.
  destruct (SolveSystemOfEquations_result domain next_id Hc Hd)
    as (fuel0 & t0 & Hrun & Huniq & Hold & Hn2o & Ho2n).
  split; [exists fuel0; by rewrite Hrun|].
  intros fuel t E. apply Huniq in E as ->. split; [done|]. split; [apply Hn2o|apply Ho2n].
Qed.

End Solver.


(** ** The functor of [NonzeronessCondition] on all scalar node kinds

    [NonzeronessConditionFunctor] has a case for floating-point
    immediates, and none for [Load], [Let], [Reduce], [Ramp], [Broadcast]
    and [Shuffle].  The expressions of this part add the floating-point
    type, the floating-point immediates and the node kinds without a case
    to those above; a floating-point value is an IEEE 754 value
    ([spec_float], in the format of [Float(32)]). *)
Module Full.

Inductive FType : Type := Scalar (t : DType) | TFloat.

#[global] Instance FType_eq_dec : EqDecision FType.
Proof. solve_decision. Defined.

Definition f_is_bool (t : FType) : bool :=
  match t with Scalar t => is_bool t | TFloat => false end.

Record FVar : Type := mkFVar { fvid : N; fvty : FType }.

#[global] Instance FVar_eq_dec : EqDecision FVar.
Proof. solve_decision. Defined.

(** The node kinds for which the functor has no case. *)
Inductive OtherKind : Type := Load | Let | Reduce | Ramp | Broadcast | Shuffle.

#[global] Instance OtherKind_eq_dec : EqDecision OtherKind.
Proof. solve_decision. Defined.

Inductive FExpr : Type :=
| FVarNode (v : FVar)
| FIntImm (t : FType) (value : Z)
| FUIntImm (t : FType) (value : Z)
| FFloatImm (t : FType) (value : SpecFloat.spec_float)
| FStringImm (s : string)
| FCast (t : FType) (value : FExpr)
| FBin (op : BinOp) (a b : FExpr)
| FNot (a : FExpr)
| FSelect (condition true_value false_value : FExpr)
| FCall (t : FType) (name : string) (args : list FExpr) (call_type : CallType)
| FOther (kind : OtherKind) (t : FType) (children : list FExpr).

Section FExprInduction.
Variable P : FExpr -> Prop.
Hypothesis HVar : forall v, P (FVarNode v).
Hypothesis HInt : forall t n, P (FIntImm t n).
Hypothesis HUInt : forall t n, P (FUIntImm t n).
Hypothesis HFloat : forall t x, P (FFloatImm t x).
Hypothesis HString : forall s, P (FStringImm s).
Hypothesis HCast : forall t a, P a -> P (FCast t a).
Hypothesis HBin : forall op a b, P a -> P b -> P (FBin op a b).
Hypothesis HNot : forall a, P a -> P (FNot a).
Hypothesis HSelect : forall c t f, P c -> P t -> P f -> P (FSelect c t f).
Hypothesis HCall : forall t name args ct, Forall P args -> P (FCall t name args ct).
Hypothesis HOther : forall k t args, Forall P args -> P (FOther k t args).

Fixpoint FExpr_ind_strong (e : FExpr) : P e :=
  let go := fix go (l : list FExpr) : Forall P l :=
      match l with
      | [] => Forall_nil_2 P
      | x :: l0 => Forall_cons_2 P x l0 (FExpr_ind_strong x) (go l0)
      end in
  match e with
  | FVarNode v => HVar v
  | FIntImm t n => HInt t n
  | FUIntImm t n => HUInt t n
  | FFloatImm t x => HFloat t x
  | FStringImm s => HString s
  | FCast t a => HCast t a (FExpr_ind_strong a)
  | FBin op a b => HBin op a b (FExpr_ind_strong a) (FExpr_ind_strong b)
  | FNot a => HNot a (FExpr_ind_strong a)
  | FSelect c t f =>
      HSelect c t f (FExpr_ind_strong c) (FExpr_ind_strong t) (FExpr_ind_strong f)
  | FCall t name args ct => HCall t name args ct (go args)
  | FOther k t args => HOther k t args (go args)
  end.
End FExprInduction.

Lemma spec_float_eq_dec : forall x y : SpecFloat.spec_float, {x = y} + {x <> y}.
Proof. decide equality; try apply Bool.bool_dec; try apply Z.eq_dec; apply Pos.eq_dec. Defined.

Lemma FExpr_eq_dec : forall x y : FExpr, {x = y} + {x <> y}.
Proof.
  fix IH 1. intros x y. decide equality;
    try apply Z.eq_dec; try apply string_dec; try apply spec_float_eq_dec;
    try apply FType_eq_dec; try apply FVar_eq_dec; try apply OtherKind_eq_dec;
    try apply CallType_eq_dec; try apply BinOp_eq_dec;
    apply (List.list_eq_dec IH).
Defined.

#[global] Instance FExpr_eq_decision : EqDecision FExpr := FExpr_eq_dec.

(** [e.type()] *)
Fixpoint ftype_of (e : FExpr) : FType :=
  match e with
  | FVarNode v => fvty v
  | FIntImm t _ | FUIntImm t _ | FFloatImm t _ => t
  | FStringImm _ => Scalar THandle
  | FCast t _ => t
  | FBin op a _ => if is_comparison op || is_logical op then Scalar TBool else ftype_of a
  | FNot _ => Scalar TBool
  | FSelect _ t _ => ftype_of t
  | FCall t _ _ _ => t
  | FOther _ t _ => t
  end.

(** *** Values *)

(** The format of [Float(32)]. *)
Definition fprec : Z := 24.
Definition femax : Z := 128.

Inductive Value : Type := VInt (z : Z) | VFloat (x : SpecFloat.spec_float).

Definition to_Z (v : Value) : Z := match v with VInt z => z | VFloat _ => 0 end.
Definition to_float (v : Value) : SpecFloat.spec_float :=
  match v with VFloat x => x | VInt _ => SpecFloat.S754_zero false end.

(** A value at a type: an integer in the representation of the type, or a
    floating-point value. *)
Definition at_type (t : FType) (v : Value) : Value :=
  match t with
  | Scalar t => VInt (canon t (to_Z v))
  | TFloat => VFloat (to_float v)
  end.

(** The conversions of [Cast]: the nearest floating-point value of an
    integer, and the integer part of a floating-point value (of a finite
    one; the conversion of an infinity or a NaN is undefined in the
    source). *)
Definition Z_to_float (z : Z) : SpecFloat.spec_float :=
  SpecFloat.binary_normalize fprec femax z 0 false.

Definition float_to_Z (x : SpecFloat.spec_float) : Z :=
  match x with
  | SpecFloat.S754_finite s m e =>
      let n := if 0 <=? e then Z.pos m * 2 ^ e else Z.pos m / 2 ^ (- e) in
      if s then - n else n
  | _ => 0
  end.

Definition cast_value (t : FType) (v : Value) : Value :=
  match t, v with
  | TFloat, VInt z => VFloat (Z_to_float z)
  | Scalar _, VFloat x => VInt (float_to_Z x)
  | _, _ => v
  end.

(** An environment gives the variables and the callees their values; the
    value of a node of a kind without a case (memory, bindings, vector
    lanes) and the floating-point remainder and floor division are given
    by the environment too. *)
Record FEnv : Type := mkFEnv {
  fval : FVar -> Value;
  fcall : string -> list Value -> Value;
  fother : OtherKind -> FType -> list FExpr -> Value;
  float_op : BinOp -> SpecFloat.spec_float -> SpecFloat.spec_float -> SpecFloat.spec_float
}.

Definition float_bin (σ : FEnv) (op : BinOp) (x y : SpecFloat.spec_float) : Value :=
  match op with
  | Add => VFloat (SpecFloat.SFadd fprec femax x y)
  | Sub => VFloat (SpecFloat.SFsub fprec femax x y)
  | Mul => VFloat (SpecFloat.SFmul fprec femax x y)
  | Div => VFloat (SpecFloat.SFdiv fprec femax x y)
  | Min => VFloat (if SpecFloat.SFltb x y then x else y)
  | Max => VFloat (if SpecFloat.SFltb x y then y else x)
  | Mod | FloorDiv | FloorMod => VFloat (float_op σ op x y)
  | EQ => VInt (b2z (SpecFloat.SFeqb x y))
  | NE => VInt (b2z (negb (SpecFloat.SFeqb x y)))
  | LT => VInt (b2z (SpecFloat.SFltb x y))
  | LE => VInt (b2z (SpecFloat.SFleb x y))
  | GT => VInt (b2z (SpecFloat.SFltb y x))
  | GE => VInt (b2z (SpecFloat.SFleb y x))
  | And | Or => VInt (bin_sem op 0 0)
  end.

Definition bin_value (σ : FEnv) (op : BinOp) (v1 v2 : Value) : Value :=
  match v1, v2 with
  | VFloat x, VFloat y => float_bin σ op x y
  | _, _ => VInt (bin_sem op (to_Z v1) (to_Z v2))
  end.

Definition fcall_value (σ : FEnv) (name : string) (vals : list Value) : Value :=
  match vals with
  | [c; x; y] =>
      if String.eqb name tvm_if_then_else
      then (if to_Z c =? 0 then y else x)
      else fcall σ name vals
  | _ => fcall σ name vals
  end.

Fixpoint feval (σ : FEnv) (e : FExpr) : Value :=
  match e with
  | FVarNode v => at_type (fvty v) (fval σ v)
  | FIntImm t n => at_type t (VInt n)
  | FUIntImm t n => at_type t (VInt n)
  | FFloatImm t x => at_type t (VFloat x)
  | FStringImm _ => VInt 0
  | FCast t a => at_type t (cast_value t (feval σ a))
  | FBin op a b => at_type (ftype_of (FBin op a b)) (bin_value σ op (feval σ a) (feval σ b))
  | FNot a => VInt (b2z (to_Z (feval σ a) =? 0))
  | FSelect c t f =>
      at_type (ftype_of t) (if to_Z (feval σ c) =? 0 then feval σ f else feval σ t)
  | FCall t name args _ => at_type t (fcall_value σ name (map (feval σ) args))
  | FOther k t args => at_type t (fother σ k t args)
  end.

(** Well-typed expressions: the checks of the node constructors. *)
Fixpoint fwt (e : FExpr) : bool :=
  match e with
  | FVarNode _ | FIntImm _ _ | FUIntImm _ _ | FStringImm _ => true
  | FFloatImm t _ => bool_decide (t = TFloat)
  | FCast _ a => fwt a
  | FBin op a b =>
      fwt a && fwt b &&
      (if is_logical op then f_is_bool (ftype_of a) && f_is_bool (ftype_of b)
       else bool_decide (ftype_of a = ftype_of b))
  | FNot a => fwt a && f_is_bool (ftype_of a)
  | FSelect c t f =>
      fwt c && fwt t && fwt f && f_is_bool (ftype_of c) &&
      bool_decide (ftype_of t = ftype_of f)
  | FCall ty name args _ =>
      forallb fwt args &&
      (if String.eqb name tvm_if_then_else
       then match args with
            | [c; x; y] =>
                f_is_bool (ftype_of c) && bool_decide (ftype_of x = ty) &&
                bool_decide (ftype_of y = ty)
            | _ => false
            end
       else true)
  | FOther _ _ args => forallb fwt args
  end.

(** The expressions without floating point made of the node kinds the
    functor has a case for. *)
Definition integral_type (t : FType) : bool :=
  match t with Scalar _ => true | TFloat => false end.

Fixpoint integral (e : FExpr) : bool :=
  match e with
  | FVarNode v => integral_type (fvty v)
  | FIntImm t _ | FUIntImm t _ => integral_type t
  | FFloatImm _ _ => false
  | FStringImm _ => true
  | FCast t a => integral_type t && integral a
  | FBin _ a b => integral a && integral b
  | FNot a => integral a
  | FSelect c t f => integral c && integral t && integral f
  | FCall t _ args _ => integral_type t && forallb integral args
  | FOther _ _ _ => false
  end.

(** *** The helpers of the IR and of the pass *)

(** [make_const(t, value)]: a [FloatImm] for a floating-point type. *)
Definition fmake_const (t : FType) (value : Z) : FExpr :=
  match t with
  | TFloat => FFloatImm t (Z_to_float value)
  | Scalar t' => if is_uint t' then FUIntImm t value else FIntImm t value
  end.
Definition fmake_zero (t : FType) : FExpr := fmake_const t 0.
Definition fconst_true : FExpr := fmake_const (Scalar TBool) 1.
Definition fconst_false : FExpr := fmake_const (Scalar TBool) 0.

(** [op->value == 0] of a floating-point immediate: both zeros are. *)
Definition float_is (x : SpecFloat.spec_float) (value : Z) : bool :=
  SpecFloat.SFeqb x (Z_to_float value).

Fixpoint f_is_const_value (e : FExpr) (value : Z) : bool :=
  match e with
  | FIntImm _ n => n =? value
  | FUIntImm _ n => (0 <=? value) && (n =? value)
  | FFloatImm _ x => float_is x value
  | FCast _ a => f_is_const_value a value
  | _ => false
  end.

Definition f_if_then_else (c x y : FExpr) : FExpr :=
  FCall (ftype_of x) tvm_if_then_else [c; x; y] PureIntrinsic.

Definition FEqual (a b : FExpr) : bool := bool_decide (a = b).

Definition FSelectElseZero (cond on_true : FExpr) : FExpr :=
  FSelect cond on_true (fmake_zero (ftype_of on_true)).

Section Functor.

(** The two simplifiers of the analyzer with no range bound. *)
Variable rewrite_simplify : FExpr -> FExpr.
Variable canonical_simplify : FExpr -> FExpr.

(** [SuperSimplify(e)] with the default, empty map of ranges: no variable
    is replaced and no range is bound. *)
Definition FSuperSimplify (e : FExpr) : FExpr :=
  let res := e in
  let res := rewrite_simplify res in
  let res := canonical_simplify res in
  let res := rewrite_simplify res in
  res.

Record FNonzeronessConditionResult : Type :=
  mkFNZ { fcond : FExpr; fvalue : FExpr }.

Definition f_to_expr (r : FNonzeronessConditionResult) : FExpr :=
  FSelectElseZero (fcond r) (fvalue r).

Definition FDefault_ (e : FExpr) : FNonzeronessConditionResult :=
  mkFNZ fconst_true e.

(** [Const_]: the test [op->value == 0] is given as a Boolean. *)
Definition FConst_ (is_zero_value : bool) (e : FExpr) : FNonzeronessConditionResult :=
  if is_zero_value then mkFNZ fconst_false e else mkFNZ fconst_true e.

Definition FBinOpAddLike_ (op : BinOp) (nz_a nz_b : FNonzeronessConditionResult)
  : FNonzeronessConditionResult :=
  if FEqual (fcond nz_a) (fcond nz_b) then
    mkFNZ (fcond nz_a) (FBin op (fvalue nz_a) (fvalue nz_b))
  else
    let new_cond := FSuperSimplify (FBin Or (fcond nz_a) (fcond nz_b)) in
    let new_a := if FEqual (fcond nz_a) new_cond then fvalue nz_a else f_to_expr nz_a in
    let new_b := if FEqual (fcond nz_b) new_cond then fvalue nz_b else f_to_expr nz_b in
    let new_expr := FBin op new_a new_b in
    mkFNZ new_cond new_expr.

Definition FBinOpMulLike_ (op : BinOp) (nz_a nz_b : FNonzeronessConditionResult)
  : FNonzeronessConditionResult :=
  let new_cond := FSuperSimplify (FBin And (fcond nz_a) (fcond nz_b)) in
  mkFNZ new_cond (FBin op (fvalue nz_a) (fvalue nz_b)).

Definition FBinOpDivLike_ (op : BinOp) (nz_a : FNonzeronessConditionResult) (b : FExpr)
  : FNonzeronessConditionResult :=
  mkFNZ (fcond nz_a) (FBin op (fvalue nz_a) b).

Definition FSelect_ (cond0 : FExpr) (nz_a nz_b : FNonzeronessConditionResult)
  : FNonzeronessConditionResult :=
  if f_is_const_value (fvalue nz_b) 0 then
    let new_cond := FSuperSimplify (FBin And (fcond nz_a) cond0) in
    mkFNZ new_cond (fvalue nz_a)
  else if f_is_const_value (fvalue nz_a) 0 then
    let new_cond := FSuperSimplify (FBin And (fcond nz_b) (FNot cond0)) in
    mkFNZ new_cond (fvalue nz_b)
  else
    let new_cond :=
      FSuperSimplify (FBin Or (FBin And cond0 (fcond nz_a))
                              (FBin And (FNot cond0) (fcond nz_b))) in
    mkFNZ new_cond (FSelect cond0 (fvalue nz_a) (fvalue nz_b)).

Definition FIfThenElse_ (cond0 : FExpr) (nz_a nz_b : FNonzeronessConditionResult)
  : FNonzeronessConditionResult :=
  let new_cond :=
    FSuperSimplify (FBin Or (FBin And cond0 (fcond nz_a))
                            (FBin And (FNot cond0) (fcond nz_b))) in
  mkFNZ new_cond (f_if_then_else cond0 (fvalue nz_a) (fvalue nz_b)).

(** [NonzeronessConditionFunctor]: the entry point tests the type and then
    dispatches on the node; [None] is the fatal error of a node kind
    without a case.  The comparison and logical nodes and [Not] are of
    type [Bool] and never dispatched.  The intrinsic [tvm_if_then_else] has
    three arguments; the source reads [args[0..2]] without a test, the
    embedding treats another arity as any other call.  The node is rebuilt
    from the new operands; where the source returns [e] itself because the
    operands are the same nodes, the rebuilt node is that same
    expression. *)
Fixpoint FNonzeronessCondition (e : FExpr) : option FNonzeronessConditionResult :=
  if f_is_bool (ftype_of e) then Some (mkFNZ e fconst_true)
  else
    match e with
    | FVarNode _ => Some (FDefault_ e)
    | FIntImm _ n => Some (FConst_ (n =? 0) e)
    | FUIntImm _ n => Some (FConst_ (n =? 0) e)
    | FFloatImm _ x => Some (FConst_ (float_is x 0) e)
    | FStringImm _ => Some (FDefault_ e)
    | FBin op a b =>
        match op with
        | Add | Sub | Min | Max =>
            nz_a ← FNonzeronessCondition a;
            nz_b ← FNonzeronessCondition b;
            Some (FBinOpAddLike_ op nz_a nz_b)
        | Mul =>
            nz_a ← FNonzeronessCondition a;
            nz_b ← FNonzeronessCondition b;
            Some (FBinOpMulLike_ op nz_a nz_b)
        | Div | Mod | FloorDiv | FloorMod =>
            nz_a ← FNonzeronessCondition a;
            Some (FBinOpDivLike_ op nz_a b)
        | _ => None
        end
    | FNot _ => None
    | FCast t a =>
        nz_a ← FNonzeronessCondition a;
        Some (mkFNZ (fcond nz_a) (FCast t (fvalue nz_a)))
    | FSelect c true_val false_val =>
        nz_a ← FNonzeronessCondition true_val;
        nz_b ← FNonzeronessCondition false_val;
        Some (FSelect_ c nz_a nz_b)
    | FCall _ name args _ =>
        if String.eqb name tvm_if_then_else then
          match args with
          | [c; true_val; false_val] =>
              nz_a ← FNonzeronessCondition true_val;
              nz_b ← FNonzeronessCondition false_val;
              Some (FIfThenElse_ c nz_a nz_b)
          | _ => Some (FDefault_ e)
          end
        else Some (FDefault_ e)
    | FOther _ _ _ => None
    end.

(** [LiftNonzeronessCondition] *)
Definition FLiftNonzeronessCondition (expr : FExpr) : option FExpr :=
  f_to_expr <$> FNonzeronessCondition expr.

End Functor.


(** *** The expressions without floating point

    The expressions of the first part are those of this part that are
    [integral]; on them the functor and the values are those of the first
    part. *)
Definition inj_var (v : Var) : FVar := mkFVar (vid v) (Scalar (vty v)).

Fixpoint inj (e : Expr) : FExpr :=
  match e with
  | VarNode v => FVarNode (inj_var v)
  | IntImm t n => FIntImm (Scalar t) n
  | UIntImm t n => FUIntImm (Scalar t) n
  | StringImm s => FStringImm s
  | Cast t a => FCast (Scalar t) (inj a)
  | Bin op a b => FBin op (inj a) (inj b)
  | Not a => FNot (inj a)
  | Select c t f => FSelect (inj c) (inj t) (inj f)
  | Call t name args ct => FCall (Scalar t) name (map inj args) ct
  end.

Definition proj_type (t : FType) : DType :=
  match t with Scalar t => t | TFloat => THandle end.

Fixpoint proj (e : FExpr) : Expr :=
  match e with
  | FVarNode v => VarNode (mkVar (fvid v) (proj_type (fvty v)))
  | FIntImm t n => IntImm (proj_type t) n
  | FUIntImm t n => UIntImm (proj_type t) n
  | FFloatImm _ _ => StringImm EmptyString
  | FStringImm s => StringImm s
  | FCast t a => Cast (proj_type t) (proj a)
  | FBin op a b => Bin op (proj a) (proj b)
  | FNot a => Not (proj a)
  | FSelect c t f => Select (proj c) (proj t) (proj f)
  | FCall t name args ct => Call (proj_type t) name (map proj args) ct
  | FOther _ _ _ => StringImm EmptyString
  end.

Lemma proj_inj e : proj (inj e) = e.
Proof.
  induction e as [v|t n|t n|s|t a IHa|op a b IHa IHb|a IHa|c t f IHc IHt IHf
                 |t name args ct IHargs] using Expr_ind_strong; simpl;
    try congruence.
  - by destruct v.
  - f_equal. rewrite map_map. induction IHargs; simpl; congruence.
Qed.

Lemma inj_inj a b : inj a = inj b -> a = b.
Proof. intros H. by rewrite <- (proj_inj a), <- (proj_inj b), H. Qed.

Lemma integral_inj e : integral (inj e) = true.
Proof.
  induction e as [v|t n|t n|s|t a IHa|op a b IHa IHb|a IHa|c t f IHc IHt IHf
                 |t name args ct IHargs] using Expr_ind_strong; simpl;
    rewrite ?IHa, ?IHb, ?IHc, ?IHt, ?IHf; try done.
  induction IHargs as [|a args Ha _ IH]; simpl; [done|]. by rewrite Ha.
Qed.

Lemma inj_proj x : integral x = true -> inj (proj x) = x.
Proof.
  induction x as [v|t n|t n|t x|s|t a IHa|op a b IHa IHb|a IHa|c t f IHc IHt IHf
                 |t name args ct IHargs|k t args IHargs] using FExpr_ind_strong;
    simpl; intros H; try done.
  - destruct v as [id [t|]]; done.
  - by destruct t.
  - by destruct t.
  - apply andb_true_iff in H as [Ht Ha]. destruct t; [|done]. simpl. by rewrite IHa.
  - apply andb_true_iff in H as [Ha Hb]. by rewrite IHa, IHb.
  - by rewrite IHa.
  - apply andb_true_iff in H as [H Hf]. apply andb_true_iff in H as [Hc Ht].
    by rewrite IHc, IHt, IHf.
  - apply andb_true_iff in H as [Ht Ha]. destruct t; [|done]. simpl. f_equal.
    rewrite map_map. induction IHargs as [|a args Hx _ IH]; simpl; [done|].
    simpl in Ha. apply andb_true_iff in Ha as [? ?]. f_equal; auto.
Qed.

Lemma ftype_of_inj e : ftype_of (inj e) = Scalar (type_of e).
Proof.
  induction e as [v|t n|t n|s|t a IHa|op a b IHa IHb|a IHa|c t f IHc IHt IHf
                 |t name args ct IHargs] using Expr_ind_strong; simpl; try done.
  by destruct (is_comparison op || is_logical op).
Qed.

Lemma f_is_bool_inj e : f_is_bool (ftype_of (inj e)) = is_bool (type_of e).
Proof. by rewrite ftype_of_inj. Qed.

Lemma fwt_inj e : fwt (inj e) = wt e.
Proof.
  induction e as [v|t n|t n|s|t a IHa|op a b IHa IHb|a IHa|c t f IHc IHt IHf
                 |t name args ct IHargs] using Expr_ind_strong; simpl;
    rewrite ?IHa, ?IHb, ?IHc, ?IHt, ?IHf, ?f_is_bool_inj, ?ftype_of_inj; try done.
  - f_equal. destruct (is_logical op); [done|].
    apply bool_decide_ext. split; congruence.
  - f_equal. apply bool_decide_ext. split; congruence.
  - f_equal.
    + induction IHargs as [|a args Ha _ IH]; simpl; [done|]. by rewrite Ha, IH.
    + destruct (String.eqb name tvm_if_then_else); [|done].
      destruct args as [|c [|x [|y [|]]]]; simpl; try done.
      rewrite f_is_bool_inj, !ftype_of_inj. f_equal; [f_equal|];
        apply bool_decide_ext; split; congruence.
Qed.

Lemma f_is_const_value_inj e z : f_is_const_value (inj e) z = is_const_value e z.
Proof. induction e; simpl; try done. Qed.

Lemma fmake_const_inj t z : fmake_const (Scalar t) z = inj (make_const t z).
Proof. unfold fmake_const, make_const. by destruct (is_uint t). Qed.

Lemma FEqual_inj a b : FEqual (inj a) (inj b) = Equal a b.
Proof.
  unfold FEqual, Equal. apply bool_decide_ext. split; [apply inj_inj|by intros ->].
Qed.

(** The values: a floating-point environment and an integer environment
    that agree on the variables and the callees of integer type. *)
Definition env_rel (σF : FEnv) (σ : Env) : Prop :=
  (forall v, canon (vty v) (to_Z (fval σF (inj_var v))) = canon (vty v) (val σ v)) /\
  (forall name zs, to_Z (fcall σF name (map VInt zs)) = call σ name zs).

Definition down (σF : FEnv) : Env :=
  mkEnv (fun v => to_Z (fval σF (inj_var v)))
        (fun name zs => to_Z (fcall σF name (map VInt zs))).

Definition up (σ : Env) : FEnv :=
  mkFEnv (fun v => VInt (val σ (mkVar (fvid v) (proj_type (fvty v)))))
         (fun name vs => VInt (call σ name (map to_Z vs)))
         (fun _ _ _ => VInt 0)
         (fun _ x _ => x).

Lemma env_rel_down σF : env_rel σF (down σF).
Proof. by split. Qed.

Lemma env_rel_up σ : env_rel (up σ) σ.
Proof.
  split.
  - intros [id t]. done.
  - intros name zs. simpl. f_equal. rewrite map_map. simpl. apply map_id.
Qed.

Lemma fcall_value_inj σF σ name zs :
  env_rel σF σ ->
  to_Z (fcall_value σF name (map VInt zs)) = call_value σ name zs.
Proof.
  intros [_ Hc]. unfold fcall_value, call_value.
  destruct zs as [|c [|x [|y [|w zs]]]];
    [exact (Hc name []) | exact (Hc name [c]) | exact (Hc name [c; x]) |
    | exact (Hc name (c :: x :: y :: w :: zs))].
  simpl. destruct (String.eqb name tvm_if_then_else); [|apply (Hc name [c; x; y])].
  by destruct (c =? 0).
Qed.

Lemma feval_inj σF σ e : env_rel σF σ -> feval σF (inj e) = VInt (eval σ e).
Proof.
  intros Hr.
  induction e as [v|t n|t n|s|t a IHa|op a b IHa IHb|a IHa|c t f IHc IHt IHf
                 |t name args ct IHargs] using Expr_ind_strong; simpl.
  - f_equal. apply Hr.
  - done.
  - done.
  - done.
  - by rewrite IHa.
  - rewrite IHa, IHb, ftype_of_inj. simpl.
    by destruct (is_comparison op || is_logical op).
  - by rewrite IHa.
  - rewrite IHc, IHt, IHf, ftype_of_inj. simpl. by destruct (eval σ c =? 0).
  - f_equal. f_equal.
    assert (map (feval σF) (map inj args) = map VInt (map (eval σ) args)) as ->.
    { rewrite !map_map. induction IHargs as [|a args Ha _ IH]; simpl; [done|].
      by rewrite Ha, IH. }
    by apply fcall_value_inj.
Qed.

(** *** The contract of the simplifiers *)

(** A simplifier keeps the value of the expression, and brings no
    floating point and no other node kind into an expression that has
    none. *)
Definition fsimplifier_sound (simp : FExpr -> FExpr) : Prop :=
  forall e σ, feval σ (simp e) = feval σ e.
Definition fsimplifier_integral (simp : FExpr -> FExpr) : Prop :=
  forall e, integral e = true -> integral (simp e) = true.

(** The simplifier on the expressions without floating point. *)
Definition int_simplify (simp : FExpr -> FExpr) (vranges : gmap Var Range) (e : Expr)
  : Expr := proj (simp (inj e)).

Lemma inj_int_simplify simp vranges e :
  fsimplifier_integral simp -> inj (int_simplify simp vranges e) = simp (inj e).
Proof. intros Hi. apply inj_proj, Hi, integral_inj. Qed.

Lemma int_simplify_sound simp :
  fsimplifier_sound simp -> fsimplifier_integral simp ->
  simplifier_sound (int_simplify simp).
Proof.
  intros Hs Hi vranges e σ _.
  assert (VInt (eval σ (int_simplify simp vranges e)) = VInt (eval σ e)) as H;
    [|by injection H].
  rewrite <- !(feval_inj (up σ)) by apply env_rel_up.
  by rewrite inj_int_simplify, Hs.
Qed.

Section FunctorSoundness.

Variable rewrite_simplify : FExpr -> FExpr.
Variable canonical_simplify : FExpr -> FExpr.
Hypothesis rewrite_simplify_sound : fsimplifier_sound rewrite_simplify.
Hypothesis canonical_simplify_sound : fsimplifier_sound canonical_simplify.
Hypothesis rewrite_simplify_integral : fsimplifier_integral rewrite_simplify.
Hypothesis canonical_simplify_integral : fsimplifier_integral canonical_simplify.

Let rs := int_simplify rewrite_simplify.
Let cs := int_simplify canonical_simplify.

Definition inj_result (r : NonzeronessConditionResult) : FNonzeronessConditionResult :=
  mkFNZ (inj (cond r)) (inj (value r)).

Lemma FSuperSimplify_inj e :
  FSuperSimplify rewrite_simplify canonical_simplify (inj e)
  = inj (SuperSimplify rs cs e ∅).
Proof.
  unfold FSuperSimplify, SuperSimplify. rewrite omap_empty.
  rewrite decide_True by done. unfold rs, cs.
  by rewrite !inj_int_simplify.
Qed.

Lemma f_to_expr_inj r : f_to_expr (inj_result r) = inj (to_expr r).
Proof.
  unfold f_to_expr, to_expr, FSelectElseZero, SelectElseZero, fmake_zero, make_zero.
  simpl. by rewrite ftype_of_inj, fmake_const_inj.
Qed.

Lemma FBinOpAddLike_inj op ra rb :
  FBinOpAddLike_ rewrite_simplify canonical_simplify op (inj_result ra) (inj_result rb)
  = inj_result (BinOpAddLike_ rs cs op ra rb).
Proof.
  unfold FBinOpAddLike_, BinOpAddLike_. cbn [fcond fvalue inj_result].
  rewrite FEqual_inj. destruct (Equal (cond ra) (cond rb)); [done|].
  change (FBin Or (inj (cond ra)) (inj (cond rb))) with (inj (cond ra || cond rb)%E).
  rewrite FSuperSimplify_inj, !FEqual_inj.
  change (mkFNZ (inj (cond ra)) (inj (value ra))) with (inj_result ra).
  change (mkFNZ (inj (cond rb)) (inj (value rb))) with (inj_result rb).
  rewrite !f_to_expr_inj. unfold inj_result. cbn [cond value inj].
  by destruct (Equal (cond ra) _), (Equal (cond rb) _).
Qed.

Lemma FBinOpMulLike_inj op ra rb :
  FBinOpMulLike_ rewrite_simplify canonical_simplify op (inj_result ra) (inj_result rb)
  = inj_result (BinOpMulLike_ rs cs op ra rb).
Proof.
  unfold FBinOpMulLike_, BinOpMulLike_. cbn [fcond fvalue inj_result].
  change (FBin And (inj (cond ra)) (inj (cond rb))) with (inj (cond ra && cond rb)%E).
  by rewrite FSuperSimplify_inj.
Qed.

Lemma FSelect_inj c ra rb :
  FSelect_ rewrite_simplify canonical_simplify (inj c) (inj_result ra) (inj_result rb)
  = inj_result (Select_ rs cs c ra rb).
Proof.
  unfold FSelect_, Select_. cbn [fcond fvalue inj_result].
  rewrite !f_is_const_value_inj.
  change (FBin And (inj (cond ra)) (inj c)) with (inj (cond ra && c)%E).
  change (FBin And (inj (cond rb)) (FNot (inj c))) with (inj (cond rb && Not c)%E).
  change (FBin Or (FBin And (inj c) (inj (cond ra)))
                  (FBin And (FNot (inj c)) (inj (cond rb))))
    with (inj ((c && cond ra) || (Not c && cond rb))%E).
  rewrite !FSuperSimplify_inj.
  by destruct (is_const_value (value rb) 0), (is_const_value (value ra) 0).
Qed.

Lemma FIfThenElse_inj c ra rb :
  FIfThenElse_ rewrite_simplify canonical_simplify (inj c) (inj_result ra) (inj_result rb)
  = inj_result (IfThenElse_ rs cs c ra rb).
Proof.
  unfold FIfThenElse_, IfThenElse_. cbn [fcond fvalue inj_result].
  change (FBin Or (FBin And (inj c) (inj (cond ra)))
                  (FBin And (FNot (inj c)) (inj (cond rb))))
    with (inj ((c && cond ra) || (Not c && cond rb))%E).
  rewrite FSuperSimplify_inj. unfold inj_result, f_if_then_else, if_then_else.
  cbn [cond value inj map]. by rewrite ftype_of_inj.
Qed.

Lemma FNonzeronessCondition_unfold e :
  FNonzeronessCondition rewrite_simplify canonical_simplify e =
  if f_is_bool (ftype_of e) then Some (mkFNZ e fconst_true)
  else
    match e with
    | FVarNode _ => Some (FDefault_ e)
    | FIntImm _ n => Some (FConst_ (n =? 0) e)
    | FUIntImm _ n => Some (FConst_ (n =? 0) e)
    | FFloatImm _ x => Some (FConst_ (float_is x 0) e)
    | FStringImm _ => Some (FDefault_ e)
    | FBin op a b =>
        match op with
        | Add | Sub | Min | Max =>
            nz_a ← FNonzeronessCondition rewrite_simplify canonical_simplify a;
            nz_b ← FNonzeronessCondition rewrite_simplify canonical_simplify b;
            Some (FBinOpAddLike_ rewrite_simplify canonical_simplify op nz_a nz_b)
        | Mul =>
            nz_a ← FNonzeronessCondition rewrite_simplify canonical_simplify a;
            nz_b ← FNonzeronessCondition rewrite_simplify canonical_simplify b;
            Some (FBinOpMulLike_ rewrite_simplify canonical_simplify op nz_a nz_b)
        | Div | Mod | FloorDiv | FloorMod =>
            nz_a ← FNonzeronessCondition rewrite_simplify canonical_simplify a;
            Some (FBinOpDivLike_ op nz_a b)
        | _ => None
        end
    | FNot _ => None
    | FCast t a =>
        nz_a ← FNonzeronessCondition rewrite_simplify canonical_simplify a;
        Some (mkFNZ (fcond nz_a) (FCast t (fvalue nz_a)))
    | FSelect c true_val false_val =>
        nz_a ← FNonzeronessCondition rewrite_simplify canonical_simplify true_val;
        nz_b ← FNonzeronessCondition rewrite_simplify canonical_simplify false_val;
        Some (FSelect_ rewrite_simplify canonical_simplify c nz_a nz_b)
    | FCall _ name args _ =>
        if String.eqb name tvm_if_then_else then
          match args with
          | [c; true_val; false_val] =>
              nz_a ← FNonzeronessCondition rewrite_simplify canonical_simplify true_val;
              nz_b ← FNonzeronessCondition rewrite_simplify canonical_simplify false_val;
              Some (FIfThenElse_ rewrite_simplify canonical_simplify c nz_a nz_b)
          | _ => Some (FDefault_ e)
          end
        else Some (FDefault_ e)
    | FOther _ _ _ => None
    end.
Proof. by destruct e. Qed.

(** On an expression without floating point the functor returns, and
    returns what the functor of the first part returns. *)
Lemma FNonzeronessCondition_inj e :
  FNonzeronessCondition rewrite_simplify canonical_simplify (inj e)
  = Some (inj_result (NonzeronessCondition rs cs e)).
Proof.
  induction e as [v|t n|t n|s|t a IHa|op a b IHa IHb|a IHa|c t f IHc IHt IHf
                 |t name args ct IHargs] using Expr_ind_strong;
    rewrite FNonzeronessCondition_unfold, NonzeronessCondition_unfold, f_is_bool_inj;
    (destruct (is_bool (type_of _)) eqn:Hb; [done|]); cbn [inj].
  - done.
  - unfold FConst_, Const_. by destruct (n =? 0).
  - unfold FConst_, Const_. by destruct (n =? 0).
  - done.
  - by rewrite IHa.
  - destruct op; try (by simpl in Hb); rewrite IHa; cbn [mbind option_bind];
      try rewrite IHb; cbn [mbind option_bind];
      rewrite ?FBinOpAddLike_inj, ?FBinOpMulLike_inj; done.
  - done.
  - rewrite IHt, IHf. cbn [mbind option_bind]. by rewrite FSelect_inj.
  - destruct (String.eqb name tvm_if_then_else); [|done].
    destruct args as [|c [|x [|y [|]]]]; try done.
    inversion IHargs as [|? ? _ H']; subst. inversion H' as [|? ? IHx H'']; subst.
    inversion H'' as [|? ? IHy _]; subst.
    cbn [map]. rewrite IHx, IHy. cbn [mbind option_bind]. by rewrite FIfThenElse_inj.
Qed.

(** C1, as the code has it.  On a well-typed expression without floating
    point, made of the node kinds the functor has a case for, under
    simplifiers that keep the value and bring in no floating point,
    [NonzeronessCondition] returns a pair [(c, v)] such that the expression
    has the value of [select(c, v, 0)] under every assignment, and
    [LiftNonzeronessCondition] returns an expression of the same value.  On
    a node of another kind that is not of type [Bool] the functor raises a
    fatal error. *)
Theorem FLiftNonzeronessCondition_sound (e : FExpr) :
  integral e = true -> fwt e = true ->
  (exists r,
     FNonzeronessCondition rewrite_simplify canonical_simplify e = Some r /\
     FLiftNonzeronessCondition rewrite_simplify canonical_simplify e
     = Some (FSelectElseZero (fcond r) (fvalue r)) /\
     forall σ, feval σ (FSelectElseZero (fcond r) (fvalue r)) = feval σ e) /\
  forall k t args,
    f_is_bool t = false ->
    FNonzeronessCondition rewrite_simplify canonical_simplify (FOther k t args) = None.
Proof.
  intros Hi Hwt. split.
  - rewrite <- (inj_proj e Hi) in *. set (e' := proj e) in *.
    rewrite fwt_inj in Hwt.
    exists (inj_result (NonzeronessCondition rs cs e')). split_and!.
    + apply FNonzeronessCondition_inj.
    + unfold FLiftNonzeronessCondition. by rewrite FNonzeronessCondition_inj.
    + intros σ.
      change (FSelectElseZero _ _)
        with (f_to_expr (inj_result (NonzeronessCondition rs cs e'))).
      rewrite f_to_expr_inj.
      rewrite !(feval_inj σ (down σ)) by apply env_rel_down. f_equal.
      apply NonzeronessCondition_sound; [..|done];
        by apply int_simplify_sound.
  - intros k t args Ht. rewrite FNonzeronessCondition_unfold. simpl. by rewrite Ht.
Qed.

End FunctorSoundness.

End Full.


(** ** Reference collaborators

    Instances of the external collaborators that satisfy the contracts
    above; the examples below run the pass with them. *)
Module Reference.

(** The simplifier that leaves every expression as it is. *)
Definition simplify (vranges : gmap Var Range) (e : Expr) : Expr := e.

Lemma simplify_sound : simplifier_sound simplify.
Proof. by intros vranges e σ _. Qed.



(** The simplifier that folds an expression without variables and calls
    into the constant of its value. *)
Fixpoint closed (e : Expr) : bool :=
  match e with
  | VarNode _ | StringImm _ | Call _ _ _ _ => false
  | IntImm _ _ | UIntImm _ _ => true
  | Cast _ a | Not a => closed a
  | Bin _ a b => closed a && closed b
  | Select c t f => closed c && closed t && closed f
  end.

Definition no_env : Env := mkEnv (fun _ => 0) (fun _ _ => 0).

Definition fold_constants (vranges : gmap Var Range) (e : Expr) : Expr :=
  if closed e then make_const (type_of e) (eval no_env e) else e.

Lemma eval_closed σ e : closed e = true -> eval σ e = eval no_env e.
Proof.
  induction e using Expr_ind_strong; simpl; intros Hc; bsplit; try done.
  - by rewrite IHe.
  - by rewrite IHe1, IHe2.
  - by rewrite IHe.
  - by rewrite IHe1, IHe2, IHe3.
Qed.

Lemma fold_constants_sound : simplifier_sound fold_constants.
Proof.
  intros vranges e σ _. unfold fold_constants.
  destruct (closed e) eqn:Hc; [|done].
  rewrite eval_make_const, <- (eval_closed σ) by done. apply eval_canon.
Qed.

(** The interval evaluator that never infers a range. *)
Definition EvalSet_cover_range (vranges : gmap Var Range) (e : Expr) : option Range := None.

(** A call has a side effect unless it is pure. *)
Fixpoint HasSideEffect (e : Expr) : bool :=
  match e with
  | VarNode _ | IntImm _ _ | UIntImm _ _ | StringImm _ => false
  | Cast _ a | Not a => HasSideEffect a
  | Bin _ a b => HasSideEffect a || HasSideEffect b
  | Select c t f => HasSideEffect c || HasSideEffect t || HasSideEffect f
  | Call _ _ args ct =>
      match ct with
      | PureExtern | PureIntrinsic => existsb HasSideEffect args
      | _ => true
      end
  end.

(** The deep comparison: the order of an injective numbering of the
    expressions. *)
Definition BinOp_tag (op : BinOp) : nat :=
  match op with
  | Add => 0 | Sub => 1 | Mul => 2 | Div => 3 | Mod => 4 | FloorDiv => 5
  | FloorMod => 6 | Min => 7 | Max => 8 | EQ => 9 | NE => 10 | LT => 11
  | LE => 12 | GT => 13 | GE => 14 | And => 15 | Or => 16
  end%nat.

Definition CallType_tag (ct : CallType) : nat :=
  match ct with
  | Extern => 0 | PureExtern => 1 | Halide => 2 | Intrinsic => 3 | PureIntrinsic => 4
  end%nat.

Lemma BinOp_tag_inj op1 op2 : BinOp_tag op1 = BinOp_tag op2 -> op1 = op2.
Proof. by destruct op1, op2. Qed.

Lemma CallType_tag_inj ct1 ct2 : CallType_tag ct1 = CallType_tag ct2 -> ct1 = ct2.
Proof. by destruct ct1, ct2. Qed.

Fixpoint to_tree (e : Expr) : gen_tree positive :=
  match e with
  | VarNode v => GenNode 0 [GenLeaf (encode v)]
  | IntImm t n => GenNode 1 [GenLeaf (encode t); GenLeaf (encode n)]
  | UIntImm t n => GenNode 2 [GenLeaf (encode t); GenLeaf (encode n)]
  | StringImm s => GenNode 3 [GenLeaf (encode s)]
  | Cast t a => GenNode 4 [GenLeaf (encode t); to_tree a]
  | Bin op a b => GenNode 5 [GenLeaf (encode (BinOp_tag op)); to_tree a; to_tree b]
  | Not a => GenNode 6 [to_tree a]
  | Select c t f => GenNode 7 [to_tree c; to_tree t; to_tree f]
  | Call t name args ct =>
      GenNode 8 (GenLeaf (encode t) :: GenLeaf (encode name)
                 :: GenLeaf (encode (CallType_tag ct)) :: map to_tree args)
  end.

Lemma to_tree_inj e : forall e', to_tree e = to_tree e' -> e = e'.
Proof.
  induction e as [v|t n|t n|s|t a IHa|op a b IHa IHb|a IHa|c t f IHc IHt IHf
                 |t name args ct IHargs] using Expr_ind_strong;
    intros e'; destruct e'; simpl; intros H; try discriminate;
    injection H as H; simplify_eq; try done.
  - f_equal. by apply IHa.
  - apply BinOp_tag_inj in H. subst. f_equal; [by apply IHa|by apply IHb].
  - f_equal. by apply IHa.
  - f_equal; [by apply IHc|by apply IHt|by apply IHf].
  - match goal with Hct : CallType_tag _ = CallType_tag _ |- _ =>
      apply CallType_tag_inj in Hct; subst end.
    f_equal.
    match goal with Hm : map to_tree args = map to_tree ?l |- _ =>
      revert l Hm end.
    induction IHargs as [|x l Hx _ IHl]; intros [|y l'] Hm; simpl in Hm; try done.
    injection Hm as Hxy Hm. f_equal; [by apply Hx|by apply IHl].
Qed.

Definition Compare (a b : Expr) : Z :=
  match Pos.compare (encode (to_tree a)) (encode (to_tree b)) with
  | Eq => 0
  | Lt => -1
  | Gt => 1
  end.

Lemma Compare_order : compare_total_order Compare.
Proof.
  unfold Compare. split_and!.
  - intros a b. destruct (Pos.compare_spec (encode (to_tree a)) (encode (to_tree b)))
      as [H|H|H]; split; try done.
    + intros _. by apply to_tree_inj, (inj encode).
    + intros ->. lia.
    + intros ->. lia.
  - intros a b. rewrite (Pos.compare_antisym (encode (to_tree a))).
    by destruct (Pos.compare (encode (to_tree a)) (encode (to_tree b))).
  - intros a b c.
    destruct (Pos.compare_spec (encode (to_tree a)) (encode (to_tree b))); try done.
    destruct (Pos.compare_spec (encode (to_tree b)) (encode (to_tree c))); try done.
    intros _ _.
    destruct (Pos.compare_spec (encode (to_tree a)) (encode (to_tree c))); try done; lia.
Qed.

(** The detection of linear equations with integer coefficients: sums,
    differences and products by an integer immediate. *)
Fixpoint linear_in (v : Var) (e : Expr) : option (Z * Expr) :=
  match e with
  | VarNode x =>
      if decide (x = v) then Some (1, make_zero (vty v)) else Some (0, e)
  | IntImm _ _ | UIntImm _ _ => Some (0, e)
  | Bin Add a b =>
      match linear_in v a, linear_in v b with
      | Some (ca, ba), Some (cb, bb) => Some (ca + cb, (ba + bb)%E)
      | _, _ => None
      end
  | Bin Sub a b =>
      match linear_in v a, linear_in v b with
      | Some (ca, ba), Some (cb, bb) => Some (ca - cb, (ba - bb)%E)
      | _, _ => None
      end
  | Bin Mul a b =>
      match a, b with
      | IntImm t n, _ =>
          match linear_in v b with
          | Some (cb, bb) => Some (n * cb, (a * bb)%E)
          | None => None
          end
      | _, IntImm t n =>
          match linear_in v a with
          | Some (ca, ba) => Some (ca * n, (ba * b)%E)
          | None => None
          end
      | _, _ => if ExprUseVar e {[v]} then None else Some (0, e)
      end
  | _ => if ExprUseVar e {[v]} then None else Some (0, e)
  end.

Fixpoint detect (e : Expr) (vars : list Var) : option (list Expr) :=
  match vars with
  | [] => Some [e]
  | v :: vars' =>
      match linear_in v e with
      | Some (c, base) => option_map (cons (make_const (vty v) c)) (detect base vars')
      | None => None
      end
  end.

Definition DetectLinearEquation (e : Expr) (vars : list Var) : list Expr :=
  default [] (detect e vars).

Lemma DetectLinearEquation_arity : detector_arity DetectLinearEquation.
Proof.
  intros e vars. unfold DetectLinearEquation.
  destruct (detect e vars) as [l|] eqn:E; [right|by left]. simpl.
  revert e l E. induction vars as [|v vars IH]; intros e l E; simpl in E.
  - by injection E as <-.
  - destruct (linear_in v e) as [[c base]|]; [|done].
    destruct (detect base vars) as [l'|] eqn:E'; [|done].
    injection E as <-. simpl. f_equal. by eapply IH.
Qed.


Lemma simplify_scoped : simplifier_scoped simplify.
Proof. by intros S vranges e _ He. Qed.

Lemma simplify_typed : simplifier_typed simplify.
Proof. by intros vranges e. Qed.

Lemma fold_constants_scoped : simplifier_scoped fold_constants.
Proof.
  intros S vranges e _ He. unfold fold_constants.
  destruct (closed e); [apply scoped_make_const|done].
Qed.

Lemma fold_constants_typed : simplifier_typed fold_constants.
Proof.
  intros vranges e. unfold fold_constants.
  destruct (closed e); [by rewrite type_of_make_const|done].
Qed.

Lemma EvalSet_cover_range_sound : evalset_sound EvalSet_cover_range.
Proof. by intros vranges e r. Qed.

(** The variables of an expression, in the order of the visit. *)
Fixpoint expr_vars (e : Expr) : list Var :=
  match e with
  | VarNode v => [v]
  | IntImm _ _ | UIntImm _ _ | StringImm _ => []
  | Cast _ a | Not a => expr_vars a
  | Bin _ a b => expr_vars a ++ expr_vars b
  | Select c t f => expr_vars c ++ expr_vars t ++ expr_vars f
  | Call _ _ args _ => concat (map expr_vars args)
  end.

Lemma ExprUseVar_expr_vars e v : ExprUseVar e {[v]} = true <-> v ∈ expr_vars e.
Proof.
  induction e as [x|t n|t n|s|t a IHa|op a b IHa IHb|a IHa|c t f IHc IHt IHf
                 |t name args ct IHargs] using Expr_ind_strong; simpl;
    rewrite ?orb_true_iff, ?elem_of_app, ?elem_of_nil; try done; try tauto.
  - rewrite bool_decide_eq_true, elem_of_singleton, list_elem_of_singleton. done.
  - induction IHargs as [|a args Ha _ IH]; simpl; [by rewrite elem_of_nil|].
    rewrite orb_true_iff, elem_of_app. tauto.
Qed.

Lemma scoped_expr_vars (S : Var -> Prop) e : scoped S e <-> Forall S (expr_vars e).
Proof.
  rewrite Forall_forall. unfold scoped.
  split; intros H v Hv; apply H; by apply ExprUseVar_expr_vars.
Qed.

(** The detection of linear equations on sums of integers: an operand of
    Boolean type is taken as a whole. *)
Definition linear_leaf (v : Var) (e : Expr) : option (Z * Expr) :=
  if ExprUseVar e {[v]} then None else Some (0, e).

Fixpoint linear_typed (v : Var) (e : Expr) : option (Z * Expr) :=
  match e with
  | VarNode x =>
      if decide (x = v) then Some (1, make_zero (vty v)) else Some (0, e)
  | Bin Add a b =>
      if is_bool (type_of a) || is_bool (type_of b) then linear_leaf v e
      else
        match linear_typed v a, linear_typed v b with
        | Some (ca, ba), Some (cb, bb) => Some (ca + cb, (ba + bb)%E)
        | _, _ => None
        end
  | Bin Sub a b =>
      if is_bool (type_of a) || is_bool (type_of b) then linear_leaf v e
      else
        match linear_typed v a, linear_typed v b with
        | Some (ca, ba), Some (cb, bb) => Some (ca - cb, (ba - bb)%E)
        | _, _ => None
        end
  | Bin Mul (IntImm t n) b =>
      if is_bool t || is_bool (type_of b) then linear_leaf v e
      else
        match linear_typed v b with
        | Some (cb, bb) => Some (n * cb, (IntImm t n * bb)%E)
        | None => None
        end
  | _ => linear_leaf v e
  end.

Fixpoint detect_typed (e : Expr) (vars : list Var) : option (list Expr) :=
  match vars with
  | [] => Some [e]
  | v :: vars' =>
      match linear_typed v e with
      | Some (c, base) =>
          option_map (cons (make_const (vty v) c)) (detect_typed base vars')
      | None => None
      end
  end.

Definition DetectLinearSum (e : Expr) (vars : list Var) : list Expr :=
  default [] (detect_typed e vars).

Lemma detect_typed_length vars : forall e l,
  detect_typed e vars = Some l -> length l = S (length vars).
Proof.
  induction vars as [|v vars IH]; intros e l E; simpl in E.
  - by injection E as <-.
  - destruct (linear_typed v e) as [[c base]|]; [|done].
    destruct (detect_typed base vars) as [l'|] eqn:E'; [|done].
    injection E as <-. simpl. f_equal. by eapply IH.
Qed.

Lemma DetectLinearSum_arity : detector_arity DetectLinearSum.
Proof.
  intros e vars. unfold DetectLinearSum.
  destruct (detect_typed e vars) as [l|] eqn:E; [right|by left].
  by eapply detect_typed_length.
Qed.

Lemma linear_leaf_sound σ (S : Var -> Prop) v e c base :
  linear_leaf v e = Some (c, base) ->
  eval σ e = c * eval σ (VarNode v) + eval σ base /\
  type_of base = type_of e /\
  (scoped S e -> scoped (fun u => S u /\ u <> v) base).
Proof.
  unfold linear_leaf. destruct (ExprUseVar e {[v]}) eqn:E; [done|].
  intros [= <- <-]. split; [lia|]. split; [done|].
  intros He u Hu. split; [by apply He|]. intros ->. by rewrite E in Hu.
Qed.

Lemma linear_typed_sound σ (S : Var -> Prop) v e : forall c base,
  linear_typed v e = Some (c, base) ->
  eval σ e = c * eval σ (VarNode v) + eval σ base /\
  type_of base = type_of e /\
  (scoped S e -> scoped (fun u => S u /\ u <> v) base).
Proof.
  induction e as [x|t n|t n|s|t a IHa|op a b IHa IHb|a IHa|c0 t f IHc IHt IHf
                 |t name args ct IHargs] using Expr_ind_strong;
    intros c base E; try (by apply linear_leaf_sound).
  - simpl in E. destruct (decide (x = v)) as [->|Hne]; injection E as <- <-.
    + split; [|split].
      * rewrite eval_make_zero. lia.
      * unfold make_zero. by rewrite type_of_make_const.
      * intros _. apply scoped_make_const.
    + split; [lia|]. split; [done|].
      intros He u Hu. split; [by apply He|].
      simpl in Hu. apply bool_decide_eq_true, elem_of_singleton in Hu. congruence.
  - destruct op; try (by apply linear_leaf_sound).
    + simpl in E.
      destruct (is_bool (type_of a) || is_bool (type_of b)) eqn:Hty;
        [by apply linear_leaf_sound|].
      apply orb_false_iff in Hty as [Hta Htb].
      destruct (linear_typed v a) as [[ca ba]|]; [|done].
      destruct (linear_typed v b) as [[cb bb]|]; [|done].
      injection E as <- <-.
      destruct (IHa _ _ eq_refl) as (Ea & Ta & Sa).
      destruct (IHb _ _ eq_refl) as (Eb & Tb & Sb).
      split; [|split].
      * rewrite !eval_arith by (done || by rewrite Ta). cbn [bin_sem].
        rewrite Ea, Eb. ring.
      * done.
      * intros He. apply scoped_Bin_inv in He as [? ?]. apply scoped_Bin; auto.
    + simpl in E.
      destruct (is_bool (type_of a) || is_bool (type_of b)) eqn:Hty;
        [by apply linear_leaf_sound|].
      apply orb_false_iff in Hty as [Hta Htb].
      destruct (linear_typed v a) as [[ca ba]|]; [|done].
      destruct (linear_typed v b) as [[cb bb]|]; [|done].
      injection E as <- <-.
      destruct (IHa _ _ eq_refl) as (Ea & Ta & Sa).
      destruct (IHb _ _ eq_refl) as (Eb & Tb & Sb).
      split; [|split].
      * rewrite !eval_arith by (done || by rewrite Ta). cbn [bin_sem].
        rewrite Ea, Eb. ring.
      * done.
      * intros He. apply scoped_Bin_inv in He as [? ?]. apply scoped_Bin; auto.
    + destruct a as [|t n| | | | | | |]; try (by apply linear_leaf_sound).
      simpl in E.
      destruct (is_bool t || is_bool (type_of b)) eqn:Hty;
        [by apply linear_leaf_sound|].
      apply orb_false_iff in Hty as [Hta Htb].
      destruct (linear_typed v b) as [[cb bb]|]; [|done].
      injection E as <- <-.
      destruct (IHb _ _ eq_refl) as (Eb & Tb & Sb).
      split; [|split].
      * rewrite !eval_arith by done. cbn [bin_sem].
        rewrite Eb. cbn [eval]. rewrite canon_not_bool by done. ring.
      * done.
      * intros He. apply scoped_Bin_inv in He as [? ?]. apply scoped_Bin; auto.
        by intros u Hu.
Qed.

Lemma zsum_shift f n : zsum f (S n) = f 0%nat + zsum (fun i => f (S i)) n.
Proof.
  induction n as [|n IH]; [simpl; lia|].
  change (zsum f (S (S n))) with (zsum f (S n) + f (S n)). rewrite IH. simpl. lia.
Qed.

Lemma detect_typed_sound vars : forall e l,
  detect_typed e vars = Some l -> non_bool e ->
  Forall (fun v => is_bool (vty v) = false) vars ->
  Forall non_bool l /\
  forall σ,
    eval σ e
    = zsum (fun i => eval σ (List.nth i l (make_zero TInt)) * xv σ vars i) (length vars)
      + eval σ (List.last l (make_zero TInt)).
Proof.
  induction vars as [|v vars IH]; intros e l E Hnb Hv; simpl in E.
  - injection E as <-. split; [by apply Forall_singleton|]. intros σ. simpl. lia.
  - destruct (linear_typed v e) as [[c base]|] eqn:El; [|done].
    destruct (detect_typed base vars) as [l'|] eqn:E'; [|done].
    injection E as <-. apply Forall_cons in Hv as [Hv1 Hv].
    destruct (linear_typed_sound no_env (fun _ => True) v e c base El) as (_ & Tb & _).
    destruct (IH base l' E') as [Hl' Hsum]; [by unfold non_bool; rewrite Tb|done|].
    split.
    + apply Forall_cons. split; [|done]. unfold non_bool. by rewrite type_of_make_const.
    + intros σ.
      destruct (linear_typed_sound σ (fun _ => True) v e c base El) as (Ee & _ & _).
      rewrite Ee, (Hsum σ).
      change (length (v :: vars)) with (S (length vars)). rewrite zsum_shift.
      pose proof (detect_typed_length vars base l' E') as Hlen.
      assert (List.last (make_const (vty v) c :: l') (make_zero TInt)
              = List.last l' (make_zero TInt)) as ->.
      { destruct l'; [done|]. done. }
      cbn [List.nth]. rewrite eval_make_const, canon_not_bool by done.
      unfold xv. simpl. lia.
Qed.

Lemma DetectLinearSum_sound : detector_sound DetectLinearSum.
Proof.
  intros e vars Hne Hnb Hv. unfold DetectLinearSum in *.
  destruct (detect_typed e vars) as [l|] eqn:E; [|done]. simpl.
  by apply (detect_typed_sound vars e l).
Qed.

Lemma detect_typed_scoped vars : forall (S : Var -> Prop) e l,
  detect_typed e vars = Some l -> scoped S e ->
  Forall (scoped (fun v => S v /\ v ∉ vars)) l.
Proof.
  induction vars as [|v vars IH]; intros S e l E He; simpl in E.
  - injection E as <-. apply Forall_singleton.
    apply (scoped_weaken S); [|done]. intros u Hu. split; [done|]. apply not_elem_of_nil.
  - destruct (linear_typed v e) as [[c base]|] eqn:El; [|done].
    destruct (detect_typed base vars) as [l'|] eqn:E'; [|done].
    injection E as <-.
    destruct (linear_typed_sound no_env S v e c base El) as (_ & _ & Hs).
    apply Forall_cons. split; [apply scoped_make_const|].
    eapply Forall_impl; [apply (IH _ base l' E' (Hs He))|].
    intros x. apply scoped_weaken. intros u [[Hu Hne] Hnin]. split; [done|].
    rewrite elem_of_cons. tauto.
Qed.

Lemma DetectLinearSum_scoped : detector_scoped DetectLinearSum.
Proof.
  intros S e vars He. unfold DetectLinearSum.
  destruct (detect_typed e vars) as [l|] eqn:E; [|by apply Forall_nil]. simpl.
  by apply (detect_typed_scoped vars S e l).
Qed.


(** An interval evaluation for the quotient and the remainder of a
    variable of a constant range of values that are not negative, by a
    positive constant. *)
Definition const_range (r : Range) : option (Z * Z) :=
  match r with
  | mkRange (IntImm TInt lo) (IntImm TInt ext) => Some (lo, ext)
  | _ => None
  end.

Definition EvalSet_divmod (vranges : gmap Var Range) (e : Expr) : option Range :=
  match e with
  | Bin op (VarNode v) (IntImm TInt c) =>
      if bool_decide (vty v = TInt) && (0 <? c) then
        match vranges !! v ≫= const_range with
        | Some (lo, ext) =>
            if (0 <=? lo) && (0 <? ext) then
              match op with
              | Div | FloorDiv =>
                  Some (mkRange (IntImm TInt (lo / c))
                                (IntImm TInt ((lo + ext - 1) / c - lo / c + 1)))
              | Mod | FloorMod => Some (mkRange (IntImm TInt 0) (IntImm TInt c))
              | _ => None
              end
            else None
        | None => None
        end
      else None
  | _ => None
  end.

Lemma EvalSet_divmod_sound : evalset_sound EvalSet_divmod.
Proof.
  intros vranges e r H. unfold EvalSet_divmod in H.
  destruct e as [| | | | |op a b| | |]; try done.
  destruct a as [v| | | | | | | |]; try done.
  destruct b as [|t c| | | | | | |]; try done.
  destruct t; try done.
  destruct (bool_decide (vty v = TInt) && (0 <? c)) eqn:E; [|done].
  apply andb_true_iff in E as [Ev Ec]. apply bool_decide_eq_true in Ev.
  apply Z.ltb_lt in Ec.
  destruct (vranges !! v) as [rv|] eqn:Er; [|done]. simpl in H.
  destruct (const_range rv) as [[lo ext]|] eqn:Ecr; [|done].
  destruct ((0 <=? lo) && (0 <? ext)) eqn:El; [|done].
  apply andb_true_iff in El as [El Ee]. apply Z.leb_le in El. apply Z.ltb_lt in Ee.
  assert (rv = mkRange (IntImm TInt lo) (IntImm TInt ext)) as ->.
  { destruct rv as [[| [] | | | | | | |] [| [] | | | | | | |]]; try done.
    simpl in Ecr. by injection Ecr as -> ->. }
  assert (forall σ, within σ vranges -> lo <= eval σ (VarNode v) < lo + ext) as Hx.
  { intros σ Hw. apply (Hw v _ Er). }
  assert (forall σ, within σ vranges ->
            lo / c <= eval σ (VarNode v) / c
            < lo / c + ((lo + ext - 1) / c - lo / c + 1)) as Hdiv.
  { intros σ Hw. specialize (Hx σ Hw).
    pose proof (Z.div_le_mono lo (eval σ (VarNode v)) c Ec ltac:(lia)).
    pose proof (Z.div_le_mono (eval σ (VarNode v)) (lo + ext - 1) c Ec ltac:(lia)). lia. }
  assert (is_bool (type_of (VarNode v)) = false) as Hnb by (simpl; by rewrite Ev).
  destruct op; try done; injection H as <-; (split; [|split; [|by simpl; rewrite Ev]]);
    try (by intros S _ _; split);
    intros σ Hw; rewrite eval_arith by done; specialize (Hx σ Hw);
    cbn [bin_sem range_min range_extent eval canon is_bool];
    fold (eval σ (VarNode v)).
  - rewrite Z.quot_div_nonneg by lia. by apply Hdiv.
  - rewrite Z.rem_mod_nonneg by lia. pose proof (Z.mod_pos_bound (eval σ (VarNode v)) c Ec).
    lia.
  - by apply Hdiv.
  - pose proof (Z.mod_pos_bound (eval σ (VarNode v)) c Ec). lia.
Qed.

End Reference.

(** ** Examples

    The theorems above at concrete inputs, run with the reference
    collaborators. *)
Module Examples.

Import Reference.

Definition x : Var := mkVar 0 TInt.
Definition y : Var := mkVar 1 TInt.
Definition z : Var := mkVar 2 TInt.
Definition b : Var := mkVar 3 TBool.

(** An assignment: [x = 0], [y = 1], every other variable [5]; every call
    returns [7]. *)
Definition σ0 : Env :=
  mkEnv (fun v => if decide (v = x) then 0 else if decide (v = y) then 1 else 5)
        (fun _ _ => 7).

Definition e1 : Expr :=
  (Select (VarNode b) (VarNode x + IntImm TInt 2) (IntImm TInt 0) * VarNode y)%E.


Definition cond1 : Expr :=
  ((VarNode x < IntImm TInt 3) && (VarNode y < IntImm TInt 4))%E.

Lemma ImplicationNotContainingVars_spec_witness :
  wt cond1 = true /\ is_bool (type_of cond1) = true /\
  exists outer inner,
    ImplicationNotContainingVars cond1 {[y]} = Some (outer, inner) /\
    (forall σ, beval σ cond1 = beval σ (outer && inner)%E) /\
    ExprUseVar outer {[y]} = false.
Proof.
  split; [reflexivity|]. split; [reflexivity|].
  apply (ImplicationNotContainingVars_spec cond1 {[y]}); reflexivity.
Defined.

Definition mutator0 : EliminateDivModMutator := mkEDM ∅ [] [] ∅ 0 [] [] 10.

Lemma EliminateDivMod_negative_constant_witness :
  0 < 2 /\ is_bool (type_of (VarNode x)) = false /\ is_bool TInt = false /\
  (forall n : Z,
     bin_sem Div n (- 2) = - bin_sem Div n 2 /\
     bin_sem Mod n (- 2) = bin_sem Mod n 2 /\
     bin_sem FloorDiv n (- 2) = bin_sem FloorDiv (- n) 2 /\
     bin_sem FloorMod n (- 2) = - bin_sem FloorMod (- n) 2) /\
  (forall σ, eval σ (make_zero TInt - truncdiv (VarNode x) (make_const TInt 2))%E
             = eval σ (Bin Div (VarNode x) (IntImm TInt (- 2)))) /\
  (forall σ, eval σ (truncmod (VarNode x) (make_const TInt 2))
             = eval σ (Bin Mod (VarNode x) (IntImm TInt (- 2)))) /\
  (forall σ, eval σ (floordiv (make_zero TInt - VarNode x)%E (make_const TInt 2))
             = eval σ (Bin FloorDiv (VarNode x) (IntImm TInt (- 2)))) /\
  (forall σ, eval σ (make_zero TInt
                     - floormod (make_zero TInt - VarNode x)%E (make_const TInt 2))%E
             = eval σ (Bin FloorMod (VarNode x) (IntImm TInt (- 2)))) /\
  EDM_Mutate simplify simplify Compare EvalSet_cover_range 6 mutator0
    (Bin Mod (VarNode x) (IntImm TInt (- 2)))
  = EDM_Mutate simplify simplify Compare EvalSet_cover_range 5 mutator0
      (truncmod (VarNode x) (make_const TInt 2)) /\
  (exists r,
     EDM_Mutate simplify simplify Compare EvalSet_cover_range 5 mutator0
       (truncdiv (VarNode x) (make_const TInt 2)) = Some r /\
     EDM_Mutate simplify simplify Compare EvalSet_cover_range 6 mutator0
       (Bin Div (VarNode x) (IntImm TInt (- 2)))
     = Some ((make_zero TInt - r.1)%E, r.2)) /\
  (exists r,
     EDM_Mutate simplify simplify Compare EvalSet_cover_range 5 mutator0
       (truncmod (VarNode x) (make_const TInt 2)) = Some r /\
     EDM_Mutate simplify simplify Compare EvalSet_cover_range 6 mutator0
       (Bin Mod (VarNode x) (IntImm TInt (- 2))) = Some r) /\
  (exists r,
     EDM_Mutate simplify simplify Compare EvalSet_cover_range 5 mutator0
       (floordiv (make_zero TInt - VarNode x)%E (make_const TInt 2)) = Some r /\
     EDM_Mutate simplify simplify Compare EvalSet_cover_range 6 mutator0
       (Bin FloorDiv (VarNode x) (IntImm TInt (- 2))) = Some r) /\
  (exists r,
     EDM_Mutate simplify simplify Compare EvalSet_cover_range 5 mutator0
       (make_zero TInt - floormod (make_zero TInt - VarNode x)%E (make_const TInt 2))%E
     = Some r /\
     EDM_Mutate simplify simplify Compare EvalSet_cover_range 6 mutator0
       (Bin FloorMod (VarNode x) (IntImm TInt (- 2))) = Some r).
Proof.
  split; [lia|]. split; [reflexivity|]. split; [reflexivity|].
  destruct (EliminateDivMod_negative_constant simplify simplify Compare
              EvalSet_cover_range 5 mutator0 (VarNode x) TInt 2
              ltac:(lia) eq_refl eq_refl)
    as (Hid & (_ & Hdiv) & (Hmut & Hmod) & (_ & Hfdiv) & (_ & Hfmod) & Hret).
  destruct (Hret ltac:(simpl; lia)) as (R1 & R2 & R3 & R4).
  by split_and!.
Defined.

Lemma EliminateDivMod_uninferable_range_witness :
  exists st2,
    EDM_Mutate simplify simplify Compare EvalSet_cover_range 2 mutator0
      (Bin FloorDiv (VarNode x) (IntImm TInt 3))
    = Some (Bin FloorDiv (VarNode x) (IntImm TInt 3), st2) /\
    m_new_variables st2 = [] /\ m_ranges st2 = ∅ /\ m_conditions st2 = [] /\
    m_substitution st2 = ∅ /\ expr_to_vars_ st2 = [] /\ next_id st2 = 10%N /\
    idx_ st2 = 1 /\
    warnings st2 = [DivImpl (VarNode x) (make_const TInt 3) kFloorDiv].
Proof.
  apply (EliminateDivMod_uninferable_range simplify simplify Compare EvalSet_cover_range
           1 mutator0 mutator0 FloorDiv (VarNode x) (VarNode x) TInt 3).
  - exact I.
  - lia.
  - reflexivity.
  - reflexivity.
  - reflexivity.
  - left. reflexivity.
Defined.

Definition dx : DomainRef := mkDomainRef 100 (mkDomain [x] [] ∅).
Definition dy : DomainRef := mkDomainRef 101 (mkDomain [y] [] ∅).
Definition txy : DomainTransformationRef :=
  mkDomainTransformationRef dy dx {[y := (VarNode x + IntImm TInt 0)%E]}
                                  {[x := (VarNode y + IntImm TInt 0)%E]}.



Definition d_odd : Domain :=
  mkDomain [x] [(IntImm TInt 2 * VarNode x == IntImm TInt 1)%E] ∅.

Lemma SolveSystemOfEquations_existence_conditions_witness :
  detector_arity DetectLinearEquation /\
  exists fuel, forall fuel', (fuel <= fuel')%nat ->
    SolveSystemOfEquations fold_constants fold_constants Compare EvalSet_cover_range
      DetectLinearEquation fuel' d_odd 10
    = Some (EmptyDomainTransformation d_odd).
Proof.
  split; [exact DetectLinearEquation_arity|].
  destruct (SolveSystemOfEquations_existence_conditions fold_constants fold_constants
              Compare EvalSet_cover_range DetectLinearEquation d_odd 10
              DetectLinearEquation_arity)
    as (fuel & st & Hrun & _ & _ & _ & Hempty & _).
  exists fuel. apply Hempty.
  assert (diagonalize 1 1 0
            (mkDiag [[2]] [neg (IntImm TInt 2 * make_zero TInt - IntImm TInt 1)%E]
                    [[1]] [VarNode x]) =
          Some (mkDiag [[2]] [neg (IntImm TInt 2 * make_zero TInt - IntImm TInt 1)%E]
                       [[1]] [VarNode x])) as H0 by reflexivity.
  apply (diagonalize_fuel_mono 1 1 (S fuel)) in H0; [|lia].
  assert (st = mkDiag [[2]] [neg (IntImm TInt 2 * make_zero TInt - IntImm TInt 1)%E]
                      [[1]] [VarNode x]) as ->.
  { specialize (Hrun (S fuel) ltac:(lia)).
    change (diagonalize (S fuel) 1 0
              (mkDiag [[2]] [neg (IntImm TInt 2 * make_zero TInt - IntImm TInt 1)%E]
                      [[1]] [VarNode x]) = Some st) in Hrun.
    rewrite H0 in Hrun. by injection Hrun. }
  exists 0%nat. split; [simpl; lia|reflexivity].
Defined.

(** An impure call. *)
Definition call_f : Expr := Call TInt "f" [] Extern.

Definition ite_f : Expr :=
  Call TInt tvm_if_then_else [const_true; call_f; IntImm TInt 0] PureIntrinsic.
Definition sel_f : Expr := Select const_true call_f (IntImm TInt 0).

Lemma RemoveRedundantInequalities_conditional_witness :
  RRI_Mutate simplify simplify Compare HasSideEffect [] const_true = Some const_true /\
  RRI_Mutate simplify simplify Compare HasSideEffect [] ite_f
  = RRI_Mutate simplify simplify Compare HasSideEffect [] call_f /\
  RRI_Mutate simplify simplify Compare HasSideEffect [] sel_f
  = Some (Select const_true call_f (IntImm TInt 0)).
Proof.
  split; [reflexivity|].
  destruct (RemoveRedundantInequalities_conditional simplify simplify Compare HasSideEffect
              [] TInt PureIntrinsic const_true call_f (IntImm TInt 0) const_true eq_refl)
    as ((_ & _ & Hsel) & (Hite & _ & _)).
  split.
  - apply Hite. reflexivity.
  - etransitivity; [apply Hsel; left; reflexivity|reflexivity].
Defined.

Lemma RemoveRedundantInequalities_conditional_counterexample :
  HasSideEffect ite_f = true /\
  RemoveRedundantInequalities simplify simplify Compare HasSideEffect ite_f []
  = Some call_f.
Proof. split; reflexivity. Qed.

(** [!b] comes back as an atomic formula. *)
Lemma FactorOutAtomicFormulas_not_atom :
  FactorOutAtomicFormulas Compare (Not (VarNode b))
  = Some (mkFO [Not (VarNode b)] (make_const TBool 1)).
Proof. reflexivity. Qed.

(** A boolean cast has no case in the functor. *)
Lemma FactorOutAtomicFormulas_cast :
  FactorOutAtomicFormulas Compare (Cast TBool (VarNode x)) = None.
Proof. reflexivity. Qed.

Definition formula1 : Expr :=
  ((VarNode x < IntImm TInt 3) && ((VarNode b) || (VarNode x < IntImm TInt 3)))%E.

Lemma FactorOutAtomicFormulas_spec_witness :
  is_bool (type_of formula1) = true /\ FactorOut_supported false formula1 = true /\
  exists r,
    FactorOutAtomicFormulas Compare formula1 = Some r /\
    ExprLess_sorted Compare (atomic_formulas r) /\
    Forall (fun a => atomic_shape a = true) (atomic_formulas r) /\
    forall σ, beval σ (FO_to_expr r) = beval σ formula1.
Proof.
  split; [reflexivity|]. split; [reflexivity|].
  apply (FactorOutAtomicFormulas_spec Compare Compare_order formula1); reflexivity.
Defined.

(** The inequality [4294967299 * x + y <= 0] on 64-bit integers. *)
Definition big_ineq : Expr :=
  (IntImm TInt 4294967299 * VarNode x + VarNode y <= IntImm TInt 0)%E.

Definition big_bound : Expr :=
  (IntImm TInt 0 *
   (IntImm TInt 4294967299 * make_zero TInt + VarNode y - IntImm TInt 0))%E.

Lemma SolveSystemOfInequalities_narrowing :
  gcd 1 4294967299 = 1 /\ lcm 1 4294967299 = Some 3 /\
  (SolveSystemOfInequalities simplify simplify Compare DetectLinearEquation
     [big_ineq] [x] ∅ ≫= as_conditions)
  = Some [(IntImm TInt 3 * VarNode x <= big_bound)%E] /\
  beval σ0 (IntImm TInt 3 * VarNode x <= big_bound)%E = true /\
  beval σ0 big_ineq = false.
Proof. split_and!; vm_compute; reflexivity. Qed.


(** The domain of [x] in [0, 10) and [y] with [2*x + 3*y = z], where [z]
    is an outer variable. *)
Definition d_lin : Domain :=
  mkDomain [x; y]
    [(IntImm TInt 2 * VarNode x + IntImm TInt 3 * VarNode y == VarNode z)%E]
    {[x := mkRange (IntImm TInt 0) (IntImm TInt 10)]}.

Lemma reference_contracts :
  solver_contracts fold_constants simplify EvalSet_cover_range DetectLinearSum.
Proof.
  split.
  - exact fold_constants_sound.
  - exact simplify_sound.
  - exact fold_constants_scoped.
  - exact simplify_scoped.
  - exact fold_constants_typed.
  - exact simplify_typed.
  - exact DetectLinearSum_arity.
  - exact DetectLinearSum_sound.
  - exact DetectLinearSum_scoped.
  - exact EvalSet_cover_range_sound.
Qed.

Lemma d_lin_ok : solver_domain d_lin 3.
Proof.
  split.
  - apply NoDup_cons. split; [|apply NoDup_singleton].
    rewrite list_elem_of_singleton. discriminate.
  - by repeat constructor.
  - repeat constructor; unfold below; simpl; lia.
  - by repeat constructor.
  - repeat constructor. apply scoped_expr_vars. simpl.
    repeat constructor; unfold below; simpl; lia.
  - intros v r H. cbn [d_lin ranges] in H. apply lookup_singleton_Some in H as [<- <-]. done.
  - intros v r H. cbn [d_lin ranges] in H. apply lookup_singleton_Some in H as [<- <-].
    split; apply scoped_expr_vars; constructor.
  - intros v r H. cbn [d_lin ranges] in H. apply lookup_singleton_Some in H as [<- <-]. unfold below. simpl. lia.
Qed.

Lemma SolveSystemOfEquations_new_to_old_witness :
  solver_contracts fold_constants simplify EvalSet_cover_range DetectLinearSum /\
  solver_domain d_lin 3 /\
  (exists fuel,
     SolveSystemOfEquations fold_constants simplify Compare EvalSet_cover_range
       DetectLinearSum fuel d_lin 3 <> None) /\
  forall fuel t,
    SolveSystemOfEquations fold_constants simplify Compare EvalSet_cover_range
      DetectLinearSum fuel d_lin 3 = Some t ->
    old_domain t = d_lin /\
    forall σ', satisfies σ' (new_domain t) ->
      satisfies (subst_env σ' (old_to_new t)) d_lin /\
      forall v e, new_to_old t !! v = Some e ->
        eval (subst_env σ' (old_to_new t)) e = eval σ' (VarNode v).
Proof.
  split; [exact reference_contracts|]. split; [exact d_lin_ok|].
  exact (SolveSystemOfEquations_new_to_old fold_constants simplify Compare
           EvalSet_cover_range DetectLinearSum d_lin 3 reference_contracts d_lin_ok).
Defined.

Lemma SolveSystemOfEquations_old_to_new_witness :
  solver_contracts fold_constants simplify EvalSet_cover_range DetectLinearSum /\
  solver_domain d_lin 3 /\
  (exists fuel,
     SolveSystemOfEquations fold_constants simplify Compare EvalSet_cover_range
       DetectLinearSum fuel d_lin 3 <> None) /\
  forall fuel t,
    SolveSystemOfEquations fold_constants simplify Compare EvalSet_cover_range
      DetectLinearSum fuel d_lin 3 = Some t ->
    forall σ, satisfies σ d_lin ->
      satisfies (subst_env σ (new_to_old t)) (new_domain t) /\
      forall v e, old_to_new t !! v = Some e ->
        eval (subst_env σ (new_to_old t)) e = eval σ (VarNode v).
Proof.
  split; [exact reference_contracts|]. split; [exact d_lin_ok|].
  exact (SolveSystemOfEquations_old_to_new fold_constants simplify Compare
           EvalSet_cover_range DetectLinearSum d_lin 3 reference_contracts d_lin_ok).
Defined.


Lemma SolveSystemOfEquations_sound_witness :
  solver_contracts fold_constants simplify EvalSet_cover_range DetectLinearSum /\
  solver_domain d_lin 3 /\
  (exists fuel,
     SolveSystemOfEquations fold_constants simplify Compare EvalSet_cover_range
       DetectLinearSum fuel d_lin 3 <> None) /\
  forall fuel t,
    SolveSystemOfEquations fold_constants simplify Compare EvalSet_cover_range
      DetectLinearSum fuel d_lin 3 = Some t ->
    old_domain t = d_lin /\
    (forall σ', satisfies σ' (new_domain t) ->
       satisfies (subst_env σ' (old_to_new t)) d_lin /\
       forall v e, new_to_old t !! v = Some e ->
         eval (subst_env σ' (old_to_new t)) e = eval σ' (VarNode v)) /\
    (forall σ, satisfies σ d_lin ->
       satisfies (subst_env σ (new_to_old t)) (new_domain t) /\
       forall v e, old_to_new t !! v = Some e ->
         eval (subst_env σ (new_to_old t)) e = eval σ (VarNode v)).
Proof.
  split; [exact reference_contracts|]. split; [exact d_lin_ok|].
  exact (SolveSystemOfEquations_sound fold_constants simplify Compare
           EvalSet_cover_range DetectLinearSum d_lin 3 reference_contracts d_lin_ok).
Defined.

Lemma xgcd_bezout_witness :
  (12 <> 0 \/ -18 <> 0) /\
  let '(g, x, y) := xgcd 12 (-18) in
  g <> 0 /\ g = x * 12 + y * -18 /\ Z.rem 12 g = 0 /\ Z.rem (-18) g = 0 /\
  Z.abs g = Z.gcd 12 (-18).
Proof.
  split; [left; lia|]. apply (xgcd_bezout 12 (-18)). left. lia.
Defined.

Lemma diagonalize_diagonal_witness :
  mwf 2 [[2; 4]; [6; 8]; [1; 3]] /\
  exists fuel st,
    (forall fuel', (fuel <= fuel')%nat ->
       diagonalize fuel' 2 0
         (mkDiag [[2; 4]; [6; 8]; [1; 3]] [VarNode x; VarNode y; VarNode z]
                 (identity_matrix 2) [VarNode x; VarNode y]) = Some st) /\
    length (d_matrix st) = 3%nat /\ mwf 2 (d_matrix st) /\
    forall i j, i <> j -> mget (d_matrix st) i j = 0.
Proof.
  assert (mwf 2 [[2; 4]; [6; 8]; [1; 3]]) as Hm by (by repeat constructor).
  split; [exact Hm|].
  exact (diagonalize_diagonal [[2; 4]; [6; 8]; [1; 3]] [VarNode x; VarNode y; VarNode z]
           [VarNode x; VarNode y] 2 Hm eq_refl eq_refl).
Defined.


Definition e_cmp : Expr :=
  ((VarNode x > VarNode y + IntImm TInt 2) && Not (VarNode x == VarNode y))%E.

Lemma NormalizeComparisons_sound_witness :
  signed_comparisons e_cmp = true /\
  type_of (NormalizeComparisons simplify simplify e_cmp) = type_of e_cmp /\
  eval σ0 (NormalizeComparisons simplify simplify e_cmp) = eval σ0 e_cmp.
Proof.
  split; [reflexivity|].
  apply (NormalizeComparisons_sound simplify simplify simplify_sound simplify_sound
           e_cmp σ0).
  reflexivity.
Defined.

Definition e_known : Expr :=
  Select (VarNode x < VarNode y)%E
         ((VarNode x < VarNode y) && (VarNode y > VarNode x))%E (VarNode b).

Lemma RemoveRedundantInequalities_sound_witness :
  wt e_known = true /\
  RemoveRedundantInequalities simplify simplify Compare HasSideEffect e_known
    [(VarNode x < VarNode y)%E]
  = Some (const_true && (VarNode y > VarNode x))%E /\
  all_hold σ0 [(VarNode x < VarNode y)%E] /\
  eval σ0 (const_true && (VarNode y > VarNode x))%E = eval σ0 e_known /\
  is_bool (type_of (const_true && (VarNode y > VarNode x))%E) = is_bool (type_of e_known).
Proof.
  assert (all_hold σ0 [(VarNode x < VarNode y)%E]) as Hk by (by repeat constructor).
  split; [reflexivity|]. split; [vm_compute; reflexivity|]. split; [exact Hk|].
  apply (RemoveRedundantInequalities_sound simplify simplify simplify_sound simplify_sound
           Compare Compare_order HasSideEffect simplify_typed simplify_typed
           e_known [(VarNode x < VarNode y)%E]).
  - reflexivity.
  - vm_compute. reflexivity.
  - exact Hk.
Defined.

Definition axis_xy : list IterVar :=
  [mkIterVar (mkRange (IntImm TInt 0) (IntImm TInt 10)) x kDataPar EmptyString;
   mkIterVar (mkRange (VarNode x) (IntImm TInt 5)) y kCommReduce EmptyString].

Lemma IterVarsToInequalities_within_witness :
  Forall (fun v => is_bool (type_of (range_min (iv_dom v))) = false) axis_xy /\
  NoDup (IterVarsToVars axis_xy) /\
  (Forall (fun c => beval σ0 c = true) (IterVarsToInequalities axis_xy) <->
   within σ0 (IterVarsToMap axis_xy)) /\
  (forall v, v ∈ IterVarsToVars axis_xy <-> is_Some (IterVarsToMap axis_xy !! v)).
Proof.
  assert (Forall (fun v => is_bool (type_of (range_min (iv_dom v))) = false) axis_xy) as Ht
    by (by repeat constructor).
  assert (NoDup (IterVarsToVars axis_xy)) as Hn.
  { apply NoDup_cons. split; [|apply NoDup_singleton].
    rewrite list_elem_of_singleton. discriminate. }
  split; [exact Ht|]. split; [exact Hn|].
  exact (IterVarsToInequalities_within axis_xy σ0 Ht Hn).
Defined.

Definition sum_combiner : CommReducer :=
  mkCommReducer [x] [y] [(VarNode x + VarNode y)%E] [IntImm TInt 0].

Lemma IsSumCombiner_sound_witness :
  ranges_typed (∅ : gmap Var Range) /\ within σ0 ∅ /\
  IsSumCombiner simplify simplify sum_combiner ∅ = Some true /\
  exists result0 id0 lhs0 rhs0,
    cr_result sum_combiner = [result0] /\
    cr_identity_element sum_combiner !! 0%nat = Some id0 /\
    cr_lhs sum_combiner !! 0%nat = Some lhs0 /\ cr_rhs sum_combiner !! 0%nat = Some rhs0 /\
    eval σ0 id0 = 0 /\
    (eval σ0 result0 = eval σ0 (VarNode lhs0 + VarNode rhs0)%E \/
     eval σ0 result0 = eval σ0 (VarNode rhs0 + VarNode lhs0)%E) /\
    (is_bool (vty lhs0) = false -> is_bool (vty rhs0) = false ->
     eval σ0 result0 = val σ0 lhs0 + val σ0 rhs0).
Proof.
  split; [exact ranges_typed_empty|]. split; [apply within_empty|].
  split; [vm_compute; reflexivity|].
  apply (IsSumCombiner_sound simplify simplify simplify_sound simplify_sound
           sum_combiner ∅ σ0 ranges_typed_empty (within_empty σ0)).
  vm_compute. reflexivity.
Defined.

Definition mul_combiner : CommReducer :=
  mkCommReducer [x] [y] [(VarNode x * VarNode y + VarNode y)%E] [IntImm TInt 0].

Lemma CanFactorZeroFromCombiner_sound_witness :
  ranges_typed (∅ : gmap Var Range) /\ within σ0 ∅ /\
  CanFactorZeroFromCombiner fold_constants fold_constants mul_combiner 0 ∅ = Some true /\
  exists result id lhs rhs,
    cr_result mul_combiner !! 0%nat = Some result /\
    cr_identity_element mul_combiner !! 0%nat = Some id /\
    cr_lhs mul_combiner !! 0%nat = Some lhs /\
    cr_rhs mul_combiner !! 0%nat = Some rhs /\
    eval σ0 id = 0 /\
    (is_bool (vty lhs) = is_bool (type_of result) ->
     is_bool (vty rhs) = is_bool (type_of result) ->
     val σ0 lhs = 0 -> val σ0 rhs = 0 -> eval σ0 result = 0).
Proof.
  split; [exact ranges_typed_empty|]. split; [apply within_empty|].
  split; [vm_compute; reflexivity|].
  apply (CanFactorZeroFromCombiner_sound fold_constants fold_constants
           fold_constants_sound fold_constants_sound
           mul_combiner 0 ∅ σ0 ranges_typed_empty (within_empty σ0)).
  vm_compute. reflexivity.
Defined.

Lemma ComposeDomainTransformations_entries_witness :
  simplifier_sound simplify /\
  (ComposeDomainTransformations simplify simplify (IdDomainTransformation dx) txy = None <->
   domain_addr (ref_old_domain txy) <> domain_addr (ref_new_domain (IdDomainTransformation dx))) /\
  forall t,
    ComposeDomainTransformations simplify simplify (IdDomainTransformation dx) txy = Some t ->
    ref_new_domain t = ref_new_domain txy /\
    ref_old_domain t = ref_old_domain (IdDomainTransformation dx) /\
    dom (ref_new_to_old t) = dom (ref_new_to_old txy) /\
    dom (ref_old_to_new t) = dom (ref_old_to_new (IdDomainTransformation dx)) /\
    (forall σ v,
       ranges_typed (ranges (ref_old_domain (IdDomainTransformation dx))) ->
       within σ (ranges (ref_old_domain (IdDomainTransformation dx))) ->
       subst_typed (ref_new_to_old (IdDomainTransformation dx)) ->
       (eval σ <$> ref_new_to_old t !! v)
       = (eval (subst_env σ (ref_new_to_old (IdDomainTransformation dx)))
            <$> ref_new_to_old txy !! v)) /\
    (forall σ v,
       ranges_typed (ranges (ref_new_domain txy)) ->
       within σ (ranges (ref_new_domain txy)) ->
       subst_typed (ref_old_to_new txy) ->
       (eval σ <$> ref_old_to_new t !! v)
       = (eval (subst_env σ (ref_old_to_new txy))
            <$> ref_old_to_new (IdDomainTransformation dx) !! v)).
Proof.
  split; [exact simplify_sound|].
  exact (ComposeDomainTransformations_entries simplify simplify simplify_sound
           simplify_sound (IdDomainTransformation dx) txy).
Defined.

Lemma gcd_spec_witness :
  (- 2 ^ 31 < 12 < 2 ^ 31) /\ (- 2 ^ 31 < -18 < 2 ^ 31) /\
  Z.abs (gcd 12 (-18)) = Z.gcd 12 (-18) /\
  (0 <= 12 -> 0 <= -18 -> gcd 12 (-18) = Z.gcd 12 (-18)).
Proof.
  split; [lia|]. split; [lia|]. apply (gcd_spec 12 (-18)); lia.
Defined.


Definition e_div : Expr :=
  (Bin Div (VarNode x) (IntImm TInt 4)
   + Bin FloorMod (VarNode x + VarNode y) (IntImm TInt (-3)))%E.

(** An interval evaluation that answers [0, 8) for every expression. *)
Definition eval_set_8 (vranges : gmap Var Range) (e : Expr) : option Range :=
  Some (mkRange (IntImm TInt 0) (IntImm TInt 8)).

Lemma EliminateDivMod_substitution_witness :
  int_divmod e_div = true /\ scoped (below 3) e_div /\
  exists res,
    EliminateDivMod simplify simplify Compare eval_set_8 e_div ∅ 3 = Some res /\
    type_of (res_expr res) = type_of e_div /\
    (forall v r, res_substitution res !! v = Some r ->
       (3 <= vid v)%N /\ scoped (below 3) r /\ type_of r = vty v) /\
    forall σ,
      eval (subst_env σ (res_substitution res)) (res_expr res) = eval σ e_div /\
      eval σ (Substitute (res_expr res) (res_substitution res)) = eval σ e_div.
Proof.
  assert (scoped (below 3) e_div) as Hs.
  { apply scoped_expr_vars. simpl. repeat constructor; unfold below; simpl; lia. }
  split; [reflexivity|]. split; [exact Hs|].
  exact (EliminateDivMod_substitution simplify simplify simplify_sound simplify_sound
           Compare Compare_order eval_set_8 3 ∅ e_div eq_refl Hs).
Defined.


Definition e_quot_rem : Expr :=
  (Bin Div (VarNode x) (IntImm TInt 4)
   + Bin FloorMod (VarNode x) (IntImm TInt 4))%E.

Definition ranges_x : gmap Var Range :=
  {[ x := mkRange (IntImm TInt 0) (IntImm TInt 10) ]}.

Lemma EliminateDivMod_conditions_witness :
  int_divmod e_quot_rem = true /\ scoped (below 3) e_quot_rem /\
  evalset_sound EvalSet_divmod /\ ranges_old 3 ranges_x /\
  exists res,
    EliminateDivMod fold_constants simplify Compare EvalSet_divmod
      e_quot_rem ranges_x 3 = Some res /\
    forall σ, within σ ranges_x ->
      within (subst_env σ (res_substitution res)) (res_ranges res) /\
      (~ Exists is_floormod (res_warnings res) ->
       all_hold (subst_env σ (res_substitution res)) (res_conditions res)).
Proof.
  assert (scoped (below 3) e_quot_rem) as Hs.
  { apply scoped_expr_vars. simpl. repeat constructor; unfold below; simpl; lia. }
  assert (ranges_old 3 ranges_x) as Hr.
  { split; intros v r H; unfold ranges_x in H;
      apply lookup_singleton_Some in H as [<- <-].
    - split; apply scoped_expr_vars; constructor.
    - unfold below. simpl. lia. }
  split; [reflexivity|]. split; [exact Hs|].
  split; [exact EvalSet_divmod_sound|]. split; [exact Hr|].
  exact (EliminateDivMod_conditions fold_constants simplify fold_constants_sound
           simplify_sound Compare Compare_order EvalSet_divmod 3 ranges_x e_quot_rem
           eq_refl Hs EvalSet_divmod_sound Hr).
Defined.


Definition d_quot_rem : Domain :=
  mkDomain [x] [(e_quot_rem == VarNode y)%E] ranges_x.

Lemma EliminateDivModFromDomainConditions_old_to_new_witness :
  divmod_domain 3 d_quot_rem /\ evalset_sound EvalSet_divmod /\
  exists res t,
    EliminateDivMod fold_constants simplify Compare EvalSet_divmod
      (All (conditions d_quot_rem)) (ranges d_quot_rem) 3 = Some res /\
    EliminateDivModFromDomainConditions fold_constants simplify Compare EvalSet_divmod
      d_quot_rem 3 = Some t /\
    old_domain t = d_quot_rem /\
    variables (new_domain t) = variables d_quot_rem ++ res_new_variables res /\
    (forall v, v ∈ variables d_quot_rem ->
       old_to_new t !! v = Some (VarNode v) /\ new_to_old t !! v = Some (VarNode v)) /\
    (forall v, v ∉ variables d_quot_rem ->
       old_to_new t !! v = None /\ new_to_old t !! v = res_substitution res !! v) /\
    forall σ, satisfies σ d_quot_rem -> ~ Exists is_floormod (res_warnings res) ->
      satisfies (subst_env σ (new_to_old t)) (new_domain t).
Proof.
  assert (divmod_domain 3 d_quot_rem) as Hd.
  { split_and!.
    - repeat constructor; unfold below; simpl; lia.
    - repeat constructor. apply scoped_expr_vars. simpl.
      repeat constructor; unfold below; simpl; lia.
    - split; intros v r H; cbn [d_quot_rem ranges] in H; unfold ranges_x in H;
        apply lookup_singleton_Some in H as [<- <-].
      + split; apply scoped_expr_vars; constructor.
      + unfold below. simpl. lia. }
  split; [exact Hd|]. split; [exact EvalSet_divmod_sound|].
  exact (EliminateDivModFromDomainConditions_old_to_new fold_constants simplify
           fold_constants_sound simplify_sound Compare Compare_order EvalSet_divmod
           3 d_quot_rem Hd EvalSet_divmod_sound).
Defined.


Definition d_outer : Domain :=
  mkDomain [x]
           [(VarNode x + VarNode y == VarNode z)%E; (VarNode y <= VarNode x)%E]
           {[ x := mkRange (IntImm TInt 0) (VarNode y) ]}.

Lemma d_outer_ok :
  Forall (below 3) (variables d_outer) /\
  Forall (scoped (below 3)) (conditions d_outer) /\
  ranges_old 3 (ranges d_outer).
Proof.
  split_and!.
  - repeat constructor; unfold below; simpl; lia.
  - repeat constructor; apply scoped_expr_vars; simpl;
      repeat constructor; unfold below; simpl; lia.
  - split; intros v r H; cbn [d_outer ranges] in H;
      apply lookup_singleton_Some in H as [<- <-].
    + split; apply scoped_expr_vars; repeat constructor; unfold below; simpl; lia.
    + unfold below. simpl. lia.
Qed.

Lemma AddOuterVariablesIntoDomain_sound_witness :
  Forall (below 3) (variables d_outer) /\
  Forall (scoped (below 3)) (conditions d_outer) /\
  ranges_old 3 (ranges d_outer) /\
  let t := AddOuterVariablesIntoDomain d_outer 3 in
  old_domain t = d_outer /\
  (forall v, v ∈ variables d_outer ->
     old_to_new t !! v = Some (VarNode v) /\ new_to_old t !! v = Some (VarNode v)) /\
  (forall σ, satisfies σ d_outer ->
     satisfies (subst_env σ (new_to_old t)) (new_domain t)) /\
  (forall σ, satisfies σ (new_domain t) -> satisfies σ d_outer).
Proof.
  destruct d_outer_ok as (H1 & H2 & H3).
  split; [exact H1|]. split; [exact H2|]. split; [exact H3|].
  exact (AddOuterVariablesIntoDomain_sound 3 d_outer H1 H2 H3).
Defined.

Lemma AddOuterVariablesIntoDomain_closed_witness :
  Forall (below 3) (variables d_outer) /\
  Forall (scoped (below 3)) (conditions d_outer) /\
  ranges_old 3 (ranges d_outer) /\
  let t := AddOuterVariablesIntoDomain d_outer 3 in
  (forall v, v ∈ variables (new_domain t) <-> is_Some (new_to_old t !! v)) /\
  Forall (fun c =>
            (exists nv v, c = Bin EQ (VarNode nv) (VarNode v) /\
                          nv ∈ variables (new_domain t) /\ (v ∉ variables d_outer) /\
                          new_to_old t !! nv = Some (VarNode v)) \/
            scoped (fun u => u ∈ variables (new_domain t)) c)
         (conditions (new_domain t)).
Proof.
  destruct d_outer_ok as (H1 & H2 & H3).
  split; [exact H1|]. split; [exact H2|]. split; [exact H3|].
  exact (AddOuterVariablesIntoDomain_closed 3 d_outer H1 H2 H3).
Defined.


Definition ranges_y1 : gmap Var Range :=
  {[ y := mkRange (IntImm TInt 1) (IntImm TInt 1) ]}.

Definition e_y1 : Expr := (VarNode y + IntImm TInt 2 == IntImm TInt 3)%E.

Lemma SuperSimplify_CanProve_sound_witness :
  ranges_typed ranges_y1 /\ within σ0 ranges_y1 /\
  CanProve fold_constants fold_constants e_y1 ranges_y1 = true /\
  eval σ0 (SuperSimplify fold_constants fold_constants e_y1 ranges_y1) = eval σ0 e_y1 /\
  (CanProve fold_constants fold_constants e_y1 ranges_y1 = true -> beval σ0 e_y1 = true).
Proof.
  assert (ranges_typed ranges_y1) as Ht.
  { intros v r H. unfold ranges_y1 in H. by apply lookup_singleton_Some in H as [<- <-]. }
  assert (within σ0 ranges_y1) as Hw.
  { intros v r H. unfold ranges_y1 in H. apply lookup_singleton_Some in H as [<- <-].
    unfold in_range. vm_compute. split; [by intros ?|done]. }
  split; [exact Ht|]. split; [exact Hw|]. split; [vm_compute; reflexivity|].
  exact (SuperSimplify_CanProve_sound fold_constants fold_constants fold_constants_sound
           fold_constants_sound ranges_y1 e_y1 σ0 Ht Hw).
Defined.


Definition map_xy : gmap Var Z := {[ y := 2; x := 1 ]}.

Lemma VarMapToVectorOfPairs_spec_witness :
  compare_total_order Compare /\
  VarMapToVectorOfPairs Compare map_xy = [(y, 2); (x, 1)] /\
  (forall v n, (v, n) ∈ VarMapToVectorOfPairs Compare map_xy <-> map_xy !! v = Some n) /\
  NoDup (VarMapToVectorOfPairs Compare map_xy).*1 /\
  StronglySorted (var_pair_less Compare) (VarMapToVectorOfPairs Compare map_xy) /\
  forall l, l ≡ₚ map_to_list map_xy -> Sorted (var_pair_less Compare) l ->
            l = VarMapToVectorOfPairs Compare map_xy.
Proof.
  split; [exact Compare_order|]. split; [vm_compute; reflexivity|].
  exact (VarMapToVectorOfPairs_spec Compare Compare_order map_xy).
Defined.

(** Examples for the functor on all scalar node kinds. *)
Import Full.

Definition fid (e : FExpr) : FExpr := e.

Lemma fid_sound : fsimplifier_sound fid.
Proof. by intros e σ. Qed.
Lemma fid_integral : fsimplifier_integral fid.
Proof. by intros e H. Qed.

Definition xf : FVar := mkFVar 0 TFloat.
Definition e_mul_zero : FExpr :=
  FBin Mul (FVarNode xf) (FFloatImm TFloat (SpecFloat.S754_zero false)).
Definition σ_inf : FEnv :=
  mkFEnv (fun _ => VFloat (SpecFloat.S754_infinity false)) (fun _ _ => VInt 0)
         (fun _ _ _ => VInt 0) (fun _ a _ => a).

Definition xi : FVar := mkFVar 0 (Scalar TInt).
Definition yi : FVar := mkFVar 1 (Scalar TInt).
Definition e_int : FExpr :=
  FBin Add (FBin Mul (FVarNode xi) (FIntImm (Scalar TInt) 0)) (FVarNode yi).


Lemma FLiftNonzeronessCondition_float_counterexample :
  fsimplifier_sound fid /\ fsimplifier_integral fid /\ fwt e_mul_zero = true /\
  (exists l, FLiftNonzeronessCondition fid fid e_mul_zero = Some l /\
             feval σ_inf l = VFloat (SpecFloat.S754_zero false) /\
             feval σ_inf e_mul_zero = VFloat SpecFloat.S754_nan /\
             feval σ_inf l <> feval σ_inf e_mul_zero) /\
  FLiftNonzeronessCondition fid fid
    (FOther Load (Scalar TInt) [FVarNode xi; FIntImm (Scalar TInt) 0]) = None.
Proof.
  split; [exact fid_sound|]. split; [exact fid_integral|]. split; [reflexivity|].
  split; [|reflexivity].
  eexists. split; [reflexivity|]. split; [vm_compute; reflexivity|].
  split; [vm_compute; reflexivity|]. vm_compute. discriminate.
Qed.

Lemma FLiftNonzeronessCondition_sound_witness :
  fsimplifier_sound fid /\ fsimplifier_integral fid /\
  integral e_int = true /\ fwt e_int = true /\
  (exists r,
     FNonzeronessCondition fid fid e_int = Some r /\
     FLiftNonzeronessCondition fid fid e_int
     = Some (FSelectElseZero (fcond r) (fvalue r)) /\
     forall σ, feval σ (FSelectElseZero (fcond r) (fvalue r)) = feval σ e_int) /\
  forall k t args,
    f_is_bool t = false -> FNonzeronessCondition fid fid (FOther k t args) = None.
Proof.
  split; [exact fid_sound|]. split; [exact fid_integral|].
  split; [reflexivity|]. split; [reflexivity|].
  exact (FLiftNonzeronessCondition_sound fid fid fid_sound fid_sound fid_integral
           fid_integral e_int eq_refl eq_refl).
Defined.


End Examples.
